(** * Monthly-Salary-Calculator: the LoanCalculator of MonthlyPayCalc.py

    A shallow embedding of [src/MonthlyPayCalc.py] and of the part of
    Python's [decimal] module the class runs on, followed by the
    properties of the three methods.

    The program computes in the thread's decimal context, which line 6 of
    the source sets to ten significant digits:

      prec = 10, rounding = ROUND_HALF_EVEN, Emin = -999999, Emax = 999999,
      clamp = 0, traps = InvalidOperation, DivisionByZero, Overflow.

    A [Decimal] is a sign, a coefficient and an exponent, or an infinity.
    NaNs are left out: with InvalidOperation trapped no operation used here
    produces one from arguments that are not NaN themselves.  A NaN given
    to the constructor passes through the operations quietly, so what is
    stated below of every instance is stated of instances whose attributes
    are numbers. *)

From Stdlib Require Import ZArith QArith Qpower Qround Qabs List Bool Lia Lqa.
Import ListNotations.
Open Scope Z_scope.

(** ** Outcomes: a value, or a trapped signal raised as an exception *)

Inductive Signal : Type :=
| InvalidOperation
| DivisionByZero
| Overflow.

Inductive outcome (A : Type) : Type :=
| Ret (a : A)
| Raise (s : Signal).

Arguments Ret {A} a.
Arguments Raise {A} s.

Definition obind {A B : Type} (o : outcome A) (f : A -> outcome B) : outcome B :=
  match o with
  | Ret a => f a
  | Raise s => Raise s
  end.

(** ** The decimal context and the Decimal type *)

Module Dec.

Definition prec : Z := 10.
Definition Emax : Z := 999999.
Definition Emin : Z := -999999.
Definition Etiny : Z := Emin - prec + 1.
Definition Etop : Z := Emax - prec + 1.

(** [Fin s c e] is (-1)^s * c * 10^e, with [_sign = s], [_int = str c] and
    [_exp = e]; [Inf s] is a signed infinity. *)
Inductive Decimal : Type :=
| Fin (sign : bool) (coeff : Z) (exp : Z)
| Inf (sign : bool).

Inductive Rounding : Type :=
| ROUND_HALF_UP
| ROUND_HALF_EVEN.

(** [Decimal(str(n))] for a Python int [n]. *)
Definition of_int (n : Z) : Decimal := Fin (n <? 0) (Z.abs n) 0.

(** [len(str(c))] for a coefficient [c >= 0]: the number of decimal digits,
    1 for 0. *)
Fixpoint ndigits_fuel (fuel : nat) (c : Z) : Z :=
  match fuel with
  | O => 1
  | S f => if c <? 10 then 1 else 1 + ndigits_fuel f (c / 10)
  end.

Definition ndigits (c : Z) : Z := ndigits_fuel (Z.to_nat (Z.log2 c)) c.

(** [__bool__]: nonzero, infinities included. *)
Definition nonzero (d : Decimal) : bool :=
  match d with
  | Fin _ c _ => negb (c =? 0)
  | Inf _ => true
  end.

Definition copy_negate (d : Decimal) : Decimal :=
  match d with
  | Fin s c e => Fin (negb s) c e
  | Inf s => Inf (negb s)
  end.

(** [adjusted]: exponent of the most significant digit. *)
Definition adjusted (c e : Z) : Z := e + ndigits c - 1.

(** The rounding functions look at the digits a rounding drops.  In the
    library they take the coefficient string and the number of digits
    kept; here [k] is the number of trailing digits dropped, so
    [_int[:digits]] is [c / 10^k], [_all_zeros] is [c mod 10^k = 0],
    [_exact_half] is [c mod 10^k = 5 * 10^(k-1)] and the first dropped
    digit is one of 5..9 when [5 * 10^(k-1) <= c mod 10^k].  The result is
    1 (round away from zero), 0 (exact) or -1 (truncate, inexact). *)
Definition round_half_up (c k : Z) : Z :=
  if 5 * 10 ^ (k - 1) <=? c mod 10 ^ k then 1
  else if c mod 10 ^ k =? 0 then 0
  else -1.

Definition round_half_even (c k : Z) : Z :=
  if (c mod 10 ^ k =? 5 * 10 ^ (k - 1)) && Z.even (c / 10 ^ k) then -1
  else round_half_up c k.

Definition pick_rounding_function (r : Rounding) : Z -> Z -> Z :=
  match r with
  | ROUND_HALF_UP => round_half_up
  | ROUND_HALF_EVEN => round_half_even
  end.

(** [_fix]: round a finite result to the context (precision 10,
    ROUND_HALF_EVEN, clamp 0).  Overflow is trapped. *)
Definition _fix (s : bool) (c e : Z) : outcome Decimal :=
  if c =? 0 then
    Ret (Fin s 0 (Z.min (Z.max e Etiny) Emax))
  else
    let exp_min0 := ndigits c + e - prec in
    if Etop <? exp_min0 then Raise Overflow
    else
      let exp_min := Z.max exp_min0 Etiny in
      if e <? exp_min then
        let digits0 := ndigits c + e - exp_min in
        let c1 := if digits0 <? 0 then 1 else c in
        let digits := if digits0 <? 0 then 0 else digits0 in
        let k := ndigits c1 - digits in
        let changed := round_half_even c1 k in
        let coeff := c1 / 10 ^ k in
        let coeff1 := if 0 <? changed then coeff + 1 else coeff in
        let carry := (0 <? changed) && (prec <? ndigits coeff1) in
        let coeff2 := if carry then coeff1 / 10 else coeff1 in
        let exp_min' := if carry then exp_min + 1 else exp_min in
        if Etop <? exp_min' then Raise Overflow
        else Ret (Fin s coeff2 exp_min')
      else Ret (Fin s c e).

(** [_rescale]: quiet change of exponent with the given rounding. *)
Definition _rescale (rounding : Rounding) (s : bool) (c e : Z) (exp : Z) : Decimal :=
  if c =? 0 then Fin s 0 exp
  else if exp <=? e then Fin s (c * 10 ^ (e - exp)) exp
  else
    let digits0 := ndigits c + e - exp in
    let c1 := if digits0 <? 0 then 1 else c in
    let digits := if digits0 <? 0 then 0 else digits0 in
    let k := ndigits c1 - digits in
    let changed := pick_rounding_function rounding c1 k in
    let coeff := c1 / 10 ^ k in
    Fin s (if changed =? 1 then coeff + 1 else coeff) exp.

Definition fix_dec (d : Decimal) : outcome Decimal :=
  match d with
  | Fin s c e => _fix s c e
  | Inf s => Ret (Inf s)
  end.

(** [_normalize] of the addition: align the two operands, replacing an
    operand too small to matter by a sticky 10^exp. *)
Definition _normalize (c1 e1 c2 e2 : Z) : (Z * Z) * (Z * Z) :=
  if e1 <? e2 then
    (* tmp = op2, other = op1 *)
    let exp := e2 + Z.min (-1) (ndigits c2 - prec - 2) in
    let c1' := if ndigits c1 + e1 - 1 <? exp then 1 else c1 in
    let e1' := if ndigits c1 + e1 - 1 <? exp then exp else e1 in
    ((c1', e1'), (c2 * 10 ^ (e2 - e1'), e1'))
  else
    let exp := e1 + Z.min (-1) (ndigits c1 - prec - 2) in
    let c2' := if ndigits c2 + e2 - 1 <? exp then 1 else c2 in
    let e2' := if ndigits c2 + e2 - 1 <? exp then exp else e2 in
    ((c1 * 10 ^ (e1 - e2'), e2'), (c2', e2')).

(** [__add__] *)
Definition add (a b : Decimal) : outcome Decimal :=
  match a, b with
  | Inf s1, Inf s2 => if Bool.eqb s1 s2 then Ret (Inf s1) else Raise InvalidOperation
  | Inf s1, Fin _ _ _ => Ret (Inf s1)
  | Fin _ _ _, Inf s2 => Ret (Inf s2)
  | Fin s1 c1 e1, Fin s2 c2 e2 =>
    let exp := Z.min e1 e2 in
    if (c1 =? 0) && (c2 =? 0) then
      _fix (s1 && s2) 0 exp
    else if c1 =? 0 then
      fix_dec (_rescale ROUND_HALF_EVEN s2 c2 e2 (Z.max exp (e2 - prec - 1)))
    else if c2 =? 0 then
      fix_dec (_rescale ROUND_HALF_EVEN s1 c1 e1 (Z.max exp (e1 - prec - 1)))
    else
      let '((i1, x1), (i2, _)) := _normalize c1 e1 c2 e2 in
      if Bool.eqb s1 s2 then
        _fix s1 (i1 + i2) x1
      else if i1 =? i2 then
        _fix false 0 exp
      else if i1 <? i2 then
        _fix s2 (i2 - i1) x1
      else
        _fix s1 (i1 - i2) x1
  end.

(** [__sub__]: [self + other.copy_negate()]. *)
Definition sub (a b : Decimal) : outcome Decimal := add a (copy_negate b).

(** [__mul__] *)
Definition mul (a b : Decimal) : outcome Decimal :=
  match a, b with
  | Inf s1, _ =>
    if nonzero b then
      Ret (Inf (xorb s1 (match b with Fin s _ _ => s | Inf s => s end)))
    else Raise InvalidOperation
  | Fin s1 c1 _, Inf s2 =>
    if c1 =? 0 then Raise InvalidOperation else Ret (Inf (xorb s1 s2))
  | Fin s1 c1 e1, Fin s2 c2 e2 => _fix (xorb s1 s2) (c1 * c2) (e1 + e2)
  end.

(** The loop of [__truediv__] that strips trailing zeros of an exact
    quotient while the exponent is below the ideal one. *)
Fixpoint strip_zeros (fuel : nat) (coeff exp ideal_exp : Z) : Z * Z :=
  match fuel with
  | O => (coeff, exp)
  | S f =>
    if (exp <? ideal_exp) && (coeff mod 10 =? 0)
    then strip_zeros f (coeff / 10) (exp + 1) ideal_exp
    else (coeff, exp)
  end.

(** The quotient of two nonzero finite operands, before [_fix]: at least
    prec + 1 digits of quotient, the last one made sticky when the
    division is inexact. *)
Definition div_coeff (c1 e1 c2 e2 : Z) : Z * Z :=
  let shift := ndigits c2 - ndigits c1 + prec + 1 in
  let exp := e1 - e2 - shift in
  let n := if 0 <=? shift then c1 * 10 ^ shift else c1 in
  let d := if 0 <=? shift then c2 else c2 * 10 ^ (- shift) in
  let coeff := n / d in
  let remainder := n mod d in
  if remainder =? 0 then
    strip_zeros (Z.to_nat (e1 - e2 - exp)) coeff exp (e1 - e2)
  else
    (if coeff mod 5 =? 0 then coeff + 1 else coeff, exp).

(** [__truediv__] *)
Definition div (a b : Decimal) : outcome Decimal :=
  match a, b with
  | Inf _, Inf _ => Raise InvalidOperation
  | Inf s1, Fin s2 _ _ => Ret (Inf (xorb s1 s2))
  | Fin s1 _ _, Inf s2 => Ret (Fin (xorb s1 s2) 0 Etiny)
  | Fin s1 c1 e1, Fin s2 c2 e2 =>
    let sign := xorb s1 s2 in
    if c2 =? 0 then
      if c1 =? 0 then Raise InvalidOperation   (* DivisionUndefined *)
      else Raise DivisionByZero
    else if c1 =? 0 then
      _fix sign 0 (e1 - e2)
    else
      let '(coeff, exp) := div_coeff c1 e1 c2 e2 in
      _fix sign coeff exp
  end.

(** [_cmp] on two Decimals, as -1, 0 or 1. *)
Definition _cmp (a b : Decimal) : Z :=
  match a, b with
  | Inf s1, Inf s2 =>
    if Bool.eqb s1 s2 then 0 else if s1 then -1 else 1
  | Inf s1, Fin _ _ _ => if s1 then -1 else 1
  | Fin _ _ _, Inf s2 => if s2 then 1 else -1
  | Fin s1 c1 e1, Fin s2 c2 e2 =>
    if c1 =? 0 then
      if c2 =? 0 then 0 else if s2 then 1 else -1
    else if c2 =? 0 then
      if s1 then -1 else 1
    else if s1 && negb s2 then -1
    else if negb s1 && s2 then 1
    else
      let sg := if s1 then -1 else 1 in
      let a1 := adjusted c1 e1 in
      let a2 := adjusted c2 e2 in
      if a1 =? a2 then
        let p1 := c1 * 10 ^ (Z.max 0 (e1 - e2)) in
        let p2 := c2 * 10 ^ (Z.max 0 (e2 - e1)) in
        if p1 =? p2 then 0 else if p1 <? p2 then - sg else sg
      else if a2 <? a1 then sg
      else - sg
  end.

(** [__eq__] *)
Definition eqb (a b : Decimal) : bool := _cmp a b =? 0.

(** The integer power of the [decimal] module the program imports, the C
    implementation (libmpdec, [_mpd_qpow_int]).  It works in a context
    of the same exponent range and rounding whose precision is
    [prec + digits(n) + 2], one more for a negative exponent. *)
Definition Etiny_in (p : Z) : Z := Emin - p + 1.
Definition Etop_in (p : Z) : Z := Emax - p + 1.

(** Rounding of a magnitude [c * 10^e] to [p] digits: [_fix] in a context
    of precision [p].  An overflow, which the work context records and the
    end of the operation traps, is raised at once. *)
Definition fix_in (p : Z) (c e : Z) : outcome (Z * Z) :=
  if c =? 0 then
    Ret (0, Z.min (Z.max e (Etiny_in p)) Emax)
  else
    let exp_min0 := ndigits c + e - p in
    if Etop_in p <? exp_min0 then Raise Overflow
    else
      let exp_min := Z.max exp_min0 (Etiny_in p) in
      if e <? exp_min then
        let digits0 := ndigits c + e - exp_min in
        let c1 := if digits0 <? 0 then 1 else c in
        let digits := if digits0 <? 0 then 0 else digits0 in
        let k := ndigits c1 - digits in
        let changed := round_half_even c1 k in
        let coeff := c1 / 10 ^ k in
        let coeff1 := if 0 <? changed then coeff + 1 else coeff in
        let carry := (0 <? changed) && (p <? ndigits coeff1) in
        let coeff2 := if carry then coeff1 / 10 else coeff1 in
        let exp_min' := if carry then exp_min + 1 else exp_min in
        if Etop_in p <? exp_min' then Raise Overflow
        else Ret (coeff2, exp_min')
      else Ret (c, e).

(** The product of two magnitudes in the work context. *)
Definition mul_in (p : Z) (a b : Z * Z) : outcome (Z * Z) :=
  fix_in p (fst a * fst b) (snd a + snd b).

(** The quotient of two nonzero magnitudes in the work context. *)
Definition div_coeff_in (p : Z) (c1 e1 c2 e2 : Z) : Z * Z :=
  let shift := ndigits c2 - ndigits c1 + p + 1 in
  let exp := e1 - e2 - shift in
  let n := if 0 <=? shift then c1 * 10 ^ shift else c1 in
  let d := if 0 <=? shift then c2 else c2 * 10 ^ (- shift) in
  let coeff := n / d in
  let remainder := n mod d in
  if remainder =? 0 then
    strip_zeros (Z.to_nat (e1 - e2 - exp)) coeff exp (e1 - e2)
  else
    (if coeff mod 5 =? 0 then coeff + 1 else coeff, exp).

Definition div_in (p : Z) (c1 e1 c2 e2 : Z) : outcome (Z * Z) :=
  let '(coeff, exp) := div_coeff_in p c1 e1 c2 e2 in fix_in p coeff exp.

(** [_mpd_qpow_uint]: the bits of the exponent from the second highest
    down, a squaring for each and a multiplication by the base for each
    bit set, every product rounded to the work context. *)
Fixpoint pow_uint (p : Z) (base : Z * Z) (n : positive) : outcome (Z * Z) :=
  match n with
  | xH => Ret base
  | xO q => obind (pow_uint p base q) (fun r => mul_in p r r)
  | xI q =>
    obind (pow_uint p base q) (fun r =>
    obind (mul_in p r r) (fun r2 => mul_in p r2 base))
  end.

(** [__pow__] with an integral exponent [Decimal(str(n))]: the special
    cases of [mpd_qpow], then the power of the magnitude in the work
    context (of the reciprocal for a negative exponent), rounded to the
    context at the end.  The result is not always the exact power rounded
    once. *)
Definition pow (a : Decimal) (n : Z) : outcome Decimal :=
  if n =? 0 then
    if nonzero a then Ret (Fin false 1 0) else Raise InvalidOperation
  else
    let result_sign :=
      match a with Fin s _ _ | Inf s => s && Z.odd n end in
    match a with
    | Inf _ =>
      if 0 <? n then Ret (Inf result_sign) else Ret (Fin result_sign 0 0)
    | Fin _ c e =>
      if c =? 0 then
        if 0 <? n then Ret (Fin result_sign 0 0) else Ret (Inf result_sign)
      else
        let work := prec + ndigits (Z.abs n) + 2 + (if n <? 0 then 1 else 0) in
        obind (if n <? 0 then div_in work 1 0 c e else Ret (c, e)) (fun tbase =>
        obind (pow_uint work tbase (Z.to_pos (Z.abs n))) (fun r =>
        _fix result_sign (fst r) (snd r)))
    end.

(** [quantize(exp, rounding)] *)
Definition quantize (rounding : Rounding) (a exp : Decimal) : outcome Decimal :=
  match a, exp with
  | Inf s, Inf _ => Ret (Inf s)
  | Inf _, Fin _ _ _ => Raise InvalidOperation
  | Fin _ _ _, Inf _ => Raise InvalidOperation
  | Fin s c e, Fin _ _ exp_e =>
    if negb ((Etiny <=? exp_e) && (exp_e <=? Emax)) then Raise InvalidOperation
    else if c =? 0 then _fix s 0 exp_e
    else
      let self_adjusted := adjusted c e in
      if Emax <? self_adjusted then Raise InvalidOperation
      else if prec <? self_adjusted - exp_e + 1 then Raise InvalidOperation
      else
        match _rescale rounding s c e exp_e with
        | Fin s' c' e' =>
          if Emax <? adjusted c' e' then Raise InvalidOperation
          else if prec <? ndigits c' then Raise InvalidOperation
          else _fix s' c' e'
        | Inf s' => Ret (Inf s')
        end
  end.

End Dec.

Import Dec.

(** ** The LoanCalculator class *)

Record LoanCalculator : Type := mkLoanCalculator {
  principal : Decimal;
  annual_rate : Decimal;
  years : Z;
  monthly_rate : Decimal;
  total_payments : Z
}.

(** One entry of the schedule: the dict built at lines 71-78. *)
Record PaymentRecord : Type := mkPaymentRecord {
  payment : Z;
  monthly_payment : Decimal;
  interest : Decimal;
  principal_paid : Decimal;
  balance : Decimal
}.

(** Lines 24-27 of [__init__], on the converted arguments: the monthly
    rate and the number of payments.  The instance exists only when the
    division does not raise. *)
Definition init (principal annual_rate : Decimal) (years : Z)
  : outcome LoanCalculator :=
  obind (div annual_rate (Fin false 12 0)) (fun monthly_rate =>
  Ret (mkLoanCalculator principal annual_rate years monthly_rate (years * 12))).

(** Lines 20-22 convert the arguments first, in this order:
    [Decimal(str(principal))], [Decimal(str(annual_rate))], [int(years)].
    A conversion is Python's own: it gives a number, or it raises
    (InvalidOperation for a string that is no number, ValueError or
    TypeError from [int]).  What a conversion gives is the argument here. *)
Inductive Argument : Type :=
| Principal
| AnnualRate
| Years.

Inductive Converted (A : Type) : Type :=
| Converts (a : A)
| Fails.

Arguments Converts {A} a.
Arguments Fails {A}.

(** What a call of the constructor raises. *)
Inductive Failure : Type :=
| ConversionError (a : Argument)
| DecimalSignal (s : Signal).

(** [LoanCalculator(principal, annual_rate, years)], lines 11-27: the
    first conversion that fails ends the call, then the division may
    raise; otherwise the caller gets the instance. *)
Definition __init__ (principal annual_rate : Converted Decimal)
    (years : Converted Z) : Failure + LoanCalculator :=
  match principal with
  | Fails => inl (ConversionError Principal)
  | Converts p =>
    match annual_rate with
    | Fails => inl (ConversionError AnnualRate)
    | Converts r =>
      match years with
      | Fails => inl (ConversionError Years)
      | Converts y =>
        match init p r y with
        | Ret self => inr self
        | Raise s => inl (DecimalSignal s)
        end
      end
    end
  end.

(** Methods run on [self]: they read its attributes, may raise, and hand
    back the object as they leave it. *)
Definition M (A : Type) : Type := LoanCalculator -> outcome A * LoanCalculator.

Definition ret {A : Type} (a : A) : M A := fun self => (Ret a, self).

Definition bind {A B : Type} (m : M A) (f : A -> M B) : M B :=
  fun self =>
    match m self with
    | (Ret a, self') => f a self'
    | (Raise s, self') => (Raise s, self')
    end.

Definition attr {A : Type} (field : LoanCalculator -> A) : M A :=
  fun self => (Ret (field self), self).

Definition lift {A : Type} (o : outcome A) : M A := fun self => (o, self).

Notation "x <- m ;; k" := (bind m (fun x => k))
  (at level 61, m at next level, right associativity).

Definition cent : Decimal := Fin false 1 (-2).

(** Lines 29-48. *)
Definition calculate_monthly_payment : M Decimal :=
  rate <- attr annual_rate ;;
  if eqb rate (of_int 0) then
    p <- attr principal ;;
    n <- attr total_payments ;;
    lift (div p (of_int n))
  else
    r <- attr monthly_rate ;;
    n <- attr total_payments ;;
    base <- lift (add (Fin false 1 0) r) ;;
    factor <- lift (pow base n) ;;
    p <- attr principal ;;
    rf <- lift (mul r factor) ;;
    numerator <- lift (mul p rf) ;;
    denominator <- lift (sub factor (Fin false 1 0)) ;;
    monthly_payment <- lift (div numerator denominator) ;;
    lift (quantize ROUND_HALF_UP monthly_payment cent).

(** [range(lo, hi)] *)
Definition range (lo hi : Z) : list Z :=
  map (fun i => lo + Z.of_nat i) (seq 0 (Z.to_nat (hi - lo))).

(** The body of the loop at lines 59-78, on the loop variables [balance]
    and [schedule]. *)
Definition schedule_step (monthly_payment : Decimal)
    (st : Decimal * list PaymentRecord) (payment_num : Z)
  : M (Decimal * list PaymentRecord) :=
  r <- attr monthly_rate ;;
  product <- lift (mul (fst st) r) ;;
  interest_payment <- lift (quantize ROUND_HALF_UP product cent) ;;
  principal_payment <- lift (sub monthly_payment interest_payment) ;;
  balance <- lift (sub (fst st) principal_payment) ;;
  shown <- lift (quantize ROUND_HALF_UP balance cent) ;;
  ret (balance,
       snd st ++ [mkPaymentRecord payment_num monthly_payment
                    interest_payment principal_payment shown]).

Fixpoint for_each {S : Type} (body : S -> Z -> M S) (st : S) (xs : list Z) : M S :=
  match xs with
  | [] => ret st
  | x :: xs' => st' <- body st x ;; for_each body st' xs'
  end.

(** Lines 50-80. *)
Definition generate_amortization_schedule : M (list PaymentRecord) :=
  monthly_payment <- calculate_monthly_payment ;;
  p <- attr principal ;;
  n <- attr total_payments ;;
  st <- for_each (schedule_step monthly_payment) (p, [])
         (range 1 (Z.min 13 (n + 1))) ;;
  ret (snd st).

(** Lines 82-91: the last [quantize] names no rounding and takes the
    context's, ROUND_HALF_EVEN. *)
Definition total_interest_paid : M Decimal :=
  monthly_payment <- calculate_monthly_payment ;;
  n <- attr total_payments ;;
  total_paid <- lift (mul monthly_payment (of_int n)) ;;
  p <- attr principal ;;
  difference <- lift (sub total_paid p) ;;
  lift (quantize ROUND_HALF_EVEN difference cent).

(** The value a method call returns, or the exception it raises. *)
Definition result {A : Type} (m : M A) (self : LoanCalculator) : outcome A :=
  fst (m self).

(** Rounding to nearest, ties to even, of [c / 10^k]. *)
Definition rhe (c k : Z) : Z :=
  c / 10 ^ k + (if 0 <? round_half_even c k then 1 else 0).

Definition rhu (c k : Z) : Z :=
  c / 10 ^ k + (if round_half_up c k =? 1 then 1 else 0).

(** Magnitude [c * 10^e] as a rational. *)
Definition mag (c e : Z) : Q := (inject_Z c * 10 ^ e)%Q.

(** What the context can hold: at most [prec] digits, exponent and
    adjusted exponent in range. *)
Definition representable (c e : Z) : Prop :=
  0 <= c < 10 ^ prec /\ Etiny <= e /\ e + ndigits c - 1 <= Emax.

(** The signed value of a finite Decimal. *)
Definition value (d : Decimal) : Q :=
  match d with
  | Fin s c e => if s then (- mag c e)%Q else mag c e
  | Inf _ => 0%Q
  end.

Definition is_finite (d : Decimal) : Prop :=
  match d with
  | Fin _ c _ => 0 <= c
  | Inf _ => False
  end.

(** ** What the methods compute, as functions of the attributes *)

Definition one : Decimal := Fin false 1 0.

Definition payment_of (lc : LoanCalculator) : outcome Decimal :=
  if eqb (annual_rate lc) (of_int 0) then
    div (principal lc) (of_int (total_payments lc))
  else
    obind (add one (monthly_rate lc)) (fun base =>
    obind (pow base (total_payments lc)) (fun factor =>
    obind (mul (monthly_rate lc) factor) (fun rf =>
    obind (mul (principal lc) rf) (fun numerator =>
    obind (sub factor one) (fun denominator =>
    obind (div numerator denominator) (fun m =>
    quantize ROUND_HALF_UP m cent)))))).

Definition step_of (lc : LoanCalculator) (P : Decimal)
    (st : Decimal * list PaymentRecord) (payment_num : Z)
  : outcome (Decimal * list PaymentRecord) :=
  obind (mul (fst st) (monthly_rate lc)) (fun product =>
  obind (quantize ROUND_HALF_UP product cent) (fun interest_payment =>
  obind (sub P interest_payment) (fun principal_payment =>
  obind (sub (fst st) principal_payment) (fun balance =>
  obind (quantize ROUND_HALF_UP balance cent) (fun shown =>
  Ret (balance,
       snd st ++ [mkPaymentRecord payment_num P interest_payment
                    principal_payment shown])))))).

Fixpoint ofold {S : Type} (f : S -> Z -> outcome S) (st : S) (xs : list Z)
  : outcome S :=
  match xs with
  | [] => Ret st
  | x :: xs' => obind (f st x) (fun st' => ofold f st' xs')
  end.

Definition periods (lc : LoanCalculator) : list Z :=
  range 1 (Z.min 13 (total_payments lc + 1)).

Definition schedule_of (lc : LoanCalculator) : outcome (list PaymentRecord) :=
  obind (payment_of lc) (fun P =>
  obind (ofold (step_of lc P) (principal lc, []) (periods lc)) (fun st =>
  Ret (snd st))).

Definition total_interest_of (lc : LoanCalculator) : outcome Decimal :=
  obind (payment_of lc) (fun P =>
  obind (mul P (of_int (total_payments lc))) (fun total_paid =>
  obind (sub total_paid (principal lc)) (fun difference =>
  quantize ROUND_HALF_EVEN difference cent))).

(** A method that only reads [self]. *)
Definition reads_only {A : Type} (m : M A) (f : LoanCalculator -> outcome A) : Prop :=
  forall self, m self = (f self, self).

(** ** Calls from outside *)

Inductive Method : Type :=
| CalculateMonthlyPayment
| GenerateAmortizationSchedule
| TotalInterestPaid.

Inductive Returned : Type :=
| Amount (d : Decimal)
| Schedule (rows : list PaymentRecord).

Definition omap {A B : Type} (f : A -> B) (o : outcome A) : outcome B :=
  match o with
  | Ret a => Ret (f a)
  | Raise s => Raise s
  end.

(** One call [self.method()]: what the caller gets and the object after
    the call.  An exception leaves the object as the method left it. *)
Definition call (m : Method) (self : LoanCalculator)
  : outcome Returned * LoanCalculator :=
  match m with
  | CalculateMonthlyPayment =>
    let '(o, self') := calculate_monthly_payment self in (omap Amount o, self')
  | GenerateAmortizationSchedule =>
    let '(o, self') := generate_amortization_schedule self in (omap Schedule o, self')
  | TotalInterestPaid =>
    let '(o, self') := total_interest_paid self in (omap Amount o, self')
  end.

(** A caller making the calls [ms] in turn, catching what they raise. *)
Fixpoint calls (ms : list Method) (self : LoanCalculator)
  : list (outcome Returned) * LoanCalculator :=
  match ms with
  | [] => ([], self)
  | m :: ms' =>
    let '(o, self') := call m self in
    let '(os, self'') := calls ms' self' in
    (o :: os, self'')
  end.

(** ** The words of the specification *)

(** Round-half-up to two decimal places, in cents: halves go away from
    zero, so the magnitude [x] rounds to the floor of [100 x + 1/2]. *)
Definition round2_cents (x : Q) : Z := Qfloor (Qabs x * 100 + (1 # 2)).

(** [round2] of a finite Decimal. *)
Definition round2 (d : Decimal) : Decimal :=
  match d with
  | Fin s c e => Fin s (round2_cents (mag c e)) (-2)
  | Inf s => Inf s
  end.

(** Loan terms the specification calls valid: principal > 0,
    annualRate >= 0, termYears >= 1. *)
Definition valid_terms (principal annual_rate : Decimal) (years : Z) : Prop :=
  (exists cp ep, principal = Fin false cp ep /\ 0 < cp) /\
  (exists sr cr er, annual_rate = Fin sr cr er /\ 0 <= cr /\ (sr = true -> cr = 0)) /\
  1 <= years.

(** The running balance after [k] periods, never rounded to cents:
    the principal, then each balance minus the principal portion of
    the period. *)
Fixpoint running_balance (lc : LoanCalculator) (P : Decimal) (k : nat)
  : outcome Decimal :=
  match k with
  | O => Ret (principal lc)
  | S k' =>
    obind (running_balance lc P k') (fun B =>
    obind (mul B (monthly_rate lc)) (fun product =>
    obind (quantize ROUND_HALF_UP product cent) (fun interest_payment =>
    obind (sub P interest_payment) (fun principal_payment =>
    sub B principal_payment))))
  end.

(** The record of period [k + 1] as the recurrence gives it: interest
    from the running balance after [k] periods, shown balance from the
    running balance after [k + 1]. *)
Definition record_at (lc : LoanCalculator) (P : Decimal) (k : nat)
    (rec : PaymentRecord) : Prop :=
  exists B product B',
    running_balance lc P k = Ret B /\
    mul B (monthly_rate lc) = Ret product /\
    quantize ROUND_HALF_UP product cent = Ret (interest rec) /\
    sub P (interest rec) = Ret (principal_paid rec) /\
    sub B (principal_paid rec) = Ret B' /\
    running_balance lc P (S k) = Ret B' /\
    quantize ROUND_HALF_UP B' cent = Ret (balance rec) /\
    monthly_payment rec = P /\
    payment rec = Z.of_nat k + 1.

(** A non-negative Decimal [c * 10^e], as [Decimal(str)] parses it. *)
Definition dec (c e : Z) : Decimal := Fin false c e.

(** The loans used as examples below. *)
Definition scenario_1 : LoanCalculator :=
  mkLoanCalculator (dec 250000 0) (dec 45 (-3)) 30 (dec 375 (-5)) 360.

(** 386.82 at 100% a year over 30 years. *)
Definition high_rate_loan : LoanCalculator :=
  mkLoanCalculator (dec 38682 (-2)) (dec 1 0) 30 (dec 8333333333 (-11)) 360.

(** 50000 without interest over 10 years. *)
Definition interest_free_loan : LoanCalculator :=
  mkLoanCalculator (dec 50000 0) (dec 0 0) 10 (dec 0 0) 120.

(** 1000.015 at 5% over one year. *)
Definition one_year_loan : LoanCalculator :=
  mkLoanCalculator (dec 1000015 (-3)) (dec 5 (-2)) 1 (dec 4166666667 (-12)) 12.

(** The schedule of that loan: every payment is 85.61. *)
Definition one_year_record (k interest principal_paid : Z) (balance : Decimal)
  : PaymentRecord :=
  mkPaymentRecord k (dec 8561 (-2)) (dec interest (-2))
    (dec principal_paid (-2)) balance.

Definition one_year_schedule : list PaymentRecord :=
  [ one_year_record 1 417 8144 (dec 91858 (-2));
    one_year_record 2 383 8178 (dec 83680 (-2));
    one_year_record 3 349 8212 (dec 75468 (-2));
    one_year_record 4 314 8247 (dec 67221 (-2));
    one_year_record 5 280 8281 (dec 58940 (-2));
    one_year_record 6 246 8315 (dec 50625 (-2));
    one_year_record 7 211 8350 (dec 42275 (-2));
    one_year_record 8 176 8385 (dec 33890 (-2));
    one_year_record 9 141 8420 (dec 25470 (-2));
    one_year_record 10 106 8455 (dec 17015 (-2));
    one_year_record 11 71 8490 (dec 8525 (-2));
    one_year_record 12 36 8525 (Fin true 1 (-2)) ].

(** Coefficients are strings of digits: never negative. *)
Definition well_formed (d : Decimal) : Prop :=
  match d with
  | Fin _ c _ => 0 <= c
  | Inf _ => True
  end.

Definition well_formed_loan (lc : LoanCalculator) : Prop :=
  well_formed (principal lc) /\ well_formed (annual_rate lc) /\
  well_formed (monthly_rate lc).

(** An instance whose principal and rates are finite numbers: neither
    an infinity nor, outside this model, a NaN. *)
Definition finite_loan (lc : LoanCalculator) : Prop :=
  is_finite (principal lc) /\ is_finite (annual_rate lc) /\
  is_finite (monthly_rate lc).

(** The coefficient of a magnitude [c * 10^e] brought to exponent -2
    with the given rounding. *)
Definition cents_of (rounding : Rounding) (c e : Z) : Z :=
  if -2 <=? e then c * 10 ^ (e + 2)
  else match rounding with
       | ROUND_HALF_UP => rhu c (-2 - e)
       | ROUND_HALF_EVEN => rhe c (-2 - e)
       end.

(** What the addition sees of an operand [(s, c, e)] next to the other
    operand [tc * 10^te]: its value, or, when it is too small to reach the
    digits kept, a sticky unit [10^X] of the same sign, larger than the
    operand and at most a tenth of the other one. *)
Definition seen_as (s : bool) (c e tc te : Z) (v : Q) : Prop :=
  (v == value (Fin s c e))%Q \/
  exists X, (v == value (Fin s 1 X))%Q /\
            (mag c e < mag 1 X)%Q /\ (mag 10 X <= mag tc te)%Q.

(** An annual rate whose division by 12 stays inside the exponent range
    of the context: an infinity, or a finite number below 10^(Emax + 1). *)
Definition rate_in_range (r : Decimal) : Prop :=
  match r with
  | Fin _ c e => 0 <= c /\ adjusted c e <= Emax
  | Inf _ => True
  end.

(** What the schedule needs to know about the payment and the monthly
    rate: the payment is a non-negative number the context can hold, and
    the monthly rate is zero, or not negative with the payment in cents. *)
Definition payment_shape (lc : LoanCalculator) (P : Decimal) : Prop :=
  exists sm cm em cP eP,
    monthly_rate lc = Fin sm cm em /\ 0 <= cm /\
    P = Fin false cP eP /\ representable cP eP /\
    (cm = 0 \/ (sm = false /\ eP = -2)).

(** A coefficient with its sign. *)
Definition signed (s : bool) (c : Z) : Z := if s then - c else c.

(** ** More example loans *)

(** 10^12 at 4.5% over one year: the payment has no two-decimal form in
    ten digits. *)
Definition oversized_loan : LoanCalculator :=
  mkLoanCalculator (dec 1000000000000 0) (dec 45 (-3)) 1 (dec 375 (-5)) 12.

(** 250000 at 4.5% over 0 years, as the constructor builds it. *)
Definition zero_term_loan : LoanCalculator :=
  mkLoanCalculator (dec 250000 0) (dec 45 (-3)) 0 (dec 375 (-5)) 0.

(** 1200 without interest over -1 year: a payment of -100 and no
    period. *)
Definition negative_term_loan : LoanCalculator :=
  mkLoanCalculator (dec 1200 0) (dec 0 0) (-1) (dec 0 0) (-12).

(** 1200 without interest over one year: twelve payments of 100. *)
Definition free_loan : LoanCalculator :=
  mkLoanCalculator (dec 1200 0) (dec 0 0) 1 (dec 0 0) 12.

Definition free_schedule : list PaymentRecord :=
  map (fun k => mkPaymentRecord k (dec 100 0) (dec 0 (-2)) (dec 10000 (-2))
                  (dec (120000 - 10000 * k) (-2)))
      (range 1 13).

(** An amount without a fraction of a cent: a finite Decimal whose
    exponent is at least -2. *)
Definition whole_cents (d : Decimal) : Prop :=
  match d with
  | Fin _ _ e => -2 <= e
  | Inf _ => False
  end.

(** 1000 at 5% over one year, and its schedule. *)
Definition round_loan : LoanCalculator :=
  mkLoanCalculator (dec 1000 0) (dec 5 (-2)) 1 (dec 4166666667 (-12)) 12.

Definition round_schedule : list PaymentRecord :=
  [ one_year_record 1 417 8144 (dec 91856 (-2));
    one_year_record 2 383 8178 (dec 83678 (-2));
    one_year_record 3 349 8212 (dec 75466 (-2));
    one_year_record 4 314 8247 (dec 67219 (-2));
    one_year_record 5 280 8281 (dec 58938 (-2));
    one_year_record 6 246 8315 (dec 50623 (-2));
    one_year_record 7 211 8350 (dec 42273 (-2));
    one_year_record 8 176 8385 (dec 33888 (-2));
    one_year_record 9 141 8420 (dec 25468 (-2));
    one_year_record 10 106 8455 (dec 17013 (-2));
    one_year_record 11 71 8490 (dec 8523 (-2));
    one_year_record 12 36 8525 (Fin true 2 (-2)) ].

(** 250000 at 0.0000001% over 30 years. *)
Definition tiny_rate_loan : LoanCalculator :=
  mkLoanCalculator (dec 250000 0) (dec 1 (-9)) 30 (dec 8333333333 (-20)) 360.

(** What a context of precision [p] and the same exponent range can
    hold. *)
Definition representable_in (p c e : Z) : Prop :=
  0 <= c < 10 ^ p /\ Etiny_in p <= e /\ e + ndigits c - 1 <= Emax.

(** 30000000.25 at 4.5% over 30 years, and the first two records of its
    schedule. *)
Definition large_loan : LoanCalculator :=
  mkLoanCalculator (dec 3000000025 (-2)) (dec 45 (-3)) 30 (dec 375 (-5)) 360.

Definition large_loan_first : PaymentRecord :=
  mkPaymentRecord 1 (dec 15200559 (-2)) (dec 11250000 (-2))
    (dec 3950559 (-2)) (dec 2996049466 (-2)).

Definition large_loan_second : PaymentRecord :=
  mkPaymentRecord 2 (dec 15200559 (-2)) (dec 11235186 (-2))
    (dec 3965373 (-2)) (dec 2992084093 (-2)).

(** A number the ten-digit context holds as it is: finite, with at most
    [prec] digits and its exponent in range. *)
Definition fits_context (d : Decimal) : Prop :=
  match d with
  | Fin _ c e => representable c e
  | Inf _ => False
  end.

(** Ordinary loan terms: valid terms with a principal of at most one
    million, an annual rate that is zero or between 0.00001% and 120%,
    and a term of at most 1000 years. *)
Definition ordinary_terms (principal annual_rate : Decimal) (years : Z) : Prop :=
  (exists cp ep,
     principal = Fin false cp ep /\ 0 < cp /\ (mag cp ep <= 1000000)%Q) /\
  (exists cr er,
     annual_rate = Fin false cr er /\ 0 <= cr /\
     (cr = 0 \/ ((1 # 10000000) <= mag cr er /\ mag cr er <= 12 # 10)%Q)) /\
  1 <= years <= 1000.

(** Bounds, in whole units, of the amounts of a schedule: of a principal
    portion next to a balance of at most [b], and of the balance after
    each period.  What an addition sees of an operand exceeds it by at
    most a tenth of the other one, so a sum is at most 1.1 times the sum
    of the magnitudes. *)
Definition portion_bound (b : Z) : Z := (11 * b + 110000000) / 100 + 1.

Definition next_bound (b : Z) : Z := (11 * (b + portion_bound b)) / 10 + 1.

Fixpoint balance_bound (k : nat) : Z :=
  match k with
  | O => 1000000
  | S k' => next_bound (balance_bound k')
  end.

(** 79516779.65595331, a principal of sixteen digits, at 100% a year
    over 30 years. *)
Definition long_principal_loan : LoanCalculator :=
  mkLoanCalculator (dec 7951677965595331 (-8)) (dec 1 0) 30
    (dec 8333333333 (-11)) 360.

Lemma pow10_pos (k : Z) : 0 <= k -> 0 < 10 ^ k.
Proof. intros. apply Z.pow_pos_nonneg; lia. Qed.

Lemma pow10_succ (k : Z) : 0 <= k -> 10 ^ (k + 1) = 10 * 10 ^ k.
Proof. intros. rewrite Z.pow_add_r by lia. lia. Qed.

Lemma pow10_le (a b : Z) : 0 <= a <= b -> 10 ^ a <= 10 ^ b.
Proof. intros. apply Z.pow_le_mono_r; lia. Qed.

Lemma pow10_lt (a b : Z) : 0 <= a < b -> 10 ^ a < 10 ^ b.
Proof. intros. apply Z.pow_lt_mono_r; lia. Qed.

Lemma pow10_lt_inv (a b : Z) : 0 <= a -> 0 <= b -> 10 ^ a < 10 ^ b -> a < b.
Proof.
  intros Ha Hb H. destruct (Z_lt_le_dec a b) as [|Hle]; [assumption|].
  pose proof (pow10_le b a ltac:(lia)). lia.
Qed.

Lemma ndigits_fuel_ge1 (fuel : nat) (c : Z) : 1 <= ndigits_fuel fuel c.
Proof.
  revert c. induction fuel as [|f IH]; intros c; cbn [ndigits_fuel]; [lia|].
  destruct (c <? 10); [lia|]. specialize (IH (c / 10)). lia.
Qed.

Lemma ndigits_fuel_bounds (fuel : nat) (c : Z) :
  0 < c -> c < 10 ^ (Z.of_nat fuel + 1) ->
  10 ^ (ndigits_fuel fuel c - 1) <= c < 10 ^ ndigits_fuel fuel c.
Proof.
  revert c. induction fuel as [|f IH]; intros c Hc Hlt.
  - cbn [ndigits_fuel]. change (10 ^ (1 - 1)) with 1. change (10 ^ 1) with 10.
    change (10 ^ (Z.of_nat 0 + 1)) with 10 in Hlt. lia.
  - cbn [ndigits_fuel]. destruct (Z.ltb_spec c 10) as [H10|H10].
    + change (10 ^ (1 - 1)) with 1. change (10 ^ 1) with 10. lia.
    + assert (Hq : 0 < c / 10) by (apply Z.div_str_pos; lia).
      assert (Hlt' : c / 10 < 10 ^ (Z.of_nat f + 1)).
      { apply Z.div_lt_upper_bound; [lia|].
        rewrite <- pow10_succ by lia.
        replace (Z.of_nat f + 1 + 1) with (Z.of_nat (S f) + 1) by lia. assumption. }
      specialize (IH _ Hq Hlt').
      pose proof (ndigits_fuel_ge1 f (c / 10)) as Hge.
      set (d := ndigits_fuel f (c / 10)) in *.
      replace (1 + d - 1) with ((d - 1) + 1) by lia.
      replace (1 + d) with (d + 1) by lia.
      rewrite !pow10_succ by lia.
      pose proof (Z.div_mod c 10 ltac:(lia)) as Hdm.
      pose proof (Z.mod_pos_bound c 10 ltac:(lia)) as Hmb.
      lia.
Qed.

Lemma ndigits_ge1 (c : Z) : 1 <= ndigits c.
Proof. apply ndigits_fuel_ge1. Qed.

Lemma ndigits_bounds (c : Z) :
  0 < c -> 10 ^ (ndigits c - 1) <= c < 10 ^ ndigits c.
Proof.
  intros Hc. apply ndigits_fuel_bounds; [assumption|].
  destruct (Z.log2_spec c Hc) as [_ Hup].
  pose proof (Z.log2_nonneg c) as Hnn.
  rewrite Z2Nat.id by assumption.
  eapply Z.lt_le_trans; [exact Hup|].
  unfold Z.succ. apply Z.pow_le_mono_l. lia.
Qed.

Lemma ndigits_unique (c L : Z) :
  10 ^ (L - 1) <= c < 10 ^ L -> 1 <= L -> ndigits c = L.
Proof.
  intros [Hlo Hhi] HL.
  assert (Hc : 0 < c) by (pose proof (pow10_pos (L - 1) ltac:(lia)); lia).
  destruct (ndigits_bounds c Hc) as [Hlo' Hhi'].
  pose proof (ndigits_ge1 c) as Hge.
  assert (ndigits c - 1 < L).
  { apply pow10_lt_inv; lia. }
  assert (L - 1 < ndigits c).
  { apply pow10_lt_inv; lia. }
  lia.
Qed.

Lemma ndigits_small (c : Z) : c < 10 -> ndigits c = 1.
Proof.
  intros H. unfold ndigits. destruct (Z.to_nat (Z.log2 c)); cbn [ndigits_fuel]; [reflexivity|].
  destruct (Z.ltb_spec c 10); [reflexivity|lia].
Qed.

Lemma ndigits_le (c L : Z) : 0 <= c < 10 ^ L -> 1 <= L -> ndigits c <= L.
Proof.
  intros [Hc Hlt] HL.
  destruct (Z.eq_dec c 0) as [->|Hne]; [rewrite ndigits_small; lia|].
  destruct (ndigits_bounds c ltac:(lia)) as [Hlo _].
  pose proof (ndigits_ge1 c).
  assert (ndigits c - 1 < L) by (apply pow10_lt_inv; lia). lia.
Qed.

Lemma ndigits_lt_pow (c : Z) : 0 <= c -> c < 10 ^ ndigits c.
Proof.
  intros Hc. destruct (Z.eq_dec c 0) as [->|Hne].
  - rewrite ndigits_small by lia. lia.
  - apply ndigits_bounds. lia.
Qed.

Lemma ndigits_mul_pow10 (c k : Z) :
  0 < c -> 0 <= k -> ndigits (c * 10 ^ k) = ndigits c + k.
Proof.
  intros Hc Hk. destruct (ndigits_bounds c Hc) as [Hlo Hhi].
  pose proof (ndigits_ge1 c) as Hge.
  pose proof (pow10_pos k Hk) as Hp.
  apply ndigits_unique; [|lia].
  replace (ndigits c + k - 1) with ((ndigits c - 1) + k) by lia.
  rewrite !Z.pow_add_r by lia. split; nia.
Qed.

Lemma ndigits_mono (a b : Z) : 0 <= a <= b -> ndigits a <= ndigits b.
Proof.
  intros [Ha Hab].
  destruct (Z.eq_dec b 0) as [->|Hb]; [replace a with 0 by lia; lia|].
  apply ndigits_le; [|apply ndigits_ge1].
  destruct (ndigits_bounds b ltac:(lia)). lia.
Qed.

Lemma half_pow10 (k : Z) : 0 < k -> 10 ^ k = 2 * (5 * 10 ^ (k - 1)).
Proof.
  intros Hk. replace k with ((k - 1) + 1) at 1 by lia.
  rewrite pow10_succ by lia. lia.
Qed.

Lemma round_half_up_cases (c k : Z) :
  0 < k -> 0 <= c ->
  (round_half_up c k = 1 /\ 10 ^ k <= 2 * (c mod 10 ^ k)) \/
  (round_half_up c k = 0 /\ c mod 10 ^ k = 0) \/
  (round_half_up c k = -1 /\ 0 < c mod 10 ^ k /\ 2 * (c mod 10 ^ k) < 10 ^ k).
Proof.
  intros Hk Hc. unfold round_half_up.
  pose proof (half_pow10 k Hk) as Hh.
  pose proof (pow10_pos (k - 1) ltac:(lia)) as Hp.
  pose proof (Z.mod_pos_bound c (10 ^ k) ltac:(lia)) as Hm.
  destruct (Z.leb_spec (5 * 10 ^ (k - 1)) (c mod 10 ^ k)).
  - left. split; [reflexivity|lia].
  - destruct (Z.eqb_spec (c mod 10 ^ k) 0).
    + right; left. split; [reflexivity|assumption].
    + right; right. split; [reflexivity|lia].
Qed.

Lemma round_half_even_cases (c k : Z) :
  0 < k -> 0 <= c ->
  (0 < round_half_even c k /\ 10 ^ k <= 2 * (c mod 10 ^ k) /\
   (10 ^ k = 2 * (c mod 10 ^ k) -> Z.even (c / 10 ^ k) = false)) \/
  (round_half_even c k <= 0 /\ 2 * (c mod 10 ^ k) <= 10 ^ k /\
   (10 ^ k = 2 * (c mod 10 ^ k) -> Z.even (c / 10 ^ k) = true)).
Proof.
  intros Hk Hc. unfold round_half_even.
  pose proof (half_pow10 k Hk) as Hh.
  destruct (round_half_up_cases c k Hk Hc) as [[E H]|[[E H]|[E H]]].
  - destruct (Z.eqb_spec (c mod 10 ^ k) (5 * 10 ^ (k - 1))) as [He|He];
      cbn [andb].
    + destruct (Z.even (c / 10 ^ k)) eqn:Ev.
      * right. split; [lia|]. split; [lia|]. intros _. reflexivity.
      * left. rewrite E. split; [lia|]. split; [lia|]. intros _. reflexivity.
    + left. rewrite E. split; [lia|]. split; [lia|]. intros; lia.
  - destruct (Z.eqb_spec (c mod 10 ^ k) (5 * 10 ^ (k - 1))) as [He|He];
      cbn [andb].
    + pose proof (pow10_pos (k - 1) ltac:(lia)). lia.
    + right. rewrite E. split; [lia|]. split; [lia|].
      pose proof (pow10_pos k ltac:(lia)). intros; lia.
  - destruct (Z.eqb_spec (c mod 10 ^ k) (5 * 10 ^ (k - 1))) as [He|He];
      cbn [andb].
    + lia.
    + right. rewrite E. split; [lia|]. split; [lia|]. intros; lia.
Qed.

(** [rhe c k] is a nearest multiple: within half a unit of [c / 10^k]. *)
Lemma rhe_nearest (c k : Z) :
  0 < k -> 0 <= c ->
  2 * c - 10 ^ k <= 2 * (rhe c k * 10 ^ k) <= 2 * c + 10 ^ k.
Proof.
  intros Hk Hc. unfold rhe.
  pose proof (pow10_pos k ltac:(lia)) as Hp.
  pose proof (Z.div_mod c (10 ^ k) ltac:(lia)) as Hdm.
  pose proof (Z.mod_pos_bound c (10 ^ k) ltac:(lia)) as Hm.
  destruct (round_half_even_cases c k Hk Hc) as [[E [H _]]|[E [H _]]].
  - replace (0 <? round_half_even c k) with true by (symmetry; apply Z.ltb_lt; lia).
    nia.
  - replace (0 <? round_half_even c k) with false by (symmetry; apply Z.ltb_ge; lia).
    nia.
Qed.

Lemma rhe_nonneg (c k : Z) : 0 < k -> 0 <= c -> 0 <= rhe c k.
Proof.
  intros Hk Hc. unfold rhe.
  pose proof (pow10_pos k ltac:(lia)) as Hp.
  pose proof (Z.div_pos c (10 ^ k) Hc Hp).
  destruct (0 <? round_half_even c k); lia.
Qed.

(** Rounding never crosses a multiple of the unit. *)
Lemma rhe_le_grid (c k Y : Z) :
  0 < k -> 0 <= c -> c <= Y * 10 ^ k -> rhe c k <= Y.
Proof.
  intros Hk Hc Hle. unfold rhe.
  pose proof (pow10_pos k ltac:(lia)) as Hp.
  pose proof (Z.div_mod c (10 ^ k) ltac:(lia)) as Hdm.
  pose proof (Z.mod_pos_bound c (10 ^ k) ltac:(lia)) as Hm.
  destruct (round_half_even_cases c k Hk Hc) as [[E [H _]]|[E [H _]]].
  - replace (0 <? round_half_even c k) with true by (symmetry; apply Z.ltb_lt; lia).
    assert (0 < c mod 10 ^ k) by lia. nia.
  - replace (0 <? round_half_even c k) with false by (symmetry; apply Z.ltb_ge; lia).
    nia.
Qed.

Lemma rhe_ge_grid (c k Y : Z) :
  0 < k -> 0 <= c -> Y * 10 ^ k <= c -> Y <= rhe c k.
Proof.
  intros Hk Hc Hle. unfold rhe.
  pose proof (pow10_pos k ltac:(lia)) as Hp.
  pose proof (Z.div_mod c (10 ^ k) ltac:(lia)) as Hdm.
  pose proof (Z.mod_pos_bound c (10 ^ k) ltac:(lia)) as Hm.
  destruct (0 <? round_half_even c k); nia.
Qed.

Lemma rhe_exact (c k Y : Z) :
  0 < k -> 0 <= c -> c = Y * 10 ^ k -> rhe c k = Y.
Proof.
  intros Hk Hc He.
  pose proof (rhe_le_grid c k Y Hk Hc ltac:(lia)).
  pose proof (rhe_ge_grid c k Y Hk Hc ltac:(lia)). lia.
Qed.

Lemma rhe_small (c k : Z) :
  0 < k -> 0 <= c -> 2 * c < 10 ^ k -> rhe c k = 0.
Proof.
  intros Hk Hc Hlt. unfold rhe.
  pose proof (pow10_pos k ltac:(lia)) as Hp.
  rewrite Z.div_small by lia.
  destruct (round_half_even_cases c k Hk Hc) as [[E [H _]]|[E [H _]]].
  - rewrite Z.mod_small in H by lia. lia.
  - replace (0 <? round_half_even c k) with false by (symmetry; apply Z.ltb_ge; lia).
    reflexivity.
Qed.

(** The same for round-half-up. *)
Lemma rhu_formula (c k : Z) :
  0 < k -> 0 <= c -> rhu c k = (2 * c + 10 ^ k) / (2 * 10 ^ k).
Proof.
  intros Hk Hc. unfold rhu.
  pose proof (pow10_pos k ltac:(lia)) as Hp.
  pose proof (Z.div_mod c (10 ^ k) ltac:(lia)) as Hdm.
  pose proof (Z.mod_pos_bound c (10 ^ k) ltac:(lia)) as Hm.
  destruct (round_half_up_cases c k Hk Hc) as [[E H]|[[E H]|[E H]]]; rewrite E;
    cbn [Z.eqb Pos.eqb].
  - apply Z.div_unique with (r := 2 * (c mod 10 ^ k) - 10 ^ k); lia.
  - apply Z.div_unique with (r := 2 * (c mod 10 ^ k) + 10 ^ k); lia.
  - apply Z.div_unique with (r := 2 * (c mod 10 ^ k) + 10 ^ k); lia.
Qed.

Lemma rhu_nonneg (c k : Z) : 0 < k -> 0 <= c -> 0 <= rhu c k.
Proof.
  intros Hk Hc. unfold rhu.
  pose proof (pow10_pos k ltac:(lia)) as Hp.
  pose proof (Z.div_pos c (10 ^ k) Hc Hp).
  destruct (round_half_up c k =? 1); lia.
Qed.

Lemma rhu_mono (a b k : Z) :
  0 < k -> 0 <= a <= b -> rhu a k <= rhu b k.
Proof.
  intros Hk Hab. rewrite !rhu_formula by lia.
  pose proof (pow10_pos k ltac:(lia)) as Hp.
  apply Z.div_le_mono; lia.
Qed.

Lemma rhe_le_pow (c k p : Z) :
  0 < k -> 0 <= p -> 0 <= c -> ndigits c <= p + k -> rhe c k <= 10 ^ p.
Proof.
  intros Hk Hp Hc HL. apply rhe_le_grid; try assumption.
  rewrite <- Z.pow_add_r by lia.
  pose proof (ndigits_lt_pow c Hc).
  pose proof (ndigits_ge1 c).
  pose proof (pow10_le (ndigits c) (p + k) ltac:(lia)). lia.
Qed.

Lemma fix_spec (s : bool) (c e : Z) :
  0 < c ->
  _fix s c e =
    if Etop <? ndigits c + e - prec then Raise Overflow
    else
      let E := Z.max (ndigits c + e - prec) Etiny in
      if e <? E then
        if rhe c (E - e) =? 10 ^ prec then
          if Etop <? E + 1 then Raise Overflow
          else Ret (Fin s (10 ^ (prec - 1)) (E + 1))
        else Ret (Fin s (rhe c (E - e)) E)
      else Ret (Fin s c e).
Proof.
  intros Hc. unfold _fix.
  replace (c =? 0) with false by (symmetry; apply Z.eqb_neq; lia).
  destruct (Z.ltb_spec Etop (ndigits c + e - prec)) as [Hov|Hov]; [reflexivity|].
  cbv zeta. set (E := Z.max (ndigits c + e - prec) Etiny).
  destruct (Z.ltb_spec e E) as [HeE|HeE]; [|reflexivity].
  pose proof (ndigits_ge1 c) as HL1.
  pose proof (ndigits_lt_pow c ltac:(lia)) as HcL.
  assert (Hk : 0 < E - e) by lia.
  assert (HLk : ndigits c <= prec + (E - e)) by (unfold E; lia).
  pose proof (rhe_le_pow c (E - e) prec Hk ltac:(unfold prec; lia) ltac:(lia) HLk) as Hub.
  pose proof (rhe_nonneg c (E - e) Hk ltac:(lia)) as Hnn.
  assert (HEtop : E <= Etop) by (unfold E, Etop, Etiny, Emax, Emin, prec in *; lia).
  destruct (Z.ltb_spec (ndigits c + e - E) 0) as [Hneg|Hnneg].
  - (* fewer digits than dropped: everything goes *)
    change (ndigits 1) with 1. change (1 - 0) with 1.
    change (round_half_even 1 1) with (-1). change (1 / 10 ^ 1) with 0.
    cbn [Z.ltb Z.compare andb].
    assert (H0 : rhe c (E - e) = 0).
    { apply rhe_small; try lia.
      pose proof (pow10_le (ndigits c) (E - e - 1) ltac:(lia)).
      replace (E - e) with ((E - e - 1) + 1) by lia.
      rewrite pow10_succ by lia. lia. }
    rewrite H0. change (0 =? 10 ^ prec) with false. cbv iota.
    replace (Etop <? E) with false by (symmetry; apply Z.ltb_ge; lia).
    reflexivity.
  - replace (ndigits c - (ndigits c + e - E)) with (E - e) by lia.
    fold (rhe c (E - e)).
    assert (Hcoeff1 :
      (if 0 <? round_half_even c (E - e) then c / 10 ^ (E - e) + 1
       else c / 10 ^ (E - e)) = rhe c (E - e)).
    { unfold rhe. destruct (0 <? round_half_even c (E - e)); lia. }
    rewrite Hcoeff1.
    destruct (Z.eqb_spec (rhe c (E - e)) (10 ^ prec)) as [Heq|Hne].
    + assert (Hup : (0 <? round_half_even c (E - e)) = true).
      { destruct (0 <? round_half_even c (E - e)) eqn:Hch; [reflexivity|].
        exfalso. unfold rhe in Heq. rewrite Hch in Heq.
        assert (c / 10 ^ (E - e) < 10 ^ prec).
        { apply Z.div_lt_upper_bound; [apply pow10_pos; lia|].
          rewrite <- Z.pow_add_r by (unfold prec; lia).
          pose proof (pow10_le (ndigits c) (E - e + prec) ltac:(lia)). lia. }
        lia. }
      rewrite Hup, Heq. cbn [andb].
      change (prec <? ndigits (10 ^ prec)) with true. cbv iota.
      change (10 ^ prec / 10) with (10 ^ (prec - 1)). reflexivity.
    + assert (Hlt : rhe c (E - e) < 10 ^ prec) by lia.
      assert (Hnd : ndigits (rhe c (E - e)) <= prec).
      { apply ndigits_le; [lia|unfold prec; lia]. }
      replace (prec <? ndigits (rhe c (E - e))) with false
        by (symmetry; apply Z.ltb_ge; lia).
      rewrite andb_false_r.
      replace (Etop <? E) with false by (symmetry; apply Z.ltb_ge; lia).
      reflexivity.
Qed.

Lemma Qpow10_pos (e : Z) : (0 < 10 ^ e)%Q.
Proof. apply Qpower_0_lt. reflexivity. Qed.

Lemma Qpow10_Z (k : Z) : 0 <= k -> (10 ^ k == inject_Z (10 ^ k))%Q.
Proof. intros Hk. rewrite Zpower_Qpower by assumption. reflexivity. Qed.

Lemma Qpow10_add (a b : Z) : (10 ^ (a + b) == 10 ^ a * 10 ^ b)%Q.
Proof. apply Qpower_plus. discriminate. Qed.

Lemma mag_scale (c e m : Z) :
  m <= e -> (mag c e == inject_Z (c * 10 ^ (e - m)) * 10 ^ m)%Q.
Proof.
  intros Hm. unfold mag.
  replace e with ((e - m) + m) at 1 by lia.
  rewrite Qpow10_add, Qpow10_Z by lia.
  rewrite inject_Z_mult. ring.
Qed.

Lemma mag_le_iff (m c1 e1 c2 e2 : Z) :
  m <= e1 -> m <= e2 ->
  (mag c1 e1 <= mag c2 e2)%Q <-> c1 * 10 ^ (e1 - m) <= c2 * 10 ^ (e2 - m).
Proof.
  intros H1 H2. rewrite (mag_scale c1 e1 m H1), (mag_scale c2 e2 m H2).
  pose proof (Qpow10_pos m) as Hp.
  rewrite Zle_Qle. split; intros H.
  - apply Qmult_le_r in H; assumption.
  - apply Qmult_le_r; assumption.
Qed.

Lemma mag_lt_iff (m c1 e1 c2 e2 : Z) :
  m <= e1 -> m <= e2 ->
  (mag c1 e1 < mag c2 e2)%Q <-> c1 * 10 ^ (e1 - m) < c2 * 10 ^ (e2 - m).
Proof.
  intros H1 H2. rewrite (mag_scale c1 e1 m H1), (mag_scale c2 e2 m H2).
  pose proof (Qpow10_pos m) as Hp.
  rewrite Zlt_Qlt. split; intros H.
  - apply Qmult_lt_r in H; assumption.
  - apply Qmult_lt_r; assumption.
Qed.

Lemma mag_eq_iff (m c1 e1 c2 e2 : Z) :
  m <= e1 -> m <= e2 ->
  (mag c1 e1 == mag c2 e2)%Q <-> c1 * 10 ^ (e1 - m) = c2 * 10 ^ (e2 - m).
Proof.
  intros H1 H2. split; intros H.
  - apply Z.le_antisymm; apply (mag_le_iff m); try assumption;
      rewrite H; apply Qle_refl.
  - apply Qle_antisym; apply (mag_le_iff m); try assumption; lia.
Qed.

Lemma mag_nonneg (c e : Z) : 0 <= c -> (0 <= mag c e)%Q.
Proof.
  intros Hc. unfold mag. apply Qmult_le_0_compat.
  - change 0%Q with (inject_Z 0). rewrite <- Zle_Qle. assumption.
  - apply Qlt_le_weak, Qpow10_pos.
Qed.

Lemma mag_pos (c e : Z) : 0 < c -> (0 < mag c e)%Q.
Proof.
  intros Hc. unfold mag. apply Qmult_lt_0_compat.
  - change 0%Q with (inject_Z 0). rewrite <- Zlt_Qlt. assumption.
  - apply Qpow10_pos.
Qed.

Lemma mag_zero (e : Z) : (mag 0 e == 0)%Q.
Proof. unfold mag. change (inject_Z 0) with 0%Q. ring. Qed.


Lemma fix_zero (s : bool) (e : Z) :
  _fix s 0 e = Ret (Fin s 0 (Z.min (Z.max e Etiny) Emax)).
Proof. reflexivity. Qed.

Lemma fix_representable (s : bool) (c e : Z) (d : Decimal) :
  0 <= c -> _fix s c e = Ret d ->
  exists c' e', d = Fin s c' e' /\ representable c' e'.
Proof.
  intros Hc H. destruct (Z.eq_dec c 0) as [->|Hne].
  - rewrite fix_zero in H. injection H as <-. eexists _, _. split; [reflexivity|].
    unfold representable. change (ndigits 0) with 1.
    unfold Etiny, Emax, Emin, prec. split; [|lia]. split; [lia|reflexivity].
  - rewrite fix_spec in H by lia.
    pose proof (ndigits_ge1 c) as HL1.
    pose proof (ndigits_lt_pow c ltac:(lia)) as HcL.
    destruct (Z.ltb_spec Etop (ndigits c + e - prec)) as [Hov|Hov]; [discriminate|].
    cbv zeta in H. set (E := Z.max (ndigits c + e - prec) Etiny) in *.
    destruct (Z.ltb_spec e E) as [HeE|HeE].
    + assert (Hk : 0 < E - e) by lia.
      assert (HLk : ndigits c <= prec + (E - e)) by (unfold E; lia).
      pose proof (rhe_le_pow c (E - e) prec Hk ltac:(unfold prec; lia) ltac:(lia) HLk) as Hub.
      pose proof (rhe_nonneg c (E - e) Hk ltac:(lia)) as Hnn.
      assert (HEtop : E <= Etop) by (unfold E, Etop, Etiny, Emax, Emin, prec in *; lia).
      destruct (Z.eqb_spec (rhe c (E - e)) (10 ^ prec)) as [Heq|Hneq].
      * destruct (Z.ltb_spec Etop (E + 1)); [discriminate|].
        injection H as <-. exists (10 ^ (prec - 1)), (E + 1). split; [reflexivity|].
        unfold representable.
        split; [split; [discriminate|reflexivity]|].
        assert (Hnd : ndigits (10 ^ (prec - 1)) = prec) by reflexivity.
        rewrite Hnd. unfold Etop, Etiny, Emax, Emin, prec in *. lia.
      * injection H as <-. exists (rhe c (E - e)), E. split; [reflexivity|].
        unfold representable. split; [lia|]. split; [unfold E; lia|].
        assert (ndigits (rhe c (E - e)) <= prec)
          by (apply ndigits_le; [lia|unfold prec; lia]).
        unfold Etop, Etiny, Emax, Emin, prec in *. lia.
    + injection H as <-. exists c, e. split; [reflexivity|].
      unfold representable.
      assert (ndigits c <= prec) by (unfold E in HeE; lia).
      pose proof (pow10_le (ndigits c) prec ltac:(lia)).
      split; [lia|]. unfold E in HeE.
      unfold Etop, Etiny, Emax, Emin, prec in *. lia.
Qed.

Lemma fix_id (s : bool) (c e : Z) :
  0 < c -> representable c e -> _fix s c e = Ret (Fin s c e).
Proof.
  intros Hc [[_ Hlt] [He Ha]]. rewrite fix_spec by assumption.
  assert (ndigits c <= prec) by (apply ndigits_le; [lia|unfold prec; lia]).
  replace (Etop <? ndigits c + e - prec) with false
    by (symmetry; apply Z.ltb_ge; unfold Etop; lia).
  cbv zeta.
  replace (e <? Z.max (ndigits c + e - prec) Etiny) with false
    by (symmetry; apply Z.ltb_ge; lia).
  reflexivity.
Qed.

Lemma fix_sign (s : bool) (c e : Z) (d : Decimal) :
  _fix s c e = Ret d -> exists c' e', d = Fin s c' e'.
Proof.
  unfold _fix. intros H.
  repeat match type of H with
         | (if ?b then _ else _) = _ => destruct b
         | (let _ := _ in _) = _ => cbv zeta in H
         end; try discriminate; injection H as <-; eauto.
Qed.

Lemma pow10_split (a b : Z) : 0 <= a -> 0 <= b -> 10 ^ (a + b) = 10 ^ a * 10 ^ b.
Proof. intros. apply Z.pow_add_r; assumption. Qed.

(** The three shapes of a result of [_fix] on a nonzero coefficient. *)
Lemma fix_shape (s s' : bool) (c e c' e' : Z) :
  0 < c -> _fix s c e = Ret (Fin s' c' e') ->
  let E := Z.max (ndigits c + e - prec) Etiny in
  s' = s /\
  ((E <= e /\ c' = c /\ e' = e) \/
   (e < E /\ rhe c (E - e) < 10 ^ prec /\ c' = rhe c (E - e) /\ e' = E) \/
   (e < E /\ rhe c (E - e) = 10 ^ prec /\ c' = 10 ^ (prec - 1) /\ e' = E + 1)).
Proof.
  intros Hc H. rewrite fix_spec in H by assumption. cbv zeta.
  destruct (Z.ltb_spec Etop (ndigits c + e - prec)) as [Hov|Hov]; [discriminate|].
  cbv zeta in H. set (E := Z.max (ndigits c + e - prec) Etiny) in *.
  destruct (Z.ltb_spec e E) as [HeE|HeE].
  - pose proof (ndigits_ge1 c) as HL1.
    assert (Hk : 0 < E - e) by lia.
    assert (HLk : ndigits c <= prec + (E - e)) by (unfold E; lia).
    pose proof (rhe_le_pow c (E - e) prec Hk ltac:(unfold prec; lia) ltac:(lia) HLk) as Hub.
    destruct (Z.eqb_spec (rhe c (E - e)) (10 ^ prec)) as [Heq|Hneq].
    + destruct (Etop <? E + 1); [discriminate|].
      assert (H' : Fin s (10 ^ (prec - 1)) (E + 1) = Fin s' c' e') by congruence.
      clear H. injection H' as Hs Hc' He'.
      change (Z.pow_pos 10 9) with (10 ^ (prec - 1)) in Hc'.
      split; [congruence|]. right; right. repeat split; congruence.
    + assert (H' : Fin s (rhe c (E - e)) E = Fin s' c' e') by congruence.
      clear H. injection H' as Hs Hc' He'.
      split; [congruence|]. right; left. repeat split; try congruence; lia.
  - assert (H' : Fin s c e = Fin s' c' e') by congruence.
    clear H. injection H' as Hs Hc' He'.
    split; [congruence|]. left. repeat split; try congruence; lia.
Qed.

Section Bounds.

Variables (s : bool) (c e c' e' cy ey m : Z).
Hypothesis Hc : 0 < c.
Hypothesis Hfix : _fix s c e = Ret (Fin s c' e').
Hypothesis Hcy : 0 <= cy < 10 ^ prec.
Hypothesis Hey : Etiny <= ey.
Hypothesis Hme : m <= e.
Hypothesis Hmy : m <= ey.

Lemma fix_exp_ge : e <= e'.
Proof.
  destruct (fix_shape s s c e c' e' Hc Hfix) as [_ [[H1 [H2 H3]]|[[H1 [H2 [H3 H4]]]|[H1 [H2 [H3 H4]]]]]];
    lia.
Qed.

Lemma fix_le_bound_Z :
  c * 10 ^ (e - m) <= cy * 10 ^ (ey - m) ->
  c' * 10 ^ (e' - m) <= cy * 10 ^ (ey - m).
Proof.
  intros Hle.
  pose proof (ndigits_ge1 c) as HL1.
  pose proof (ndigits_bounds c Hc) as [HcLo HcHi].
  pose proof (pow10_pos (e - m) ltac:(lia)) as HA.
  destruct (fix_shape s s c e c' e' Hc Hfix) as [_ [[H1 [Hc' He']]|H]];
    [rewrite Hc', He'; assumption|].
  set (E := Z.max (ndigits c + e - prec) Etiny) in *.
  assert (HeE : e < E) by (destruct H as [[? _]|[? _]]; assumption).
  assert (Hk : 0 < E - e) by lia.
  pose proof (pow10_pos (E - e) ltac:(lia)) as HK.
  assert (HEm : 10 ^ (E - m) = 10 ^ (E - e) * 10 ^ (e - m)).
  { rewrite <- pow10_split by lia. f_equal. lia. }
  destruct (Z_le_gt_dec E ey) as [Hgrid|Hfine].
  - (* the bound lies on the grid of the result *)
    assert (Hym : 10 ^ (ey - m) = 10 ^ (ey - E) * 10 ^ (E - m)).
    { rewrite <- pow10_split by lia. f_equal. lia. }
    pose proof (pow10_pos (ey - E) ltac:(lia)) as HY.
    assert (HcY : c <= (cy * 10 ^ (ey - E)) * 10 ^ (E - e)).
    { rewrite Hym, HEm in Hle. nia. }
    pose proof (rhe_le_grid c (E - e) _ Hk ltac:(lia) HcY) as Hr.
    destruct H as [[_ [Hlt [Hc' He']]]|[_ [Heq [Hc' He']]]]; rewrite Hc', He'.
    + rewrite Hym, Z.mul_assoc. apply Z.mul_le_mono_nonneg_r; lia.
    + assert (H1 : 10 ^ (E + 1 - m) = 10 * 10 ^ (E - m)).
      { replace (E + 1 - m) with ((E - m) + 1) by lia. apply pow10_succ. lia. }
      assert (H2 : 10 ^ prec = 10 * 10 ^ (prec - 1)) by reflexivity.
      rewrite H1, Hym. pose proof (pow10_pos (E - m) ltac:(lia)).
      replace (10 ^ (prec - 1) * (10 * 10 ^ (E - m)))
        with (10 ^ prec * 10 ^ (E - m)) by (rewrite H2; ring).
      rewrite Z.mul_assoc. apply Z.mul_le_mono_nonneg_r; lia.
  - (* a bound finer than the grid is below the operand *)
    exfalso.
    assert (HE0 : E = ndigits c + e - prec) by (unfold E in *; lia).
    assert (Hlo : 10 ^ (prec - 1) * 10 ^ (E - e) <= c).
    { rewrite <- pow10_split by (unfold prec; lia).
      replace (prec - 1 + (E - e)) with (ndigits c - 1) by lia. assumption. }
    assert (Hy : 10 ^ (ey - m) <= 10 ^ (E - e - 1) * 10 ^ (e - m)).
    { rewrite <- pow10_split by lia. apply pow10_le. lia. }
    assert (HK1 : 10 ^ (E - e) = 10 * 10 ^ (E - e - 1)).
    { replace (E - e) with ((E - e - 1) + 1) at 1 by lia. apply pow10_succ. lia. }
    assert (H2 : 10 ^ prec = 10 * 10 ^ (prec - 1)) by reflexivity.
    pose proof (pow10_pos (E - e - 1) ltac:(lia)).
    pose proof (pow10_pos (prec - 1) ltac:(unfold prec; lia)).
    pose proof (pow10_pos (ey - m) ltac:(lia)).
    assert (cy * 10 ^ (ey - m) < 10 ^ prec * (10 ^ (E - e - 1) * 10 ^ (e - m))) by nia.
    nia.
Qed.

Lemma fix_ge_bound_Z :
  cy * 10 ^ (ey - m) <= c * 10 ^ (e - m) ->
  cy * 10 ^ (ey - m) <= c' * 10 ^ (e' - m).
Proof.
  intros Hle.
  pose proof (ndigits_ge1 c) as HL1.
  pose proof (ndigits_bounds c Hc) as [HcLo HcHi].
  pose proof (pow10_pos (e - m) ltac:(lia)) as HA.
  destruct (fix_shape s s c e c' e' Hc Hfix) as [_ [[H1 [Hc' He']]|H]];
    [rewrite Hc', He'; assumption|].
  set (E := Z.max (ndigits c + e - prec) Etiny) in *.
  assert (HeE : e < E) by (destruct H as [[? _]|[? _]]; assumption).
  assert (Hk : 0 < E - e) by lia.
  pose proof (pow10_pos (E - e) ltac:(lia)) as HK.
  assert (HEm : 10 ^ (E - m) = 10 ^ (E - e) * 10 ^ (e - m)).
  { rewrite <- pow10_split by lia. f_equal. lia. }
  assert (H1 : 10 ^ (E + 1 - m) = 10 * 10 ^ (E - m)).
  { replace (E + 1 - m) with ((E - m) + 1) by lia. apply pow10_succ. lia. }
  assert (H2 : 10 ^ prec = 10 * 10 ^ (prec - 1)) by reflexivity.
  pose proof (pow10_pos (E - m) ltac:(lia)) as HEmp.
  destruct (Z_le_gt_dec E ey) as [Hgrid|Hfine].
  - assert (Hym : 10 ^ (ey - m) = 10 ^ (ey - E) * 10 ^ (E - m)).
    { rewrite <- pow10_split by lia. f_equal. lia. }
    pose proof (pow10_pos (ey - E) ltac:(lia)) as HY.
    assert (HcY : (cy * 10 ^ (ey - E)) * 10 ^ (E - e) <= c).
    { rewrite Hym, HEm in Hle. nia. }
    pose proof (rhe_ge_grid c (E - e) _ Hk ltac:(lia) HcY) as Hr.
    destruct H as [[_ [Hlt [Hc' He']]]|[_ [Heq [Hc' He']]]]; rewrite Hc', He'.
    + rewrite Hym, Z.mul_assoc. apply Z.mul_le_mono_nonneg_r; lia.
    + rewrite H1, Hym.
      replace (10 ^ (prec - 1) * (10 * 10 ^ (E - m)))
        with (10 ^ prec * 10 ^ (E - m)) by (rewrite H2; ring).
      rewrite Z.mul_assoc. apply Z.mul_le_mono_nonneg_r; lia.
  - assert (HE0 : E = ndigits c + e - prec) by (unfold E in *; lia).
    assert (Hlo : 10 ^ (prec - 1) * 10 ^ (E - e) <= c).
    { rewrite <- pow10_split by (unfold prec; lia).
      replace (prec - 1 + (E - e)) with (ndigits c - 1) by lia. assumption. }
    pose proof (rhe_ge_grid c (E - e) _ Hk ltac:(lia) Hlo) as Hr.
    assert (Hy : 10 ^ (ey - m) <= 10 ^ (E - e - 1) * 10 ^ (e - m)).
    { rewrite <- pow10_split by lia. apply pow10_le. lia. }
    assert (HK1 : 10 ^ (E - e) = 10 * 10 ^ (E - e - 1)).
    { replace (E - e) with ((E - e - 1) + 1) at 1 by lia. apply pow10_succ. lia. }
    pose proof (pow10_pos (E - e - 1) ltac:(lia)).
    pose proof (pow10_pos (prec - 1) ltac:(unfold prec; lia)).
    pose proof (pow10_pos (ey - m) ltac:(lia)).
    assert (Hcy' : cy * 10 ^ (ey - m) <= 10 ^ (prec - 1) * 10 ^ (E - m)).
    { rewrite HEm, HK1. nia. }
    destruct H as [[_ [Hlt [Hc' He']]]|[_ [Heq [Hc' He']]]]; rewrite Hc', He'.
    + nia.
    + rewrite H1. nia.
Qed.

End Bounds.

(** ** Rounding in a context of any precision *)

Lemma ndigits_pow10 (k : Z) : 0 <= k -> ndigits (10 ^ k) = k + 1.
Proof.
  intros Hk. apply ndigits_unique; [|lia].
  replace (k + 1 - 1) with k by lia. split; [lia|].
  apply pow10_lt. lia.
Qed.

Lemma pow10_pred (p : Z) : 1 <= p -> 10 ^ p = 10 * 10 ^ (p - 1).
Proof.
  intros Hp. replace p with ((p - 1) + 1) at 1 by lia. apply pow10_succ. lia.
Qed.

Lemma exponent_range_in (p : Z) : Etiny_in p + 1 <= Etop_in p.
Proof. unfold Etiny_in, Etop_in, Emin, Emax. lia. Qed.

(** [_fix] is the rounding of the context of precision [prec]. *)
Lemma fix_as_fix_in (s : bool) (c e : Z) :
  _fix s c e =
  match fix_in prec c e with
  | Ret r => Ret (Fin s (fst r) (snd r))
  | Raise sig => Raise sig
  end.
Proof.
  unfold _fix, fix_in.
  change (Etiny_in prec) with Etiny. change (Etop_in prec) with Etop.
  destruct (c =? 0); [reflexivity|].
  destruct (Etop <? ndigits c + e - prec); [reflexivity|]. cbv zeta.
  destruct (e <? Z.max (ndigits c + e - prec) Etiny); [|reflexivity].
  destruct (Etop <? _); reflexivity.
Qed.

Section Precision.

Variable p : Z.
Hypothesis Hp : 1 <= p.

Lemma fix_in_zero (e : Z) :
  fix_in p 0 e = Ret (0, Z.min (Z.max e (Etiny_in p)) Emax).
Proof. reflexivity. Qed.

Lemma fix_in_spec (c e : Z) :
  0 < c ->
  fix_in p c e =
    if Etop_in p <? ndigits c + e - p then Raise Overflow
    else
      let E := Z.max (ndigits c + e - p) (Etiny_in p) in
      if e <? E then
        if rhe c (E - e) =? 10 ^ p then
          if Etop_in p <? E + 1 then Raise Overflow
          else Ret (10 ^ (p - 1), E + 1)
        else Ret (rhe c (E - e), E)
      else Ret (c, e).
Proof.
  intros Hc. unfold fix_in.
  replace (c =? 0) with false by (symmetry; apply Z.eqb_neq; lia).
  destruct (Z.ltb_spec (Etop_in p) (ndigits c + e - p)) as [Hov|Hov]; [reflexivity|].
  cbv zeta. set (E := Z.max (ndigits c + e - p) (Etiny_in p)).
  destruct (Z.ltb_spec e E) as [HeE|HeE]; [|reflexivity].
  pose proof (ndigits_ge1 c) as HL1.
  pose proof (ndigits_lt_pow c ltac:(lia)) as HcL.
  pose proof (pow10_pos p ltac:(lia)) as Hpp.
  pose proof (exponent_range_in p) as Hrange.
  assert (Hk : 0 < E - e) by lia.
  assert (HLk : ndigits c <= p + (E - e)) by (unfold E; lia).
  pose proof (rhe_le_pow c (E - e) p Hk ltac:(lia) ltac:(lia) HLk) as Hub.
  pose proof (rhe_nonneg c (E - e) Hk ltac:(lia)) as Hnn.
  assert (HEtop : E <= Etop_in p) by (unfold E; lia).
  destruct (Z.ltb_spec (ndigits c + e - E) 0) as [Hneg|Hnneg].
  - (* fewer digits than dropped: everything goes *)
    change (ndigits 1) with 1. change (1 - 0) with 1.
    change (round_half_even 1 1) with (-1). change (1 / 10 ^ 1) with 0.
    cbn [Z.ltb Z.compare andb].
    assert (H0 : rhe c (E - e) = 0).
    { apply rhe_small; try lia.
      pose proof (pow10_le (ndigits c) (E - e - 1) ltac:(lia)).
      replace (E - e) with ((E - e - 1) + 1) by lia.
      rewrite pow10_succ by lia. lia. }
    rewrite H0.
    replace (0 =? 10 ^ p) with false by (symmetry; apply Z.eqb_neq; lia).
    cbv iota.
    replace (Etop_in p <? E) with false by (symmetry; apply Z.ltb_ge; lia).
    reflexivity.
  - replace (ndigits c - (ndigits c + e - E)) with (E - e) by lia.
    fold (rhe c (E - e)).
    assert (Hcoeff1 :
      (if 0 <? round_half_even c (E - e) then c / 10 ^ (E - e) + 1
       else c / 10 ^ (E - e)) = rhe c (E - e)).
    { unfold rhe. destruct (0 <? round_half_even c (E - e)); lia. }
    rewrite Hcoeff1.
    destruct (Z.eqb_spec (rhe c (E - e)) (10 ^ p)) as [Heq|Hne].
    + assert (Hup : (0 <? round_half_even c (E - e)) = true).
      { destruct (0 <? round_half_even c (E - e)) eqn:Hch; [reflexivity|].
        exfalso. unfold rhe in Heq. rewrite Hch in Heq.
        assert (c / 10 ^ (E - e) < 10 ^ p).
        { apply Z.div_lt_upper_bound; [apply pow10_pos; lia|].
          rewrite <- Z.pow_add_r by lia.
          pose proof (pow10_le (ndigits c) (E - e + p) ltac:(lia)). lia. }
        lia. }
      rewrite Hup, Heq. cbn [andb].
      rewrite (ndigits_pow10 p) by lia.
      replace (p <? p + 1) with true by (symmetry; apply Z.ltb_lt; lia).
      cbv iota.
      replace (10 ^ p / 10) with (10 ^ (p - 1)); [reflexivity|].
      rewrite (pow10_pred p Hp), Z.mul_comm, Z.div_mul by lia. reflexivity.
    + assert (Hlt : rhe c (E - e) < 10 ^ p) by lia.
      assert (Hnd : ndigits (rhe c (E - e)) <= p).
      { apply ndigits_le; [lia|lia]. }
      replace (p <? ndigits (rhe c (E - e))) with false
        by (symmetry; apply Z.ltb_ge; lia).
      rewrite andb_false_r.
      replace (Etop_in p <? E) with false by (symmetry; apply Z.ltb_ge; lia).
      reflexivity.
Qed.

(** The three shapes of a rounded nonzero coefficient. *)
Lemma fix_in_shape (c e c' e' : Z) :
  0 < c -> fix_in p c e = Ret (c', e') ->
  let E := Z.max (ndigits c + e - p) (Etiny_in p) in
  (E <= e /\ c' = c /\ e' = e) \/
  (e < E /\ rhe c (E - e) < 10 ^ p /\ c' = rhe c (E - e) /\ e' = E) \/
  (e < E /\ rhe c (E - e) = 10 ^ p /\ c' = 10 ^ (p - 1) /\ e' = E + 1).
Proof.
  intros Hc H. rewrite fix_in_spec in H by assumption. cbv zeta.
  destruct (Z.ltb_spec (Etop_in p) (ndigits c + e - p)) as [Hov|Hov]; [discriminate|].
  cbv zeta in H. set (E := Z.max (ndigits c + e - p) (Etiny_in p)) in *.
  destruct (Z.ltb_spec e E) as [HeE|HeE].
  - pose proof (ndigits_ge1 c) as HL1.
    assert (Hk : 0 < E - e) by lia.
    assert (HLk : ndigits c <= p + (E - e)) by (unfold E; lia).
    pose proof (rhe_le_pow c (E - e) p Hk ltac:(lia) ltac:(lia) HLk) as Hub.
    destruct (Z.eqb_spec (rhe c (E - e)) (10 ^ p)) as [Heq|Hneq].
    + destruct (Etop_in p <? E + 1); [discriminate|].
      assert (H' : (10 ^ (p - 1), E + 1) = (c', e')) by congruence.
      clear H. injection H' as Hc' He'.
      right; right. repeat split; try congruence; lia.
    + assert (H' : (rhe c (E - e), E) = (c', e')) by congruence.
      clear H. injection H' as Hc' He'.
      right; left. repeat split; try congruence; lia.
  - assert (H' : (c, e) = (c', e')) by congruence.
    clear H. injection H' as Hc' He'.
    left. repeat split; try congruence; lia.
Qed.

Lemma fix_in_representable (c e c' e' : Z) :
  0 <= c -> fix_in p c e = Ret (c', e') -> representable_in p c' e'.
Proof.
  intros Hc H. pose proof (pow10_pos p ltac:(lia)) as Hpp.
  pose proof (exponent_range_in p) as Hrange.
  destruct (Z.eq_dec c 0) as [->|Hne].
  - rewrite fix_in_zero in H. injection H as <- <-.
    unfold representable_in. change (ndigits 0) with 1.
    unfold Etiny_in, Emax, Emin in *. lia.
  - assert (Hpos : 0 < c) by lia.
    pose proof (ndigits_ge1 c) as HL1.
    pose proof (ndigits_lt_pow c ltac:(lia)) as HcL.
    pose proof H as H0. rewrite fix_in_spec in H0 by lia.
    destruct (Z.ltb_spec (Etop_in p) (ndigits c + e - p)) as [Hov|Hov]; [discriminate|].
    cbv zeta in H0.
    pose proof (fix_in_shape c e c' e' Hpos H) as Hs. cbv zeta in Hs.
    set (E := Z.max (ndigits c + e - p) (Etiny_in p)) in *.
    assert (HEtop : E <= Etop_in p) by (unfold E; lia).
    destruct Hs as [(HE & -> & ->)|[(HeE & Hlt & -> & ->)|(HeE & Heq & -> & ->)]].
    + unfold representable_in.
      assert (ndigits c <= p) by (unfold E in HE; lia).
      pose proof (pow10_le (ndigits c) p ltac:(lia)).
      unfold E, Etop_in in *. lia.
    + assert (Hk : 0 < E - e) by lia.
      pose proof (rhe_nonneg c (E - e) Hk ltac:(lia)) as Hnn.
      assert (ndigits (rhe c (E - e)) <= p) by (apply ndigits_le; lia).
      unfold representable_in. unfold E, Etop_in in *. lia.
    + replace (E <? E) with false in H0 by (symmetry; apply Z.ltb_irrefl).
      replace (e <? E) with true in H0 by (symmetry; apply Z.ltb_lt; lia).
      rewrite Heq, Z.eqb_refl in H0.
      destruct (Z.ltb_spec (Etop_in p) (E + 1)); [discriminate|].
      unfold representable_in.
      rewrite (ndigits_pow10 (p - 1)) by lia.
      pose proof (pow10_pos (p - 1) ltac:(lia)).
      pose proof (pow10_lt (p - 1) p ltac:(lia)).
      unfold E, Etop_in in *. lia.
Qed.

Lemma fix_in_returns (c e : Z) :
  0 <= c -> e + ndigits c - 1 < Emax -> exists r, fix_in p c e = Ret r.
Proof.
  intros Hc Ha. destruct (Z.eq_dec c 0) as [->|Hne]; [rewrite fix_in_zero; eauto|].
  rewrite fix_in_spec by lia.
  replace (Etop_in p <? ndigits c + e - p) with false
    by (symmetry; apply Z.ltb_ge; unfold Etop_in; lia).
  cbv zeta. set (E := Z.max (ndigits c + e - p) (Etiny_in p)).
  assert (HE : E + 1 <= Etop_in p)
    by (pose proof (exponent_range_in p); unfold E, Etop_in in *; lia).
  replace (Etop_in p <? E + 1) with false by (symmetry; apply Z.ltb_ge; lia).
  destruct (e <? E); [destruct (_ =? _)|]; eauto.
Qed.

Section BoundsIn.

Variables (c e c' e' cy ey m : Z).
Hypothesis Hc : 0 < c.
Hypothesis Hfix : fix_in p c e = Ret (c', e').
Hypothesis Hcy : 0 <= cy < 10 ^ p.
Hypothesis Hey : Etiny_in p <= ey.
Hypothesis Hme : m <= e.
Hypothesis Hmy : m <= ey.

Lemma fix_in_exp_ge : e <= e'.
Proof.
  destruct (fix_in_shape c e c' e' Hc Hfix) as [[H1 [H2 H3]]|[[H1 [H2 [H3 H4]]]|[H1 [H2 [H3 H4]]]]];
    lia.
Qed.

Lemma fix_in_le_bound_Z :
  c * 10 ^ (e - m) <= cy * 10 ^ (ey - m) ->
  c' * 10 ^ (e' - m) <= cy * 10 ^ (ey - m).
Proof.
  intros Hle.
  pose proof (ndigits_ge1 c) as HL1.
  pose proof (ndigits_bounds c Hc) as [HcLo HcHi].
  pose proof (pow10_pos (e - m) ltac:(lia)) as HA.
  destruct (fix_in_shape c e c' e' Hc Hfix) as [[H1 [Hc' He']]|H];
    [rewrite Hc', He'; assumption|].
  set (E := Z.max (ndigits c + e - p) (Etiny_in p)) in *.
  assert (HeE : e < E) by (destruct H as [[? _]|[? _]]; assumption).
  assert (Hk : 0 < E - e) by lia.
  pose proof (pow10_pos (E - e) ltac:(lia)) as HK.
  assert (HEm : 10 ^ (E - m) = 10 ^ (E - e) * 10 ^ (e - m)).
  { rewrite <- pow10_split by lia. f_equal. lia. }
  assert (H2 : 10 ^ p = 10 * 10 ^ (p - 1)) by (apply pow10_pred; lia).
  destruct (Z_le_gt_dec E ey) as [Hgrid|Hfine].
  - (* the bound lies on the grid of the result *)
    assert (Hym : 10 ^ (ey - m) = 10 ^ (ey - E) * 10 ^ (E - m)).
    { rewrite <- pow10_split by lia. f_equal. lia. }
    pose proof (pow10_pos (ey - E) ltac:(lia)) as HY.
    assert (HcY : c <= (cy * 10 ^ (ey - E)) * 10 ^ (E - e)).
    { rewrite Hym, HEm in Hle. nia. }
    pose proof (rhe_le_grid c (E - e) _ Hk ltac:(lia) HcY) as Hr.
    destruct H as [[_ [Hlt [Hc' He']]]|[_ [Heq [Hc' He']]]]; rewrite Hc', He'.
    + rewrite Hym, Z.mul_assoc. apply Z.mul_le_mono_nonneg_r; lia.
    + assert (H1 : 10 ^ (E + 1 - m) = 10 * 10 ^ (E - m)).
      { replace (E + 1 - m) with ((E - m) + 1) by lia. apply pow10_succ. lia. }
      rewrite H1, Hym. pose proof (pow10_pos (E - m) ltac:(lia)).
      replace (10 ^ (p - 1) * (10 * 10 ^ (E - m)))
        with (10 ^ p * 10 ^ (E - m)) by (rewrite H2; ring).
      rewrite Z.mul_assoc. apply Z.mul_le_mono_nonneg_r; lia.
  - (* a bound finer than the grid is below the operand *)
    exfalso.
    assert (HE0 : E = ndigits c + e - p) by (unfold E in *; lia).
    assert (Hlo : 10 ^ (p - 1) * 10 ^ (E - e) <= c).
    { rewrite <- pow10_split by lia.
      replace (p - 1 + (E - e)) with (ndigits c - 1) by lia. assumption. }
    assert (Hy : 10 ^ (ey - m) <= 10 ^ (E - e - 1) * 10 ^ (e - m)).
    { rewrite <- pow10_split by lia. apply pow10_le. lia. }
    assert (HK1 : 10 ^ (E - e) = 10 * 10 ^ (E - e - 1)).
    { replace (E - e) with ((E - e - 1) + 1) at 1 by lia. apply pow10_succ. lia. }
    pose proof (pow10_pos (E - e - 1) ltac:(lia)).
    pose proof (pow10_pos (p - 1) ltac:(lia)).
    pose proof (pow10_pos (ey - m) ltac:(lia)).
    assert (cy * 10 ^ (ey - m) < 10 ^ p * (10 ^ (E - e - 1) * 10 ^ (e - m))) by nia.
    nia.
Qed.

Lemma fix_in_ge_bound_Z :
  cy * 10 ^ (ey - m) <= c * 10 ^ (e - m) ->
  cy * 10 ^ (ey - m) <= c' * 10 ^ (e' - m).
Proof.
  intros Hle.
  pose proof (ndigits_ge1 c) as HL1.
  pose proof (ndigits_bounds c Hc) as [HcLo HcHi].
  pose proof (pow10_pos (e - m) ltac:(lia)) as HA.
  destruct (fix_in_shape c e c' e' Hc Hfix) as [[H1 [Hc' He']]|H];
    [rewrite Hc', He'; assumption|].
  set (E := Z.max (ndigits c + e - p) (Etiny_in p)) in *.
  assert (HeE : e < E) by (destruct H as [[? _]|[? _]]; assumption).
  assert (Hk : 0 < E - e) by lia.
  pose proof (pow10_pos (E - e) ltac:(lia)) as HK.
  assert (HEm : 10 ^ (E - m) = 10 ^ (E - e) * 10 ^ (e - m)).
  { rewrite <- pow10_split by lia. f_equal. lia. }
  assert (H1 : 10 ^ (E + 1 - m) = 10 * 10 ^ (E - m)).
  { replace (E + 1 - m) with ((E - m) + 1) by lia. apply pow10_succ. lia. }
  assert (H2 : 10 ^ p = 10 * 10 ^ (p - 1)) by (apply pow10_pred; lia).
  pose proof (pow10_pos (E - m) ltac:(lia)) as HEmp.
  destruct (Z_le_gt_dec E ey) as [Hgrid|Hfine].
  - assert (Hym : 10 ^ (ey - m) = 10 ^ (ey - E) * 10 ^ (E - m)).
    { rewrite <- pow10_split by lia. f_equal. lia. }
    pose proof (pow10_pos (ey - E) ltac:(lia)) as HY.
    assert (HcY : (cy * 10 ^ (ey - E)) * 10 ^ (E - e) <= c).
    { rewrite Hym, HEm in Hle. nia. }
    pose proof (rhe_ge_grid c (E - e) _ Hk ltac:(lia) HcY) as Hr.
    destruct H as [[_ [Hlt [Hc' He']]]|[_ [Heq [Hc' He']]]]; rewrite Hc', He'.
    + rewrite Hym, Z.mul_assoc. apply Z.mul_le_mono_nonneg_r; lia.
    + rewrite H1, Hym.
      replace (10 ^ (p - 1) * (10 * 10 ^ (E - m)))
        with (10 ^ p * 10 ^ (E - m)) by (rewrite H2; ring).
      rewrite Z.mul_assoc. apply Z.mul_le_mono_nonneg_r; lia.
  - assert (HE0 : E = ndigits c + e - p) by (unfold E in *; lia).
    assert (Hlo : 10 ^ (p - 1) * 10 ^ (E - e) <= c).
    { rewrite <- pow10_split by lia.
      replace (p - 1 + (E - e)) with (ndigits c - 1) by lia. assumption. }
    pose proof (rhe_ge_grid c (E - e) _ Hk ltac:(lia) Hlo) as Hr.
    assert (Hy : 10 ^ (ey - m) <= 10 ^ (E - e - 1) * 10 ^ (e - m)).
    { rewrite <- pow10_split by lia. apply pow10_le. lia. }
    assert (HK1 : 10 ^ (E - e) = 10 * 10 ^ (E - e - 1)).
    { replace (E - e) with ((E - e - 1) + 1) at 1 by lia. apply pow10_succ. lia. }
    pose proof (pow10_pos (E - e - 1) ltac:(lia)).
    pose proof (pow10_pos (p - 1) ltac:(lia)).
    pose proof (pow10_pos (ey - m) ltac:(lia)).
    assert (Hcy' : cy * 10 ^ (ey - m) <= 10 ^ (p - 1) * 10 ^ (E - m)).
    { rewrite HEm, HK1. nia. }
    destruct H as [[_ [Hlt [Hc' He']]]|[_ [Heq [Hc' He']]]]; rewrite Hc', He'.
    + nia.
    + rewrite H1. nia.
Qed.

End BoundsIn.

(** Rounding to [p] digits is monotone against any bound that has at
    most [p] digits. *)
Lemma fix_in_mag_le (c e c' e' cy ey : Z) :
  0 <= c -> fix_in p c e = Ret (c', e') ->
  0 <= cy < 10 ^ p -> Etiny_in p <= ey ->
  (mag c e <= mag cy ey)%Q -> (mag c' e' <= mag cy ey)%Q.
Proof.
  intros Hc H Hcy Hey Hle.
  destruct (Z.eq_dec c 0) as [->|Hne].
  - rewrite fix_in_zero in H. injection H as <- <-.
    rewrite mag_zero in *. exact Hle.
  - assert (Hpos : 0 < c) by lia.
    pose proof (fix_in_exp_ge c e c' e' Hpos H) as Hee.
    apply (mag_le_iff (Z.min e ey)) in Hle; try lia.
    pose proof (fix_in_le_bound_Z c e c' e' cy ey (Z.min e ey)
                  Hpos H Hcy Hey ltac:(lia) ltac:(lia) Hle) as Hb.
    apply (mag_le_iff (Z.min e ey)) in Hb; try lia. exact Hb.
Qed.

Lemma fix_in_mag_ge (c e c' e' cy ey : Z) :
  0 <= c -> fix_in p c e = Ret (c', e') ->
  0 <= cy < 10 ^ p -> Etiny_in p <= ey ->
  (mag cy ey <= mag c e)%Q -> (mag cy ey <= mag c' e')%Q.
Proof.
  intros Hc H Hcy Hey Hle.
  destruct (Z.eq_dec c 0) as [->|Hne].
  - rewrite fix_in_zero in H. injection H as <- <-.
    rewrite mag_zero in *. exact Hle.
  - assert (Hpos : 0 < c) by lia.
    pose proof (fix_in_exp_ge c e c' e' Hpos H) as Hee.
    apply (mag_le_iff (Z.min e ey)) in Hle; try lia.
    pose proof (fix_in_ge_bound_Z c e c' e' cy ey (Z.min e ey)
                  Hpos H Hcy Hey ltac:(lia) ltac:(lia) Hle) as Hb.
    apply (mag_le_iff (Z.min e ey)) in Hb; try lia. exact Hb.
Qed.

End Precision.

(** ** The integer power *)

Lemma mag_one : (mag 1 0 == 1)%Q.
Proof. reflexivity. Qed.

Lemma mag_mul (a b e1 e2 : Z) : (mag (a * b) (e1 + e2) == mag a e1 * mag b e2)%Q.
Proof. unfold mag. rewrite inject_Z_mult, Qpow10_add. ring. Qed.

(** The work precision of a power is at least that of the context. *)
Lemma work_precision (n : Z) :
  prec + 3 <= prec + ndigits (Z.abs n) + 2 + (if n <? 0 then 1 else 0).
Proof.
  pose proof (ndigits_ge1 (Z.abs n)). destruct (n <? 0); lia.
Qed.

Lemma mul_in_nonneg (p : Z) (a b r : Z * Z) :
  1 <= p -> 0 <= fst a -> 0 <= fst b -> mul_in p a b = Ret r ->
  representable_in p (fst r) (snd r).
Proof.
  intros Hp Ha Hb H. unfold mul_in in H. destruct r as [c' e'].
  assert (Hab : 0 <= fst a * fst b) by nia.
  apply (fix_in_representable p Hp _ _ c' e' Hab H).
Qed.

(** A power of a magnitude is a magnitude. *)
Lemma pow_uint_nonneg (p : Z) (base : Z * Z) (n : positive) (r : Z * Z) :
  1 <= p -> 0 <= fst base -> pow_uint p base n = Ret r -> 0 <= fst r.
Proof.
  intros Hp Hb. revert r. induction n as [q IH|q IH|]; intros r H; cbn [pow_uint] in H.
  - destruct (pow_uint p base q) as [r1|]; [|discriminate]. cbn [obind] in H.
    specialize (IH r1 eq_refl).
    destruct (mul_in p r1 r1) as [r2|] eqn:H2; [|discriminate]. cbn [obind] in H.
    pose proof (mul_in_nonneg p r1 r1 r2 Hp IH IH H2) as [[H2n _] _].
    apply (mul_in_nonneg p r2 base r Hp H2n Hb H).
  - destruct (pow_uint p base q) as [r1|]; [|discriminate]. cbn [obind] in H.
    specialize (IH r1 eq_refl).
    apply (mul_in_nonneg p r1 r1 r Hp IH IH H).
  - injection H as <-. assumption.
Qed.

Lemma mul_in_ge_one (p : Z) (a b r : Z * Z) :
  1 <= p -> 0 <= fst a -> 0 <= fst b ->
  (1 <= mag (fst a) (snd a))%Q -> (1 <= mag (fst b) (snd b))%Q ->
  mul_in p a b = Ret r -> (1 <= mag (fst r) (snd r))%Q.
Proof.
  intros Hp Ha Hb Hma Hmb H. unfold mul_in in H. destruct r as [c' e'].
  rewrite <- mag_one. cbn [fst snd].
  assert (Hab : 0 <= fst a * fst b) by nia.
  apply (fix_in_mag_ge p Hp _ _ c' e' 1 0 Hab H).
  - pose proof (pow10_lt 0 p ltac:(lia)). change (10 ^ 0) with 1 in *. lia.
  - unfold Etiny_in, Emin. lia.
  - rewrite mag_mul, mag_one. nra.
Qed.

(** A power of a magnitude that is at least 1 is at least 1, however the
    products round. *)
Lemma pow_uint_ge_one (p : Z) (base : Z * Z) (n : positive) (r : Z * Z) :
  1 <= p -> 0 <= fst base -> (1 <= mag (fst base) (snd base))%Q ->
  pow_uint p base n = Ret r -> (1 <= mag (fst r) (snd r))%Q.
Proof.
  intros Hp Hb Hm. revert r.
  induction n as [q IH|q IH|]; intros r H; cbn [pow_uint] in H.
  - destruct (pow_uint p base q) as [r1|] eqn:H1; [|discriminate]. cbn [obind] in H.
    specialize (IH r1 eq_refl).
    pose proof (pow_uint_nonneg p base q r1 Hp Hb H1) as Hn1.
    destruct (mul_in p r1 r1) as [r2|] eqn:H2; [|discriminate]. cbn [obind] in H.
    pose proof (mul_in_nonneg p r1 r1 r2 Hp Hn1 Hn1 H2) as [[H2n _] _].
    pose proof (mul_in_ge_one p r1 r1 r2 Hp Hn1 Hn1 IH IH H2) as Hm2.
    apply (mul_in_ge_one p r2 base r Hp H2n Hb Hm2 Hm H).
  - destruct (pow_uint p base q) as [r1|] eqn:H1; [|discriminate]. cbn [obind] in H.
    specialize (IH r1 eq_refl).
    pose proof (pow_uint_nonneg p base q r1 Hp Hb H1) as Hn1.
    apply (mul_in_ge_one p r1 r1 r Hp Hn1 Hn1 IH IH H).
  - injection H as <-. assumption.
Qed.

(** The power of a nonzero finite number with a positive exponent. *)
Lemma pow_positive (s : bool) (c e n : Z) :
  c <> 0 -> 0 < n ->
  pow (Fin s c e) n =
  obind (pow_uint (prec + ndigits n + 2) (c, e) (Z.to_pos n))
        (fun r => _fix (s && Z.odd n) (fst r) (snd r)).
Proof.
  intros Hc Hn. unfold pow.
  replace (n =? 0) with false by (symmetry; apply Z.eqb_neq; lia).
  replace (c =? 0) with false by (symmetry; apply Z.eqb_neq; lia).
  replace (n <? 0) with false by (symmetry; apply Z.ltb_ge; lia).
  cbv zeta. cbn [obind]. rewrite Z.abs_eq by lia. rewrite Z.add_0_r. reflexivity.
Qed.

(** A one written with [j] zeros keeps its value, and as many of the
    zeros as the precision allows. *)
Lemma fix_in_pow10 (p j : Z) :
  1 <= p -> 0 <= j ->
  fix_in p (10 ^ j) (- j) = Ret (10 ^ Z.min j (p - 1), - Z.min j (p - 1)).
Proof.
  intros Hp Hj. pose proof (pow10_pos j Hj) as Hpos.
  rewrite fix_in_spec by lia. rewrite ndigits_pow10 by lia.
  replace (Etop_in p <? j + 1 + - j - p) with false
    by (symmetry; apply Z.ltb_ge; unfold Etop_in, Emax; lia).
  cbv zeta.
  replace (Z.max (j + 1 + - j - p) (Etiny_in p)) with (1 - p)
    by (unfold Etiny_in, Emin; lia).
  destruct (Z.ltb_spec (- j) (1 - p)) as [Hlt|Hge].
  - assert (Hr : rhe (10 ^ j) (1 - p - - j) = 10 ^ (p - 1)).
    { apply rhe_exact; try lia.
      rewrite <- pow10_split by lia. f_equal. lia. }
    rewrite Hr.
    pose proof (pow10_lt (p - 1) p ltac:(lia)).
    replace (10 ^ (p - 1) =? 10 ^ p) with false
      by (symmetry; apply Z.eqb_neq; lia).
    rewrite Z.min_r by lia. repeat f_equal. lia.
  - rewrite Z.min_l by lia. reflexivity.
Qed.

Lemma pow_uint_of_one (p a : Z) (n : positive) :
  1 <= p -> 0 <= a <= p - 1 ->
  exists j, a <= j /\ pow_uint p (10 ^ a, - a) n = Ret (10 ^ j, - j).
Proof.
  intros Hp Ha.
  assert (Hsq : forall j k, 0 <= j -> 0 <= k ->
            mul_in p (10 ^ j, - j) (10 ^ k, - k)
            = Ret (10 ^ Z.min (j + k) (p - 1), - Z.min (j + k) (p - 1))).
  { intros j k Hj Hk. unfold mul_in. cbn [fst snd].
    rewrite <- pow10_split by lia.
    replace (- j + - k) with (- (j + k)) by lia.
    apply fix_in_pow10; lia. }
  induction n as [q [j [Hj IH]]|q [j [Hj IH]]|]; cbn [pow_uint].
  - rewrite IH. cbn [obind]. rewrite Hsq by lia. cbn [obind].
    rewrite Hsq by lia. eexists. split; [|reflexivity]. lia.
  - rewrite IH. cbn [obind]. rewrite Hsq by lia.
    eexists. split; [|reflexivity]. lia.
  - exists a. split; [lia|reflexivity].
Qed.

(** ** The methods only read the instance *)

Section ReadsOnly.

Context {A B : Type}.

Lemma reads_only_ret (a : A) : reads_only (ret a) (fun _ => Ret a).
Proof. intro self. reflexivity. Qed.

Lemma reads_only_attr (field : LoanCalculator -> A) :
  reads_only (attr field) (fun self => Ret (field self)).
Proof. intro self. reflexivity. Qed.

Lemma reads_only_lift (o : outcome A) : reads_only (lift o) (fun _ => o).
Proof. intro self. reflexivity. Qed.

Lemma reads_only_bind (m : M A) (k : A -> M B)
    (f : LoanCalculator -> outcome A) (g : A -> LoanCalculator -> outcome B) :
  reads_only m f ->
  (forall a, reads_only (k a) (g a)) ->
  reads_only (bind m k) (fun self => obind (f self) (fun a => g a self)).
Proof.
  intros Hm Hk self. unfold bind. rewrite Hm.
  destruct (f self) as [a|s]; cbn [obind]; [apply Hk|reflexivity].
Qed.

Lemma reads_only_ext (m : M A) (f g : LoanCalculator -> outcome A) :
  reads_only m f -> (forall self, f self = g self) -> reads_only m g.
Proof. intros Hm Hfg self. rewrite Hm, Hfg. reflexivity. Qed.

End ReadsOnly.

Lemma reads_only_for_each {S : Type} (body : S -> Z -> M S)
    (f : LoanCalculator -> S -> Z -> outcome S) (xs : list Z) :
  (forall st x, reads_only (body st x) (fun self => f self st x)) ->
  forall st, reads_only (for_each body st xs) (fun self => ofold (f self) st xs).
Proof.
  intros Hbody. induction xs as [|x xs IH]; intros st self; cbn [for_each ofold].
  - reflexivity.
  - unfold bind. rewrite Hbody.
    destruct (f self st x) as [st'|s]; cbn [obind]; [apply IH|reflexivity].
Qed.

Lemma calculate_monthly_payment_reads :
  reads_only calculate_monthly_payment payment_of.
Proof.
  intro self. unfold calculate_monthly_payment, payment_of, bind, attr, lift, one.
  destruct (eqb (annual_rate self) (of_int 0)); [reflexivity|].
  destruct (add _ _) as [base|]; cbn [obind]; [|reflexivity].
  destruct (pow _ _) as [factor|]; cbn [obind]; [|reflexivity].
  destruct (mul (monthly_rate self) factor) as [rf|]; cbn [obind]; [|reflexivity].
  destruct (mul (principal self) rf) as [num|]; cbn [obind]; [|reflexivity].
  destruct (sub _ _) as [den|]; cbn [obind]; [|reflexivity].
  destruct (div _ _) as [m|]; cbn [obind]; reflexivity.
Qed.

Lemma schedule_step_reads (P : Decimal) (st : Decimal * list PaymentRecord) (x : Z) :
  reads_only (schedule_step P st x) (fun self => step_of self P st x).
Proof.
  intro self. unfold schedule_step, step_of, bind, attr, lift, ret.
  destruct (mul _ _) as [product|]; cbn [obind]; [|reflexivity].
  destruct (quantize _ product _) as [i|]; cbn [obind]; [|reflexivity].
  destruct (sub P i) as [pp|]; cbn [obind]; [|reflexivity].
  destruct (sub (fst st) pp) as [b|]; cbn [obind]; [|reflexivity].
  destruct (quantize _ b _) as [shown|]; cbn [obind]; reflexivity.
Qed.

Lemma generate_amortization_schedule_reads :
  reads_only generate_amortization_schedule schedule_of.
Proof.
  intro self. unfold generate_amortization_schedule, schedule_of, periods.
  unfold bind at 1. rewrite calculate_monthly_payment_reads.
  destruct (payment_of self) as [P|]; cbn [obind]; [|reflexivity].
  unfold bind, attr, ret.
  rewrite (reads_only_for_each (schedule_step P)
             (fun self st x => step_of self P st x) _ (schedule_step_reads P)).
  destruct (ofold _ _ _) as [st|]; cbn [obind]; reflexivity.
Qed.

Lemma total_interest_paid_reads :
  reads_only total_interest_paid total_interest_of.
Proof.
  intro self. unfold total_interest_paid, total_interest_of.
  unfold bind at 1. rewrite calculate_monthly_payment_reads.
  destruct (payment_of self) as [P|]; cbn [obind]; [|reflexivity].
  unfold bind, attr, lift.
  destruct (mul _ _) as [t|]; cbn [obind]; [|reflexivity].
  destruct (sub _ _) as [d|]; cbn [obind]; reflexivity.
Qed.

Lemma result_calculate_monthly_payment (lc : LoanCalculator) :
  result calculate_monthly_payment lc = payment_of lc.
Proof. unfold result. rewrite calculate_monthly_payment_reads. reflexivity. Qed.

Lemma result_generate_amortization_schedule (lc : LoanCalculator) :
  result generate_amortization_schedule lc = schedule_of lc.
Proof. unfold result. rewrite generate_amortization_schedule_reads. reflexivity. Qed.

Lemma result_total_interest_paid (lc : LoanCalculator) :
  result total_interest_paid lc = total_interest_of lc.
Proof. unfold result. rewrite total_interest_paid_reads. reflexivity. Qed.

Lemma call_leaves_self (m : Method) (self : LoanCalculator) :
  snd (call m self) = self.
Proof.
  destruct m; unfold call.
  - rewrite calculate_monthly_payment_reads. reflexivity.
  - rewrite generate_amortization_schedule_reads. reflexivity.
  - rewrite total_interest_paid_reads. reflexivity.
Qed.

Lemma calls_leave_self (ms : list Method) (self : LoanCalculator) :
  snd (calls ms self) = self.
Proof.
  revert self. induction ms as [|m ms IH]; intros self; cbn [calls]; [reflexivity|].
  pose proof (call_leaves_self m self) as Hm.
  destruct (call m self) as [o self']. cbn [snd] in Hm. subst self'.
  specialize (IH self). destruct (calls ms self) as [os self'']. exact IH.
Qed.

(** C10: no sequence of calls to the three methods changes a stored
    field: after the calls [principal], [annual_rate], [years],
    [monthly_rate] and [total_payments] are what they were, and any
    further call returns what it would have returned on the instance as
    constructed. *)
Theorem methods_leave_fields_unchanged (ms : list Method) (self : LoanCalculator) :
  let self' := snd (calls ms self) in
  principal self' = principal self /\
  annual_rate self' = annual_rate self /\
  years self' = years self /\
  monthly_rate self' = monthly_rate self /\
  total_payments self' = total_payments self /\
  forall m, fst (call m self') = fst (call m self).
Proof.
  cbv zeta. rewrite calls_leave_self. repeat split; reflexivity.
Qed.

(** ** The loop of the schedule *)

Lemma obind_ret_inv {A B : Type} (o : outcome A) (f : A -> outcome B) (b : B) :
  obind o f = Ret b -> exists a, o = Ret a /\ f a = Ret b.
Proof. destruct o as [a|s]; cbn [obind]; intros H; [eauto|discriminate]. Qed.

Lemma range_cons (lo hi : Z) :
  lo < hi -> range lo hi = lo :: range (lo + 1) hi.
Proof.
  intros H. unfold range.
  replace (Z.to_nat (hi - lo)) with (S (Z.to_nat (hi - (lo + 1)))) by lia.
  cbn [seq map]. f_equal; [lia|].
  rewrite <- seq_shift, map_map. apply map_ext. intros i. lia.
Qed.

Lemma range_length (lo hi : Z) : length (range lo hi) = Z.to_nat (hi - lo).
Proof. unfold range. rewrite length_map, length_seq. reflexivity. Qed.

Lemma range_nth (lo hi : Z) (i : nat) (x : Z) :
  nth_error (range lo hi) i = Some x -> x = lo + Z.of_nat i.
Proof.
  unfold range. intros H. rewrite nth_error_map in H.
  destruct (nth_error (seq 0 (Z.to_nat (hi - lo))) i) as [j|] eqn:Hj; [|discriminate].
  injection H as <-. apply nth_error_nth with (d := O) in Hj as Hn.
  assert (Hlt : (i < length (seq 0 (Z.to_nat (hi - lo))))%nat)
    by (apply nth_error_Some; congruence).
  rewrite length_seq in Hlt. rewrite seq_nth in Hn by assumption. lia.
Qed.

Section Loop.

Variables (lc : LoanCalculator) (P : Decimal).

Lemma step_of_inv (b : Decimal) (acc : list PaymentRecord) (x : Z)
    (b' : Decimal) (sched : list PaymentRecord) :
  step_of lc P (b, acc) x = Ret (b', sched) ->
  exists product i pp shown,
    mul b (monthly_rate lc) = Ret product /\
    quantize ROUND_HALF_UP product cent = Ret i /\
    sub P i = Ret pp /\
    sub b pp = Ret b' /\
    quantize ROUND_HALF_UP b' cent = Ret shown /\
    sched = acc ++ [mkPaymentRecord x P i pp shown].
Proof.
  unfold step_of. cbn [fst snd]. intros H.
  apply obind_ret_inv in H as (product & Hm & H).
  apply obind_ret_inv in H as (i & Hi & H).
  apply obind_ret_inv in H as (pp & Hpp & H).
  apply obind_ret_inv in H as (bal & Hb & H).
  apply obind_ret_inv in H as (shown & Hs & H).
  injection H as <- <-.
  exists product, i, pp, shown. repeat split; assumption.
Qed.

(** Invariant of the loop: from the running balance after [k] periods,
    the periods [k + 1 ..] append the records of the recurrence. *)
Lemma ofold_records (xs : list Z) :
  forall (k : nat) (b : Decimal) (acc : list PaymentRecord)
         (b' : Decimal) (sched : list PaymentRecord),
    running_balance lc P k = Ret b ->
    (forall i x, nth_error xs i = Some x -> x = Z.of_nat (k + i) + 1) ->
    ofold (step_of lc P) (b, acc) xs = Ret (b', sched) ->
    exists recs,
      sched = acc ++ recs /\
      length recs = length xs /\
      running_balance lc P (k + length xs) = Ret b' /\
      forall i rec, nth_error recs i = Some rec -> record_at lc P (k + i) rec.
Proof.
  induction xs as [|x xs IH]; intros k b acc b' sched Hk Hxs H.
  - cbn [ofold] in H. injection H as <- <-. exists []. rewrite app_nil_r.
    repeat split; try reflexivity.
    + cbn [length]. rewrite Nat.add_0_r. assumption.
    + intros i rec Hi. destruct i; discriminate.
  - cbn [ofold] in H. apply obind_ret_inv in H as ([b1 acc1] & Hstep & Hrest).
    apply step_of_inv in Hstep as (product & i0 & pp & shown & Hm & Hi & Hpp & Hb & Hs & ->).
    assert (Hk1 : running_balance lc P (S k) = Ret b1).
    { cbn [running_balance]. rewrite Hk. cbn [obind].
      rewrite Hm. cbn [obind]. rewrite Hi. cbn [obind]. rewrite Hpp. cbn [obind].
      exact Hb. }
    assert (Hxs1 : forall i x0, nth_error xs i = Some x0 -> x0 = Z.of_nat (S k + i) + 1).
    { intros i x0 Hi0. specialize (Hxs (S i) x0 Hi0). lia. }
    destruct (IH (S k) b1 _ b' sched Hk1 Hxs1 Hrest) as (recs & -> & Hlen & Hend & Hrecs).
    exists (mkPaymentRecord x P i0 pp shown :: recs).
    rewrite <- app_assoc. cbn [app length]. repeat split.
    + congruence.
    + replace (k + S (length xs))%nat with (S k + length xs)%nat by lia. assumption.
    + intros i rec Hrec. destruct i as [|i]; cbn [nth_error] in Hrec.
      * injection Hrec as <-. rewrite Nat.add_0_r.
        exists b, product, b1. cbn [interest principal_paid balance monthly_payment payment].
        repeat split; try assumption.
        specialize (Hxs O x eq_refl). lia.
      * replace (k + S i)%nat with (S k + i)%nat by lia. apply Hrecs. assumption.
Qed.

End Loop.

Lemma periods_length (lc : LoanCalculator) :
  length (periods lc) = Z.to_nat (Z.min 12 (total_payments lc)).
Proof. unfold periods. rewrite range_length. lia. Qed.

Lemma periods_nth (lc : LoanCalculator) (i : nat) (x : Z) :
  nth_error (periods lc) i = Some x -> x = Z.of_nat i + 1.
Proof. intros H. apply range_nth in H. lia. Qed.

(** A returned schedule, record by record. *)
Lemma schedule_of_records (lc : LoanCalculator) (sched : list PaymentRecord) :
  schedule_of lc = Ret sched ->
  exists P,
    payment_of lc = Ret P /\
    length sched = Z.to_nat (Z.min 12 (total_payments lc)) /\
    forall i rec, nth_error sched i = Some rec -> record_at lc P i rec.
Proof.
  unfold schedule_of. intros H.
  apply obind_ret_inv in H as (P & HP & H).
  apply obind_ret_inv in H as ([b' sched'] & Hfold & H).
  cbn [snd] in H. injection H as <-.
  apply (ofold_records lc P (periods lc) O) in Hfold as (recs & -> & Hlen & _ & Hrecs).
  - exists P. cbn [app]. split; [assumption|]. split.
    + rewrite Hlen. apply periods_length.
    + intros i rec Hi. apply (Hrecs i rec Hi).
  - reflexivity.
  - intros i x Hi. apply periods_nth in Hi. cbn [Nat.add]. lia.
Qed.

(** (1 + 0.045/12)^360 in the context. *)
Lemma factor_scenario_1 :
  pow (Fin false 100375 (-5)) 360 = Ret (Fin false 3847698050 (-9)).
Proof. vm_compute. reflexivity. Qed.

(** The power is the library's: for an exponent of two digits the products
    of the squarings and multiplications are rounded to fourteen digits,
    and the result to ten.  Its last digit can differ from that of the
    exact power rounded once: 1.003418333^12 is 1.0418000615000010...,
    above the midpoint of 1.041800061 and 1.041800062, and the power
    returned is 1.041800061. *)
Lemma pow_rounds_on_the_way :
  pow (Fin false 1003418333 (-9)) 12 = Ret (Fin false 1041800061 (-9)) /\
  (10418000615 # 10000000000 < (1003418333 # 1000000000) ^ 12)%Q.
Proof. split; vm_compute; reflexivity. Qed.

(** ** Runs on concrete loans *)

(** The general branch of [calculate_monthly_payment], one operation at
    a time. *)
Lemma payment_of_steps (lc : LoanCalculator)
    (base factor rf numerator denominator m : Decimal) :
  eqb (annual_rate lc) (of_int 0) = false ->
  add one (monthly_rate lc) = Ret base ->
  pow base (total_payments lc) = Ret factor ->
  mul (monthly_rate lc) factor = Ret rf ->
  mul (principal lc) rf = Ret numerator ->
  sub factor one = Ret denominator ->
  div numerator denominator = Ret m ->
  payment_of lc = quantize ROUND_HALF_UP m cent.
Proof.
  intros H0 H1 H2 H3 H4 H5 H6. unfold payment_of.
  rewrite H0, H1. cbn [obind]. rewrite H2. cbn [obind]. rewrite H3. cbn [obind].
  rewrite H4. cbn [obind]. rewrite H5. cbn [obind]. rewrite H6. reflexivity.
Qed.

Lemma payment_of_zero_rate (lc : LoanCalculator) :
  eqb (annual_rate lc) (of_int 0) = true ->
  payment_of lc = div (principal lc) (of_int (total_payments lc)).
Proof. intros H. unfold payment_of. rewrite H. reflexivity. Qed.

Lemma init_scenario_1 :
  init (dec 250000 0) (dec 45 (-3)) 30 = Ret scenario_1.
Proof. vm_compute. reflexivity. Qed.

(** C9: principal 250000, annual rate 0.045, 30 years, hence 360
    payments: [calculate_monthly_payment] returns exactly 1266.71. *)
Theorem scenario_1_monthly_payment :
  obind (init (dec 250000 0) (dec 45 (-3)) 30)
        (result calculate_monthly_payment)
  = Ret (dec 126671 (-2)).
Proof.
  rewrite init_scenario_1. cbn [obind].
  rewrite result_calculate_monthly_payment.
  rewrite (payment_of_steps scenario_1
             (dec 100375 (-5)) (dec 3847698050 (-9)) (dec 1442886769 (-11))
             (dec 3607216922 (-6)) (dec 2847698050 (-9)) (dec 1266713275 (-6)));
    [| | | exact factor_scenario_1 | | | |]; vm_compute; reflexivity.
Qed.

(** C2 (the code departs from it): with annual rate 0 the method
    returns [principal / total_payments] as the context computes it,
    with ten significant digits and no rounding to cents.  For 50000 over
    10 years it returns 416.6666667; rounded half-up to two places that
    would be 416.67. *)
Theorem zero_rate_payment_is_not_rounded :
  obind (init (dec 50000 0) (dec 0 0) 10) (result calculate_monthly_payment)
  = Ret (dec 4166666667 (-7)) /\
  quantize ROUND_HALF_UP (dec 4166666667 (-7)) cent = Ret (dec 41667 (-2)).
Proof. split; vm_compute; reflexivity. Qed.

(** C5 (the code departs from it): [total_interest_paid] rounds with the
    context's ROUND_HALF_EVEN.  For 1000.015 at 5% over one year the
    payment is 85.61, the difference 12 * 85.61 - 1000.015 = 27.305, and
    the method returns 27.30 where round-half-up gives 27.31. *)
Theorem total_interest_rounds_half_even :
  init (dec 1000015 (-3)) (dec 5 (-2)) 1 = Ret one_year_loan /\
  result calculate_monthly_payment one_year_loan = Ret (dec 8561 (-2)) /\
  obind (mul (dec 8561 (-2)) (of_int 12))
        (fun total_paid => sub total_paid (dec 1000015 (-3)))
  = Ret (dec 27305 (-3)) /\
  result total_interest_paid one_year_loan = Ret (dec 2730 (-2)) /\
  quantize ROUND_HALF_UP (dec 27305 (-3)) cent = Ret (dec 2731 (-2)).
Proof. repeat split; vm_compute; reflexivity. Qed.

Lemma valid_terms_dec (cp ep cr er y : Z) :
  0 < cp -> 0 <= cr -> 1 <= y -> valid_terms (dec cp ep) (dec cr er) y.
Proof.
  intros Hp Hr Hy. unfold valid_terms, dec. split; [|split].
  - exists cp, ep. split; [reflexivity|assumption].
  - exists false, cr, er. split; [reflexivity|]. split; [assumption|discriminate].
  - assumption.
Qed.


(** C3 fails as stated: the constructor checks nothing.  A principal of
    0, a negative rate and a term of 0 years each give an instance. *)
Lemma init_accepts_invalid_terms :
  __init__ (Converts (dec 0 0)) (Converts (dec 45 (-3))) (Converts 30)
  = inr (mkLoanCalculator (dec 0 0) (dec 45 (-3)) 30 (dec 375 (-5)) 360) /\
  __init__ (Converts (dec 250000 0)) (Converts (Fin true 45 (-3))) (Converts 30)
  = inr (mkLoanCalculator (dec 250000 0) (Fin true 45 (-3)) 30
           (Fin true 375 (-5)) 360) /\
  __init__ (Converts (dec 250000 0)) (Converts (dec 45 (-3))) (Converts 0)
  = inr (mkLoanCalculator (dec 250000 0) (dec 45 (-3)) 0 (dec 375 (-5)) 0).
Proof. repeat split; vm_compute; reflexivity. Qed.

(** C7 fails as stated: for 200 000 000 at 4.5% over one year the
    payment is 17075704.33, but the balance after the first period,
    about 1.8 * 10^8, has no two-decimal form in ten digits and the
    method raises InvalidOperation instead of returning a schedule. *)
Lemma schedule_raises_for_large_principal :
  valid_terms (dec 200000000 0) (dec 45 (-3)) 1 /\
  obind (init (dec 200000000 0) (dec 45 (-3)) 1)
        (result calculate_monthly_payment)
  = Ret (dec 1707570433 (-2)) /\
  obind (init (dec 200000000 0) (dec 45 (-3)) 1)
        (result generate_amortization_schedule)
  = Raise InvalidOperation.
Proof.
  split; [apply valid_terms_dec; lia|]. split; vm_compute; reflexivity.
Qed.

(** (1 + 1/12)^360 in the context. *)
Lemma factor_high_rate_loan :
  pow (Fin false 1083333333 (-9)) 360 = Ret (Fin false 3268573123 3).
Proof.
  vm_compute. reflexivity.
Qed.

Lemma payment_high_rate_loan :
  payment_of high_rate_loan = Ret (dec 3223 (-2)).
Proof.
  rewrite (payment_of_steps high_rate_loan
             (dec 1083333333 (-9)) (dec 3268573123 3) (dec 2723810936 2)
             (dec 1053624546 5) (dec 3268573123 3) (dec 3223499999 (-8)));
    [| | | exact factor_high_rate_loan | | | |]; vm_compute; reflexivity.
Qed.

(** C8 fails as stated: for 386.82 at 100% a year over 30 years the
    payment rounds to 32.23 and the first interest to 32.24, so every
    principal portion is -0.01 and the balances shown grow by a cent per
    period. *)
Lemma balances_grow_at_high_rate :
  valid_terms (dec 38682 (-2)) (dec 1 0) 30 /\
  init (dec 38682 (-2)) (dec 1 0) 30 = Ret high_rate_loan /\
  result generate_amortization_schedule high_rate_loan
  = Ret
    [mkPaymentRecord 1 (dec 3223 (-2)) (dec 3224 (-2)) (Fin true 1 (-2)) (dec 38683 (-2));
     mkPaymentRecord 2 (dec 3223 (-2)) (dec 3224 (-2)) (Fin true 1 (-2)) (dec 38684 (-2));
     mkPaymentRecord 3 (dec 3223 (-2)) (dec 3224 (-2)) (Fin true 1 (-2)) (dec 38685 (-2));
     mkPaymentRecord 4 (dec 3223 (-2)) (dec 3224 (-2)) (Fin true 1 (-2)) (dec 38686 (-2));
     mkPaymentRecord 5 (dec 3223 (-2)) (dec 3224 (-2)) (Fin true 1 (-2)) (dec 38687 (-2));
     mkPaymentRecord 6 (dec 3223 (-2)) (dec 3224 (-2)) (Fin true 1 (-2)) (dec 38688 (-2));
     mkPaymentRecord 7 (dec 3223 (-2)) (dec 3224 (-2)) (Fin true 1 (-2)) (dec 38689 (-2));
     mkPaymentRecord 8 (dec 3223 (-2)) (dec 3224 (-2)) (Fin true 1 (-2)) (dec 38690 (-2));
     mkPaymentRecord 9 (dec 3223 (-2)) (dec 3224 (-2)) (Fin true 1 (-2)) (dec 38691 (-2));
     mkPaymentRecord 10 (dec 3223 (-2)) (dec 3224 (-2)) (Fin true 1 (-2)) (dec 38692 (-2));
     mkPaymentRecord 11 (dec 3223 (-2)) (dec 3224 (-2)) (Fin true 1 (-2)) (dec 38693 (-2));
     mkPaymentRecord 12 (dec 3223 (-2)) (dec 3224 (-2)) (Fin true 1 (-2)) (dec 38694 (-2))] /\
  (value (dec 38683 (-2)) < value (dec 38684 (-2)))%Q.
Proof.
  split; [apply valid_terms_dec; lia|]. split; [vm_compute; reflexivity|]. split.
  - rewrite result_generate_amortization_schedule. unfold schedule_of.
    rewrite payment_high_rate_loan. vm_compute. reflexivity.
  - vm_compute. reflexivity.
Qed.

(** ** Coefficients stay non-negative *)

Lemma fix_well_formed (s : bool) (c e : Z) (d : Decimal) :
  0 <= c -> _fix s c e = Ret d -> well_formed d.
Proof.
  intros Hc H. destruct (fix_representable s c e d Hc H) as (c' & e' & -> & [[H0 _] _]).
  exact H0.
Qed.

Lemma rhu_le_grid (c k Y : Z) :
  0 < k -> 0 <= c -> c <= Y * 10 ^ k -> rhu c k <= Y.
Proof.
  intros Hk Hc Hle. unfold rhu.
  pose proof (pow10_pos k ltac:(lia)) as Hp.
  pose proof (Z.div_mod c (10 ^ k) ltac:(lia)) as Hdm.
  pose proof (Z.mod_pos_bound c (10 ^ k) ltac:(lia)) as Hm.
  destruct (round_half_up_cases c k Hk Hc) as [[E H]|[[E H]|[E H]]]; rewrite E;
    cbn [Z.eqb Pos.eqb]; nia.
Qed.

Lemma rhu_ge_grid (c k Y : Z) :
  0 < k -> 0 <= c -> Y * 10 ^ k <= c -> Y <= rhu c k.
Proof.
  intros Hk Hc Hle. unfold rhu.
  pose proof (pow10_pos k ltac:(lia)) as Hp.
  pose proof (Z.div_mod c (10 ^ k) ltac:(lia)) as Hdm.
  pose proof (Z.mod_pos_bound c (10 ^ k) ltac:(lia)) as Hm.
  destruct (round_half_up c k =? 1); nia.
Qed.

Lemma rescale_coeff (r : Rounding) (s : bool) (c e exp : Z) :
  0 < c -> e < exp ->
  _rescale r s c e exp =
  Fin s (match r with
         | ROUND_HALF_UP => rhu c (exp - e)
         | ROUND_HALF_EVEN => rhe c (exp - e)
         end) exp.
Proof.
  intros Hc He. unfold _rescale.
  replace (c =? 0) with false by (symmetry; apply Z.eqb_neq; lia).
  replace (exp <=? e) with false by (symmetry; apply Z.leb_gt; lia).
  cbv zeta.
  pose proof (ndigits_ge1 c) as HL1.
  pose proof (ndigits_lt_pow c ltac:(lia)) as HcL.
  destruct (Z.ltb_spec (ndigits c + e - exp) 0) as [Hneg|Hnn].
  - change (ndigits 1) with 1. change (1 - 0) with 1.
    assert (Hsmall : 2 * c < 10 ^ (exp - e)).
    { pose proof (pow10_le (ndigits c) (exp - e - 1) ltac:(lia)).
      replace (exp - e) with ((exp - e - 1) + 1) by lia.
      rewrite pow10_succ by lia. lia. }
    destruct r; cbn [pick_rounding_function].
    + change (round_half_up 1 1) with (-1). change (1 / 10 ^ 1) with 0.
      cbn [Z.eqb]. f_equal. symmetry.
      pose proof (rhu_le_grid c (exp - e) 0 ltac:(lia) ltac:(lia)) as Hu.
      unfold rhu in *.
      pose proof (pow10_pos (exp - e) ltac:(lia)).
      rewrite Z.div_small in * by lia.
      destruct (round_half_up_cases c (exp - e) ltac:(lia) ltac:(lia))
        as [[E H1]|[[E H1]|[E H1]]]; rewrite E; cbn [Z.eqb Pos.eqb]; try reflexivity.
      rewrite Z.mod_small in H1 by lia. lia.
    + change (round_half_even 1 1) with (-1). change (1 / 10 ^ 1) with 0.
      cbn [Z.eqb]. f_equal. symmetry. apply rhe_small; lia.
  - replace (ndigits c - (ndigits c + e - exp)) with (exp - e) by lia.
    f_equal. destruct r; cbn [pick_rounding_function].
    + unfold rhu. destruct (round_half_up c (exp - e) =? 1); lia.
    + unfold rhe.
      destruct (round_half_even_cases c (exp - e) ltac:(lia) ltac:(lia))
        as [[H1 _]|[H1 _]].
      * replace (0 <? round_half_even c (exp - e)) with true
          by (symmetry; apply Z.ltb_lt; lia).
        assert (Hre : round_half_even c (exp - e) = 1).
        { unfold round_half_even in *. unfold round_half_up in *.
          repeat match goal with
                 | |- context [if ?b then _ else _] => destruct b
                 | H : context [if ?b then _ else _] |- _ => destruct b
                 end; lia. }
        rewrite Hre. reflexivity.
      * replace (0 <? round_half_even c (exp - e)) with false
          by (symmetry; apply Z.ltb_ge; lia).
        replace (round_half_even c (exp - e) =? 1) with false
          by (symmetry; apply Z.eqb_neq; lia).
        lia.
Qed.

Lemma cents_of_nonneg (r : Rounding) (c e : Z) : 0 <= c -> 0 <= cents_of r c e.
Proof.
  intros Hc. unfold cents_of. destruct (Z.leb_spec (-2) e).
  - pose proof (pow10_pos (e + 2) ltac:(lia)). nia.
  - destruct r; [apply rhu_nonneg|apply rhe_nonneg]; lia.
Qed.

(** [quantize] to cents, in full: the rounded coefficient at exponent
    -2 when it fits ten digits, InvalidOperation when it does not. *)
Lemma quantize_cent (r : Rounding) (s : bool) (c e : Z) :
  0 <= c ->
  quantize r (Fin s c e) cent =
  if cents_of r c e <? 10 ^ prec then Ret (Fin s (cents_of r c e) (-2))
  else Raise InvalidOperation.
Proof.
  intros Hc. unfold quantize, cent.
  change (negb ((Etiny <=? -2) && (-2 <=? Emax))) with false. cbv iota.
  destruct (Z.eqb_spec c 0) as [->|Hne].
  - assert (H0 : cents_of r 0 e = 0).
    { unfold cents_of. destruct (Z.leb_spec (-2) e); [lia|].
      destruct r.
      - pose proof (rhu_le_grid 0 (-2 - e) 0 ltac:(lia) ltac:(lia) ltac:(lia)).
        pose proof (rhu_nonneg 0 (-2 - e) ltac:(lia) ltac:(lia)). lia.
      - apply rhe_small; [lia|lia|]. pose proof (pow10_pos (-2 - e) ltac:(lia)). lia. }
    rewrite H0. reflexivity.
  - assert (Hpos : 0 < c) by lia.
    pose proof (ndigits_ge1 c) as HL1.
    pose proof (ndigits_bounds c Hpos) as [HcLo HcHi].
    unfold adjusted.
    destruct (Z.ltb_spec prec (e + ndigits c - 1 - -2 + 1)) as [Hbig|Hfit].
    + (* ten digits cannot hold it *)
      assert (Hc10 : 10 ^ prec <= cents_of r c e).
      { unfold cents_of. destruct (Z.leb_spec (-2) e).
        - pose proof (pow10_le prec (ndigits c - 1 + (e + 2)) ltac:(unfold prec in *; lia)).
          rewrite pow10_split in H0 by lia.
          pose proof (pow10_pos (e + 2) ltac:(lia)). nia.
        - assert (Hg : 10 ^ prec * 10 ^ (-2 - e) <= c).
          { rewrite <- pow10_split by (unfold prec; lia).
            pose proof (pow10_le (prec + (-2 - e)) (ndigits c - 1)
                          ltac:(unfold prec in *; lia)). lia. }
          destruct r; [apply rhu_ge_grid|apply rhe_ge_grid]; lia. }
      replace (cents_of r c e <? 10 ^ prec) with false
        by (symmetry; apply Z.ltb_ge; lia).
      destruct (Emax <? e + ndigits c - 1); reflexivity.
    + replace (Emax <? e + ndigits c - 1) with false
        by (symmetry; apply Z.ltb_ge; unfold Emax, prec in *; lia).
      assert (Hfix : forall c', 0 <= c' < 10 ^ prec ->
                _fix s c' (-2) = Ret (Fin s c' (-2))).
      { intros c' Hc'. destruct (Z.eq_dec c' 0) as [->|Hc0]; [reflexivity|].
        apply fix_id; [lia|]. unfold representable.
        assert (ndigits c' <= prec) by (apply ndigits_le; [lia|unfold prec; lia]).
        unfold Etiny, Emax, Emin, prec in *. lia. }
      assert (Hchecks : forall c', 0 <= c' ->
                (if Emax <? -2 + ndigits c' - 1 then Raise InvalidOperation
                 else if prec <? ndigits c' then Raise InvalidOperation
                 else _fix s c' (-2)) =
                (if c' <? 10 ^ prec then Ret (Fin s c' (-2))
                 else Raise InvalidOperation)).
      { intros c' Hc'. destruct (Z.ltb_spec c' (10 ^ prec)) as [Hlt|Hge].
        - assert (ndigits c' <= prec) by (apply ndigits_le; [lia|unfold prec; lia]).
          replace (Emax <? -2 + ndigits c' - 1) with false
            by (symmetry; apply Z.ltb_ge; unfold Emax, prec in *; lia).
          replace (prec <? ndigits c') with false by (symmetry; apply Z.ltb_ge; lia).
          apply Hfix. lia.
        - assert (prec < ndigits c').
          { pose proof (ndigits_lt_pow c' Hc').
            apply pow10_lt_inv; [unfold prec; lia|pose proof (ndigits_ge1 c'); lia|lia]. }
          replace (prec <? ndigits c') with true by (symmetry; apply Z.ltb_lt; lia).
          destruct (Emax <? -2 + ndigits c' - 1); reflexivity. }
      unfold cents_of. destruct (Z.leb_spec (-2) e) as [He|He].
      * unfold _rescale.
        replace (c =? 0) with false by (symmetry; apply Z.eqb_neq; lia).
        replace (-2 <=? e) with true by (symmetry; apply Z.leb_le; lia).
        replace (e - -2) with (e + 2) by lia.
        unfold adjusted. apply Hchecks.
        pose proof (pow10_pos (e + 2) ltac:(lia)). nia.
      * rewrite rescale_coeff by lia.
        replace (-2 - e) with (-2 - e) by lia.
        unfold adjusted. apply Hchecks.
        destruct r; [apply rhu_nonneg|apply rhe_nonneg]; lia.
Qed.

(** ** Round-half-up in the words of the specification *)

Lemma Qfloor_unique (x : Q) (z : Z) :
  (inject_Z z <= x)%Q -> (x < inject_Z (z + 1))%Q -> Qfloor x = z.
Proof.
  intros Hlo Hhi.
  pose proof (Qfloor_le x) as H1. pose proof (Qlt_floor x) as H2.
  assert (A : (inject_Z (Qfloor x) < inject_Z (z + 1))%Q)
    by (eapply Qle_lt_trans; eassumption).
  assert (B : (inject_Z z < inject_Z (Qfloor x + 1))%Q)
    by (eapply Qle_lt_trans; eassumption).
  rewrite <- Zlt_Qlt in A, B. lia.
Qed.

Lemma round2_cents_mag (c e : Z) :
  0 <= c -> round2_cents (mag c e) = cents_of ROUND_HALF_UP c e.
Proof.
  intros Hc. unfold round2_cents, cents_of.
  rewrite Qabs_pos by (apply mag_nonneg; assumption).
  destruct (Z.leb_spec (-2) e) as [He|He].
  - apply Qfloor_unique.
    + rewrite (mag_scale c e (-2)) by lia. replace (e - -2) with (e + 2) by lia.
      change ((10 ^ (-2))%Q) with (1 # 100)%Q.
      set (n := inject_Z (c * 10 ^ (e + 2))). lra.
    + rewrite (mag_scale c e (-2)) by lia. replace (e - -2) with (e + 2) by lia.
      change ((10 ^ (-2))%Q) with (1 # 100)%Q.
      rewrite inject_Z_plus. set (n := inject_Z (c * 10 ^ (e + 2))).
      change (inject_Z 1) with 1%Q. lra.
  - set (k := -2 - e). assert (Hk : 0 < k) by (unfold k; lia).
    pose proof (pow10_pos k ltac:(lia)) as Hp.
    assert (HQ : (0 < inject_Z (10 ^ k))%Q)
      by (change 0%Q with (inject_Z 0); rewrite <- Zlt_Qlt; assumption).
    assert (Hmag : (mag c e * 100 == inject_Z c / inject_Z (10 ^ k))%Q).
    { unfold mag. replace e with (- k + -2) by (unfold k; lia).
      rewrite Qpow10_add, Qpower_opp, (Qpow10_Z k) by lia.
      change ((10 ^ (-2))%Q) with (1 # 100)%Q. field.
      intro H0. rewrite H0 in HQ. exact (Qlt_irrefl _ HQ). }
    pose proof (rhu_nonneg c k Hk Hc) as Hnn.
    pose proof (rhu_formula c k Hk Hc) as Hf.
    pose proof (Z.div_mod (2 * c + 10 ^ k) (2 * 10 ^ k) ltac:(lia)) as Hdm.
    pose proof (Z.mod_pos_bound (2 * c + 10 ^ k) (2 * 10 ^ k) ltac:(lia)) as Hmb.
    rewrite <- Hf in Hdm.
    assert (HT0 : ~ (inject_Z (10 ^ k) == 0)%Q)
      by (intro H0; rewrite H0 in HQ; exact (Qlt_irrefl _ HQ)).
    assert (Hlo : (inject_Z (2 * 10 ^ k * rhu c k) <= inject_Z (2 * c + 10 ^ k))%Q)
      by (rewrite <- Zle_Qle; lia).
    assert (Hhi : (inject_Z (2 * c + 10 ^ k) < inject_Z (2 * 10 ^ k * (rhu c k + 1)))%Q)
      by (rewrite <- Zlt_Qlt; lia).
    repeat rewrite inject_Z_mult in Hlo. repeat rewrite inject_Z_plus in Hlo.
    repeat rewrite inject_Z_mult in Hlo.
    repeat rewrite inject_Z_mult in Hhi. repeat rewrite inject_Z_plus in Hhi.
    repeat rewrite inject_Z_mult in Hhi.
    change (inject_Z 2) with 2%Q in Hlo, Hhi. change (inject_Z 1) with 1%Q in Hhi.
    remember (inject_Z (10 ^ k)) as T eqn:HeqT.
    remember (inject_Z c) as C eqn:HeqC.
    remember (inject_Z (rhu c k)) as R eqn:HeqR.
    apply Qfloor_unique.
    + rewrite Hmag, <- HeqR. apply (Qmult_le_r _ _ T HQ).
      setoid_replace ((C / T + (1 # 2)) * T)%Q with (C + T * (1 # 2))%Q by (field; exact HT0).
      lra.
    + rewrite Hmag, inject_Z_plus, <- HeqR. change (inject_Z 1) with 1%Q.
      apply (Qmult_lt_r _ _ T HQ).
      setoid_replace ((C / T + (1 # 2)) * T)%Q with (C + T * (1 # 2))%Q by (field; exact HT0).
      lra.
Qed.

(** ** The operations keep Decimals well formed *)

Lemma fix_dec_well_formed (d d' : Decimal) :
  well_formed d -> fix_dec d = Ret d' -> well_formed d'.
Proof.
  destruct d as [s c e|s]; cbn [fix_dec well_formed]; intros Hd H.
  - eapply fix_well_formed; eassumption.
  - injection H as <-. exact I.
Qed.

Lemma rescale_well_formed (r : Rounding) (s : bool) (c e exp : Z) :
  0 <= c -> well_formed (_rescale r s c e exp).
Proof.
  intros Hc. destruct (Z.eq_dec c 0) as [->|Hne]; [cbn; lia|].
  destruct (Z.le_gt_cases exp e) as [Hle|Hgt].
  - unfold _rescale.
    replace (c =? 0) with false by (symmetry; apply Z.eqb_neq; lia).
    replace (exp <=? e) with true by (symmetry; apply Z.leb_le; lia).
    cbn [well_formed]. pose proof (pow10_pos (e - exp) ltac:(lia)). nia.
  - rewrite rescale_coeff by lia. cbn [well_formed].
    destruct r; [apply rhu_nonneg|apply rhe_nonneg]; lia.
Qed.

Lemma normalize_nonneg (c1 e1 c2 e2 : Z) :
  0 <= c1 -> 0 <= c2 ->
  0 <= fst (fst (_normalize c1 e1 c2 e2)) /\
  0 <= fst (snd (_normalize c1 e1 c2 e2)).
Proof.
  intros H1 H2. unfold _normalize.
  destruct (e1 <? e2); cbn [fst snd].
  - split.
    + destruct (_ <? _); lia.
    + apply Z.mul_nonneg_nonneg; [lia|apply Z.pow_nonneg; lia].
  - split.
    + apply Z.mul_nonneg_nonneg; [lia|apply Z.pow_nonneg; lia].
    + destruct (_ <? _); lia.
Qed.

Lemma add_well_formed (a b d : Decimal) :
  well_formed a -> well_formed b -> add a b = Ret d -> well_formed d.
Proof.
  destruct a as [s1 c1 e1|s1], b as [s2 c2 e2|s2]; cbn [well_formed add];
    intros Ha Hb H.
  - cbv zeta in H.
    destruct ((c1 =? 0) && (c2 =? 0)) eqn:H00.
    { eapply fix_well_formed; [|eassumption]. lia. }
    destruct (c1 =? 0).
    { eapply fix_dec_well_formed; [|eassumption]. apply rescale_well_formed; assumption. }
    destruct (c2 =? 0).
    { eapply fix_dec_well_formed; [|eassumption]. apply rescale_well_formed; assumption. }
    pose proof (normalize_nonneg c1 e1 c2 e2 Ha Hb) as [Hi1 Hi2].
    destruct (_normalize c1 e1 c2 e2) as [[i1 x1] [i2 x2]]. cbn [fst snd] in *.
    destruct (Bool.eqb s1 s2).
    { eapply fix_well_formed; [|eassumption]. lia. }
    destruct (i1 =? i2).
    { eapply fix_well_formed; [|eassumption]. lia. }
    destruct (Z.ltb_spec i1 i2).
    { eapply fix_well_formed; [|eassumption]. lia. }
    eapply fix_well_formed; [|eassumption]. lia.
  - injection H as <-. exact I.
  - injection H as <-. exact I.
  - destruct (Bool.eqb s1 s2); [injection H as <-; exact I|discriminate].
Qed.

Lemma copy_negate_well_formed (a : Decimal) :
  well_formed a -> well_formed (copy_negate a).
Proof. destruct a; cbn; auto. Qed.

Lemma sub_well_formed (a b d : Decimal) :
  well_formed a -> well_formed b -> sub a b = Ret d -> well_formed d.
Proof.
  intros Ha Hb. unfold sub. apply add_well_formed; [assumption|].
  apply copy_negate_well_formed; assumption.
Qed.

Lemma mul_well_formed (a b d : Decimal) :
  well_formed a -> well_formed b -> mul a b = Ret d -> well_formed d.
Proof.
  destruct a as [s1 c1 e1|s1], b as [s2 c2 e2|s2]; cbn [well_formed mul nonzero];
    intros Ha Hb H.
  - eapply fix_well_formed; [|eassumption]. nia.
  - destruct (c1 =? 0); [discriminate|injection H as <-; exact I].
  - destruct (negb (c2 =? 0)); [injection H as <-; exact I|discriminate].
  - injection H as <-; exact I.
Qed.

Lemma strip_zeros_nonneg (fuel : nat) (coeff exp ideal : Z) :
  0 <= coeff -> 0 <= fst (strip_zeros fuel coeff exp ideal).
Proof.
  revert coeff exp. induction fuel as [|f IH]; intros coeff exp Hc; cbn [strip_zeros].
  - exact Hc.
  - destruct ((exp <? ideal) && (coeff mod 10 =? 0)); [|exact Hc].
    apply IH. apply Z.div_pos; lia.
Qed.

Lemma div_coeff_nonneg (c1 e1 c2 e2 : Z) :
  0 <= c1 -> 0 <= c2 -> 0 <= fst (div_coeff c1 e1 c2 e2).
Proof.
  intros H1 H2. unfold div_coeff. cbv zeta.
  set (n := if 0 <=? _ then c1 * 10 ^ _ else c1).
  set (d := if 0 <=? _ then c2 else c2 * 10 ^ _).
  assert (Hn : 0 <= n).
  { unfold n. destruct (0 <=? _); [|lia].
    apply Z.mul_nonneg_nonneg; [lia|apply Z.pow_nonneg; lia]. }
  assert (Hd : 0 <= d).
  { unfold d. destruct (0 <=? _); [lia|].
    apply Z.mul_nonneg_nonneg; [lia|apply Z.pow_nonneg; lia]. }
  assert (Hq : 0 <= n / d).
  { destruct (Z.eq_dec d 0) as [->|Hd0]; [rewrite Z.div_0_r; lia|].
    apply Z.div_pos; lia. }
  destruct (n mod d =? 0).
  - apply strip_zeros_nonneg. assumption.
  - cbn [fst]. destruct (_ =? 0); lia.
Qed.

Lemma div_well_formed (a b d : Decimal) :
  well_formed a -> well_formed b -> div a b = Ret d -> well_formed d.
Proof.
  destruct a as [s1 c1 e1|s1], b as [s2 c2 e2|s2]; cbn [well_formed div];
    intros Ha Hb H.
  - cbv zeta in H. destruct (c2 =? 0).
    { destruct (c1 =? 0); discriminate. }
    destruct (c1 =? 0).
    { eapply fix_well_formed; [|eassumption]. lia. }
    pose proof (div_coeff_nonneg c1 e1 c2 e2 Ha Hb) as Hq.
    destruct (div_coeff c1 e1 c2 e2) as [coeff exp]. cbn [fst] in Hq.
    eapply fix_well_formed; eassumption.
  - injection H as <-. cbn. lia.
  - injection H as <-. exact I.
  - discriminate.
Qed.

Lemma div_coeff_in_nonneg (p c1 e1 c2 e2 : Z) :
  0 <= c1 -> 0 <= c2 -> 0 <= fst (div_coeff_in p c1 e1 c2 e2).
Proof.
  intros H1 H2. unfold div_coeff_in. cbv zeta.
  set (n := if 0 <=? _ then c1 * 10 ^ _ else c1).
  set (d := if 0 <=? _ then c2 else c2 * 10 ^ _).
  assert (Hn : 0 <= n).
  { unfold n. destruct (0 <=? _); [|lia].
    apply Z.mul_nonneg_nonneg; [lia|apply Z.pow_nonneg; lia]. }
  assert (Hd : 0 <= d).
  { unfold d. destruct (0 <=? _); [lia|].
    apply Z.mul_nonneg_nonneg; [lia|apply Z.pow_nonneg; lia]. }
  assert (Hq : 0 <= n / d).
  { destruct (Z.eq_dec d 0) as [->|Hd0]; [rewrite Z.div_0_r; lia|].
    apply Z.div_pos; lia. }
  destruct (n mod d =? 0).
  - apply strip_zeros_nonneg. assumption.
  - cbn [fst]. destruct (_ =? 0); lia.
Qed.

Lemma pow_well_formed (a d : Decimal) (n : Z) :
  well_formed a -> pow a n = Ret d -> well_formed d.
Proof.
  intros Ha H. unfold pow in H.
  destruct (n =? 0).
  { destruct (nonzero a); [injection H as <-; cbn; lia|discriminate]. }
  destruct a as [s c e|s]; cbn [well_formed] in Ha.
  - destruct (c =? 0).
    { destruct (0 <? n); injection H as <-; cbn; [lia|exact I]. }
    cbv zeta in H.
    pose proof (work_precision n) as Hw.
    set (work := prec + ndigits (Z.abs n) + 2 + (if n <? 0 then 1 else 0)) in *.
    assert (Hp : 1 <= work) by (unfold prec in Hw; lia).
    destruct (if n <? 0 then div_in work 1 0 c e else Ret (c, e))
      as [tbase|] eqn:Hb; [|discriminate].
    cbn [obind] in H.
    assert (Htb : 0 <= fst tbase).
    { destruct (n <? 0).
      - unfold div_in in Hb.
        pose proof (div_coeff_in_nonneg work 1 0 c e ltac:(lia) Ha) as Hq.
        destruct (div_coeff_in work 1 0 c e) as [coeff exp]. cbn [fst] in Hq.
        destruct tbase as [c' e'].
        apply (fix_in_representable work Hp coeff exp c' e' Hq Hb).
      - injection Hb as <-. exact Ha. }
    destruct (pow_uint work tbase (Z.to_pos (Z.abs n))) as [r|] eqn:Hr;
      [|discriminate].
    cbn [obind] in H.
    pose proof (pow_uint_nonneg work tbase _ r Hp Htb Hr) as Hrn.
    eapply fix_well_formed; eassumption.
  - destruct (0 <? n); injection H as <-; cbn; [exact I|lia].
Qed.

Lemma quantize_well_formed (r : Rounding) (a d : Decimal) :
  well_formed a -> quantize r a cent = Ret d -> well_formed d.
Proof.
  destruct a as [s c e|s]; cbn [well_formed]; intros Ha H.
  - rewrite quantize_cent in H by assumption.
    destruct (_ <? _); [|discriminate]. injection H as <-.
    cbn [well_formed]. apply cents_of_nonneg. assumption.
  - discriminate.
Qed.

Lemma init_well_formed (p r : Decimal) (y : Z) (lc : LoanCalculator) :
  well_formed p -> well_formed r -> init p r y = Ret lc -> well_formed_loan lc.
Proof.
  intros Hp Hr H. unfold init in H.
  destruct (div r (Fin false 12 0)) as [m|] eqn:Hm; cbn [obind] in H; [|discriminate].
  injection H as <-. unfold well_formed_loan. cbn.
  repeat split; try assumption.
  eapply div_well_formed; [exact Hr| |exact Hm]. cbn. lia.
Qed.

(** ** The monthly payment *)

Lemma finite_well_formed (d : Decimal) : is_finite d -> well_formed d.
Proof. destruct d; cbn; [auto|contradiction]. Qed.

Lemma finite_loan_well_formed (lc : LoanCalculator) :
  finite_loan lc -> well_formed_loan lc.
Proof.
  intros (H1 & H2 & H3). repeat split; apply finite_well_formed; assumption.
Qed.

Lemma finite_loan_example (cp ep cr er y cm em n : Z) :
  0 <= cp -> 0 <= cr -> 0 <= cm ->
  finite_loan (mkLoanCalculator (dec cp ep) (dec cr er) y (dec cm em) n).
Proof. intros. repeat split; assumption. Qed.

(** ** Values of rounded results *)

(** Rounding is monotone against any bound the context can hold. *)
Lemma fix_value_le (s : bool) (c e : Z) (d : Decimal) (sy : bool) (cy ey : Z) :
  0 <= c -> _fix s c e = Ret d -> representable cy ey ->
  (value (Fin s c e) <= value (Fin sy cy ey))%Q ->
  (value d <= value (Fin sy cy ey))%Q.
Proof.
  intros Hc H [Hcy [Hey _]] Hle.
  destruct (Z.eq_dec c 0) as [->|Hne].
  - rewrite fix_zero in H. injection H as <-.
    cbn [value] in *. destruct s; rewrite mag_zero in *; exact Hle.
  - assert (Hpos : 0 < c) by lia.
    destruct (fix_representable s c e d Hc H) as (c' & e' & -> & [[Hc' _] _]).
    pose proof (fix_exp_ge s c e c' e' Hpos H) as Hee.
    pose proof (mag_pos c e Hpos) as Hm.
    pose proof (mag_nonneg c' e' Hc') as Hm'.
    pose proof (mag_nonneg cy ey ltac:(lia)) as Hmy.
    cbn [value] in *. destruct s, sy.
    + assert (Hge : (mag cy ey <= mag c e)%Q) by lra.
      apply (mag_le_iff (Z.min e ey)) in Hge; try lia.
      pose proof (fix_ge_bound_Z true c e c' e' cy ey (Z.min e ey)
                    Hpos H Hcy Hey ltac:(lia) ltac:(lia) Hge) as Hb.
      apply (mag_le_iff (Z.min e ey)) in Hb; try lia. lra.
    + lra.
    + lra.
    + apply (mag_le_iff (Z.min e ey)) in Hle; try lia.
      pose proof (fix_le_bound_Z false c e c' e' cy ey (Z.min e ey)
                    Hpos H Hcy Hey ltac:(lia) ltac:(lia) Hle) as Hb.
      apply (mag_le_iff (Z.min e ey)) in Hb; try lia. exact Hb.
Qed.

Lemma fix_value_ge (s : bool) (c e : Z) (d : Decimal) (sy : bool) (cy ey : Z) :
  0 <= c -> _fix s c e = Ret d -> representable cy ey ->
  (value (Fin sy cy ey) <= value (Fin s c e))%Q ->
  (value (Fin sy cy ey) <= value d)%Q.
Proof.
  intros Hc H [Hcy [Hey _]] Hle.
  destruct (Z.eq_dec c 0) as [->|Hne].
  - rewrite fix_zero in H. injection H as <-.
    cbn [value] in *. destruct s; rewrite mag_zero in *; exact Hle.
  - assert (Hpos : 0 < c) by lia.
    destruct (fix_representable s c e d Hc H) as (c' & e' & -> & [[Hc' _] _]).
    pose proof (fix_exp_ge s c e c' e' Hpos H) as Hee.
    pose proof (mag_pos c e Hpos) as Hm.
    pose proof (mag_nonneg c' e' Hc') as Hm'.
    pose proof (mag_nonneg cy ey ltac:(lia)) as Hmy.
    cbn [value] in *. destruct s, sy.
    + assert (Hge : (mag c e <= mag cy ey)%Q) by lra.
      apply (mag_le_iff (Z.min e ey)) in Hge; try lia.
      pose proof (fix_le_bound_Z true c e c' e' cy ey (Z.min e ey)
                    Hpos H Hcy Hey ltac:(lia) ltac:(lia) Hge) as Hb.
      apply (mag_le_iff (Z.min e ey)) in Hb; try lia. lra.
    + lra.
    + lra.
    + apply (mag_le_iff (Z.min e ey)) in Hle; try lia.
      pose proof (fix_ge_bound_Z false c e c' e' cy ey (Z.min e ey)
                    Hpos H Hcy Hey ltac:(lia) ltac:(lia) Hle) as Hb.
      apply (mag_le_iff (Z.min e ey)) in Hb; try lia. exact Hb.
Qed.

(** A value the context can hold is not changed by rounding. *)
Lemma fix_value_eq (s : bool) (c e : Z) (d : Decimal) (sy : bool) (cy ey : Z) :
  0 <= c -> _fix s c e = Ret d -> representable cy ey ->
  (value (Fin s c e) == value (Fin sy cy ey))%Q ->
  (value d == value (Fin sy cy ey))%Q.
Proof.
  intros Hc H Hr Heq. apply Qle_antisym.
  - eapply fix_value_le; try eassumption. rewrite Heq. apply Qle_refl.
  - eapply fix_value_ge; try eassumption. rewrite Heq. apply Qle_refl.
Qed.

Lemma value_pad (s : bool) (c e j : Z) :
  0 <= j -> (value (Fin s (c * 10 ^ j) (e - j)) == value (Fin s c e))%Q.
Proof.
  intros Hj. cbn [value].
  assert (H : (mag (c * 10 ^ j) (e - j) == mag c e)%Q).
  { apply (mag_eq_iff (e - j)); try lia.
    replace (e - j - (e - j)) with 0 by lia. replace (e - (e - j)) with j by lia.
    rewrite Z.pow_0_r. lia. }
  destruct s; rewrite H; reflexivity.
Qed.

(** ** Rounding to cents is monotone *)

Lemma round2_cents_mono (x y : Q) :
  (0 <= x)%Q -> (x <= y)%Q -> round2_cents x <= round2_cents y.
Proof.
  intros Hx Hxy. unfold round2_cents.
  rewrite !Qabs_pos by lra. apply Qfloor_resp_le. lra.
Qed.

Lemma quantize_half_up_fin (s : bool) (c e : Z) (d : Decimal) :
  0 <= c -> quantize ROUND_HALF_UP (Fin s c e) cent = Ret d ->
  d = Fin s (round2_cents (mag c e)) (-2) /\
  0 <= round2_cents (mag c e) < 10 ^ prec.
Proof.
  intros Hc H. rewrite quantize_cent in H by assumption.
  rewrite round2_cents_mag by assumption.
  destruct (Z.ltb_spec (cents_of ROUND_HALF_UP c e) (10 ^ prec)); [|discriminate].
  injection H as <-. split; [reflexivity|].
  pose proof (cents_of_nonneg ROUND_HALF_UP c e Hc). lia.
Qed.

Lemma mag_cents (n : Z) : (mag n (-2) == inject_Z n / 100)%Q.
Proof. unfold mag. change ((10 ^ (-2))%Q) with (1 # 100)%Q. field. Qed.

Lemma mag_zero_inv (c e : Z) : 0 <= c -> (mag c e <= 0)%Q -> c = 0.
Proof.
  intros Hc H. destruct (Z.eq_dec c 0) as [|Hne]; [assumption|].
  pose proof (mag_pos c e ltac:(lia)). lra.
Qed.

Lemma quantize_half_up_mono (a b a' b' : Decimal) :
  well_formed a -> well_formed b ->
  quantize ROUND_HALF_UP a cent = Ret a' ->
  quantize ROUND_HALF_UP b cent = Ret b' ->
  (value a <= value b)%Q -> (value a' <= value b')%Q.
Proof.
  destruct a as [sa ca ea|sa]; [|discriminate].
  destruct b as [sb cb eb|sb]; [|intros; discriminate].
  cbn [well_formed]. intros Ha Hb Hqa Hqb Hle.
  apply quantize_half_up_fin in Hqa as [-> [Ha0 _]]; [|assumption].
  apply quantize_half_up_fin in Hqb as [-> [Hb0 _]]; [|assumption].
  pose proof (mag_nonneg ca ea Ha) as Hma. pose proof (mag_nonneg cb eb Hb) as Hmb.
  cbn [value] in *.
  assert (Hdiv : forall m n : Z, m <= n -> (inject_Z m / 100 <= inject_Z n / 100)%Q).
  { intros m n Hmn. rewrite (Zle_Qle m n) in Hmn. unfold Qdiv.
    apply Qmult_le_compat_r; [assumption|discriminate]. }
  destruct sa, sb; rewrite !mag_cents.
  - assert (H : round2_cents (mag cb eb) <= round2_cents (mag ca ea))
      by (apply round2_cents_mono; lra).
    apply Hdiv in H. lra.
  - assert (Hnn : forall n : Z, 0 <= n -> (0 <= inject_Z n / 100)%Q).
    { intros n Hn. rewrite (Zle_Qle 0 n) in Hn. unfold Qdiv.
      apply Qmult_le_0_compat; [assumption|discriminate]. }
    pose proof (Hnn _ Ha0). pose proof (Hnn _ Hb0). lra.
  - assert (ca = 0) by (apply (mag_zero_inv ca ea); [assumption|lra]).
    assert (cb = 0) by (apply (mag_zero_inv cb eb); [assumption|lra]).
    subst. rewrite !round2_cents_mag by lia.
    assert (H0 : forall e, cents_of ROUND_HALF_UP 0 e = 0).
    { intros e. unfold cents_of. destruct (Z.leb_spec (-2) e); [lia|].
      pose proof (rhu_le_grid 0 (-2 - e) 0 ltac:(lia) ltac:(lia) ltac:(lia)).
      pose proof (rhu_nonneg 0 (-2 - e) ltac:(lia) ltac:(lia)). lia. }
    rewrite !H0. apply Qle_refl || lra.
  - apply Hdiv. apply round2_cents_mono; lra.
Qed.

(** ** Addition *)

Lemma mag_plus (a b e : Z) : (mag (a + b) e == mag a e + mag b e)%Q.
Proof. unfold mag. rewrite inject_Z_plus. ring. Qed.

Lemma mag_minus (a b e : Z) : (mag (a - b) e == mag a e - mag b e)%Q.
Proof.
  unfold mag. unfold Z.sub. rewrite inject_Z_plus, inject_Z_opp. ring.
Qed.

Lemma mag_shift (c e x : Z) : x <= e -> (mag (c * 10 ^ (e - x)) x == mag c e)%Q.
Proof.
  intros H. apply (mag_eq_iff x); try lia.
  replace (x - x) with 0 by lia. rewrite Z.pow_0_r. lia.
Qed.

Lemma mag_lt_unit (c e X : Z) :
  0 < c -> ndigits c + e <= X -> (mag c e < mag 1 X)%Q.
Proof.
  intros Hc H. apply (mag_lt_iff (Z.min e X)); try lia.
  pose proof (ndigits_ge1 c). pose proof (ndigits_lt_pow c ltac:(lia)) as Hlt.
  pose proof (pow10_pos (e - Z.min e X) ltac:(lia)) as Hp.
  assert (Hle : 10 ^ ndigits c * 10 ^ (e - Z.min e X) <= 10 ^ (X - Z.min e X)).
  { rewrite <- pow10_split by lia. apply pow10_le. lia. }
  nia.
Qed.

Lemma mag_ten_le (c e X : Z) :
  0 < c -> X + 1 <= e -> (mag 10 X <= mag c e)%Q.
Proof.
  intros Hc H. apply (mag_le_iff X); try lia.
  replace (X - X) with 0 by lia. rewrite Z.pow_0_r.
  pose proof (pow10_le 1 (e - X) ltac:(lia)) as Hp. change (10 ^ 1) with 10 in Hp.
  nia.
Qed.

(** [_normalize]: both operands at one exponent, each exact or sticky. *)
Lemma normalize_spec (c1 e1 c2 e2 : Z) :
  0 < c1 -> 0 < c2 ->
  exists i1 i2 x,
    _normalize c1 e1 c2 e2 = ((i1, x), (i2, x)) /\
    0 < i1 /\ 0 < i2 /\
    (forall s, seen_as s c1 e1 c2 e2 (value (Fin s i1 x))) /\
    (forall s, seen_as s c2 e2 c1 e1 (value (Fin s i2 x))).
Proof.
  intros H1 H2. unfold _normalize.
  pose proof (ndigits_ge1 c1) as HL1. pose proof (ndigits_ge1 c2) as HL2.
  assert (Hexact : forall c e x, x <= e -> forall s tc te,
            seen_as s c e tc te (value (Fin s (c * 10 ^ (e - x)) x))).
  { intros c e x Hx s tc te. left. cbn [value].
    destruct s; rewrite mag_shift by assumption; reflexivity. }
  assert (Hsame : forall c e s tc te, seen_as s c e tc te (value (Fin s c e))).
  { intros. left. reflexivity. }
  destruct (Z.ltb_spec e1 e2) as [He|He].
  - set (exp := e2 + Z.min (-1) (ndigits c2 - prec - 2)).
    destruct (Z.ltb_spec (ndigits c1 + e1 - 1) exp) as [Hst|Hst].
    + exists 1, (c2 * 10 ^ (e2 - exp)), exp. split; [reflexivity|].
      pose proof (pow10_pos (e2 - exp) ltac:(unfold exp; lia)).
      split; [lia|]. split; [nia|]. split.
      * intros s. right. exists exp. split; [reflexivity|]. split.
        -- apply mag_lt_unit; lia.
        -- apply mag_ten_le; [assumption|unfold exp; lia].
      * intros s. apply Hexact. unfold exp. lia.
    + exists c1, (c2 * 10 ^ (e2 - e1)), e1. split; [reflexivity|].
      pose proof (pow10_pos (e2 - e1) ltac:(lia)).
      split; [lia|]. split; [nia|]. split.
      * intros s. apply Hsame.
      * intros s. apply Hexact. lia.
  - set (exp := e1 + Z.min (-1) (ndigits c1 - prec - 2)).
    destruct (Z.ltb_spec (ndigits c2 + e2 - 1) exp) as [Hst|Hst].
    + exists (c1 * 10 ^ (e1 - exp)), 1, exp. split; [reflexivity|].
      pose proof (pow10_pos (e1 - exp) ltac:(unfold exp; lia)).
      split; [nia|]. split; [lia|]. split.
      * intros s. apply Hexact. unfold exp. lia.
      * intros s. right. exists exp. split; [reflexivity|]. split.
        -- apply mag_lt_unit; lia.
        -- apply mag_ten_le; [assumption|unfold exp; lia].
    + exists (c1 * 10 ^ (e1 - e2)), c2, e2. split; [reflexivity|].
      pose proof (pow10_pos (e1 - e2) ltac:(lia)).
      split; [nia|]. split; [lia|]. split.
      * intros s. apply Hexact. lia.
      * intros s. apply Hsame.
Qed.

(** The sum of two nonzero finite Decimals: the rounding of a number
    [va + vb] where each part is the operand as the addition sees it. *)
Lemma add_nonzero (s1 : bool) (c1 e1 : Z) (s2 : bool) (c2 e2 : Z) (d : Decimal) :
  0 < c1 -> 0 < c2 ->
  add (Fin s1 c1 e1) (Fin s2 c2 e2) = Ret d ->
  exists s i x va vb,
    0 <= i /\ _fix s i x = Ret d /\ (i = 0 -> s = false) /\
    (value (Fin s i x) == va + vb)%Q /\
    seen_as s1 c1 e1 c2 e2 va /\ seen_as s2 c2 e2 c1 e1 vb.
Proof.
  intros H1 H2 H. cbn [add] in H. cbv zeta in H.
  replace (c1 =? 0) with false in H by (symmetry; apply Z.eqb_neq; lia).
  replace (c2 =? 0) with false in H by (symmetry; apply Z.eqb_neq; lia).
  cbn [andb] in H.
  destruct (normalize_spec c1 e1 c2 e2 H1 H2) as (i1 & i2 & x & Hn & Hi1 & Hi2 & Ha & Hb).
  rewrite Hn in H.
  destruct s1, s2; cbn [Bool.eqb] in H.
  - exists true, (i1 + i2), x, (value (Fin true i1 x)), (value (Fin true i2 x)).
    repeat split; try assumption; try lia; auto.
    cbn [value]. rewrite mag_plus. ring.
  - destruct (Z.eqb_spec i1 i2) as [Heq|Hne].
    + exists false, 0, (Z.min e1 e2), (value (Fin true i1 x)), (value (Fin false i2 x)).
      repeat split; try assumption; try lia; auto.
      cbn [value]. rewrite mag_zero. subst. ring.
    + destruct (Z.ltb_spec i1 i2).
      * exists false, (i2 - i1), x, (value (Fin true i1 x)), (value (Fin false i2 x)).
        repeat split; try assumption; try lia; auto.
        cbn [value]. rewrite mag_minus. ring.
      * exists true, (i1 - i2), x, (value (Fin true i1 x)), (value (Fin false i2 x)).
        repeat split; try assumption; try lia; auto.
        cbn [value]. rewrite mag_minus. ring.
  - destruct (Z.eqb_spec i1 i2) as [Heq|Hne].
    + exists false, 0, (Z.min e1 e2), (value (Fin false i1 x)), (value (Fin true i2 x)).
      repeat split; try assumption; try lia; auto.
      cbn [value]. rewrite mag_zero. subst. ring.
    + destruct (Z.ltb_spec i1 i2).
      * exists true, (i2 - i1), x, (value (Fin false i1 x)), (value (Fin true i2 x)).
        repeat split; try assumption; try lia; auto.
        cbn [value]. rewrite mag_minus. ring.
      * exists false, (i1 - i2), x, (value (Fin false i1 x)), (value (Fin true i2 x)).
        repeat split; try assumption; try lia; auto.
        cbn [value]. rewrite mag_minus. ring.
  - exists false, (i1 + i2), x, (value (Fin false i1 x)), (value (Fin false i2 x)).
    repeat split; try assumption; try lia; auto.
    cbn [value]. rewrite mag_plus. ring.
Qed.

(** Adding a zero: the other operand, padded and rounded. *)
Lemma add_zero_r (s1 : bool) (c1 e1 : Z) (s2 : bool) (e2 : Z) :
  0 < c1 ->
  exists j, 0 <= j /\
    add (Fin s1 c1 e1) (Fin s2 0 e2) = _fix s1 (c1 * 10 ^ j) (e1 - j).
Proof.
  intros H1. cbn [add]. cbv zeta.
  replace (c1 =? 0) with false by (symmetry; apply Z.eqb_neq; lia).
  cbn [andb Z.eqb].
  set (exp := Z.max (Z.min e1 e2) (e1 - prec - 1)).
  assert (Hexp : exp <= e1) by (unfold exp, prec; lia).
  exists (e1 - exp). split; [lia|].
  unfold _rescale.
  replace (c1 =? 0) with false by (symmetry; apply Z.eqb_neq; lia).
  replace (exp <=? e1) with true by (symmetry; apply Z.leb_le; lia).
  cbn [fix_dec]. f_equal. lia.
Qed.

Lemma add_zero_l (s1 : bool) (e1 : Z) (s2 : bool) (c2 e2 : Z) :
  0 < c2 ->
  exists j, 0 <= j /\
    add (Fin s1 0 e1) (Fin s2 c2 e2) = _fix s2 (c2 * 10 ^ j) (e2 - j).
Proof.
  intros H2. cbn [add]. cbv zeta.
  replace (c2 =? 0) with false by (symmetry; apply Z.eqb_neq; lia).
  cbn [andb Z.eqb].
  set (exp := Z.max (Z.min e1 e2) (e2 - prec - 1)).
  assert (Hexp : exp <= e2) by (unfold exp, prec; lia).
  exists (e2 - exp). split; [lia|].
  unfold _rescale.
  replace (c2 =? 0) with false by (symmetry; apply Z.eqb_neq; lia).
  replace (exp <=? e2) with true by (symmetry; apply Z.leb_le; lia).
  cbn [fix_dec]. f_equal. lia.
Qed.

Lemma add_zero_zero (s1 : bool) (e1 : Z) (s2 : bool) (e2 : Z) :
  add (Fin s1 0 e1) (Fin s2 0 e2) = _fix (s1 && s2) 0 (Z.min e1 e2).
Proof. reflexivity. Qed.

(** ** Balances along the schedule *)

Lemma mag_ten (X : Z) : (mag 10 X == 10 * mag 1 X)%Q.
Proof. unfold mag. change (inject_Z 10) with 10%Q. change (inject_Z 1) with 1%Q. ring. Qed.

Lemma add_fin_prefix (s1 : bool) (c1 e1 : Z) (s2 : bool) (c2 e2 : Z) (d : Decimal) :
  0 <= c1 -> 0 <= c2 ->
  add (Fin s1 c1 e1) (Fin s2 c2 e2) = Ret d ->
  exists s i x, 0 <= i /\ _fix s i x = Ret d.
Proof.
  intros H1 H2 H.
  destruct (Z.eq_dec c1 0) as [->|N1]; destruct (Z.eq_dec c2 0) as [->|N2].
  - rewrite add_zero_zero in H. eauto with zarith.
  - destruct (add_zero_l s1 e1 s2 c2 e2 ltac:(lia)) as (j & Hj & E). rewrite E in H.
    exists s2, (c2 * 10 ^ j), (e2 - j). split; [|assumption].
    pose proof (pow10_pos j Hj). nia.
  - destruct (add_zero_r s1 c1 e1 s2 e2 ltac:(lia)) as (j & Hj & E). rewrite E in H.
    exists s1, (c1 * 10 ^ j), (e1 - j). split; [|assumption].
    pose proof (pow10_pos j Hj). nia.
  - destruct (add_nonzero s1 c1 e1 s2 c2 e2 d ltac:(lia) ltac:(lia) H)
      as (s & i & x & _ & _ & Hi & Hf & _). eauto.
Qed.

Lemma add_fin_representable (s1 : bool) (c1 e1 : Z) (s2 : bool) (c2 e2 : Z)
    (d : Decimal) :
  0 <= c1 -> 0 <= c2 ->
  add (Fin s1 c1 e1) (Fin s2 c2 e2) = Ret d ->
  exists s c e, d = Fin s c e /\ representable c e.
Proof.
  intros H1 H2 H.
  destruct (add_fin_prefix _ _ _ _ _ _ _ H1 H2 H) as (s & i & x & Hi & Hf).
  destruct (fix_representable s i x d Hi Hf) as (c & e & -> & Hr). eauto.
Qed.

(** Taking a non-negative amount off a balance the context holds never
    gives more than that balance. *)
Lemma sub_nonneg_le (sa : bool) (ca ea : Z) (sp : bool) (cp ep : Z) (d : Decimal) :
  representable ca ea -> 0 <= cp ->
  (0 <= value (Fin sp cp ep))%Q ->
  sub (Fin sa ca ea) (Fin sp cp ep) = Ret d ->
  (value d <= value (Fin sa ca ea))%Q.
Proof.
  intros Hr Hcp Hpos H. unfold sub in H. cbn [copy_negate] in H.
  assert (Hca : 0 <= ca) by (destruct Hr as [[? _] _]; assumption).
  destruct (Z.eq_dec cp 0) as [->|Np].
  - destruct (Z.eq_dec ca 0) as [->|Na].
    + rewrite add_zero_zero, fix_zero in H. injection H as <-.
      cbn [value]. destruct (sa && negb sp), sa; rewrite !mag_zero; lra.
    + destruct (add_zero_r sa ca ea (negb sp) ep ltac:(lia)) as (j & Hj & E).
      rewrite E in H.
      eapply fix_value_le; [|exact H|exact Hr|].
      * pose proof (pow10_pos j Hj). nia.
      * rewrite value_pad by assumption. apply Qle_refl.
  - assert (Hsp : sp = false).
    { destruct sp; [|reflexivity]. cbn [value] in Hpos.
      pose proof (mag_pos cp ep ltac:(lia)). lra. }
    subst sp. cbn [negb] in H.
    pose proof (mag_pos cp ep ltac:(lia)) as Hmp.
    destruct (Z.eq_dec ca 0) as [->|Na].
    + destruct (add_zero_l sa ea true cp ep ltac:(lia)) as (j & Hj & E).
      rewrite E in H.
      eapply fix_value_le; [|exact H|exact Hr|].
      * pose proof (pow10_pos j Hj). nia.
      * rewrite value_pad by assumption. cbn [value].
        destruct sa; rewrite mag_zero; lra.
    + pose proof (mag_pos ca ea ltac:(lia)) as Hma.
      destruct (add_nonzero sa ca ea true cp ep d ltac:(lia) ltac:(lia) H)
        as (s & i & x & va & vb & Hi & Hf & _ & Hv & Hsa & Hsb).
      eapply fix_value_le; [exact Hi|exact Hf|exact Hr|].
      rewrite Hv.
      assert (Hlow : (- mag ca ea <= value (Fin sa ca ea))%Q)
        by (cbn [value]; destruct sa; lra).
      assert (Hup : (value (Fin sa ca ea) <= mag ca ea)%Q)
        by (cbn [value]; destruct sa; lra).
      destruct Hsa as [Ea|(X & Ea & Ha1 & Ha2)];
        destruct Hsb as [Eb|(Y & Eb & Hb1 & Hb2)];
        rewrite Ea, Eb; cbn [value] in *.
      * lra.
      * pose proof (mag_pos 1 Y ltac:(lia)). lra.
      * pose proof (mag_pos 1 X ltac:(lia)). rewrite mag_ten in Ha2.
        destruct sa; lra.
      * pose proof (mag_pos 1 X ltac:(lia)). pose proof (mag_pos 1 Y ltac:(lia)).
        rewrite mag_ten in Ha2, Hb2. lra.
Qed.

Section LoopValues.

Variables (lc : LoanCalculator) (P : Decimal).
Hypothesis Hlc : well_formed_loan lc.
Hypothesis HP : well_formed P.

Lemma running_balance_well_formed (k : nat) (B : Decimal) :
  running_balance lc P k = Ret B -> well_formed B.
Proof.
  destruct Hlc as (Hp & _ & Hr).
  revert B. induction k as [|k IH]; intros B H; cbn [running_balance] in H.
  - injection H as <-. assumption.
  - apply obind_ret_inv in H as (B0 & H0 & H).
    apply obind_ret_inv in H as (product & Hm & H).
    apply obind_ret_inv in H as (i & Hi & H).
    apply obind_ret_inv in H as (pp & Hpp & H).
    specialize (IH _ H0).
    assert (well_formed product) by (eapply mul_well_formed; [| |exact Hm]; assumption).
    assert (well_formed i) by (eapply quantize_well_formed; [|exact Hi]; assumption).
    assert (well_formed pp) by (eapply sub_well_formed; [| |exact Hpp]; assumption).
    eapply sub_well_formed; [| |exact H]; assumption.
Qed.

Lemma record_at_well_formed (k : nat) (rec : PaymentRecord) :
  record_at lc P k rec ->
  well_formed (interest rec) /\ well_formed (principal_paid rec) /\
  well_formed (balance rec).
Proof.
  destruct Hlc as (Hp & _ & Hr).
  intros (B & product & B' & H0 & Hm & Hi & Hpp & Hb & H1 & Hs & _ & _).
  pose proof (running_balance_well_formed _ _ H0) as HB.
  pose proof (running_balance_well_formed _ _ H1) as HB'.
  assert (well_formed product) by (eapply mul_well_formed; [| |exact Hm]; assumption).
  assert (well_formed (interest rec))
    by (eapply quantize_well_formed; [|exact Hi]; assumption).
  assert (well_formed (principal_paid rec))
    by (eapply sub_well_formed; [| |exact Hpp]; assumption).
  repeat split; try assumption. eapply quantize_well_formed; [exact HB'|exact Hs].
Qed.

End LoopValues.

Lemma payment_of_well_formed (lc : LoanCalculator) (P : Decimal) :
  well_formed_loan lc -> payment_of lc = Ret P -> well_formed P.
Proof.
  intros (Hp & _ & Hr) H. unfold payment_of in H.
  destruct (eqb _ _).
  - eapply div_well_formed; [exact Hp| |exact H].
    unfold of_int. cbn [well_formed]. lia.
  - apply obind_ret_inv in H as (base & H1 & H).
    apply obind_ret_inv in H as (factor & H2 & H).
    apply obind_ret_inv in H as (rf & H3 & H).
    apply obind_ret_inv in H as (num & H4 & H).
    apply obind_ret_inv in H as (den & H5 & H).
    apply obind_ret_inv in H as (m & H6 & H).
    assert (Hb : well_formed base)
      by (eapply add_well_formed; [| |exact H1]; [cbn; lia|assumption]).
    assert (Hf : well_formed factor) by (eapply pow_well_formed; eassumption).
    assert (Hrf : well_formed rf) by (eapply mul_well_formed; [| |exact H3]; assumption).
    assert (Hn : well_formed num) by (eapply mul_well_formed; [| |exact H4]; assumption).
    assert (Hd : well_formed den)
      by (eapply sub_well_formed; [| |exact H5]; [assumption|cbn; lia]).
    assert (Hm : well_formed m) by (eapply div_well_formed; [| |exact H6]; assumption).
    eapply quantize_well_formed; [exact Hm|exact H].
Qed.

Lemma quantize_fin (r : Rounding) (a d : Decimal) :
  quantize r a cent = Ret d -> exists s c e, a = Fin s c e.
Proof. destruct a as [s c e|s]; [eauto|discriminate]. Qed.

Lemma add_fin_inv (a b : Decimal) (s : bool) (c e : Z) :
  add a b = Ret (Fin s c e) ->
  (exists s1 c1 e1, a = Fin s1 c1 e1) /\ (exists s2 c2 e2, b = Fin s2 c2 e2).
Proof.
  destruct a as [s1 c1 e1|s1], b as [s2 c2 e2|s2]; cbn [add]; intros H.
  - split; eauto.
  - discriminate.
  - discriminate.
  - destruct (Bool.eqb s1 s2); discriminate.
Qed.

Lemma sub_fin_inv (a b : Decimal) (s : bool) (c e : Z) :
  sub a b = Ret (Fin s c e) ->
  (exists s1 c1 e1, a = Fin s1 c1 e1) /\ (exists s2 c2 e2, b = Fin s2 c2 e2).
Proof.
  unfold sub. intros H. apply (add_fin_inv a (copy_negate b)) in H as [Ha (s2 & c2 & e2 & Hb)].
  split; [assumption|]. destruct b as [sb cb eb|sb]; [eauto|discriminate].
Qed.

(** ** Construction *)

Lemma fix_returns (s : bool) (c e : Z) :
  0 <= c -> e + ndigits c - 1 < Emax -> exists d, _fix s c e = Ret d.
Proof.
  intros Hc Ha. destruct (Z.eq_dec c 0) as [->|Hne]; [rewrite fix_zero; eauto|].
  rewrite fix_spec by lia.
  replace (Etop <? ndigits c + e - prec) with false
    by (symmetry; apply Z.ltb_ge; unfold Etop; lia).
  cbv zeta. set (E := Z.max (ndigits c + e - prec) Etiny).
  assert (HE : E + 1 <= Etop) by (unfold E, Etop, Etiny, Emax, Emin, prec in *; lia).
  replace (Etop <? E + 1) with false by (symmetry; apply Z.ltb_ge; lia).
  destruct (e <? E); [destruct (_ =? _)|]; eauto.
Qed.

Lemma strip_zeros_adjusted (fuel : nat) (coeff exp ideal : Z) :
  0 < coeff ->
  0 < fst (strip_zeros fuel coeff exp ideal) /\
  snd (strip_zeros fuel coeff exp ideal) + ndigits (fst (strip_zeros fuel coeff exp ideal))
  = exp + ndigits coeff.
Proof.
  revert coeff exp. induction fuel as [|f IH]; intros coeff exp Hc; cbn [strip_zeros].
  - cbn [fst snd]. split; [assumption|reflexivity].
  - destruct (exp <? ideal); cbn [andb]; [|cbn [fst snd]; split; [assumption|reflexivity]].
    destruct (Z.eqb_spec (coeff mod 10) 0) as [Hm|Hm];
      [|cbn [fst snd]; split; [assumption|reflexivity]].
    pose proof (Z.div_mod coeff 10 ltac:(lia)) as Hdm.
    assert (Hq : 0 < coeff / 10) by lia.
    destruct (IH (coeff / 10) (exp + 1) Hq) as [H1 H2].
    split; [assumption|]. rewrite H2.
    pose proof (ndigits_mul_pow10 (coeff / 10) 1 Hq ltac:(lia)) as Hn.
    change (10 ^ 1) with 10 in Hn.
    replace (coeff / 10 * 10) with coeff in Hn by lia. lia.
Qed.

(** The quotient by 12, before rounding, lies one decade below the
    dividend. *)
Lemma div_coeff_by_12 (c e : Z) :
  0 < c ->
  0 < fst (div_coeff c e 12 0) /\
  snd (div_coeff c e 12 0) + ndigits (fst (div_coeff c e 12 0)) <= e + ndigits c - 1.
Proof.
  intros Hc. unfold div_coeff. change (ndigits 12) with 2. cbv zeta.
  pose proof (ndigits_ge1 c) as HL1.
  pose proof (ndigits_bounds c Hc) as [Hlo Hhi].
  set (L := ndigits c) in *.
  set (shift := 2 - L + prec + 1).
  set (n := if 0 <=? shift then c * 10 ^ shift else c).
  set (d := if 0 <=? shift then 12 else 12 * 10 ^ (- shift)).
  set (exp := e - 0 - shift).
  assert (Hq : 10 ^ 12 <= 12 * (n / d) + 12 /\ 12 * (n / d) <= 10 ^ 13 /\ 0 < d).
  { unfold n, d. destruct (Z.leb_spec 0 shift) as [Hs|Hs].
    - assert (H12 : 10 ^ 12 * 1 <= c * 10 ^ shift < 10 ^ 13).
      { assert (E1 : 10 ^ 12 = 10 ^ (L - 1) * 10 ^ shift)
          by (rewrite <- pow10_split by lia; f_equal; unfold shift, prec; lia).
        assert (E2 : 10 ^ 13 = 10 ^ L * 10 ^ shift)
          by (rewrite <- pow10_split by lia; f_equal; unfold shift, prec; lia).
        pose proof (pow10_pos shift Hs). rewrite E1, E2. nia. }
      pose proof (Z.div_mod (c * 10 ^ shift) 12 ltac:(lia)).
      pose proof (Z.mod_pos_bound (c * 10 ^ shift) 12 ltac:(lia)). lia.
    - pose proof (pow10_pos (- shift) ltac:(lia)) as Hp.
      assert (E1 : 10 ^ (L - 1) = 10 ^ 12 * 10 ^ (- shift))
        by (rewrite <- pow10_split by lia; f_equal; unfold shift, prec; lia).
      assert (E2 : 10 ^ L = 10 ^ 13 * 10 ^ (- shift))
        by (rewrite <- pow10_split by lia; f_equal; unfold shift, prec; lia).
      pose proof (Z.div_mod c (12 * 10 ^ (- shift)) ltac:(lia)) as Hdm.
      pose proof (Z.mod_pos_bound c (12 * 10 ^ (- shift)) ltac:(lia)) as Hmb.
      set (q := c / (12 * 10 ^ (- shift))) in *.
      set (r := c mod (12 * 10 ^ (- shift))) in *.
      split; [|split; [|lia]]; nia. }
  destruct Hq as (Hq1 & Hq2 & Hd).
  change (10 ^ 12) with 1000000000000 in *. change (10 ^ 13) with 10000000000000 in *.
  assert (Hqpos : 0 < n / d) by lia.
  assert (Hexp : exp + 12 = e + L - 1) by (unfold exp, shift, prec; lia).
  destruct (n mod d =? 0).
  - destruct (strip_zeros_adjusted (Z.to_nat (e - 0 - exp)) (n / d) exp (e - 0) Hqpos)
      as [H1 H2].
    split; [assumption|]. rewrite H2.
    assert (ndigits (n / d) <= 12) by (apply ndigits_le; [|lia];
      change (10 ^ 12) with 1000000000000; lia).
    lia.
  - cbn [fst snd].
    assert (Hc1 : 0 < (if n / d mod 5 =? 0 then n / d + 1 else n / d)
                  /\ (if n / d mod 5 =? 0 then n / d + 1 else n / d) < 10 ^ 12).
    { change (10 ^ 12) with 1000000000000. destruct (_ =? 0); lia. }
    split; [lia|].
    assert (ndigits (if n / d mod 5 =? 0 then n / d + 1 else n / d) <= 12)
      by (apply ndigits_le; lia).
    lia.
Qed.

Lemma div_by_12_returns (r : Decimal) :
  rate_in_range r -> exists m, div r (Fin false 12 0) = Ret m.
Proof.
  destruct r as [s c e|s]; cbn [rate_in_range div]; [|eauto].
  intros [Hc Ha]. cbv zeta. cbn [Z.eqb].
  destruct (Z.eqb_spec c 0) as [->|Hne]; [rewrite fix_zero; eauto|].
  destruct (div_coeff_by_12 c e ltac:(lia)) as [Hq Hadj].
  destruct (div_coeff c e 12 0) as [coeff exp]. cbn [fst snd] in *.
  apply fix_returns; [lia|]. unfold adjusted in Ha. lia.
Qed.

(** ** Signs and comparisons *)

Lemma fix_result (s : bool) (c e : Z) (d : Decimal) :
  0 <= c -> _fix s c e = Ret d ->
  exists c' e', d = Fin s c' e' /\ representable c' e'.
Proof. apply fix_representable. Qed.

Lemma mul_fin (s1 : bool) (c1 e1 : Z) (s2 : bool) (c2 e2 : Z) (d : Decimal) :
  0 <= c1 -> 0 <= c2 ->
  mul (Fin s1 c1 e1) (Fin s2 c2 e2) = Ret d ->
  exists c e, d = Fin (xorb s1 s2) c e /\ representable c e /\
              (c1 * c2 = 0 -> c = 0) /\ (0 < c1 * c2 -> _fix (xorb s1 s2) (c1 * c2) (e1 + e2) = Ret d).
Proof.
  intros H1 H2 H. cbn [mul] in H.
  assert (H0 : 0 <= c1 * c2) by nia.
  destruct (fix_result _ _ _ _ H0 H) as (c & e & -> & Hr).
  exists c, e. repeat split; try apply Hr; try assumption.
  - intros Hz. rewrite Hz, fix_zero in H. injection H as <- _. reflexivity.
  - intros _. assumption.
Qed.

Lemma div_fin_sign (s1 : bool) (c1 e1 : Z) (s2 : bool) (c2 e2 : Z) (d : Decimal) :
  0 <= c1 -> 0 <= c2 ->
  div (Fin s1 c1 e1) (Fin s2 c2 e2) = Ret d ->
  exists c e, d = Fin (xorb s1 s2) c e /\ representable c e /\ (c1 = 0 -> c = 0).
Proof.
  intros H1 H2 H. cbn [div] in H. cbv zeta in H.
  destruct (c2 =? 0); [destruct (c1 =? 0); discriminate|].
  destruct (Z.eqb_spec c1 0) as [->|Hne].
  - rewrite fix_zero in H. injection H as <-.
    eexists 0, _. split; [reflexivity|]. split; [|auto].
    unfold representable. change (ndigits 0) with 1.
    unfold Etiny, Emax, Emin, prec. split; [split; [lia|reflexivity]|lia].
  - pose proof (div_coeff_nonneg c1 e1 c2 e2 H1 H2) as Hq.
    destruct (div_coeff c1 e1 c2 e2) as [coeff exp]. cbn [fst] in Hq.
    destruct (fix_result _ _ _ _ Hq H) as (c & e & -> & Hr).
    exists c, e. repeat split; try apply Hr. intros; lia.
Qed.

Lemma eqb_zero (s : bool) (c e : Z) : eqb (Fin s c e) (of_int 0) = (c =? 0).
Proof.
  unfold eqb, of_int, _cmp. cbn [Z.ltb Z.compare Z.abs Z.eqb].
  destruct (c =? 0); [reflexivity|]. destruct s; reflexivity.
Qed.

Lemma value_fin_nonneg (c e : Z) : 0 <= c -> (0 <= value (Fin false c e))%Q.
Proof. intros. cbn [value]. apply mag_nonneg. assumption. Qed.

(** Finite Decimals of equal value compare equal. *)
Lemma eqb_of_value_eq (s1 : bool) (c1 e1 : Z) (s2 : bool) (c2 e2 : Z) :
  0 <= c1 -> 0 <= c2 ->
  (value (Fin s1 c1 e1) == value (Fin s2 c2 e2))%Q ->
  eqb (Fin s1 c1 e1) (Fin s2 c2 e2) = true.
Proof.
  intros H1 H2 Hv. unfold eqb, _cmp.
  destruct (Z.eqb_spec c1 0) as [->|N1].
  - assert (c2 = 0).
    { destruct (Z.eq_dec c2 0) as [|N2]; [assumption|exfalso].
      pose proof (mag_pos c2 e2 ltac:(lia)). cbn [value] in Hv.
      destruct s1, s2; rewrite mag_zero in Hv; lra. }
    subst. reflexivity.
  - destruct (Z.eqb_spec c2 0) as [->|N2].
    + exfalso. pose proof (mag_pos c1 e1 ltac:(lia)). cbn [value] in Hv.
      destruct s1, s2; rewrite mag_zero in Hv; lra.
    + pose proof (mag_pos c1 e1 ltac:(lia)) as M1.
      pose proof (mag_pos c2 e2 ltac:(lia)) as M2.
      assert (Hs : s1 = s2).
      { cbn [value] in Hv. destruct s1, s2; try reflexivity; lra. }
      subst s2.
      assert (Hm : (mag c1 e1 == mag c2 e2)%Q).
      { cbn [value] in Hv. destruct s1; lra. }
      apply (mag_eq_iff (Z.min e1 e2)) in Hm; try lia.
      assert (Hn : ndigits c1 + (e1 - Z.min e1 e2) = ndigits c2 + (e2 - Z.min e1 e2)).
      { rewrite <- !ndigits_mul_pow10 by lia. rewrite Hm. reflexivity. }
      destruct s1; cbn [andb negb].
      * unfold adjusted.
        replace (e1 + ndigits c1 - 1 =? e2 + ndigits c2 - 1) with true
          by (symmetry; apply Z.eqb_eq; lia).
        replace (Z.max 0 (e1 - e2)) with (e1 - Z.min e1 e2) by lia.
        replace (Z.max 0 (e2 - e1)) with (e2 - Z.min e1 e2) by lia.
        rewrite Hm, Z.eqb_refl. reflexivity.
      * unfold adjusted.
        replace (e1 + ndigits c1 - 1 =? e2 + ndigits c2 - 1) with true
          by (symmetry; apply Z.eqb_eq; lia).
        replace (Z.max 0 (e1 - e2)) with (e1 - Z.min e1 e2) by lia.
        replace (Z.max 0 (e2 - e1)) with (e2 - Z.min e1 e2) by lia.
        rewrite Hm, Z.eqb_refl. reflexivity.
Qed.

(** Rounding a padded coefficient the context can hold gives it back,
    with some of the padding. *)
Lemma fix_pad (s : bool) (c e j : Z) :
  representable c e -> 0 < c -> 0 <= j ->
  exists j', 0 <= j' /\
    _fix s (c * 10 ^ j) (e - j) = Ret (Fin s (c * 10 ^ j') (e - j')) /\
    representable (c * 10 ^ j') (e - j').
Proof.
  intros Hr Hc Hj. pose proof Hr as [[_ Hlt] [He Ha]].
  pose proof (pow10_pos j Hj) as Hp.
  assert (HL : ndigits c <= prec) by (apply ndigits_le; [lia|unfold prec; lia]).
  pose proof (ndigits_ge1 c) as HL1.
  rewrite fix_spec by nia.
  rewrite ndigits_mul_pow10 by assumption.
  replace (Etop <? ndigits c + j + (e - j) - prec) with false
    by (symmetry; apply Z.ltb_ge; unfold Etop; lia).
  cbv zeta. set (E := Z.max (ndigits c + j + (e - j) - prec) Etiny).
  assert (HEe : E <= e) by (unfold E; lia).
  destruct (Z.ltb_spec (e - j) E) as [Hlt'|Hge].
  - assert (Hk : 0 < E - (e - j)) by lia.
    assert (Hex : rhe (c * 10 ^ j) (E - (e - j)) = c * 10 ^ (e - E)).
    { apply rhe_exact; [lia|nia|].
      rewrite <- Z.mul_assoc, <- pow10_split by lia. do 2 f_equal. lia. }
    rewrite Hex.
    pose proof (pow10_pos (e - E) ltac:(lia)) as Hp'.
    assert (Hnd : ndigits (c * 10 ^ (e - E)) <= prec).
    { rewrite ndigits_mul_pow10 by lia. unfold E. lia. }
    assert (Hlt2 : c * 10 ^ (e - E) < 10 ^ prec).
    { pose proof (ndigits_lt_pow (c * 10 ^ (e - E)) ltac:(nia)).
      pose proof (pow10_le (ndigits (c * 10 ^ (e - E))) prec
                    ltac:(pose proof (ndigits_ge1 (c * 10 ^ (e - E))); lia)).
      lia. }
    replace (c * 10 ^ (e - E) =? 10 ^ prec) with false
      by (symmetry; apply Z.eqb_neq; lia).
    exists (e - E). split; [lia|]. split.
    + do 2 f_equal. lia.
    + unfold representable. split; [nia|]. split; [unfold E; lia|].
      rewrite ndigits_mul_pow10 by lia. lia.
  - exists j. split; [assumption|]. split; [reflexivity|].
    unfold representable. rewrite ndigits_mul_pow10 by assumption.
    split; [|unfold E in Hge; lia].
    split; [nia|].
    assert (ndigits (c * 10 ^ j) <= prec)
      by (rewrite ndigits_mul_pow10 by assumption; unfold E in Hge; lia).
    pose proof (ndigits_lt_pow (c * 10 ^ j) ltac:(nia)).
    pose proof (pow10_le (ndigits (c * 10 ^ j)) prec
                  ltac:(pose proof (ndigits_ge1 (c * 10 ^ j)); lia)).
    lia.
Qed.

(** ** The sign of the payment *)

Lemma representable_one : representable 1 0.
Proof.
  unfold representable. change (ndigits 1) with 1.
  unfold Etiny, Emax, Emin, prec. split; [split; [lia|reflexivity]|lia].
Qed.

Lemma positive_value (s : bool) (c e : Z) :
  0 <= c -> (0 < value (Fin s c e))%Q -> s = false /\ 0 < c.
Proof.
  intros Hc Hv. cbn [value] in Hv. pose proof (mag_nonneg c e Hc).
  destruct s; [lra|]. split; [reflexivity|].
  destruct (Z.eq_dec c 0) as [->|]; [rewrite mag_zero in Hv; lra|lia].
Qed.

Lemma seen_as_nonneg (c e tc te : Z) (v : Q) :
  0 <= c -> seen_as false c e tc te v -> (mag c e <= v)%Q.
Proof.
  intros Hc [Hv|(X & Hv & Hlt & _)]; cbn [value] in Hv; lra.
Qed.

Lemma seen_as_nonpos (c e tc te : Z) (v : Q) :
  0 <= c -> seen_as true c e tc te v -> (v <= - mag c e)%Q.
Proof.
  intros Hc [Hv|(X & Hv & Hlt & _)]; cbn [value] in Hv; lra.
Qed.

(** [1 + r] is at least 1 when [r] is not negative. *)
Lemma base_ge_one (cm em : Z) (base : Decimal) :
  0 <= cm -> add one (Fin false cm em) = Ret base ->
  exists cb eb, base = Fin false cb eb /\ 0 < cb /\ (1 <= mag cb eb)%Q.
Proof.
  intros Hc H. unfold one in H.
  destruct (Z.eq_dec cm 0) as [->|Hne].
  - destruct (add_zero_r false 1 0 false em ltac:(lia)) as (j & Hj & Hadd).
    rewrite Hadd in H.
    destruct (fix_pad false 1 0 j representable_one ltac:(lia) Hj)
      as (j' & Hj' & Hfix & _).
    rewrite Hfix in H. injection H as <-.
    exists (1 * 10 ^ j'), (0 - j'). split; [reflexivity|].
    pose proof (pow10_pos j' Hj'). split; [lia|].
    pose proof (value_pad false 1 0 j' Hj') as Hv. cbn [value] in Hv.
    rewrite Hv. rewrite mag_one. lra.
  - destruct (add_nonzero false 1 0 false cm em base ltac:(lia) ltac:(lia) H)
      as (s & i & x & va & vb & Hi & Hfix & _ & Hv & Ha & Hb).
    apply seen_as_nonneg in Ha; [|lia]. apply seen_as_nonneg in Hb; [|lia].
    pose proof (mag_nonneg cm em Hc) as Hm.
    assert (Hge : (value (Fin false 1 0) <= value (Fin s i x))%Q).
    { rewrite Hv. cbn [value]. lra. }
    pose proof (fix_value_ge s i x base false 1 0 Hi Hfix representable_one Hge) as Hb'.
    destruct (fix_representable s i x base Hi Hfix) as (cb & eb & -> & Hr).
    change (value (Fin false 1 0)) with (mag 1 0) in Hb'. rewrite mag_one in Hb'.
    assert (Hp : (0 < value (Fin s cb eb))%Q) by lra.
    destruct (positive_value s cb eb ltac:(apply Hr) Hp) as [-> Hpos].
    exists cb, eb. split; [reflexivity|]. split; [assumption|].
    cbn [value] in Hb'. assumption.
Qed.

Lemma eqb_one_exp (c e : Z) :
  0 < c -> eqb (Fin false c e) (Fin false 1 0) = true -> e <= 0.
Proof.
  intros Hc H. destruct (Z.le_gt_cases e 0) as [|He]; [assumption|exfalso].
  unfold eqb, _cmp in H.
  replace (c =? 0) with false in H by (symmetry; apply Z.eqb_neq; lia).
  cbn [Z.eqb andb negb] in H. cbv zeta in H.
  pose proof (ndigits_ge1 c).
  change (adjusted 1 0) with 0 in H. unfold adjusted in H.
  replace (e + ndigits c - 1 =? 0) with false in H
    by (symmetry; apply Z.eqb_neq; lia).
  replace (0 <? e + ndigits c - 1) with true in H
    by (symmetry; apply Z.ltb_lt; lia).
  discriminate.
Qed.

(** [(1 + r) ** n] is at least 1 when [1 + r] is. *)
Lemma pow_ge_one (cb eb n : Z) (F : Decimal) :
  0 < cb -> (1 <= mag cb eb)%Q -> 0 < n ->
  pow (Fin false cb eb) n = Ret F ->
  exists cF eF, F = Fin false cF eF /\ 0 < cF /\ (1 <= mag cF eF)%Q.
Proof.
  intros Hc Hm Hn H.
  rewrite pow_positive in H by lia. cbn [andb] in H.
  pose proof (ndigits_ge1 n) as Hd.
  assert (Hp : 1 <= prec + ndigits n + 2) by (unfold prec; lia).
  destruct (pow_uint _ _ _) as [r|] eqn:Hr; [|discriminate]. cbn [obind] in H.
  pose proof (pow_uint_nonneg _ (cb, eb) _ r Hp ltac:(cbn; lia) Hr) as Hrn.
  pose proof (pow_uint_ge_one _ (cb, eb) _ r Hp ltac:(cbn; lia) Hm Hr) as Hge.
  assert (Hge' : (value (Fin false 1 0) <= value (Fin false (fst r) (snd r)))%Q).
  { cbn [value]. rewrite mag_one. assumption. }
  pose proof (fix_value_ge false (fst r) (snd r) F false 1 0 Hrn H
                representable_one Hge') as HF.
  destruct (fix_representable false (fst r) (snd r) F Hrn H)
    as (cF & eF & -> & Hrep).
  cbn [value] in HF. rewrite mag_one in HF.
  assert (Hpos' : (0 < value (Fin false cF eF))%Q) by (cbn [value]; lra).
  destruct (positive_value false cF eF ltac:(apply Hrep) Hpos') as [_ Hpos].
  exists cF, eF. split; [reflexivity|]. split; assumption.
Qed.

(** [factor - 1] is not negative when the factor is at least 1. *)
Lemma sub_one_sign (cF eF : Z) (den : Decimal) :
  0 < cF -> (1 <= mag cF eF)%Q ->
  sub (Fin false cF eF) one = Ret den ->
  exists cd ed, den = Fin false cd ed /\ 0 <= cd.
Proof.
  intros Hc Hm H. unfold sub, one in H. cbn [copy_negate negb] in H.
  destruct (add_nonzero false cF eF true 1 0 den Hc ltac:(lia) H)
    as (s & i & x & va & vb & Hi & Hfix & Hs & Hv & Ha & Hb).
  destruct (fix_representable s i x den Hi Hfix) as (cd & ed & -> & Hr).
  assert (Hnn : (0 <= va + vb)%Q).
  { destruct Ha as [Ha|(X & Ha & Hlt & Hten)].
    - cbn [value] in Ha.
      destruct Hb as [Hb|(Y & Hb & Hlt' & Hten')]; cbn [value] in Hb.
      + rewrite mag_one in Hb. lra.
      + rewrite mag_ten in Hten'. pose proof (mag_pos 1 Y ltac:(lia)). lra.
    - exfalso. rewrite mag_ten, mag_one in Hten.
      pose proof (mag_pos 1 X ltac:(lia)). lra. }
  assert (s = false).
  { destruct s; [|reflexivity]. destruct (Z.eq_dec i 0) as [Hz|Hz]; [auto|].
    pose proof (mag_pos i x ltac:(lia)). cbn [value] in Hv. lra. }
  subst s. exists cd, ed. split; [reflexivity|apply Hr].
Qed.

Lemma representable_cents (c : Z) : 0 <= c < 10 ^ prec -> representable c (-2).
Proof.
  intros H. unfold representable. split; [assumption|].
  assert (ndigits c <= prec) by (apply ndigits_le; [lia|unfold prec; lia]).
  unfold Etiny, Emax, Emin, prec in *. lia.
Qed.

Lemma valid_payment_shape (p r : Decimal) (y : Z) (lc : LoanCalculator) (P : Decimal) :
  valid_terms p r y -> init p r y = Ret lc -> payment_of lc = Ret P ->
  payment_shape lc P.
Proof.
  intros ((cp & ep & -> & Hcp) & (sr & cr & er & -> & Hcr & Hsr) & Hy) Hinit HP.
  unfold init in Hinit. apply obind_ret_inv in Hinit as (m & Hm & Hlc).
  injection Hlc as <-.
  destruct (div_fin_sign sr cr er false 12 0 m Hcr ltac:(lia) Hm)
    as (cm & em & -> & Hrm & Hzero).
  unfold payment_shape. cbn [monthly_rate].
  unfold payment_of in HP. cbn [annual_rate principal monthly_rate total_payments] in HP.
  rewrite eqb_zero in HP.
  destruct (Z.eqb_spec cr 0) as [->|Hne].
  - unfold of_int in HP.
    replace (y * 12 <? 0) with false in HP by (symmetry; apply Z.ltb_ge; lia).
    destruct (div_fin_sign false cp ep false (Z.abs (y * 12)) 0 P ltac:(lia) ltac:(lia) HP)
      as (cP & eP & -> & HrP & _).
    exists (xorb sr false), cm, em, cP, eP.
    split; [reflexivity|]. split; [apply Hrm|]. split; [reflexivity|].
    split; [assumption|]. left. auto.
  - assert (sr = false) by (destruct sr; [specialize (Hsr eq_refl); lia|reflexivity]).
    subst sr. cbn [xorb] in *.
    apply obind_ret_inv in HP as (base & Hbase & HP).
    apply obind_ret_inv in HP as (factor & Hfactor & HP).
    apply obind_ret_inv in HP as (rf & Hrf & HP).
    apply obind_ret_inv in HP as (num & Hnum & HP).
    apply obind_ret_inv in HP as (den & Hden & HP).
    apply obind_ret_inv in HP as (q & Hq & HP).
    assert (Hcm : 0 <= cm) by apply Hrm.
    destruct (base_ge_one cm em base Hcm Hbase) as (cb & eb & -> & Hcb & Hb1).
    destruct (pow_ge_one cb eb (y * 12) factor Hcb Hb1 ltac:(lia) Hfactor)
      as (cF & eF & -> & HcF & HF1).
    destruct (mul_fin false cm em false cF eF rf Hcm ltac:(lia) Hrf)
      as (crf & erf & -> & Hrrf & _).
    destruct (mul_fin false cp ep false crf erf num ltac:(lia) ltac:(apply Hrrf) Hnum)
      as (cn & en & -> & Hrn & _).
    destruct (sub_one_sign cF eF den HcF HF1 Hden) as (cd & ed & -> & Hcd).
    cbn [xorb] in Hq.
    destruct (div_fin_sign false cn en false cd ed q ltac:(apply Hrn) Hcd Hq)
      as (cq & eq & -> & Hrq & _).
    cbn [xorb] in HP.
    destruct (quantize_half_up_fin false cq eq P ltac:(apply Hrq) HP) as [-> Hb].
    exists false, cm, em, (round2_cents (mag cq eq)), (-2).
    split; [reflexivity|]. split; [assumption|]. split; [reflexivity|].
    split; [apply representable_cents; assumption|]. right. auto.
Qed.

(** ** Sums of amounts in cents *)

Lemma normalize_cents (c1 c2 : Z) :
  0 < c1 < 10 ^ prec -> 0 < c2 ->
  _normalize c1 (-2) c2 (-2) = ((c1, -2), (c2, -2)).
Proof.
  intros H1 H2. unfold _normalize.
  assert (ndigits c1 <= prec) by (apply ndigits_le; [lia|unfold prec; lia]).
  pose proof (ndigits_ge1 c1). pose proof (ndigits_ge1 c2).
  replace (-2 <? -2) with false by reflexivity. cbv zeta.
  replace (ndigits c2 + -2 - 1 <? -2 + Z.min (-1) (ndigits c1 - prec - 2)) with false
    by (symmetry; apply Z.ltb_ge; unfold prec in *; lia).
  change (10 ^ (-2 - -2)) with 1. rewrite Z.mul_1_r. reflexivity.
Qed.

Lemma fix_cents (s : bool) (c : Z) :
  0 <= c < 10 ^ prec -> _fix s c (-2) = Ret (Fin s c (-2)).
Proof.
  intros H. destruct (Z.eq_dec c 0) as [->|Hne].
  - rewrite fix_zero. reflexivity.
  - apply fix_id; [lia|apply representable_cents; assumption].
Qed.

(** Two amounts in cents add exactly when the sum has at most ten digits. *)
Lemma add_cents (s1 : bool) (c1 : Z) (s2 : bool) (c2 : Z) :
  0 <= c1 < 10 ^ prec -> 0 <= c2 < 10 ^ prec ->
  Z.abs (signed s1 c1 + signed s2 c2) < 10 ^ prec ->
  exists s,
    add (Fin s1 c1 (-2)) (Fin s2 c2 (-2)) =
      Ret (Fin s (Z.abs (signed s1 c1 + signed s2 c2)) (-2)) /\
    signed s (Z.abs (signed s1 c1 + signed s2 c2)) = signed s1 c1 + signed s2 c2.
Proof.
  intros H1 H2 Hs. unfold add. cbv zeta.
  change (Z.min (-2) (-2)) with (-2).
  destruct (Z.eqb_spec c1 0) as [->|N1]; destruct (Z.eqb_spec c2 0) as [->|N2];
    cbn [andb].
  - exists (s1 && s2). rewrite fix_zero.
    replace (signed s1 0 + signed s2 0) with 0 by (destruct s1, s2; reflexivity).
    split; [reflexivity|]. destruct (s1 && s2); reflexivity.
  - exists s2. change (Z.max (-2) (-2 - prec - 1)) with (-2).
    unfold _rescale.
    replace (c2 =? 0) with false by (symmetry; apply Z.eqb_neq; lia).
    change (-2 <=? -2) with true. cbv iota.
    change (10 ^ (-2 - -2)) with 1. rewrite Z.mul_1_r. cbn [fix_dec].
    replace (Z.abs (signed s1 0 + signed s2 c2)) with c2
      by (unfold signed; destruct s1, s2; lia).
    split; [apply fix_cents; assumption|].
    unfold signed; destruct s1, s2; lia.
  - exists s1. change (Z.max (-2) (-2 - prec - 1)) with (-2).
    unfold _rescale.
    replace (c1 =? 0) with false by (symmetry; apply Z.eqb_neq; lia).
    change (-2 <=? -2) with true. cbv iota.
    change (10 ^ (-2 - -2)) with 1. rewrite Z.mul_1_r. cbn [fix_dec].
    replace (Z.abs (signed s1 c1 + signed s2 0)) with c1
      by (unfold signed; destruct s1, s2; lia).
    split; [apply fix_cents; assumption|].
    unfold signed; destruct s1, s2; lia.
  - rewrite (normalize_cents c1 c2) by lia.
    destruct s1, s2; cbn [Bool.eqb]; unfold signed in Hs |- *.
    + exists true. replace (Z.abs (- c1 + - c2)) with (c1 + c2) by lia.
      split; [apply fix_cents; lia|lia].
    + destruct (Z.eqb_spec c1 c2) as [->|Hne].
      * exists false. replace (Z.abs (- c2 + c2)) with 0 by lia.
        split; [apply fix_cents; lia|lia].
      * destruct (Z.ltb_spec c1 c2).
        -- exists false. replace (Z.abs (- c1 + c2)) with (c2 - c1) by lia.
           split; [apply fix_cents; lia|lia].
        -- exists true. replace (Z.abs (- c1 + c2)) with (c1 - c2) by lia.
           split; [apply fix_cents; lia|lia].
    + destruct (Z.eqb_spec c1 c2) as [->|Hne].
      * exists false. replace (Z.abs (c2 + - c2)) with 0 by lia.
        split; [apply fix_cents; lia|lia].
      * destruct (Z.ltb_spec c1 c2).
        -- exists true. replace (Z.abs (c1 + - c2)) with (c2 - c1) by lia.
           split; [apply fix_cents; lia|lia].
        -- exists false. replace (Z.abs (c1 + - c2)) with (c1 - c2) by lia.
           split; [apply fix_cents; lia|lia].
    + exists false. replace (Z.abs (c1 + c2)) with (c1 + c2) by lia.
      split; [apply fix_cents; lia|lia].
Qed.

Lemma value_cents (s : bool) (c : Z) :
  (value (Fin s c (-2)) == inject_Z (signed s c) / 100)%Q.
Proof.
  cbn [value]. unfold signed. destruct s.
  - rewrite mag_cents, inject_Z_opp. unfold Qdiv. ring.
  - apply mag_cents.
Qed.

Lemma value_zero (s : bool) (e : Z) : (value (Fin s 0 e) == 0)%Q.
Proof. cbn [value]. destruct s; rewrite mag_zero; lra. Qed.

Lemma representable_1e8 : representable 1 8.
Proof.
  unfold representable. change (ndigits 1) with 1.
  unfold Etiny, Emax, Emin, prec. split; [split; [lia|reflexivity]|lia].
Qed.

Lemma round2_cents_1e8 : round2_cents (mag 1 8) = 10 ^ prec.
Proof. rewrite round2_cents_mag by lia. reflexivity. Qed.

(** ** Interest plus principal portion *)

Lemma shape_well_formed (lc : LoanCalculator) (P : Decimal) :
  payment_shape lc P -> well_formed P.
Proof.
  intros (sm & cm & em & cP & eP & _ & _ & -> & Hr & _). apply Hr.
Qed.

(** With a zero monthly rate the interest is a zero, and adding it to
    the principal portion gives the payment back. *)
Lemma zero_interest_total (sI : bool) (cP eP : Z) (PP : Decimal) :
  representable cP eP ->
  sub (Fin false cP eP) (Fin sI 0 (-2)) = Ret PP ->
  exists total,
    add (Fin sI 0 (-2)) PP = Ret total /\
    eqb total (Fin false cP eP) = true /\
    is_finite PP /\
    (value (Fin sI 0 (-2)) + value PP == value (Fin false cP eP))%Q.
Proof.
  intros Hr H. unfold sub in H. cbn [copy_negate] in H.
  destruct (Z.eq_dec cP 0) as [->|Hne].
  - rewrite add_zero_zero, fix_zero in H. injection H as <-.
    rewrite add_zero_zero, fix_zero. eexists. split; [reflexivity|].
    split; [|split].
    + apply eqb_of_value_eq; [lia|lia|]. rewrite !value_zero. reflexivity.
    + cbn [is_finite]. lia.
    + rewrite !value_zero. lra.
  - assert (HcP : 0 < cP) by (destruct Hr as [[? _] _]; lia).
    destruct (add_zero_r false cP eP (negb sI) (-2) HcP) as (j & Hj & Hadd).
    rewrite Hadd in H.
    destruct (fix_pad false cP eP j Hr HcP Hj) as (j' & Hj' & Hfix & Hr').
    rewrite Hfix in H. injection H as <-.
    pose proof (pow10_pos j' Hj') as Hp.
    destruct (add_zero_l sI (-2) false (cP * 10 ^ j') (eP - j') ltac:(nia))
      as (j2 & Hj2 & Hadd2).
    rewrite Hadd2.
    destruct (fix_pad false (cP * 10 ^ j') (eP - j') j2 Hr' ltac:(nia) Hj2)
      as (j3 & Hj3 & Hfix3 & Hr3).
    rewrite Hfix3. eexists. split; [reflexivity|].
    split; [|split].
    + apply eqb_of_value_eq; [apply Hr3|lia|].
      rewrite value_pad by assumption. apply value_pad. assumption.
    + cbn [is_finite]. nia.
    + rewrite value_zero, value_pad by assumption. lra.
Qed.

Lemma inject_Z_cents (a b c : Z) :
  a + b = c -> (inject_Z a / 100 + inject_Z b / 100 == inject_Z c / 100)%Q.
Proof.
  intros <-. rewrite inject_Z_plus. unfold Qdiv. ring.
Qed.

(** Amounts in cents whose difference has at most ten digits. *)
Lemma cents_total (sI : bool) (cI cP : Z) (PP : Decimal) :
  0 <= cI < 10 ^ prec -> 0 <= cP < 10 ^ prec ->
  Z.abs (cP - signed sI cI) < 10 ^ prec ->
  sub (Fin false cP (-2)) (Fin sI cI (-2)) = Ret PP ->
  exists total,
    add (Fin sI cI (-2)) PP = Ret total /\
    eqb total (Fin false cP (-2)) = true /\
    is_finite PP /\
    (value (Fin sI cI (-2)) + value PP == value (Fin false cP (-2)))%Q.
Proof.
  intros HI HP Hlt H. unfold sub in H. cbn [copy_negate] in H.
  assert (Hsum : signed false cP + signed (negb sI) cI = cP - signed sI cI)
    by (unfold signed; destruct sI; cbn [negb]; lia).
  assert (Hlt1 : Z.abs (signed false cP + signed (negb sI) cI) < 10 ^ prec)
    by (rewrite Hsum; assumption).
  destruct (add_cents false cP (negb sI) cI HP HI Hlt1) as (s & Hadd & Hsg).
  rewrite Hsum in Hadd, Hsg.
  set (d := Z.abs (cP - signed sI cI)) in *.
  rewrite Hadd in H. assert (HPP : PP = Fin s d (-2)) by congruence.
  subst PP. clear H.
  assert (Hd : 0 <= d < 10 ^ prec) by (unfold d; lia).
  assert (Hsum2 : signed sI cI + signed s d = cP) by lia.
  assert (Hlt2 : Z.abs (signed sI cI + signed s d) < 10 ^ prec)
    by (rewrite Hsum2; lia).
  destruct (add_cents sI cI s d HI Hd Hlt2) as (s' & Hadd' & Hsg').
  rewrite Hadd'. rewrite Hsum2 in Hsg' |- *.
  eexists. split; [reflexivity|]. split; [|split].
  - apply eqb_of_value_eq; [lia|lia|].
    rewrite !value_cents, Hsg'. reflexivity.
  - cbn [is_finite]. lia.
  - rewrite !value_cents. apply inject_Z_cents. unfold signed at 3. assumption.
Qed.

(** A principal portion of eleven digits makes the next balance too
    large to be shown in cents with ten digits. *)
Lemma large_portion_raises (cB eB cP cI : Z) (PP B' shown : Decimal) :
  0 < cB -> 0 <= cI -> 0 <= cP -> 10 ^ prec <= cP + cI ->
  add (Fin false cP (-2)) (Fin false cI (-2)) = Ret PP ->
  sub (Fin true cB eB) PP = Ret B' ->
  quantize ROUND_HALF_UP B' cent = Ret shown -> False.
Proof.
  intros HcB HcI HcP Hbig HPP HB' Hq.
  assert (H10 : 0 < 10 ^ prec) by reflexivity.
  assert (Hbig' : (mag 1 8 <= mag (cP + cI) (-2))%Q).
  { apply (mag_le_iff (-2)); [lia|lia|].
    change (1 * 10 ^ (8 - -2)) with (10 ^ prec).
    change (10 ^ (-2 - -2)) with 1. lia. }
  assert (HvPP : (mag 1 8 <= value PP)%Q /\ well_formed PP).
  { destruct (Z.eq_dec cP 0) as [->|NP]; [|destruct (Z.eq_dec cI 0) as [->|NI]].
    - destruct (add_zero_l false (-2) false cI (-2) ltac:(lia)) as (j & Hj & Hadd).
      rewrite Hadd in HPP. pose proof (pow10_pos j Hj).
      assert (Hnn : 0 <= cI * 10 ^ j) by nia.
      split; [|apply (fix_well_formed _ _ _ _ Hnn HPP)].
      apply (fix_value_ge _ _ _ _ false 1 8 Hnn HPP representable_1e8).
      rewrite value_pad by assumption. cbn [value]. exact Hbig'.
    - destruct (add_zero_r false cP (-2) false (-2) ltac:(lia)) as (j & Hj & Hadd).
      rewrite Hadd in HPP. pose proof (pow10_pos j Hj).
      assert (Hnn : 0 <= cP * 10 ^ j) by nia.
      split; [|apply (fix_well_formed _ _ _ _ Hnn HPP)].
      apply (fix_value_ge _ _ _ _ false 1 8 Hnn HPP representable_1e8).
      rewrite value_pad by assumption. cbn [value].
      rewrite Z.add_0_r in Hbig'. exact Hbig'.
    - destruct (add_nonzero false cP (-2) false cI (-2) PP ltac:(lia) ltac:(lia) HPP)
        as (s & i & x & va & vb & Hi & Hfix & _ & Hv & Ha & Hb).
      apply seen_as_nonneg in Ha; [|lia]. apply seen_as_nonneg in Hb; [|lia].
      split; [|apply (fix_well_formed _ _ _ _ Hi Hfix)].
      apply (fix_value_ge s i x PP false 1 8 Hi Hfix representable_1e8).
      rewrite Hv. cbn [value]. rewrite mag_plus in Hbig'. lra. }
  destruct HvPP as [HvPP HwPP].
  pose proof (mag_pos 1 8 ltac:(lia)) as H18.
  destruct PP as [sPP cPP ePP|sPP]; [|cbn [value] in HvPP; lra].
  cbn [well_formed] in HwPP.
  assert (Hp : (0 < value (Fin sPP cPP ePP))%Q) by lra.
  destruct (positive_value sPP cPP ePP HwPP Hp) as [-> HcPP].
  cbn [value] in HvPP.
  unfold sub in HB'. cbn [copy_negate negb] in HB'.
  destruct (add_nonzero true cB eB true cPP ePP B' HcB HcPP HB')
    as (s & i & x & va & vb & Hi & Hfix & _ & Hv & Ha & Hb).
  apply seen_as_nonpos in Ha; [|lia]. apply seen_as_nonpos in Hb; [|lia].
  pose proof (mag_pos cB eB HcB) as HmB.
  assert (Hle : (value (Fin s i x) <= value (Fin true 1 8))%Q).
  { rewrite Hv. cbn [value]. lra. }
  pose proof (fix_value_le s i x B' true 1 8 Hi Hfix representable_1e8 Hle) as HvB.
  destruct (fix_representable s i x B' Hi Hfix) as (c3 & e3 & -> & Hr3).
  assert (Hc3 : 0 <= c3) by apply Hr3.
  destruct (quantize_half_up_fin s c3 e3 shown Hc3 Hq) as [_ Hlt].
  assert (Hm3 : (mag 1 8 <= mag c3 e3)%Q).
  { pose proof (mag_nonneg c3 e3 Hc3). cbn [value] in HvB. destruct s; lra. }
  pose proof (round2_cents_mono (mag 1 8) (mag c3 e3) ltac:(lra) Hm3) as Hmono.
  rewrite round2_cents_1e8 in Hmono. lia.
Qed.

(** Each record of the recurrence adds up to the payment. *)
Lemma record_adds_up (lc : LoanCalculator) (P : Decimal) (k : nat)
    (rec : PaymentRecord) :
  well_formed_loan lc -> payment_shape lc P -> record_at lc P k rec ->
  exists total,
    add (interest rec) (principal_paid rec) = Ret total /\
    eqb total (monthly_payment rec) = true /\
    is_finite (interest rec) /\ is_finite (principal_paid rec) /\
    is_finite (monthly_payment rec) /\
    (value (interest rec) + value (principal_paid rec)
       == value (monthly_payment rec))%Q.
Proof.
  intros Hlc Hshape
    (B & product & B' & HB & Hmul & HqI & HPP & HB' & _ & Hshown & HmP & _).
  pose proof (shape_well_formed lc P Hshape) as HwP.
  pose proof (running_balance_well_formed lc P Hlc HwP k B HB) as HwB.
  destruct Hshape as (sm & cm & em & cP & eP & Hm & Hcm & -> & HrP & Hcase).
  rewrite Hm in Hmul. rewrite HmP.
  destruct B as [sB cB eB|sB].
  2:{ cbn [mul] in Hmul. destruct (nonzero (Fin sm cm em)); [|discriminate].
      injection Hmul as <-. cbn in HqI. discriminate. }
  cbn [well_formed] in HwB.
  destruct (mul_fin sB cB eB sm cm em product HwB Hcm Hmul)
    as (cpr & epr & -> & Hrpr & Hz & _).
  assert (Hcpr : 0 <= cpr) by apply Hrpr.
  assert (HfinP : is_finite (Fin false cP eP)) by (cbn [is_finite]; apply HrP).
  destruct Hcase as [->|[-> ->]].
  - rewrite (Hz ltac:(lia)) in HqI. cbn [quantize cent] in HqI.
    change (negb ((Etiny <=? -2) && (-2 <=? Emax))) with false in HqI.
    cbn [Z.eqb] in HqI. cbv iota in HqI. rewrite fix_zero in HqI.
    change (Z.min (Z.max (-2) Etiny) Emax) with (-2) in HqI.
    injection HqI as HI. rewrite <- HI in HPP |- *.
    destruct (zero_interest_total (xorb sB sm) cP eP (principal_paid rec) HrP HPP)
      as (total & Hadd & Heq & Hfin & Hv).
    exists total. repeat split; try assumption; try (cbn [is_finite]; lia).
  - rewrite xorb_false_r in HqI.
    destruct (quantize_half_up_fin sB cpr epr (interest rec) Hcpr HqI) as [HI HcI].
    set (cI := round2_cents (mag cpr epr)) in *.
    rewrite HI in HPP |- *.
    assert (HcP : 0 <= cP < 10 ^ prec) by apply HrP.
    destruct (Z.lt_ge_cases (Z.abs (cP - signed sB cI)) (10 ^ prec)) as [Hlt|Hge].
    + destruct (cents_total sB cI cP (principal_paid rec) HcI HcP Hlt HPP)
        as (total & Hadd & Heq & Hfin & Hv).
      exists total. repeat split; try assumption; try (cbn [is_finite]; lia).
    + exfalso.
      assert (sB = true) by (destruct sB; [reflexivity|unfold signed in Hge; lia]).
      subst sB. unfold signed in Hge.
      assert (HcB : 0 < cB).
      { destruct (Z.eq_dec cB 0) as [->|]; [|lia].
        assert (cpr = 0) by (apply Hz; lia).
        assert (cI = 0) by (unfold cI; subst cpr; rewrite round2_cents_mag by lia;
                            unfold cents_of;
                            destruct (Z.leb_spec (-2) epr); [lia|];
                            rewrite rhu_formula by lia;
                            apply Z.div_small;
                            pose proof (pow10_pos (-2 - epr) ltac:(lia)); lia).
        lia. }
      unfold sub in HPP. cbn [copy_negate negb] in HPP.
      apply (large_portion_raises cB eB cP cI (principal_paid rec) B' (balance rec));
        try assumption; lia.
Qed.

(** C4: for valid terms (principal > 0, annual rate >= 0, years >= 1),
    every record of a returned schedule has a finite interest, principal
    portion and payment whose exact values satisfy
    interest + principal portion = payment, and the Decimal sum
    [interest + principal_paid] raises nothing and compares equal to the
    payment. *)
Theorem interest_plus_principal_is_payment
    (p r : Decimal) (y : Z) (lc : LoanCalculator)
    (sched : list PaymentRecord) (rec : PaymentRecord) :
  valid_terms p r y ->
  init p r y = Ret lc ->
  result generate_amortization_schedule lc = Ret sched ->
  In rec sched ->
  exists total,
    add (interest rec) (principal_paid rec) = Ret total /\
    eqb total (monthly_payment rec) = true /\
    is_finite (interest rec) /\ is_finite (principal_paid rec) /\
    is_finite (monthly_payment rec) /\
    (value (interest rec) + value (principal_paid rec)
       == value (monthly_payment rec))%Q.
Proof.
  intros Hvalid Hinit Hsched Hin.
  rewrite result_generate_amortization_schedule in Hsched.
  apply schedule_of_records in Hsched as (P & HP & _ & Hrecs).
  apply In_nth_error in Hin as (i & Hi).
  assert (Hlc : well_formed_loan lc).
  { destruct Hvalid as ((cp & ep & -> & Hcp) & (sr & cr & er & -> & Hcr & _) & _).
    apply (init_well_formed (Fin false cp ep) (Fin sr cr er) y lc);
      [cbn [well_formed]; lia|cbn [well_formed]; lia|assumption]. }
  apply (record_adds_up lc P i rec Hlc
           (valid_payment_shape p r y lc P Hvalid Hinit HP) (Hrecs i rec Hi)).
Qed.

(** The property on the first record of the loan of 1000.015 at 5% over
    one year: 4.17 + 81.44 = 85.61. *)
Lemma interest_plus_principal_is_payment_witness :
  valid_terms (dec 1000015 (-3)) (dec 5 (-2)) 1 /\
  init (dec 1000015 (-3)) (dec 5 (-2)) 1 = Ret one_year_loan /\
  result generate_amortization_schedule one_year_loan = Ret one_year_schedule /\
  In (one_year_record 1 417 8144 (dec 91858 (-2))) one_year_schedule /\
  exists total,
    add (dec 417 (-2)) (dec 8144 (-2)) = Ret total /\
    eqb total (dec 8561 (-2)) = true /\
    is_finite (dec 417 (-2)) /\ is_finite (dec 8144 (-2)) /\
    is_finite (dec 8561 (-2)) /\
    (value (dec 417 (-2)) + value (dec 8144 (-2)) == value (dec 8561 (-2)))%Q.
Proof.
  assert (H1 : valid_terms (dec 1000015 (-3)) (dec 5 (-2)) 1)
    by (apply valid_terms_dec; lia).
  assert (H2 : init (dec 1000015 (-3)) (dec 5 (-2)) 1 = Ret one_year_loan)
    by (vm_compute; reflexivity).
  assert (H3 : result generate_amortization_schedule one_year_loan
               = Ret one_year_schedule)
    by (vm_compute; reflexivity).
  assert (H4 : In (one_year_record 1 417 8144 (dec 91858 (-2))) one_year_schedule)
    by (left; reflexivity).
  exact (conj H1 (conj H2 (conj H3 (conj H4
    (interest_plus_principal_is_payment _ _ _ _ _ _ H1 H2 H3 H4))))).
Defined.

(** * Further properties of the three methods *)

(** ** How the methods compose *)

Lemma payment_raise_reaches_callers (lc : LoanCalculator) (s : Signal) :
  payment_of lc = Raise s ->
  schedule_of lc = Raise s /\ total_interest_of lc = Raise s.
Proof.
  intros H. unfold schedule_of, total_interest_of. rewrite H. split; reflexivity.
Qed.

(** X1: a schedule that is returned was built from the amount
    [calculate_monthly_payment] returns on the same instance, and every
    record carries that amount as its [monthly_payment]. *)
Theorem schedule_records_carry_the_payment
    (lc : LoanCalculator) (sched : list PaymentRecord) :
  result generate_amortization_schedule lc = Ret sched ->
  exists P,
    result calculate_monthly_payment lc = Ret P /\
    forall rec, In rec sched -> monthly_payment rec = P.
Proof.
  rewrite result_generate_amortization_schedule, result_calculate_monthly_payment.
  intros H. apply schedule_of_records in H as (P & HP & _ & Hrecs).
  exists P. split; [assumption|]. intros rec Hin.
  apply In_nth_error in Hin as (i & Hi).
  destruct (Hrecs i rec Hi) as (B & product & B' & H'). intuition.
Qed.

Lemma schedule_records_carry_the_payment_witness :
  result generate_amortization_schedule one_year_loan = Ret one_year_schedule /\
  exists P,
    result calculate_monthly_payment one_year_loan = Ret P /\
    forall rec, In rec one_year_schedule -> monthly_payment rec = P.
Proof.
  assert (H : result generate_amortization_schedule one_year_loan
              = Ret one_year_schedule)
    by (vm_compute; reflexivity).
  exact (conj H (schedule_records_carry_the_payment _ _ H)).
Defined.

(** X2: an exception of [calculate_monthly_payment] is not caught by
    its callers: when it raises a signal, [generate_amortization_schedule]
    and [total_interest_paid] raise the same signal. *)
Theorem payment_error_reaches_callers (lc : LoanCalculator) (s : Signal) :
  result calculate_monthly_payment lc = Raise s ->
  result generate_amortization_schedule lc = Raise s /\
  result total_interest_paid lc = Raise s.
Proof.
  rewrite result_generate_amortization_schedule, result_calculate_monthly_payment,
    result_total_interest_paid.
  apply payment_raise_reaches_callers.
Qed.

Lemma payment_error_reaches_callers_witness :
  result calculate_monthly_payment oversized_loan = Raise InvalidOperation /\
  result generate_amortization_schedule oversized_loan = Raise InvalidOperation /\
  result total_interest_paid oversized_loan = Raise InvalidOperation.
Proof.
  assert (H : result calculate_monthly_payment oversized_loan
              = Raise InvalidOperation)
    by (vm_compute; reflexivity).
  exact (conj H (payment_error_reaches_callers _ _ H)).
Defined.

(** ** Terms of zero or fewer years *)

Lemma sub_one_one : sub one one = Ret (Fin false 0 0).
Proof. reflexivity. Qed.

Lemma div_by_zero_raises (a : Decimal) (s : bool) (e : Z) (d : Decimal) :
  div a (Fin s 0 e) = Ret d -> exists s', d = Inf s'.
Proof.
  destruct a as [s1 c1 e1|s1]; cbn [div]; cbv zeta.
  - cbn [Z.eqb]. destruct (c1 =? 0); discriminate.
  - intros H. injection H as <-. eauto.
Qed.

Lemma zero_term_payment (lc : LoanCalculator) :
  total_payments lc = 0 ->
  (exists s c e, principal lc = Fin s c e) ->
  exists sig, payment_of lc = Raise sig.
Proof.
  intros Hn (s & c & e & Hp). unfold payment_of. rewrite Hn, Hp.
  destruct (eqb (annual_rate lc) (of_int 0)).
  - unfold of_int. cbn [div Z.ltb Z.compare Z.abs Z.eqb].
    destruct (c =? 0); eauto.
  - destruct (add one (monthly_rate lc)) as [base|sig]; cbn [obind]; [|eauto].
    unfold pow. cbn [Z.eqb].
    destruct (nonzero base); cbn [obind]; [|eauto].
    destruct (mul (monthly_rate lc) (Fin false 1 0)) as [rf|sig]; cbn [obind]; [|eauto].
    destruct (mul (Fin s c e) rf) as [num|sig]; cbn [obind]; [|eauto].
    change (Fin false 1 0) with one. rewrite sub_one_one. cbn [obind].
    destruct (div num (Fin false 0 0)) as [q|sig] eqn:Hq; cbn [obind]; [|eauto].
    apply div_by_zero_raises in Hq as (s' & ->). cbn. eauto.
Qed.

(** X3: a term of zero years gives no result.  On an instance with
    [total_payments = 0] whose principal and rates are finite numbers,
    [calculate_monthly_payment] raises (the division by the number of
    payments, or by [factor - 1 = 0], fails), and so do the two methods
    that call it. *)
Theorem zero_term_raises (lc : LoanCalculator) :
  finite_loan lc ->
  total_payments lc = 0 ->
  exists sig,
    result calculate_monthly_payment lc = Raise sig /\
    result generate_amortization_schedule lc = Raise sig /\
    result total_interest_paid lc = Raise sig.
Proof.
  intros (Hfp & _) Hn.
  assert (Hp : exists s c e, principal lc = Fin s c e).
  { destruct (principal lc) as [s c e|s]; [eauto|contradiction]. }
  destruct (zero_term_payment lc Hn Hp) as (sig & H).
  exists sig.
  rewrite result_generate_amortization_schedule, result_calculate_monthly_payment,
    result_total_interest_paid.
  split; [assumption|]. apply payment_raise_reaches_callers. assumption.
Qed.

Lemma zero_term_raises_witness :
  finite_loan zero_term_loan /\
  total_payments zero_term_loan = 0 /\
  exists sig,
    result calculate_monthly_payment zero_term_loan = Raise sig /\
    result generate_amortization_schedule zero_term_loan = Raise sig /\
    result total_interest_paid zero_term_loan = Raise sig.
Proof.
  assert (H1 : finite_loan zero_term_loan)
    by (unfold finite_loan; cbn; lia).
  assert (H2 : total_payments zero_term_loan = 0) by reflexivity.
  exact (conj H1 (conj H2 (zero_term_raises _ H1 H2))).
Defined.

(** X4: a negative term gives an empty schedule.  When
    [total_payments <= 0] the loop of [generate_amortization_schedule]
    has no period to run: a schedule that is returned is the empty list. *)
Theorem nonpositive_term_gives_empty_schedule
    (lc : LoanCalculator) (sched : list PaymentRecord) :
  total_payments lc <= 0 ->
  result generate_amortization_schedule lc = Ret sched ->
  sched = [].
Proof.
  rewrite result_generate_amortization_schedule. intros Hn H.
  apply schedule_of_records in H as (P & _ & Hlen & _).
  replace (Z.to_nat (Z.min 12 (total_payments lc))) with O in Hlen by lia.
  destruct sched; [reflexivity|discriminate].
Qed.

Lemma nonpositive_term_gives_empty_schedule_witness :
  total_payments negative_term_loan <= 0 /\
  result generate_amortization_schedule negative_term_loan = Ret [] /\
  @nil PaymentRecord = [].
Proof.
  assert (H1 : total_payments negative_term_loan <= 0) by (cbn; lia).
  assert (H2 : result generate_amortization_schedule negative_term_loan = Ret [])
    by (vm_compute; reflexivity).
  exact (conj H1 (conj H2 (nonpositive_term_gives_empty_schedule _ _ H1 H2))).
Defined.

(** ** Amounts in cents *)

Lemma quantize_in_cents (r : Rounding) (a d : Decimal) :
  well_formed a -> quantize r a cent = Ret d ->
  exists s c e,
    a = Fin s c e /\ d = Fin s (cents_of r c e) (-2) /\
    0 <= cents_of r c e < 10 ^ prec.
Proof.
  intros Ha H. destruct (quantize_fin r a d H) as (s & c & e & ->).
  cbn [well_formed] in Ha. rewrite quantize_cent in H by assumption.
  pose proof (cents_of_nonneg r c e Ha).
  destruct (Z.ltb_spec (cents_of r c e) (10 ^ prec)); [|discriminate].
  injection H as <-. exists s, c, e. repeat split; try assumption; reflexivity.
Qed.

Lemma nonzero_rate_payment_in_cents (lc : LoanCalculator) (P : Decimal) :
  well_formed_loan lc ->
  eqb (annual_rate lc) (of_int 0) = false ->
  payment_of lc = Ret P ->
  exists s c, P = Fin s c (-2) /\ 0 <= c < 10 ^ prec.
Proof.
  intros (Hp & _ & Hr) H0 H.
  unfold payment_of in H. rewrite H0 in H.
  apply obind_ret_inv in H as (base & H1 & H).
  apply obind_ret_inv in H as (factor & H2 & H).
  apply obind_ret_inv in H as (rf & H3 & H).
  apply obind_ret_inv in H as (num & H4 & H).
  apply obind_ret_inv in H as (den & H5 & H).
  apply obind_ret_inv in H as (m & H6 & H).
  assert (Hb : well_formed base)
    by (eapply add_well_formed; [| |exact H1]; [cbn; lia|assumption]).
  assert (Hf : well_formed factor) by (eapply pow_well_formed; eassumption).
  assert (Hrf : well_formed rf) by (eapply mul_well_formed; [| |exact H3]; assumption).
  assert (Hn : well_formed num) by (eapply mul_well_formed; [| |exact H4]; assumption).
  assert (Hd : well_formed den)
    by (eapply sub_well_formed; [| |exact H5]; [assumption|cbn; lia]).
  assert (Hm : well_formed m) by (eapply div_well_formed; [| |exact H6]; assumption).
  destruct (quantize_in_cents ROUND_HALF_UP m P Hm H) as (s & c & e & _ & -> & Hc).
  exists s, (cents_of ROUND_HALF_UP c e). split; [reflexivity|assumption].
Qed.

(** X5: on an instance whose principal and rates are finite numbers,
    with a non-zero annual rate, an amount returned by
    [calculate_monthly_payment] has exactly two decimal places (exponent
    -2) and at most ten digits. *)
Theorem payment_has_two_decimals (lc : LoanCalculator) (P : Decimal) :
  finite_loan lc ->
  eqb (annual_rate lc) (of_int 0) = false ->
  result calculate_monthly_payment lc = Ret P ->
  exists s c, P = Fin s c (-2) /\ 0 <= c < 10 ^ prec.
Proof.
  rewrite result_calculate_monthly_payment. intros Hlc.
  apply nonzero_rate_payment_in_cents, finite_loan_well_formed, Hlc.
Qed.

Lemma payment_has_two_decimals_witness :
  finite_loan one_year_loan /\
  eqb (annual_rate one_year_loan) (of_int 0) = false /\
  result calculate_monthly_payment one_year_loan = Ret (dec 8561 (-2)) /\
  exists s c, dec 8561 (-2) = Fin s c (-2) /\ 0 <= c < 10 ^ prec.
Proof.
  assert (H0 : finite_loan one_year_loan)
    by (unfold finite_loan; cbn; lia).
  assert (H1 : eqb (annual_rate one_year_loan) (of_int 0) = false) by reflexivity.
  assert (H2 : result calculate_monthly_payment one_year_loan = Ret (dec 8561 (-2)))
    by (vm_compute; reflexivity).
  exact (conj H0 (conj H1 (conj H2 (payment_has_two_decimals _ _ H0 H1 H2)))).
Defined.

(** X6: for valid terms (principal > 0, annual rate >= 0, years >= 1)
    an amount returned by [calculate_monthly_payment] is a finite Decimal
    with a positive sign: the payment is never negative, and never an
    infinity or a negative zero. *)
Theorem payment_is_not_negative
    (p r : Decimal) (y : Z) (lc : LoanCalculator) (P : Decimal) :
  valid_terms p r y ->
  init p r y = Ret lc ->
  result calculate_monthly_payment lc = Ret P ->
  exists c e, P = Fin false c e /\ 0 <= c /\ (0 <= value P)%Q.
Proof.
  rewrite result_calculate_monthly_payment. intros Hv Hinit HP.
  destruct (valid_payment_shape p r y lc P Hv Hinit HP)
    as (sm & cm & em & cP & eP & _ & _ & -> & Hr & _).
  assert (Hc : 0 <= cP) by apply Hr.
  exists cP, eP. split; [reflexivity|]. split; [assumption|].
  cbn [value]. apply mag_nonneg. assumption.
Qed.

Lemma payment_is_not_negative_witness :
  valid_terms (dec 1000015 (-3)) (dec 5 (-2)) 1 /\
  init (dec 1000015 (-3)) (dec 5 (-2)) 1 = Ret one_year_loan /\
  result calculate_monthly_payment one_year_loan = Ret (dec 8561 (-2)) /\
  exists c e, dec 8561 (-2) = Fin false c e /\ 0 <= c /\
              (0 <= value (dec 8561 (-2)))%Q.
Proof.
  assert (H1 : valid_terms (dec 1000015 (-3)) (dec 5 (-2)) 1)
    by (apply valid_terms_dec; lia).
  assert (H2 : init (dec 1000015 (-3)) (dec 5 (-2)) 1 = Ret one_year_loan)
    by (vm_compute; reflexivity).
  assert (H3 : result calculate_monthly_payment one_year_loan = Ret (dec 8561 (-2)))
    by (vm_compute; reflexivity).
  exact (conj H1 (conj H2 (conj H3 (payment_is_not_negative _ _ _ _ _ H1 H2 H3)))).
Defined.

Lemma record_in_cents (lc : LoanCalculator) (P : Decimal) (k : nat)
    (rec : PaymentRecord) :
  well_formed_loan lc -> well_formed P -> record_at lc P k rec ->
  (exists s c, interest rec = Fin s c (-2) /\ 0 <= c < 10 ^ prec) /\
  (exists s c, balance rec = Fin s c (-2) /\ 0 <= c < 10 ^ prec).
Proof.
  intros Hlc HwP (B & product & B' & HB & Hmul & HqI & HPP & HB' & HB'' & Hshown & _).
  pose proof (running_balance_well_formed lc P Hlc HwP k B HB) as HwB.
  pose proof (running_balance_well_formed lc P Hlc HwP (S k) B' HB'') as HwB'.
  assert (Hwp : well_formed product).
  { destruct Hlc as (_ & _ & Hr). eapply mul_well_formed; [| |exact Hmul]; assumption. }
  destruct (quantize_in_cents _ _ _ Hwp HqI) as (s & c & e & _ & HI & Hc).
  destruct (quantize_in_cents _ _ _ HwB' Hshown) as (s' & c' & e' & _ & HS & Hc').
  split; eauto.
Qed.

(** X7: on an instance whose principal and rates are finite numbers,
    every interest and every balance stored in a returned schedule has
    exactly two decimal places (exponent -2) and at most ten digits. *)
Theorem schedule_amounts_are_in_cents
    (lc : LoanCalculator) (sched : list PaymentRecord) (rec : PaymentRecord) :
  finite_loan lc ->
  result generate_amortization_schedule lc = Ret sched ->
  In rec sched ->
  (exists s c, interest rec = Fin s c (-2) /\ 0 <= c < 10 ^ prec) /\
  (exists s c, balance rec = Fin s c (-2) /\ 0 <= c < 10 ^ prec).
Proof.
  rewrite result_generate_amortization_schedule. intros Hfin H Hin.
  pose proof (finite_loan_well_formed lc Hfin) as Hlc.
  apply schedule_of_records in H as (P & HP & _ & Hrecs).
  apply In_nth_error in Hin as (i & Hi).
  apply (record_in_cents lc P i rec Hlc (payment_of_well_formed lc P Hlc HP)
           (Hrecs i rec Hi)).
Qed.

Lemma schedule_amounts_are_in_cents_witness :
  finite_loan one_year_loan /\
  result generate_amortization_schedule one_year_loan = Ret one_year_schedule /\
  In (one_year_record 12 36 8525 (Fin true 1 (-2))) one_year_schedule /\
  (exists s c, dec 36 (-2) = Fin s c (-2) /\ 0 <= c < 10 ^ prec) /\
  (exists s c, Fin true 1 (-2) = Fin s c (-2) /\ 0 <= c < 10 ^ prec).
Proof.
  assert (H0 : finite_loan one_year_loan)
    by (unfold finite_loan; cbn; lia).
  assert (H1 : result generate_amortization_schedule one_year_loan
               = Ret one_year_schedule)
    by (vm_compute; reflexivity).
  assert (H2 : In (one_year_record 12 36 8525 (Fin true 1 (-2))) one_year_schedule)
    by (do 11 right; left; reflexivity).
  exact (conj H0 (conj H1 (conj H2 (schedule_amounts_are_in_cents _ _ _ H0 H1 H2)))).
Defined.

(** ** The schedule of an interest-free loan *)

Lemma zero_rate_record (lc : LoanCalculator) (P : Decimal) (k : nat)
    (rec : PaymentRecord) (sm : bool) (em cP eP : Z) :
  well_formed_loan lc ->
  monthly_rate lc = Fin sm 0 em ->
  P = Fin false cP eP -> representable cP eP ->
  record_at lc P k rec ->
  (exists s, interest rec = Fin s 0 (-2)) /\
  is_finite (principal_paid rec) /\
  (value (principal_paid rec) == value P)%Q.
Proof.
  intros Hlc Hm -> HrP
    (B & product & B' & HB & Hmul & HqI & HPP & _).
  assert (HwP : well_formed (Fin false cP eP)) by apply HrP.
  pose proof (running_balance_well_formed lc _ Hlc HwP k B HB) as HwB.
  rewrite Hm in Hmul.
  destruct B as [sB cB eB|sB].
  2:{ cbn [mul nonzero] in Hmul. cbn in Hmul. discriminate. }
  cbn [well_formed] in HwB.
  destruct (mul_fin sB cB eB sm 0 em product HwB ltac:(lia) Hmul)
    as (cpr & epr & -> & _ & Hz & _).
  rewrite (Hz ltac:(lia)) in HqI. cbn [quantize cent] in HqI.
  change (negb ((Etiny <=? -2) && (-2 <=? Emax))) with false in HqI.
  cbn [Z.eqb] in HqI. cbv iota in HqI. rewrite fix_zero in HqI.
  change (Z.min (Z.max (-2) Etiny) Emax) with (-2) in HqI.
  injection HqI as HI. rewrite <- HI in HPP |- *.
  destruct (zero_interest_total (xorb sB sm) cP eP (principal_paid rec) HrP HPP)
    as (total & _ & _ & Hfin & Hv).
  split; [eauto|]. split; [assumption|].
  rewrite value_zero in Hv. lra.
Qed.

(** X8: the schedule of an interest-free loan.  For valid terms whose
    annual rate compares equal to 0, every record of a returned schedule
    has an interest of zero cents, and its principal portion has the
    value of the payment. *)
Theorem interest_free_schedule
    (p r : Decimal) (y : Z) (lc : LoanCalculator)
    (sched : list PaymentRecord) (rec : PaymentRecord) :
  valid_terms p r y ->
  eqb r (of_int 0) = true ->
  init p r y = Ret lc ->
  result generate_amortization_schedule lc = Ret sched ->
  In rec sched ->
  (exists s, interest rec = Fin s 0 (-2)) /\
  is_finite (principal_paid rec) /\
  (value (principal_paid rec) == value (monthly_payment rec))%Q.
Proof.
  intros Hvalid Hzero Hinit Hsched Hin.
  rewrite result_generate_amortization_schedule in Hsched.
  apply schedule_of_records in Hsched as (P & HP & _ & Hrecs).
  apply In_nth_error in Hin as (i & Hi).
  pose proof (Hrecs i rec Hi) as Hrec.
  assert (HmP : monthly_payment rec = P).
  { destruct Hrec as (B & product & B' & H'). intuition. }
  destruct (valid_payment_shape p r y lc P Hvalid Hinit HP)
    as (sm & cm & em & cP & eP & Hm & _ & HPeq & HrP & _).
  assert (Hlc : well_formed_loan lc).
  { destruct Hvalid as ((cp & ep & -> & Hcp) & (sr & cr & er & -> & Hcr & _) & _).
    apply (init_well_formed (Fin false cp ep) (Fin sr cr er) y lc);
      [cbn [well_formed]; lia|cbn [well_formed]; lia|assumption]. }
  assert (Hcm : cm = 0).
  { destruct Hvalid as (_ & (sr & cr & er & -> & Hcr & _) & _).
    rewrite eqb_zero in Hzero. apply Z.eqb_eq in Hzero. subst cr.
    unfold init in Hinit. apply obind_ret_inv in Hinit as (m & Hdiv & Hlc').
    injection Hlc' as <-. cbn [monthly_rate] in Hm. subst m.
    destruct (div_fin_sign sr 0 er false 12 0 _ ltac:(lia) ltac:(lia) Hdiv)
      as (c' & e' & Heq & _ & Hz).
    injection Heq as _ -> _. apply Hz. reflexivity. }
  subst cm. rewrite HmP.
  apply (zero_rate_record lc P i rec sm em cP eP Hlc Hm HPeq HrP Hrec).
Qed.

Lemma interest_free_schedule_witness :
  valid_terms (dec 1200 0) (dec 0 0) 1 /\
  eqb (dec 0 0) (of_int 0) = true /\
  init (dec 1200 0) (dec 0 0) 1 = Ret free_loan /\
  result generate_amortization_schedule free_loan = Ret free_schedule /\
  In (mkPaymentRecord 1 (dec 100 0) (dec 0 (-2)) (dec 10000 (-2))
        (dec 110000 (-2))) free_schedule /\
  (exists s, dec 0 (-2) = Fin s 0 (-2)) /\
  is_finite (dec 10000 (-2)) /\
  (value (dec 10000 (-2)) == value (dec 100 0))%Q.
Proof.
  assert (H1 : valid_terms (dec 1200 0) (dec 0 0) 1)
    by (apply valid_terms_dec; lia).
  assert (H2 : eqb (dec 0 0) (of_int 0) = true) by reflexivity.
  assert (H3 : init (dec 1200 0) (dec 0 0) 1 = Ret free_loan)
    by (vm_compute; reflexivity).
  assert (H4 : result generate_amortization_schedule free_loan = Ret free_schedule)
    by (vm_compute; reflexivity).
  assert (H5 : In (mkPaymentRecord 1 (dec 100 0) (dec 0 (-2)) (dec 10000 (-2))
                     (dec 110000 (-2))) free_schedule)
    by (left; reflexivity).
  exact (conj H1 (conj H2 (conj H3 (conj H4 (conj H5
    (interest_free_schedule _ _ _ _ _ _ H1 H2 H3 H4 H5)))))).
Defined.

(** ** The rounding of the total interest *)

Lemma rhe_tie_even (c k : Z) :
  0 < k -> 0 <= c ->
  2 * (rhe c k * 10 ^ k) = 2 * c + 10 ^ k \/
  2 * (rhe c k * 10 ^ k) = 2 * c - 10 ^ k ->
  Z.even (rhe c k) = true.
Proof.
  intros Hk Hc H. unfold rhe in *.
  pose proof (pow10_pos k ltac:(lia)) as Hp.
  pose proof (Z.div_mod c (10 ^ k) ltac:(lia)) as Hdm.
  pose proof (Z.mod_pos_bound c (10 ^ k) Hp) as Hm.
  set (q := c / 10 ^ k) in *. set (m := c mod 10 ^ k) in *.
  destruct (round_half_even_cases c k Hk Hc) as [(Hup & Hge & Hodd)|(Hdn & Hle & Hev)];
    fold m in Hge || fold m in Hle; fold q in Hodd || fold q in Hev.
  - replace (0 <? round_half_even c k) with true in * by (symmetry; apply Z.ltb_lt; lia).
    assert (10 ^ k = 2 * m) by nia.
    replace (q + 1) with (Z.succ q) by lia.
    rewrite Z.even_succ, <- Z.negb_even, (Hodd ltac:(assumption)). reflexivity.
  - replace (0 <? round_half_even c k) with false in * by (symmetry; apply Z.ltb_ge; lia).
    rewrite Z.add_0_r in *.
    assert (10 ^ k = 2 * m) by nia. auto.
Qed.

Lemma mag_half_cent : (mag 1 (-2) == 1 # 100)%Q.
Proof. reflexivity. Qed.

(** Rounding to cents moves a magnitude by at most half a cent, and by
    exactly half a cent only onto an even number of cents. *)
Lemma cents_of_half_even (c e : Z) :
  0 <= c ->
  (Qabs (mag (cents_of ROUND_HALF_EVEN c e) (-2) - mag c e) <= 1 # 200)%Q /\
  ((Qabs (mag (cents_of ROUND_HALF_EVEN c e) (-2) - mag c e) == 1 # 200)%Q ->
   Z.even (cents_of ROUND_HALF_EVEN c e) = true).
Proof.
  intros Hc. unfold cents_of.
  destruct (Z.leb_spec (-2) e) as [He|He].
  - assert (Heq : (mag (c * 10 ^ (e + 2)) (-2) == mag c e)%Q).
    { replace (e + 2) with (e - -2) by lia. apply mag_shift. lia. }
    rewrite Heq.
    assert (Hz : (mag c e - mag c e == 0)%Q) by ring.
    rewrite Hz. split; [cbn; discriminate|]. intros H. cbn in H. discriminate.
  - set (k := -2 - e). assert (Hk : 0 < k) by (unfold k; lia).
    set (ct := rhe c k).
    pose proof (rhe_nearest c k Hk Hc) as Hn. fold ct in Hn.
    assert (Heq : (mag ct (-2) - mag c e == mag (ct * 10 ^ k - c) e)%Q).
    { rewrite mag_minus. unfold k. rewrite mag_shift by lia. reflexivity. }
    rewrite Heq. set (D := ct * 10 ^ k - c) in *.
    assert (H2 : (mag (2 * D) e == 2 * mag D e)%Q).
    { replace (2 * D) with (D + D) by lia. rewrite mag_plus. ring. }
    assert (Hup : (mag (2 * D) e <= mag 1 (-2))%Q).
    { apply (mag_le_iff e); [lia|lia|]. rewrite Z.sub_diag. fold k.
      change (10 ^ 0) with 1. lia. }
    assert (Hlo : (mag (-1) (-2) <= mag (2 * D) e)%Q).
    { apply (mag_le_iff e); [lia|lia|]. rewrite Z.sub_diag. fold k.
      change (10 ^ 0) with 1. lia. }
    assert (Hneg : (mag (-1) (-2) == - (1 # 100))%Q) by reflexivity.
    rewrite mag_half_cent in Hup. rewrite Hneg in Hlo.
    split.
    + apply Qabs_Qle_condition. split; lra.
    + intros Htie. apply (rhe_tie_even c k Hk Hc). fold ct.
      assert (Hcases : (mag (2 * D) e == mag 1 (-2))%Q \/
                       (mag (2 * D) e == mag (-1) (-2))%Q).
      { rewrite mag_half_cent, Hneg, H2.
        revert Htie. apply Qabs_case; intros Hs Htie; [left|right]; lra. }
      destruct Hcases as [Hc1|Hc1];
        apply (mag_eq_iff e) in Hc1; try lia;
        rewrite Z.sub_diag in Hc1; fold k in Hc1;
        change (10 ^ 0) with 1 in Hc1; unfold D in Hc1; [left|right]; lia.
Qed.

(** X9: on an instance whose principal and rates are finite numbers,
    [total_interest_paid] returns the difference
    [payment * total_payments - principal], as the ten-digit arithmetic
    gives it, rounded to a whole number of cents: to the nearest cent,
    and to the even cent when the difference lies exactly halfway. *)
Theorem total_interest_is_nearest_cent (lc : LoanCalculator) (t : Decimal) :
  finite_loan lc ->
  result total_interest_paid lc = Ret t ->
  exists P total_paid difference s c,
    result calculate_monthly_payment lc = Ret P /\
    mul P (of_int (total_payments lc)) = Ret total_paid /\
    sub total_paid (principal lc) = Ret difference /\
    t = Fin s c (-2) /\ 0 <= c < 10 ^ prec /\
    (Qabs (value t - value difference) <= 1 # 200)%Q /\
    ((Qabs (value t - value difference) == 1 # 200)%Q -> Z.even c = true).
Proof.
  rewrite result_total_interest_paid, result_calculate_monthly_payment.
  intros Hfin H. pose proof (finite_loan_well_formed lc Hfin) as Hlc.
  unfold total_interest_of in H.
  apply obind_ret_inv in H as (P & HP & H).
  apply obind_ret_inv in H as (total_paid & Hmul & H).
  apply obind_ret_inv in H as (difference & Hsub & H).
  pose proof (payment_of_well_formed lc P Hlc HP) as HwP.
  assert (Hwt : well_formed total_paid).
  { eapply mul_well_formed; [exact HwP| |exact Hmul]. unfold of_int. cbn. lia. }
  assert (Hwd : well_formed difference).
  { eapply sub_well_formed; [exact Hwt| |exact Hsub]. apply Hlc. }
  destruct (quantize_in_cents ROUND_HALF_EVEN difference t Hwd H)
    as (s & c & e & -> & -> & Hc).
  cbn [well_formed] in Hwd.
  exists P, total_paid, (Fin s c e), s, (cents_of ROUND_HALF_EVEN c e).
  repeat split; try assumption; try apply Hc.
  - destruct (cents_of_half_even c e Hwd) as [Hle _]. cbn [value].
    destruct s; [|assumption].
    assert (Hx : (- mag (cents_of ROUND_HALF_EVEN c e) (-2) - - mag c e
                  == - (mag (cents_of ROUND_HALF_EVEN c e) (-2) - mag c e))%Q) by ring.
    rewrite Hx, Qabs_opp. assumption.
  - destruct (cents_of_half_even c e Hwd) as [_ Hev]. cbn [value].
    destruct s; [|assumption].
    assert (Hx : (- mag (cents_of ROUND_HALF_EVEN c e) (-2) - - mag c e
                  == - (mag (cents_of ROUND_HALF_EVEN c e) (-2) - mag c e))%Q) by ring.
    rewrite Hx, Qabs_opp. assumption.
Qed.

Lemma total_interest_is_nearest_cent_witness :
  finite_loan one_year_loan /\
  result total_interest_paid one_year_loan = Ret (dec 2730 (-2)) /\
  exists P total_paid difference s c,
    result calculate_monthly_payment one_year_loan = Ret P /\
    mul P (of_int (total_payments one_year_loan)) = Ret total_paid /\
    sub total_paid (principal one_year_loan) = Ret difference /\
    dec 2730 (-2) = Fin s c (-2) /\ 0 <= c < 10 ^ prec /\
    (Qabs (value (dec 2730 (-2)) - value difference) <= 1 # 200)%Q /\
    ((Qabs (value (dec 2730 (-2)) - value difference) == 1 # 200)%Q ->
     Z.even c = true).
Proof.
  assert (H0 : finite_loan one_year_loan)
    by (unfold finite_loan; cbn; lia).
  assert (H1 : result total_interest_paid one_year_loan = Ret (dec 2730 (-2)))
    by (vm_compute; reflexivity).
  exact (conj H0 (conj H1 (total_interest_is_nearest_cent _ _ H0 H1))).
Defined.

(** ** Balances of a principal in whole cents *)

Lemma normalize_onto_cents (c1 e1 c2 : Z) :
  0 < c1 -> -2 <= e1 -> e1 + ndigits c1 - 1 <= 9 -> 0 < c2 ->
  _normalize c1 e1 c2 (-2) = ((c1 * 10 ^ (e1 + 2), -2), (c2, -2)).
Proof.
  intros H1 He Ha H2. unfold _normalize.
  pose proof (ndigits_ge1 c1). pose proof (ndigits_ge1 c2).
  replace (e1 <? -2) with false by (symmetry; apply Z.ltb_ge; lia). cbv zeta.
  replace (ndigits c2 + -2 - 1 <? e1 + Z.min (-1) (ndigits c1 - prec - 2)) with false
    by (symmetry; apply Z.ltb_ge; unfold prec in *; lia).
  replace (e1 - -2) with (e1 + 2) by lia. reflexivity.
Qed.

(** The sum of an amount in whole cents below 10^10 and an amount in
    cents, before the context rounds it. *)
Lemma add_onto_cents (s1 : bool) (c1 e1 : Z) (s2 : bool) (c2 : Z) :
  0 <= c1 -> -2 <= e1 -> (0 < c1 -> e1 + ndigits c1 - 1 <= 9) ->
  0 <= c2 < 10 ^ prec ->
  exists s,
    add (Fin s1 c1 e1) (Fin s2 c2 (-2)) =
      _fix s (Z.abs (signed s1 (c1 * 10 ^ (e1 + 2)) + signed s2 c2)) (-2) /\
    signed s (Z.abs (signed s1 (c1 * 10 ^ (e1 + 2)) + signed s2 c2))
    = signed s1 (c1 * 10 ^ (e1 + 2)) + signed s2 c2.
Proof.
  intros H1 He Ha H2. unfold add. cbv zeta.
  replace (Z.min e1 (-2)) with (-2) by lia.
  pose proof (pow10_pos (e1 + 2) ltac:(lia)) as Hp.
  destruct (Z.eqb_spec c1 0) as [->|N1]; destruct (Z.eqb_spec c2 0) as [->|N2];
    cbn [andb].
  - exists (s1 && s2). rewrite Z.mul_0_l.
    replace (signed s1 0 + signed s2 0) with 0 by (destruct s1, s2; reflexivity).
    split; [reflexivity|]. destruct (s1 && s2); reflexivity.
  - exists s2. change (Z.max (-2) (-2 - prec - 1)) with (-2).
    unfold _rescale.
    replace (c2 =? 0) with false by (symmetry; apply Z.eqb_neq; lia).
    change (-2 <=? -2) with true. cbv iota.
    change (10 ^ (-2 - -2)) with 1. rewrite Z.mul_1_r. cbn [fix_dec].
    rewrite Z.mul_0_l.
    replace (Z.abs (signed s1 0 + signed s2 c2)) with c2
      by (unfold signed; destruct s1, s2; lia).
    split; [reflexivity|]. unfold signed; destruct s1, s2; lia.
  - exists s1. specialize (Ha ltac:(lia)). pose proof (ndigits_ge1 c1).
    replace (Z.max (-2) (e1 - prec - 1)) with (-2) by (unfold prec; lia).
    unfold _rescale.
    replace (c1 =? 0) with false by (symmetry; apply Z.eqb_neq; lia).
    replace (-2 <=? e1) with true by (symmetry; apply Z.leb_le; lia).
    cbn [fix_dec]. replace (e1 - -2) with (e1 + 2) by lia.
    replace (Z.abs (signed s1 (c1 * 10 ^ (e1 + 2)) + signed s2 0))
      with (c1 * 10 ^ (e1 + 2))
      by (unfold signed; destruct s1, s2; nia).
    split; [reflexivity|]. unfold signed; destruct s1, s2; lia.
  - rewrite (normalize_onto_cents c1 e1 c2) by (try apply Ha; lia).
    set (i1 := c1 * 10 ^ (e1 + 2)). assert (Hi1 : 0 < i1) by (unfold i1; nia).
    destruct s1, s2; cbn [Bool.eqb]; unfold signed.
    + exists true. replace (Z.abs (- i1 + - c2)) with (i1 + c2) by lia.
      split; [reflexivity|lia].
    + destruct (Z.eqb_spec i1 c2) as [Heq|Hne].
      * exists false. replace (Z.abs (- i1 + c2)) with 0 by lia.
        split; [reflexivity|lia].
      * destruct (Z.ltb_spec i1 c2).
        -- exists false. replace (Z.abs (- i1 + c2)) with (c2 - i1) by lia.
           split; [reflexivity|lia].
        -- exists true. replace (Z.abs (- i1 + c2)) with (i1 - c2) by lia.
           split; [reflexivity|lia].
    + destruct (Z.eqb_spec i1 c2) as [Heq|Hne].
      * exists false. replace (Z.abs (i1 + - c2)) with 0 by lia.
        split; [reflexivity|lia].
      * destruct (Z.ltb_spec i1 c2).
        -- exists true. replace (Z.abs (i1 + - c2)) with (c2 - i1) by lia.
           split; [reflexivity|lia].
        -- exists false. replace (Z.abs (i1 + - c2)) with (i1 - c2) by lia.
           split; [reflexivity|lia].
    + exists false. replace (Z.abs (i1 + c2)) with (i1 + c2) by lia.
      split; [reflexivity|lia].
Qed.

(** An amount that [quantize] puts in cents is below 10^8. *)
Lemma quantize_small (r : Rounding) (s : bool) (c e : Z) (q : Decimal) :
  0 <= c -> quantize r (Fin s c e) cent = Ret q ->
  (mag c e < mag 1 8)%Q.
Proof.
  intros Hc H. rewrite quantize_cent in H by assumption.
  destruct (Z.ltb_spec (cents_of r c e) (10 ^ prec)) as [Hlt|]; [|discriminate].
  clear H. unfold cents_of in Hlt.
  destruct (Z.leb_spec (-2) e) as [He|He].
  - apply (mag_lt_iff (-2)); [lia|lia|].
    change (1 * 10 ^ (8 - -2)) with (10 ^ prec).
    replace (e - -2) with (e + 2) by lia. assumption.
  - apply (mag_lt_iff e); [lia|lia|]. rewrite Z.sub_diag.
    change (10 ^ 0) with 1. rewrite Z.mul_1_r, Z.mul_1_l.
    destruct (Z.lt_ge_cases c (10 ^ (8 - e))) as [|Hge]; [assumption|exfalso].
    replace (8 - e) with (prec + (-2 - e)) in Hge by (unfold prec; lia).
    rewrite pow10_split in Hge by (unfold prec; lia).
    destruct r.
    + pose proof (rhu_ge_grid c (-2 - e) (10 ^ prec) ltac:(lia) Hc Hge). lia.
    + pose proof (rhe_ge_grid c (-2 - e) (10 ^ prec) ltac:(lia) Hc Hge). lia.
Qed.

(** Rounding to the context keeps a magnitude of 10^8 or more at 10^8 or
    more. *)
Lemma fix_large (s : bool) (i x : Z) (d : Decimal) :
  0 <= i -> (mag 1 8 <= mag i x)%Q -> _fix s i x = Ret d ->
  exists c e, d = Fin s c e /\ 0 <= c /\ (mag 1 8 <= mag c e)%Q.
Proof.
  intros Hi Hbig Hfix.
  destruct (fix_representable s i x d Hi Hfix) as (c & e & -> & Hr).
  exists c, e. split; [reflexivity|]. split; [apply Hr|].
  destruct s.
  - pose proof (fix_value_le true i x _ true 1 8 Hi Hfix representable_1e8) as H.
    cbn [value] in H. specialize (H ltac:(lra)). lra.
  - pose proof (fix_value_ge false i x _ false 1 8 Hi Hfix representable_1e8) as H.
    cbn [value] in H. specialize (H ltac:(lra)). lra.
Qed.

Lemma large_sum_raises (r : Rounding) (s : bool) (i x : Z) (d q : Decimal) :
  0 <= i -> (mag 1 8 <= mag i x)%Q -> _fix s i x = Ret d ->
  quantize r d cent = Ret q -> False.
Proof.
  intros Hi Hbig Hfix Hq.
  destruct (fix_large s i x d Hi Hbig Hfix) as (c & e & -> & Hc & Hge).
  pose proof (quantize_small r s c e q Hc Hq). lra.
Qed.

Lemma seen_as_bound (s : bool) (c e tc te : Z) (v : Q) :
  0 <= c -> 0 <= tc -> seen_as s c e tc te v ->
  (- (mag c e + (1 # 10) * mag tc te) <= v <= mag c e + (1 # 10) * mag tc te)%Q.
Proof.
  intros Hc Ht H.
  pose proof (mag_nonneg c e Hc). pose proof (mag_nonneg tc te Ht).
  destruct H as [Hv|(X & Hv & _ & Hten)].
  - cbn [value] in Hv. destruct s; rewrite Hv; split; lra.
  - rewrite mag_ten in Hten. pose proof (mag_pos 1 X ltac:(lia)).
    cbn [value] in Hv. destruct s; rewrite Hv; split; lra.
Qed.

Lemma mag_1e10 : (mag 1 10 == 10000000000)%Q.
Proof. reflexivity. Qed.

Lemma mag_1e8 : (mag 1 8 == 100000000)%Q.
Proof. reflexivity. Qed.

Lemma adjusted_large (c e : Z) :
  0 < c -> 10 <= e + ndigits c - 1 -> (mag 1 10 <= mag c e)%Q.
Proof.
  intros Hc Ha. destruct (ndigits_bounds c Hc) as [Hlo _].
  destruct (Z.le_gt_cases e 10).
  - apply (mag_le_iff e); [lia|lia|]. rewrite Z.sub_diag. change (10 ^ 0) with 1.
    pose proof (pow10_le (10 - e) (ndigits c - 1) ltac:(lia)). lia.
  - apply (mag_le_iff 10); [lia|lia|]. rewrite Z.sub_diag. change (10 ^ 0) with 1.
    pose proof (pow10_pos (e - 10) ltac:(lia)). nia.
Qed.

(** An amount of 10^10 or more minus an amount in cents is still too
    large to be shown in cents. *)
Lemma add_huge_raises (r : Rounding) (s1 : bool) (c1 e1 : Z) (s2 : bool) (c2 : Z)
    (d q : Decimal) :
  0 < c1 -> 10 <= e1 + ndigits c1 - 1 -> 0 <= c2 < 10 ^ prec ->
  add (Fin s1 c1 e1) (Fin s2 c2 (-2)) = Ret d ->
  quantize r d cent = Ret q -> False.
Proof.
  intros H1 Ha H2 Hadd Hq.
  pose proof (adjusted_large c1 e1 H1 Ha) as HM. rewrite mag_1e10 in HM.
  destruct (Z.eq_dec c2 0) as [->|N2].
  - destruct (add_zero_r s1 c1 e1 s2 (-2) H1) as (j & Hj & Heq).
    rewrite Heq in Hadd. pose proof (pow10_pos j Hj).
    apply (large_sum_raises r s1 (c1 * 10 ^ j) (e1 - j) d q); try assumption; [nia|].
    pose proof (value_pad false c1 e1 j Hj) as Hv. cbn [value] in Hv.
    rewrite Hv, mag_1e8. lra.
  - destruct (add_nonzero s1 c1 e1 s2 c2 (-2) d H1 ltac:(lia) Hadd)
      as (s & i & x & va & vb & Hi & Hfix & _ & Hv & Hsa & Hsb).
    assert (Hm2 : (mag c2 (-2) < mag 1 8)%Q).
    { apply (mag_lt_iff (-2)); [lia|lia|]. rewrite Z.sub_diag.
      change (10 ^ 0) with 1. change (1 * 10 ^ (8 - -2)) with (10 ^ prec). lia. }
    rewrite mag_1e8 in Hm2.
    pose proof (seen_as_bound s2 c2 (-2) c1 e1 vb ltac:(lia) ltac:(lia) Hsb) as Hb.
    pose proof (mag_nonneg c2 (-2) ltac:(lia)) as Hn2.
    apply (large_sum_raises r s i x d q); try assumption.
    rewrite mag_1e8. pose proof (mag_nonneg i x Hi) as Hni.
    destruct s1.
    + apply seen_as_nonpos in Hsa; [|lia].
      cbn [value] in Hv. destruct s; lra.
    + apply seen_as_nonneg in Hsa; [|lia].
      cbn [value] in Hv. destruct s; lra.
Qed.

Lemma value_as_cents (s : bool) (c e : Z) :
  -2 <= e ->
  (value (Fin s c e) == inject_Z (signed s (c * 10 ^ (e + 2))) / 100)%Q.
Proof.
  intros He. rewrite <- value_cents.
  replace (e + 2) with (e - -2) by lia.
  destruct s; cbn [value]; rewrite mag_shift by lia; reflexivity.
Qed.

(** A balance in whole cents minus an amount in cents, when the result
    can be shown in cents: nothing is rounded, in the subtraction or in
    the display. *)
Lemma sub_onto_cents (r : Rounding) (sB : bool) (cB eB : Z) (s : bool) (d : Z)
    (B' shown : Decimal) :
  0 <= cB -> -2 <= eB -> 0 <= d < 10 ^ prec ->
  sub (Fin sB cB eB) (Fin s d (-2)) = Ret B' ->
  quantize r B' cent = Ret shown ->
  exists s' c',
    B' = Fin s' c' (-2) /\ 0 <= c' < 10 ^ prec /\ shown = B' /\
    (value B' == value (Fin sB cB eB) - value (Fin s d (-2)))%Q.
Proof.
  intros HcB HeB Hd Hsub Hq. unfold sub in Hsub. cbn [copy_negate] in Hsub.
  destruct (Z_lt_le_dec 0 cB) as [Hpos|Hzero].
  - destruct (Z_le_gt_dec 10 (eB + ndigits cB - 1)) as [Hbig|Hsmall].
    + exfalso. apply (add_huge_raises r sB cB eB (negb s) d B' shown); assumption.
    + destruct (add_onto_cents sB cB eB (negb s) d HcB HeB ltac:(lia) Hd)
        as (s' & Hadd & Hsg).
      rewrite Hadd in Hsub.
      set (S := signed sB (cB * 10 ^ (eB + 2)) + signed (negb s) d) in *.
      destruct (Z_lt_le_dec (Z.abs S) (10 ^ prec)) as [Hlt|Hge].
      * rewrite fix_cents in Hsub by lia. injection Hsub as <-.
        exists s', (Z.abs S). split; [reflexivity|]. split; [lia|].
        rewrite quantize_cent in Hq by lia. unfold cents_of in Hq.
        change (-2 <=? -2) with true in Hq. cbv iota in Hq.
        change (10 ^ (-2 + 2)) with 1 in Hq. rewrite Z.mul_1_r in Hq.
        replace (Z.abs S <? 10 ^ prec) with true in Hq
          by (symmetry; apply Z.ltb_lt; assumption).
        injection Hq as <-. split; [reflexivity|].
        rewrite value_cents, Hsg, value_as_cents, value_cents by assumption.
        unfold S. replace (signed (negb s) d) with (- signed s d)
          by (unfold signed; destruct s; cbn [negb]; lia).
        rewrite inject_Z_plus, inject_Z_opp. unfold Qdiv. ring.
      * exfalso. apply (large_sum_raises r s' (Z.abs S) (-2) B' shown);
          try assumption; [lia|].
        apply (mag_le_iff (-2)); [lia|lia|]. rewrite Z.sub_diag.
        change (10 ^ 0) with 1. change (1 * 10 ^ (8 - -2)) with (10 ^ prec). lia.
  - assert (cB = 0) by lia. subst cB.
    destruct (add_onto_cents sB 0 eB (negb s) d HcB HeB ltac:(lia) Hd)
      as (s' & Hadd & Hsg).
    rewrite Hadd in Hsub.
    set (S := signed sB (0 * 10 ^ (eB + 2)) + signed (negb s) d) in *.
    assert (Hlt : Z.abs S < 10 ^ prec)
      by (unfold S, signed; destruct sB, s; cbn [negb]; lia).
    rewrite fix_cents in Hsub by lia. injection Hsub as <-.
    exists s', (Z.abs S). split; [reflexivity|]. split; [lia|].
    rewrite quantize_cent in Hq by lia. unfold cents_of in Hq.
    change (-2 <=? -2) with true in Hq. cbv iota in Hq.
    change (10 ^ (-2 + 2)) with 1 in Hq. rewrite Z.mul_1_r in Hq.
    replace (Z.abs S <? 10 ^ prec) with true in Hq
      by (symmetry; apply Z.ltb_lt; assumption).
    injection Hq as <-. split; [reflexivity|].
    rewrite value_cents, Hsg, value_as_cents, value_cents by assumption.
    unfold S. replace (signed (negb s) d) with (- signed s d)
      by (unfold signed; destruct s; cbn [negb]; lia).
    rewrite inject_Z_plus, inject_Z_opp. unfold Qdiv. ring.
Qed.

Lemma round2_cents_zero (e : Z) : round2_cents (mag 0 e) = 0.
Proof.
  rewrite round2_cents_mag by lia. unfold cents_of.
  destruct (Z.leb_spec (-2) e); [lia|].
  rewrite rhu_formula by lia. apply Z.div_small.
  pose proof (pow10_pos (-2 - e) ltac:(lia)). lia.
Qed.

(** The principal portion is an amount in cents. *)
Lemma portion_in_cents (sB : bool) (cB eB cP cI : Z) (PP B' shown : Decimal) :
  0 <= cB -> (0 < cI -> 0 < cB) ->
  0 <= cI < 10 ^ prec -> 0 <= cP < 10 ^ prec ->
  sub (Fin false cP (-2)) (Fin sB cI (-2)) = Ret PP ->
  sub (Fin sB cB eB) PP = Ret B' ->
  quantize ROUND_HALF_UP B' cent = Ret shown ->
  exists s d, PP = Fin s d (-2) /\ 0 <= d < 10 ^ prec.
Proof.
  intros HcB Hpos HcI HcP HPP HB' Hq.
  unfold sub in HPP. cbn [copy_negate] in HPP.
  destruct (Z_lt_le_dec (Z.abs (signed false cP + signed (negb sB) cI)) (10 ^ prec))
    as [Hlt|Hge].
  - destruct (add_cents false cP (negb sB) cI HcP HcI Hlt) as (s & Hadd & _).
    rewrite Hadd in HPP. exists s, (Z.abs (signed false cP + signed (negb sB) cI)).
    split; [congruence|lia].
  - exfalso.
    assert (sB = true)
      by (destruct sB; [reflexivity|unfold signed in Hge; cbn [negb] in Hge; lia]).
    subst sB. unfold signed in Hge. cbn [negb] in Hge, HPP.
    apply (large_portion_raises cB eB cP cI PP B' shown); try assumption; lia.
Qed.

Section WholeCents.

Variables (lc : LoanCalculator) (cP cm em : Z).
Hypothesis Hrate : monthly_rate lc = Fin false cm em.
Hypothesis Hcm : 0 <= cm.
Hypothesis HcP : 0 <= cP < 10 ^ prec.

(** One period on a balance in whole cents: the next balance is the
    balance minus the principal portion, exactly, and it is stored as it
    is. *)
Lemma record_exact (k : nat) (rec : PaymentRecord) (sB : bool) (cB eB : Z) :
  running_balance lc (Fin false cP (-2)) k = Ret (Fin sB cB eB) -> 0 <= cB -> -2 <= eB ->
  record_at lc (Fin false cP (-2)) k rec ->
  exists s' c',
    running_balance lc (Fin false cP (-2)) (S k) = Ret (Fin s' c' (-2)) /\ 0 <= c' /\
    balance rec = Fin s' c' (-2) /\
    is_finite (principal_paid rec) /\
    (value (balance rec) == value (Fin sB cB eB) - value (principal_paid rec))%Q.
Proof.
  intros HBk HcB HeB
    (B & product & B' & HB & Hmul & HqI & HPP & HB' & HB'' & Hshown & _).
  rewrite HBk in HB. injection HB as <-. rewrite Hrate in Hmul.
  destruct (mul_fin sB cB eB false cm em product HcB Hcm Hmul)
    as (cpr & epr & -> & Hrpr & Hz & _).
  rewrite xorb_false_r in HqI.
  assert (Hcpr : 0 <= cpr) by apply Hrpr.
  destruct (quantize_half_up_fin sB cpr epr (interest rec) Hcpr HqI) as [HI HcI].
  set (cI := round2_cents (mag cpr epr)) in *.
  rewrite HI in HPP.
  assert (Hpos : 0 < cI -> 0 < cB).
  { intros HposI. destruct (Z.eq_dec cB 0) as [->|]; [|lia].
    assert (cpr = 0) by (apply Hz; lia). subst cpr.
    unfold cI in HposI. rewrite round2_cents_zero in HposI. lia. }
  destruct (portion_in_cents sB cB eB cP cI (principal_paid rec) B' (balance rec)
              HcB Hpos HcI HcP HPP HB' Hshown) as (s & d & Hpp & Hd).
  rewrite Hpp in HB' |- *.
  destruct (sub_onto_cents ROUND_HALF_UP sB cB eB s d B' (balance rec) HcB HeB Hd HB' Hshown)
    as (s' & c' & -> & Hc' & Hsh & Hv).
  exists s', c'. rewrite Hsh. repeat split; try assumption; try lia.
  cbn [is_finite]. lia.
Qed.

Lemma balances_stay_in_cents (sched : list PaymentRecord) (sp : bool) (cp ep : Z) :
  principal lc = Fin sp cp ep -> 0 <= cp -> -2 <= ep ->
  (forall i rec, nth_error sched i = Some rec -> record_at lc (Fin false cP (-2)) i rec) ->
  forall k, (k < length sched)%nat ->
    exists sB cB eB,
      running_balance lc (Fin false cP (-2)) k = Ret (Fin sB cB eB) /\ 0 <= cB /\ -2 <= eB.
Proof.
  intros Hp Hcp Hep Hrecs. induction k as [|k IH]; intros Hk.
  - exists sp, cp, ep. cbn [running_balance]. rewrite Hp. auto.
  - destruct (IH ltac:(lia)) as (sB & cB & eB & HB & HcB & HeB).
    destruct (nth_error sched k) as [rec|] eqn:Hnth.
    + destruct (record_exact k rec sB cB eB HB HcB HeB (Hrecs k rec Hnth))
        as (s' & c' & HB' & Hc' & _).
      exists s', c', (-2). split; [assumption|]. split; lia.
    + apply nth_error_None in Hnth. lia.
Qed.

End WholeCents.

(** X10: for valid terms with a non-zero annual rate and a principal in
    whole cents, the balances of a returned schedule follow the principal
    portions exactly: the first balance is the principal minus the first
    principal portion, and every later balance is the balance of the
    record before it minus its own principal portion.  No rounding enters:
    every running balance is itself an amount in cents. *)
Theorem balance_is_previous_minus_principal_portion
    (p r : Decimal) (y : Z) (lc : LoanCalculator) (sched : list PaymentRecord) :
  valid_terms p r y ->
  whole_cents p ->
  eqb r (of_int 0) = false ->
  init p r y = Ret lc ->
  result generate_amortization_schedule lc = Ret sched ->
  (forall first,
     nth_error sched 0 = Some first ->
     is_finite (principal_paid first) /\
     (value (balance first) == value p - value (principal_paid first))%Q) /\
  (forall j previous current,
     nth_error sched j = Some previous ->
     nth_error sched (S j) = Some current ->
     is_finite (principal_paid current) /\
     (value (balance current)
        == value (balance previous) - value (principal_paid current))%Q).
Proof.
  intros Hvalid Hwhole Hrate Hinit Hsched.
  rewrite result_generate_amortization_schedule in Hsched.
  apply schedule_of_records in Hsched as (P & HP & _ & Hrecs).
  pose proof (valid_payment_shape p r y lc P Hvalid Hinit HP)
    as (sm & cm & em & cP & eP & Hm & Hcm & HPeq & HrP & _).
  destruct Hvalid as ((cp & ep & -> & Hcp) & (sr & cr & er & -> & Hcr & Hsr) & Hy).
  cbn [whole_cents] in Hwhole.
  assert (Hlc : well_formed_loan lc).
  { apply (init_well_formed (Fin false cp ep) (Fin sr cr er) y lc);
      [cbn [well_formed]; lia|cbn [well_formed]; lia|assumption]. }
  unfold init in Hinit. apply obind_ret_inv in Hinit as (m & Hdiv & Hlc').
  assert (Hfields : principal lc = Fin false cp ep /\ annual_rate lc = Fin sr cr er /\
                    monthly_rate lc = m)
    by (injection Hlc' as <-; auto).
  destruct Hfields as (Hprin & Hann & Hmon). clear Hlc'.
  rewrite eqb_zero in Hrate. apply Z.eqb_neq in Hrate.
  assert (sr = false) by (destruct sr; [specialize (Hsr eq_refl); lia|reflexivity]).
  subst sr.
  destruct (div_fin_sign false cr er false 12 0 m Hcr ltac:(lia) Hdiv)
    as (cm' & em' & Hmeq & _ & _).
  cbn [xorb] in Hmeq. rewrite Hmon, Hmeq in Hm. injection Hm as <- <- <-.
  assert (Hnz : eqb (annual_rate lc) (of_int 0) = false)
    by (rewrite Hann, eqb_zero; apply Z.eqb_neq; assumption).
  destruct (nonzero_rate_payment_in_cents lc P Hlc Hnz HP) as (s & c & HPc & Hc).
  rewrite HPeq in HPc. injection HPc as <- <- ->. subst P.
  rewrite <- Hmon in Hmeq. clear Hmon.
  pose proof (record_exact lc cP cm' em' Hmeq Hcm Hc) as Hstep.
  pose proof (balances_stay_in_cents lc cP cm' em' Hmeq Hcm Hc sched false cp ep
                Hprin ltac:(lia) Hwhole Hrecs) as Hinv.
  split.
  - intros first Hfirst.
    assert (H0 : running_balance lc (Fin false cP (-2)) 0 = Ret (Fin false cp ep))
      by (cbn [running_balance]; rewrite Hprin; reflexivity).
    destruct (Hstep 0%nat first false cp ep H0 ltac:(lia) Hwhole (Hrecs _ _ Hfirst))
      as (s' & c' & _ & _ & _ & Hfin & Hv).
    split; assumption.
  - intros j previous current Hprev Hcur.
    assert (Hj : (j < length sched)%nat)
      by (apply nth_error_Some; rewrite Hprev; discriminate).
    destruct (Hinv j Hj) as (sB & cB & eB & HB & HcB & HeB).
    destruct (Hstep j previous sB cB eB HB HcB HeB (Hrecs _ _ Hprev))
      as (s' & c' & HB' & Hc' & Hbal & _ & _).
    destruct (Hstep (S j) current s' c' (-2) HB' Hc' ltac:(lia) (Hrecs _ _ Hcur))
      as (s'' & c'' & _ & _ & _ & Hfin & Hv).
    rewrite Hbal. split; assumption.
Qed.

Lemma balance_is_previous_minus_principal_portion_witness :
  valid_terms (dec 1000 0) (dec 5 (-2)) 1 /\
  whole_cents (dec 1000 0) /\
  eqb (dec 5 (-2)) (of_int 0) = false /\
  init (dec 1000 0) (dec 5 (-2)) 1 = Ret round_loan /\
  result generate_amortization_schedule round_loan = Ret round_schedule /\
  (forall first,
     nth_error round_schedule 0 = Some first ->
     is_finite (principal_paid first) /\
     (value (balance first) == value (dec 1000 0) - value (principal_paid first))%Q) /\
  (forall j previous current,
     nth_error round_schedule j = Some previous ->
     nth_error round_schedule (S j) = Some current ->
     is_finite (principal_paid current) /\
     (value (balance current)
        == value (balance previous) - value (principal_paid current))%Q).
Proof.
  assert (H1 : valid_terms (dec 1000 0) (dec 5 (-2)) 1)
    by (apply valid_terms_dec; lia).
  assert (H2 : whole_cents (dec 1000 0)) by (cbn; lia).
  assert (H3 : eqb (dec 5 (-2)) (of_int 0) = false) by reflexivity.
  assert (H4 : init (dec 1000 0) (dec 5 (-2)) 1 = Ret round_loan)
    by (vm_compute; reflexivity).
  assert (H5 : result generate_amortization_schedule round_loan = Ret round_schedule)
    by (vm_compute; reflexivity).
  exact (conj H1 (conj H2 (conj H3 (conj H4 (conj H5
    (balance_is_previous_minus_principal_portion _ _ _ _ _ H1 H2 H3 H4 H5)))))).
Defined.

(** ** Rates too small for ten digits *)

(** Rounding a number at or just above [10^(prec-1) * 10^k]. *)
Lemma fix_nearest_low (s : bool) (c e k : Z) :
  0 < k ->
  10 ^ (prec - 1) * 10 ^ k <= c ->
  2 * c < 2 * (10 ^ (prec - 1) * 10 ^ k) + 10 ^ k ->
  Etiny <= e + k <= Etop ->
  _fix s c e = Ret (Fin s (10 ^ (prec - 1)) (e + k)).
Proof.
  intros Hk Hlo' Hhi' He.
  pose proof (pow10_pos k ltac:(lia)) as Hp.
  assert (H9 : 10 ^ (prec - 1) = 1000000000) by reflexivity.
  assert (H10 : 10 ^ prec = 10000000000) by reflexivity.
  assert (Hlo : 10 ^ (prec - 1 + k) <= c).
  { rewrite pow10_split by (unfold prec; lia). lia. }
  assert (Hhi : c < 10 ^ (prec + k)).
  { rewrite pow10_split by (unfold prec; lia). lia. }
  assert (Hpos : 0 < c) by lia.
  assert (HL : ndigits c = prec + k).
  { apply ndigits_unique; [|unfold prec; lia].
    replace (prec + k - 1) with (prec - 1 + k) by lia. split; assumption. }
  rewrite fix_spec by assumption. rewrite HL.
  replace (Etop <? prec + k + e - prec) with false by (symmetry; apply Z.ltb_ge; lia).
  cbv zeta. replace (Z.max (prec + k + e - prec) Etiny) with (e + k) by lia.
  replace (e <? e + k) with true by (symmetry; apply Z.ltb_lt; lia).
  replace (e + k - e) with k by lia.
  pose proof (rhe_nearest c k Hk ltac:(lia)) as Hn.
  assert (Hr : rhe c k = 10 ^ (prec - 1)) by nia.
  rewrite Hr.
  replace (10 ^ (prec - 1) =? 10 ^ prec) with false by reflexivity.
  reflexivity.
Qed.

Lemma tiny_exponent (cm em : Z) :
  0 < cm -> (mag cm em < mag 5 (-10))%Q ->
  em <= -10 /\ 2 * cm < 10 ^ (-9 - em).
Proof.
  intros Hc H.
  assert (He : em <= -10).
  { destruct (Z.le_gt_cases em (-10)) as [|Hgt]; [assumption|exfalso].
    apply (mag_lt_iff (-10)) in H; [|lia|lia].
    rewrite Z.sub_diag in H. change (10 ^ 0) with 1 in H.
    pose proof (pow10_le 1 (em - -10) ltac:(lia)) as Hp.
    change (10 ^ 1) with 10 in Hp. nia. }
  split; [assumption|].
  apply (mag_lt_iff em) in H; [|lia|lia].
  rewrite Z.sub_diag in H. change (10 ^ 0) with 1 in H.
  replace (-9 - em) with ((-10 - em) + 1) by lia.
  rewrite pow10_succ by lia. lia.
Qed.

(** [1 + r] is 1.000000000 for a monthly rate below 5 * 10^-10. *)
Lemma add_one_tiny (cm em : Z) :
  0 < cm -> (mag cm em < mag 5 (-10))%Q ->
  add one (Fin false cm em) = Ret (Fin false 1000000000 (-9)).
Proof.
  intros Hc H. destruct (tiny_exponent cm em Hc H) as [He Hlt].
  unfold one, add. cbv zeta.
  replace (cm =? 0) with false by (symmetry; apply Z.eqb_neq; lia).
  cbn [Z.eqb andb]. unfold _normalize.
  replace (0 <? em) with false by (symmetry; apply Z.ltb_ge; lia).
  cbv zeta. change (0 + Z.min (-1) (ndigits 1 - prec - 2)) with (-11).
  destruct (Z.ltb_spec (ndigits cm + em - 1) (-11)) as [Hst|Hns];
    cbn [Bool.eqb].
  - vm_compute. reflexivity.
  - replace (0 - em) with (- em) by lia. rewrite Z.mul_1_l.
    set (k := -9 - em). assert (Hk : 0 < k) by (unfold k; lia).
    assert (Hsplit : 10 ^ (- em) = 10 ^ (prec - 1) * 10 ^ k).
    { rewrite <- pow10_split by (unfold prec, k; lia). f_equal. unfold prec, k. lia. }
    rewrite (fix_nearest_low false (10 ^ (- em) + cm) em k Hk).
    + do 2 f_equal. unfold k. lia.
    + lia.
    + fold k in Hlt. lia.
    + unfold k, Etiny, Etop, Emin, Emax, prec. lia.
Qed.

Lemma pow_of_padded_one (n : Z) :
  0 < n ->
  pow (Fin false 1000000000 (-9)) n = Ret (Fin false 1000000000 (-9)).
Proof.
  intros Hn. rewrite pow_positive by lia. cbn [andb].
  pose proof (ndigits_ge1 n) as Hd.
  destruct (pow_uint_of_one (prec + ndigits n + 2) 9 (Z.to_pos n)
              ltac:(unfold prec; lia) ltac:(unfold prec; lia))
    as (j & Hj & Hpow).
  change (10 ^ 9) with 1000000000 in Hpow. change (- (9)) with (-9) in Hpow.
  rewrite Hpow. cbn [obind fst snd].
  rewrite fix_as_fix_in, fix_in_pow10 by (unfold prec; lia).
  cbn [fst snd]. rewrite Z.min_r by (unfold prec; lia). reflexivity.
Qed.

Lemma tiny_rate_payment (lc : LoanCalculator) (cm em : Z) :
  eqb (annual_rate lc) (of_int 0) = false ->
  monthly_rate lc = Fin false cm em ->
  0 < cm -> (mag cm em < mag 5 (-10))%Q ->
  0 < total_payments lc ->
  exists sig, payment_of lc = Raise sig.
Proof.
  intros H0 Hr Hc Hlt Hn. unfold payment_of. rewrite H0, Hr.
  rewrite (add_one_tiny cm em Hc Hlt). cbn [obind].
  rewrite (pow_of_padded_one _ Hn). cbn [obind].
  destruct (mul (Fin false cm em) (Fin false 1000000000 (-9))) as [rf|sig];
    cbn [obind]; [|eauto].
  destruct (mul (principal lc) rf) as [num|sig]; cbn [obind]; [|eauto].
  replace (sub (Fin false 1000000000 (-9)) one) with (Ret (Fin false 0 (-9)))
    by (vm_compute; reflexivity).
  cbn [obind].
  destruct (div num (Fin false 0 (-9))) as [q|sig] eqn:Hq; cbn [obind]; [|eauto].
  apply div_by_zero_raises in Hq as (s' & ->). cbn. eauto.
Qed.

(** X11: a positive rate too small for ten digits gives no result.  On
    an instance with a finite principal, when the annual rate is not zero
    but the monthly rate is positive and below 5 * 10^-10,
    [1 + r] rounds to 1, the factor is 1 and the formula divides by
    [factor - 1 = 0]: [calculate_monthly_payment] raises, and so do the
    two methods that call it. *)
Theorem tiny_rate_raises (lc : LoanCalculator) (cm em : Z) :
  is_finite (principal lc) ->
  eqb (annual_rate lc) (of_int 0) = false ->
  monthly_rate lc = Fin false cm em ->
  0 < cm -> (mag cm em < mag 5 (-10))%Q ->
  0 < total_payments lc ->
  exists sig,
    result calculate_monthly_payment lc = Raise sig /\
    result generate_amortization_schedule lc = Raise sig /\
    result total_interest_paid lc = Raise sig.
Proof.
  intros _ H0 Hr Hc Hlt Hn.
  destruct (tiny_rate_payment lc cm em H0 Hr Hc Hlt Hn) as (sig & H).
  exists sig.
  rewrite result_generate_amortization_schedule, result_calculate_monthly_payment,
    result_total_interest_paid.
  split; [assumption|]. apply payment_raise_reaches_callers. assumption.
Qed.

Lemma tiny_rate_raises_witness :
  is_finite (principal tiny_rate_loan) /\
  eqb (annual_rate tiny_rate_loan) (of_int 0) = false /\
  monthly_rate tiny_rate_loan = Fin false 8333333333 (-20) /\
  0 < 8333333333 /\
  (mag 8333333333 (-20) < mag 5 (-10))%Q /\
  0 < total_payments tiny_rate_loan /\
  exists sig,
    result calculate_monthly_payment tiny_rate_loan = Raise sig /\
    result generate_amortization_schedule tiny_rate_loan = Raise sig /\
    result total_interest_paid tiny_rate_loan = Raise sig.
Proof.
  assert (H0 : is_finite (principal tiny_rate_loan)) by (cbn; lia).
  assert (H1 : eqb (annual_rate tiny_rate_loan) (of_int 0) = false) by reflexivity.
  assert (H2 : monthly_rate tiny_rate_loan = Fin false 8333333333 (-20))
    by reflexivity.
  assert (H3 : 0 < 8333333333) by lia.
  assert (H4 : (mag 8333333333 (-20) < mag 5 (-10))%Q)
    by (vm_compute; reflexivity).
  assert (H5 : 0 < total_payments tiny_rate_loan) by (cbn; lia).
  exact (conj H0 (conj H1 (conj H2 (conj H3 (conj H4 (conj H5
    (tiny_rate_raises _ _ _ H0 H1 H2 H3 H4 H5))))))).
Defined.

(** ** The first period *)

Lemma record_portion (lc : LoanCalculator) (cP cm em : Z) (k : nat)
    (rec : PaymentRecord) :
  well_formed_loan lc ->
  monthly_rate lc = Fin false cm em -> 0 <= cm ->
  0 <= cP < 10 ^ prec ->
  record_at lc (Fin false cP (-2)) k rec ->
  exists s d, principal_paid rec = Fin s d (-2) /\ 0 <= d < 10 ^ prec.
Proof.
  intros Hlc Hrate Hcm HcP
    (B & product & B' & HB & Hmul & HqI & HPP & HB' & _ & Hshown & _).
  assert (HwP : well_formed (Fin false cP (-2))) by (cbn; lia).
  pose proof (running_balance_well_formed lc _ Hlc HwP k B HB) as HwB.
  rewrite Hrate in Hmul.
  destruct B as [sB cB eB|sB].
  2:{ cbn [mul] in Hmul. destruct (nonzero (Fin false cm em)); [|discriminate].
      injection Hmul as <-. cbn in HqI. discriminate. }
  cbn [well_formed] in HwB.
  destruct (mul_fin sB cB eB false cm em product HwB Hcm Hmul)
    as (cpr & epr & -> & Hrpr & Hz & _).
  rewrite xorb_false_r in HqI.
  assert (Hcpr : 0 <= cpr) by apply Hrpr.
  destruct (quantize_half_up_fin sB cpr epr (interest rec) Hcpr HqI) as [HI HcI].
  set (cI := round2_cents (mag cpr epr)) in *.
  rewrite HI in HPP.
  assert (Hpos : 0 < cI -> 0 < cB).
  { intros HposI. destruct (Z.eq_dec cB 0) as [->|]; [|lia].
    assert (cpr = 0) by (apply Hz; lia). subst cpr.
    unfold cI in HposI. rewrite round2_cents_zero in HposI. lia. }
  apply (portion_in_cents sB cB eB cP cI (principal_paid rec) B' (balance rec)
           HwB Hpos HcI HcP HPP HB' Hshown).
Qed.

(** X13: for valid terms with a non-zero annual rate, the principal
    portion of every record of a returned schedule has exactly two decimal
    places (exponent -2) and at most ten digits. *)
Theorem principal_portion_is_in_cents
    (p r : Decimal) (y : Z) (lc : LoanCalculator)
    (sched : list PaymentRecord) (rec : PaymentRecord) :
  valid_terms p r y ->
  eqb r (of_int 0) = false ->
  init p r y = Ret lc ->
  result generate_amortization_schedule lc = Ret sched ->
  In rec sched ->
  exists s d, principal_paid rec = Fin s d (-2) /\ 0 <= d < 10 ^ prec.
Proof.
  intros Hvalid Hrate Hinit Hsched Hin.
  rewrite result_generate_amortization_schedule in Hsched.
  apply schedule_of_records in Hsched as (P & HP & _ & Hrecs).
  apply In_nth_error in Hin as (i & Hi).
  pose proof (valid_payment_shape p r y lc P Hvalid Hinit HP)
    as (sm & cm & em & cP & eP & Hm & Hcm & HPeq & HrP & _).
  destruct Hvalid as ((cp & ep & -> & Hcp) & (sr & cr & er & -> & Hcr & Hsr) & Hy).
  assert (Hlc : well_formed_loan lc).
  { apply (init_well_formed (Fin false cp ep) (Fin sr cr er) y lc);
      [cbn [well_formed]; lia|cbn [well_formed]; lia|assumption]. }
  unfold init in Hinit. apply obind_ret_inv in Hinit as (m & Hdiv & Hlc').
  assert (Hfields : annual_rate lc = Fin sr cr er /\ monthly_rate lc = m)
    by (injection Hlc' as <-; auto).
  destruct Hfields as (Hann & Hmon). clear Hlc'.
  rewrite eqb_zero in Hrate. apply Z.eqb_neq in Hrate.
  assert (sr = false) by (destruct sr; [specialize (Hsr eq_refl); lia|reflexivity]).
  subst sr.
  destruct (div_fin_sign false cr er false 12 0 m Hcr ltac:(lia) Hdiv)
    as (cm' & em' & Hmeq & _ & _).
  cbn [xorb] in Hmeq. rewrite Hmon, Hmeq in Hm. injection Hm as <- <- <-.
  assert (Hnz : eqb (annual_rate lc) (of_int 0) = false)
    by (rewrite Hann, eqb_zero; apply Z.eqb_neq; assumption).
  destruct (nonzero_rate_payment_in_cents lc P Hlc Hnz HP) as (s & c & HPc & Hc).
  rewrite HPeq in HPc. injection HPc as <- <- ->. subst P.
  rewrite <- Hmon in Hmeq.
  apply (record_portion lc cP cm' em' i rec Hlc Hmeq Hcm Hc (Hrecs i rec Hi)).
Qed.

Lemma principal_portion_is_in_cents_witness :
  valid_terms (dec 1000015 (-3)) (dec 5 (-2)) 1 /\
  eqb (dec 5 (-2)) (of_int 0) = false /\
  init (dec 1000015 (-3)) (dec 5 (-2)) 1 = Ret one_year_loan /\
  result generate_amortization_schedule one_year_loan = Ret one_year_schedule /\
  In (one_year_record 1 417 8144 (dec 91858 (-2))) one_year_schedule /\
  exists s d, dec 8144 (-2) = Fin s d (-2) /\ 0 <= d < 10 ^ prec.
Proof.
  assert (H1 : valid_terms (dec 1000015 (-3)) (dec 5 (-2)) 1)
    by (apply valid_terms_dec; lia).
  assert (H2 : eqb (dec 5 (-2)) (of_int 0) = false) by reflexivity.
  assert (H3 : init (dec 1000015 (-3)) (dec 5 (-2)) 1 = Ret one_year_loan)
    by (vm_compute; reflexivity).
  assert (H4 : result generate_amortization_schedule one_year_loan
               = Ret one_year_schedule)
    by (vm_compute; reflexivity).
  assert (H5 : In (one_year_record 1 417 8144 (dec 91858 (-2))) one_year_schedule)
    by (left; reflexivity).
  exact (conj H1 (conj H2 (conj H3 (conj H4 (conj H5
    (principal_portion_is_in_cents _ _ _ _ _ _ H1 H2 H3 H4 H5)))))).
Defined.

(** ** The total interest of a principal in whole cents *)

Lemma normalize_swap (c1 e1 c2 e2 : Z) :
  _normalize c2 e2 c1 e1 =
  (snd (_normalize c1 e1 c2 e2), fst (_normalize c1 e1 c2 e2)).
Proof.
  unfold _normalize. pose proof (ndigits_ge1 c1). pose proof (ndigits_ge1 c2).
  destruct (Z.ltb_spec e1 e2) as [H12|H12]; destruct (Z.ltb_spec e2 e1) as [H21|H21];
    try lia; cbv zeta; cbn [fst snd]; try reflexivity.
  assert (e1 = e2) by lia. subst e2.
  replace (ndigits c2 + e1 - 1 <? e1 + Z.min (-1) (ndigits c1 - prec - 2)) with false
    by (symmetry; apply Z.ltb_ge; lia).
  replace (ndigits c1 + e1 - 1 <? e1 + Z.min (-1) (ndigits c2 - prec - 2)) with false
    by (symmetry; apply Z.ltb_ge; lia).
  rewrite Z.sub_diag. change (10 ^ 0) with 1. rewrite !Z.mul_1_r. reflexivity.
Qed.

(** [__add__] does not depend on the order of its operands. *)
Lemma add_comm (a b : Decimal) : add a b = add b a.
Proof.
  destruct a as [s1 c1 e1|s1], b as [s2 c2 e2|s2]; cbn [add]; try reflexivity.
  - cbv zeta. rewrite (Z.min_comm e2 e1).
    destruct (Z.eqb_spec c1 0) as [->|N1]; destruct (Z.eqb_spec c2 0) as [->|N2];
      cbn [andb]; try reflexivity.
    + rewrite (andb_comm s2 s1). reflexivity.
    + rewrite (normalize_swap c1 e1 c2 e2).
      destruct (_normalize c1 e1 c2 e2) as [[i1 x1] [i2 x2]] eqn:Hn. cbn [fst snd].
      assert (x1 = x2).
      { unfold _normalize in Hn. destruct (e1 <? e2); cbv zeta in Hn;
          injection Hn as _ <- _ <-; reflexivity. }
      subst x2.
      destruct s1, s2; cbn [Bool.eqb]; try (rewrite (Z.add_comm i2 i1); reflexivity).
      * rewrite (Z.eqb_sym i2 i1). destruct (Z.eqb_spec i1 i2) as [|Hne]; [reflexivity|].
        destruct (Z.ltb_spec i1 i2); destruct (Z.ltb_spec i2 i1); try lia; reflexivity.
      * rewrite (Z.eqb_sym i2 i1). destruct (Z.eqb_spec i1 i2) as [|Hne]; [reflexivity|].
        destruct (Z.ltb_spec i1 i2); destruct (Z.ltb_spec i2 i1); try lia; reflexivity.
  - destruct s1, s2; reflexivity.
Qed.

Lemma mag_mul_int (c n e : Z) : (mag (c * n) e == mag c e * inject_Z n)%Q.
Proof. unfold mag. rewrite inject_Z_mult. ring. Qed.

Lemma cents_below (c n : Z) :
  (mag c (-2) * inject_Z n < 100000000)%Q -> c * n < 10 ^ prec.
Proof.
  intros H. rewrite <- mag_mul_int in H.
  assert (H8 : (mag 1 8 == 100000000)%Q) by reflexivity.
  rewrite <- H8 in H.
  apply (mag_lt_iff (-2)) in H; [|lia|lia].
  rewrite Z.sub_diag in H. change (10 ^ 0) with 1 in H.
  change (1 * 10 ^ (8 - -2)) with (10 ^ prec) in H. lia.
Qed.

(** X14: for valid terms with a non-zero annual rate and a principal in
    whole cents, when the total paid [payment * total_payments] is below
    10^8, a total interest that is returned is exactly
    [payment * total_payments - principal]: no digit is lost and the final
    rounding changes nothing. *)
Theorem total_interest_is_exact_for_whole_cents
    (p r : Decimal) (y : Z) (lc : LoanCalculator) (P t : Decimal) :
  valid_terms p r y ->
  whole_cents p ->
  eqb r (of_int 0) = false ->
  init p r y = Ret lc ->
  result calculate_monthly_payment lc = Ret P ->
  (value P * inject_Z (total_payments lc) < 100000000)%Q ->
  result total_interest_paid lc = Ret t ->
  (value t == value P * inject_Z (total_payments lc) - value p)%Q.
Proof.
  rewrite result_total_interest_paid, result_calculate_monthly_payment.
  intros Hvalid Hwhole Hrate Hinit HP Hsmall Ht.
  pose proof (valid_payment_shape p r y lc P Hvalid Hinit HP)
    as (sm & cm & em & cP & eP & _ & _ & HPeq & HrP & _).
  destruct Hvalid as ((cp & ep & -> & Hcp) & (sr & cr & er & -> & Hcr & Hsr) & Hy).
  cbn [whole_cents] in Hwhole.
  assert (Hlc : well_formed_loan lc).
  { apply (init_well_formed (Fin false cp ep) (Fin sr cr er) y lc);
      [cbn [well_formed]; lia|cbn [well_formed]; lia|assumption]. }
  unfold init in Hinit. apply obind_ret_inv in Hinit as (m & Hdiv & Hlc').
  assert (Hfields : principal lc = Fin false cp ep /\ annual_rate lc = Fin sr cr er /\
                    total_payments lc = y * 12)
    by (injection Hlc' as <-; auto).
  destruct Hfields as (Hprin & Hann & Hn). clear Hlc'.
  assert (Hnz : eqb (annual_rate lc) (of_int 0) = false)
    by (rewrite Hann; assumption).
  destruct (nonzero_rate_payment_in_cents lc P Hlc Hnz HP) as (s & c & HPc & Hc).
  rewrite HPeq in HPc. injection HPc as <- <- ->. subst P.
  unfold total_interest_of in Ht. rewrite HP in Ht. cbn [obind] in Ht.
  apply obind_ret_inv in Ht as (total_paid & Hmul & Ht).
  apply obind_ret_inv in Ht as (difference & Hsub & Ht).
  rewrite Hprin in Hsub.
  set (n := total_payments lc) in *.
  assert (Hnpos : 0 < n) by lia.
  cbn [value] in Hsmall |- *.
  pose proof (cents_below cP n Hsmall) as HT.
  unfold of_int in Hmul.
  replace (n <? 0) with false in Hmul by (symmetry; apply Z.ltb_ge; lia).
  replace (Z.abs n) with n in Hmul by lia.
  cbn [mul xorb] in Hmul. change (-2 + 0) with (-2) in Hmul.
  rewrite fix_cents in Hmul by nia. injection Hmul as <-.
  unfold sub in Hsub. cbn [copy_negate negb] in Hsub. rewrite add_comm in Hsub.
  assert (Hsub' : sub (Fin true cp ep) (Fin true (cP * n) (-2)) = Ret difference)
    by exact Hsub.
  destruct (sub_onto_cents ROUND_HALF_EVEN true cp ep true (cP * n) difference t
              ltac:(lia) Hwhole ltac:(nia) Hsub' Ht)
    as (s' & c' & Hd & _ & -> & Hv).
  rewrite Hv. cbn [value]. rewrite mag_mul_int. ring.
Qed.

Lemma total_interest_is_exact_for_whole_cents_witness :
  valid_terms (dec 1000 0) (dec 5 (-2)) 1 /\
  whole_cents (dec 1000 0) /\
  eqb (dec 5 (-2)) (of_int 0) = false /\
  init (dec 1000 0) (dec 5 (-2)) 1 = Ret round_loan /\
  result calculate_monthly_payment round_loan = Ret (dec 8561 (-2)) /\
  (value (dec 8561 (-2)) * inject_Z (total_payments round_loan) < 100000000)%Q /\
  result total_interest_paid round_loan = Ret (dec 2732 (-2)) /\
  (value (dec 2732 (-2))
   == value (dec 8561 (-2)) * inject_Z (total_payments round_loan)
      - value (dec 1000 0))%Q.
Proof.
  assert (H1 : valid_terms (dec 1000 0) (dec 5 (-2)) 1)
    by (apply valid_terms_dec; lia).
  assert (H2 : whole_cents (dec 1000 0)) by (cbn; lia).
  assert (H3 : eqb (dec 5 (-2)) (of_int 0) = false) by reflexivity.
  assert (H4 : init (dec 1000 0) (dec 5 (-2)) 1 = Ret round_loan)
    by (vm_compute; reflexivity).
  assert (H5 : result calculate_monthly_payment round_loan = Ret (dec 8561 (-2)))
    by (vm_compute; reflexivity).
  assert (H6 : (value (dec 8561 (-2)) * inject_Z (total_payments round_loan)
                < 100000000)%Q)
    by (vm_compute; reflexivity).
  assert (H7 : result total_interest_paid round_loan = Ret (dec 2732 (-2)))
    by (vm_compute; reflexivity).
  exact (conj H1 (conj H2 (conj H3 (conj H4 (conj H5 (conj H6 (conj H7
    (total_interest_is_exact_for_whole_cents _ _ _ _ _ _ H1 H2 H3 H4 H5 H6 H7)))))))).
Defined.

(** ** The payment formula *)




(** ** Construction *)

(** C3 (as amended): the constructor checks nothing.  Whenever the three
    arguments convert, to any principal, any whole number of years and
    any annual rate inside the exponent range of the context (a principal
    <= 0, a negative rate and a term <= 0 included), the call returns an
    instance that stores the three numbers as converted, the quotient of
    the rate by 12 as the monthly rate and 12 times the years as the
    number of payments.  A call that fails fails in a conversion, or in
    the division of the rate by 12. *)
Theorem init_checks_nothing
    (principal annual_rate : Converted Decimal) (years : Converted Z) :
  (forall p r y,
     principal = Converts p -> annual_rate = Converts r -> years = Converts y ->
     rate_in_range r ->
     exists monthly_rate,
       div r (Fin false 12 0) = Ret monthly_rate /\
       __init__ principal annual_rate years
       = inr (mkLoanCalculator p r y monthly_rate (y * 12))) /\
  (forall failure,
     __init__ principal annual_rate years = inl failure ->
     match failure with
     | ConversionError Principal => principal = Fails
     | ConversionError AnnualRate => annual_rate = Fails
     | ConversionError Years => years = Fails
     | DecimalSignal s =>
       exists r, annual_rate = Converts r /\ div r (Fin false 12 0) = Raise s
     end).
Proof.
  split.
  - intros p r y -> -> -> Hr.
    destruct (div_by_12_returns r Hr) as (m & Hm).
    exists m. split; [assumption|]. unfold __init__, init. rewrite Hm. reflexivity.
  - intros failure H. unfold __init__ in H.
    destruct principal as [p|]; [|injection H as <-; reflexivity].
    destruct annual_rate as [r|]; [|injection H as <-; reflexivity].
    destruct years as [y|]; [|injection H as <-; reflexivity].
    unfold init in H.
    destruct (div r (Fin false 12 0)) as [m|s] eqn:Hm; cbn [obind] in H;
      [discriminate|].
    injection H as <-. exists r. split; [reflexivity|assumption].
Qed.

(** The property on a principal of 0 with a rate of -1% and a term of
    0 years. *)
Lemma init_checks_nothing_witness :
  rate_in_range (Fin true 1 (-2)) /\
  exists monthly_rate,
    div (Fin true 1 (-2)) (Fin false 12 0) = Ret monthly_rate /\
    __init__ (Converts (dec 0 0)) (Converts (Fin true 1 (-2))) (Converts 0)
    = inr (mkLoanCalculator (dec 0 0) (Fin true 1 (-2)) 0 monthly_rate (0 * 12)).
Proof.
  assert (H : rate_in_range (Fin true 1 (-2)))
    by (split; [lia|vm_compute; discriminate]).
  exact (conj H
    (proj1 (init_checks_nothing (Converts (dec 0 0)) (Converts (Fin true 1 (-2)))
              (Converts 0))
       (dec 0 0) (Fin true 1 (-2)) 0 eq_refl eq_refl eq_refl H)).
Defined.

(** ** Interest on the running balance *)

(** C6 fails as stated: the interest is not the exact product
    [B * monthly_rate] rounded to cents.  For 30000000.25 at 4.5% over 30
    years the running balance after period 1 is 29960494.66 and the
    monthly rate 0.00375; their product 112351.854975 rounds half-up to
    112351.85, but the record of period 2 holds 112351.86: the product is
    first rounded to ten digits, 112351.8550, and then to cents. *)
Lemma interest_is_rounded_twice :
  valid_terms (dec 3000000025 (-2)) (dec 45 (-3)) 30 /\
  init (dec 3000000025 (-2)) (dec 45 (-3)) 30 = Ret large_loan /\
  (exists rest,
     result generate_amortization_schedule large_loan
     = Ret (large_loan_first :: large_loan_second :: rest)) /\
  running_balance large_loan (dec 15200559 (-2)) 1 = Ret (dec 2996049466 (-2)) /\
  interest large_loan_second = dec 11235186 (-2) /\
  round2_cents (value (dec 2996049466 (-2)) * value (monthly_rate large_loan))
  = 11235185.
Proof.
  split; [apply valid_terms_dec; lia|].
  split; [vm_compute; reflexivity|].
  split.
  - rewrite result_generate_amortization_schedule. unfold schedule_of.
    assert (HP : payment_of large_loan = Ret (dec 15200559 (-2))).
    { rewrite (payment_of_steps large_loan
               (dec 100375 (-5)) (dec 3847698050 (-9)) (dec 1442886769 (-11))
               (dec 4328660343 (-4)) (dec 2847698050 (-9)) (dec 1520055942 (-4)));
        [| | | exact factor_scenario_1 | | | |]; vm_compute; reflexivity. }
    rewrite HP. cbn [obind]. eexists. vm_compute. reflexivity.
  - split; [vm_compute; reflexivity|].
    split; [reflexivity|]. vm_compute. reflexivity.
Qed.

(** C6 (as amended): in a schedule returned for valid terms, the interest
    of every period [k >= 2] is [round2] of the product [B * monthly_rate]
    as the ten-digit context rounds it, where [B] is the running balance
    after period [k - 1]: the previous running balance minus the principal
    portion, never rounded to cents.  The balance stored in the record of
    period [k - 1] is [round2(B)], a value that is not fed back. *)
Theorem interest_uses_unrounded_balance
    (p r : Decimal) (y : Z) (lc : LoanCalculator)
    (sched : list PaymentRecord) (j : nat) (previous current : PaymentRecord) :
  valid_terms p r y ->
  init p r y = Ret lc ->
  result generate_amortization_schedule lc = Ret sched ->
  nth_error sched j = Some previous ->
  nth_error sched (S j) = Some current ->
  exists B_before B product,
    running_balance lc (monthly_payment current) j = Ret B_before /\
    sub B_before (principal_paid previous) = Ret B /\
    running_balance lc (monthly_payment current) (S j) = Ret B /\
    mul B (monthly_rate lc) = Ret product /\
    is_finite B /\ is_finite product /\
    interest current = round2 product /\
    balance previous = round2 B /\
    payment current = Z.of_nat j + 2.
Proof.
  rewrite result_generate_amortization_schedule. intros Hv Hinit H Hprev Hcur.
  assert (Hlc : well_formed_loan lc).
  { destruct Hv as ((cp & ep & -> & Hcp) & (sr & cr & er & -> & Hcr & _) & _).
    eapply init_well_formed; [| |exact Hinit]; cbn; lia. }
  apply schedule_of_records in H as (P & HP & _ & Hrecs).
  pose proof (payment_of_well_formed lc P Hlc HP) as HwP.
  destruct (Hrecs _ _ Hprev) as (B0 & p0 & B1 & H0 & _ & _ & _ & Hsub & HB1 & Hshown & HP0 & _).
  destruct (Hrecs _ _ Hcur) as (B1' & p1 & B2 & H1 & Hm & Hi & _ & _ & _ & _ & HP1 & Hidx).
  rewrite HP1. rewrite H1 in HB1. injection HB1 as ->.
  pose proof (running_balance_well_formed lc P Hlc HwP _ _ H1) as HwB.
  assert (Hwp : well_formed p1).
  { eapply mul_well_formed; [exact HwB|apply Hlc|exact Hm]. }
  destruct (quantize_fin _ _ _ Hi) as (s1 & c1 & e1 & ->).
  destruct (quantize_fin _ _ _ Hshown) as (sB & cB & eB & ->).
  cbn [well_formed] in HwB, Hwp.
  destruct (quantize_half_up_fin _ _ _ _ Hwp Hi) as [HI _].
  destruct (quantize_half_up_fin _ _ _ _ HwB Hshown) as [HS _].
  exists B0, (Fin sB cB eB), (Fin s1 c1 e1).
  repeat split; try assumption. lia.
Qed.

(** The property on the first two records of the loan of 1000.015 at 5%
    over one year: the interest of period 2 comes from the running balance
    918.575, not from the 918.58 stored in the first record. *)
Lemma interest_uses_unrounded_balance_witness :
  valid_terms (dec 1000015 (-3)) (dec 5 (-2)) 1 /\
  init (dec 1000015 (-3)) (dec 5 (-2)) 1 = Ret one_year_loan /\
  result generate_amortization_schedule one_year_loan = Ret one_year_schedule /\
  nth_error one_year_schedule 0 = Some (one_year_record 1 417 8144 (dec 91858 (-2))) /\
  nth_error one_year_schedule 1 = Some (one_year_record 2 383 8178 (dec 83680 (-2))) /\
  exists B_before B product,
    running_balance one_year_loan (dec 8561 (-2)) 0 = Ret B_before /\
    sub B_before (dec 8144 (-2)) = Ret B /\
    running_balance one_year_loan (dec 8561 (-2)) 1 = Ret B /\
    mul B (dec 4166666667 (-12)) = Ret product /\
    is_finite B /\ is_finite product /\
    dec 383 (-2) = round2 product /\
    dec 91858 (-2) = round2 B /\
    2 = Z.of_nat 0 + 2.
Proof.
  assert (Hv : valid_terms (dec 1000015 (-3)) (dec 5 (-2)) 1)
    by (apply valid_terms_dec; lia).
  assert (H0 : init (dec 1000015 (-3)) (dec 5 (-2)) 1 = Ret one_year_loan)
    by (vm_compute; reflexivity).
  assert (H1 : result generate_amortization_schedule one_year_loan
               = Ret one_year_schedule)
    by (vm_compute; reflexivity).
  assert (H2 : nth_error one_year_schedule 0
               = Some (one_year_record 1 417 8144 (dec 91858 (-2))))
    by reflexivity.
  assert (H3 : nth_error one_year_schedule 1
               = Some (one_year_record 2 383 8178 (dec 83680 (-2))))
    by reflexivity.
  exact (conj Hv (conj H0 (conj H1 (conj H2 (conj H3
    (interest_uses_unrounded_balance _ _ _ _ _ _ _ _ Hv H0 H1 H2 H3)))))).
Defined.

(** ** Rounding is monotone *)

(** Rounding to nearest keeps the order of two quotients, whatever their
    scales. *)
Lemma rhe_mono_scaled (c1 k1 c2 k2 : Z) :
  0 < k1 -> 0 < k2 -> 0 <= c1 -> 0 <= c2 ->
  c1 * 10 ^ k2 <= c2 * 10 ^ k1 ->
  rhe c1 k1 <= rhe c2 k2.
Proof.
  intros Hk1 Hk2 Hc1 Hc2 Hle.
  pose proof (pow10_pos k1 ltac:(lia)) as HT1.
  pose proof (pow10_pos k2 ltac:(lia)) as HT2.
  pose proof (rhe_nearest c1 k1 Hk1 Hc1) as [_ Hu1].
  pose proof (rhe_nearest c2 k2 Hk2 Hc2) as [Hl2 _].
  pose proof (rhe_tie_even c1 k1 Hk1 Hc1) as Hev1.
  pose proof (rhe_tie_even c2 k2 Hk2 Hc2) as Hev2.
  set (q1 := rhe c1 k1) in *. set (q2 := rhe c2 k2) in *.
  set (T1 := 10 ^ k1) in *. set (T2 := 10 ^ k2) in *.
  destruct (Z_le_gt_dec q1 q2) as [|Hgt]; [assumption|exfalso].
  assert (HA : (2 * q1 - 1) * (T1 * T2) <= 2 * c1 * T2) by nia.
  assert (HB : 2 * c2 * T1 <= (2 * q2 + 1) * (T1 * T2)) by nia.
  assert (HC : 2 * c1 * T2 <= 2 * c2 * T1) by nia.
  assert (HT : 0 < T1 * T2) by nia.
  assert (Hq : q1 = q2 + 1) by nia.
  assert (E1 : 2 * (q1 * T1) = 2 * c1 + T1) by nia.
  assert (E2 : 2 * (q2 * T2) = 2 * c2 - T2) by nia.
  specialize (Hev1 (or_introl E1)). specialize (Hev2 (or_intror E2)).
  rewrite Hq in Hev1. replace (q2 + 1) with (Z.succ q2) in Hev1 by lia.
  rewrite Z.even_succ, <- Z.negb_even, Hev2 in Hev1. discriminate.
Qed.

Lemma mag_ge_unit (c e X : Z) :
  0 < c -> X <= ndigits c + e - 1 -> (mag 1 X <= mag c e)%Q.
Proof.
  intros Hc H. apply (mag_le_iff (Z.min e X)); try lia.
  pose proof (ndigits_ge1 c). pose proof (ndigits_bounds c Hc) as [Hlo _].
  pose proof (pow10_pos (e - Z.min e X) ltac:(lia)) as Hp.
  assert (Hle : 10 ^ (X - Z.min e X) <= 10 ^ (ndigits c - 1) * 10 ^ (e - Z.min e X)).
  { rewrite <- pow10_split by lia. apply pow10_le. lia. }
  nia.
Qed.

Lemma mag_pow10 (k e : Z) : 0 <= k -> (mag (10 ^ k) e == mag 1 (k + e))%Q.
Proof.
  intros Hk. apply (mag_eq_iff e); try lia.
  rewrite Z.sub_diag. replace (k + e - e) with k by lia.
  change (10 ^ 0) with 1. lia.
Qed.

Section Monotone.

Variable p : Z.
Hypothesis Hp : 1 <= p.

(** The value of a rounded coefficient, in the two shapes a rounding
    takes. *)
Lemma fix_in_rounded (c e c' e' : Z) :
  0 < c -> fix_in p c e = Ret (c', e') ->
  let E := Z.max (ndigits c + e - p) (Etiny_in p) in
  e < E -> (mag c' e' == mag (rhe c (E - e)) E)%Q.
Proof.
  intros Hc H E HeE.
  destruct (fix_in_shape p Hp c e c' e' Hc H) as [[H1 _]|[(_ & _ & -> & ->)|(_ & Heq & -> & ->)]].
  - fold E in H1. lia.
  - reflexivity.
  - fold E in Heq |- *. rewrite Heq.
    apply (mag_eq_iff E); try lia.
    rewrite Z.sub_diag. replace (E + 1 - E) with 1 by lia.
    change (10 ^ 0) with 1. change (10 ^ 1) with 10.
    rewrite (pow10_pred p Hp). lia.
Qed.

Lemma fix_in_mono (c1 e1 c2 e2 c1' e1' c2' e2' : Z) :
  0 <= c1 -> 0 <= c2 ->
  fix_in p c1 e1 = Ret (c1', e1') ->
  fix_in p c2 e2 = Ret (c2', e2') ->
  (mag c1 e1 <= mag c2 e2)%Q ->
  (mag c1' e1' <= mag c2' e2')%Q.
Proof.
  intros Hc1 Hc2 H1 H2 Hle.
  pose proof (fix_in_representable p Hp c1 e1 c1' e1' Hc1 H1) as Hr1.
  pose proof (fix_in_representable p Hp c2 e2 c2' e2' Hc2 H2) as Hr2.
  destruct (Z.eq_dec c1 0) as [->|N1].
  { rewrite fix_in_zero in H1. injection H1 as <- <-.
    rewrite mag_zero. apply mag_nonneg, Hr2. }
  assert (P1 : 0 < c1) by lia.
  assert (P2 : 0 < c2).
  { destruct (Z.eq_dec c2 0) as [->|]; [|lia].
    pose proof (mag_pos c1 e1 P1). rewrite mag_zero in Hle. lra. }
  pose proof (fix_in_shape p Hp c1 e1 c1' e1' P1 H1) as S1.
  pose proof (fix_in_shape p Hp c2 e2 c2' e2' P2 H2) as S2.
  pose proof (fix_in_rounded c1 e1 c1' e1' P1 H1) as V1.
  pose proof (fix_in_rounded c2 e2 c2' e2' P2 H2) as V2.
  cbv zeta in S1, S2, V1, V2.
  set (E1 := Z.max (ndigits c1 + e1 - p) (Etiny_in p)) in *.
  set (E2 := Z.max (ndigits c2 + e2 - p) (Etiny_in p)) in *.
  destruct (Z_le_gt_dec E2 e2) as [X2|R2].
  { (* the larger operand is not rounded *)
    assert (c2' = c2 /\ e2' = e2) as [-> ->] by (destruct S2 as [?|[?|?]]; lia).
    apply (fix_in_mag_le p Hp c1 e1 c1' e1' c2 e2 Hc1 H1); [apply Hr2|apply Hr2|exact Hle]. }
  destruct (Z_le_gt_dec E1 e1) as [X1|R1].
  { (* the smaller operand is not rounded *)
    assert (c1' = c1 /\ e1' = e1) as [-> ->] by (destruct S1 as [?|[?|?]]; lia).
    apply (fix_in_mag_ge p Hp c2 e2 c2' e2' c1 e1 Hc2 H2); [apply Hr1|apply Hr1|exact Hle]. }
  specialize (V1 ltac:(lia)). specialize (V2 ltac:(lia)).
  pose proof (ndigits_ge1 c1) as L1. pose proof (ndigits_ge1 c2) as L2.
  destruct (Z.lt_trichotomy E1 E2) as [Hlt|[Heq|Hgt]].
  - (* a power of ten lies between the operands *)
    assert (HE2 : E2 = ndigits c2 + e2 - p) by (unfold E1, E2 in *; lia).
    pose proof (pow10_pos (p - 1) ltac:(lia)) as Hpp.
    pose proof (pow10_lt (p - 1) p ltac:(lia)) as Hpl.
    assert (HY1 : (mag c1 e1 <= mag (10 ^ (p - 1)) E2)%Q).
    { rewrite mag_pow10 by lia. apply Qlt_le_weak, mag_lt_unit; [assumption|].
      unfold E1 in *. lia. }
    assert (HY2 : (mag (10 ^ (p - 1)) E2 <= mag c2 e2)%Q).
    { rewrite mag_pow10 by lia. apply mag_ge_unit; [assumption|]. lia. }
    pose proof (fix_in_mag_le p Hp c1 e1 c1' e1' (10 ^ (p - 1)) E2 Hc1 H1
                  ltac:(lia) ltac:(unfold E2; lia) HY1) as B1.
    pose proof (fix_in_mag_ge p Hp c2 e2 c2' e2' (10 ^ (p - 1)) E2 Hc2 H2
                  ltac:(lia) ltac:(unfold E2; lia) HY2) as B2.
    lra.
  - (* both are rounded at the same exponent *)
    rewrite V1, V2.
    assert (Hq : rhe c1 (E1 - e1) <= rhe c2 (E2 - e2)).
    { apply rhe_mono_scaled; try lia.
      set (m := Z.min e1 e2).
      apply (mag_le_iff m) in Hle; [|unfold m; lia|unfold m; lia].
      assert (A1 : 10 ^ (E2 - e2) * 10 ^ (e2 - m) = 10 ^ (E1 - m))
        by (rewrite <- pow10_split by (unfold m; lia); f_equal; lia).
      assert (A2 : 10 ^ (E1 - e1) * 10 ^ (e1 - m) = 10 ^ (E1 - m))
        by (rewrite <- pow10_split by (unfold m; lia); f_equal; lia).
      pose proof (pow10_pos (e1 - m) ltac:(unfold m; lia)) as Q1.
      pose proof (pow10_pos (e2 - m) ltac:(unfold m; lia)) as Q2.
      pose proof (pow10_pos (E1 - e1) ltac:(lia)) as Q3.
      pose proof (pow10_pos (E2 - e2) ltac:(lia)) as Q4.
      set (a1 := 10 ^ (e1 - m)) in *. set (a2 := 10 ^ (e2 - m)) in *.
      set (b1 := 10 ^ (E1 - e1)) in *. set (b2 := 10 ^ (E2 - e2)) in *.
      assert (Hab : b2 * a2 = b1 * a1) by lia.
      (* c1 a1 <= c2 a2, b1 a1 = b2 a2  ==>  c1 b2 <= c2 b1 *)
      assert (H3 : c1 * b2 * (a1 * a2) <= c2 * b1 * (a1 * a2)).
      { replace (c1 * b2 * (a1 * a2)) with ((c1 * a1) * (b2 * a2)) by ring.
        replace (c2 * b1 * (a1 * a2)) with ((c2 * a2) * (b1 * a1)) by ring.
        rewrite Hab. apply Z.mul_le_mono_nonneg_r; [nia|assumption]. }
      assert (H4 : 0 < a1 * a2) by nia.
      apply Z.mul_le_mono_pos_r in H3; assumption. }
    apply (mag_le_iff E1); try lia.
    replace (E2 - E1) with 0 by lia. rewrite Z.sub_diag. change (10 ^ 0) with 1. lia.
  - (* the operand with more digits is the larger one *)
    exfalso.
    assert (HE1 : E1 = ndigits c1 + e1 - p) by (unfold E1, E2 in *; lia).
    assert (HL : ndigits c2 + e2 <= ndigits c1 + e1 - 1) by (unfold E1, E2 in *; lia).
    pose proof (mag_lt_unit c2 e2 (ndigits c1 + e1 - 1) P2 HL) as U2.
    pose proof (mag_ge_unit c1 e1 (ndigits c1 + e1 - 1) P1 ltac:(lia)) as U1.
    lra.
Qed.

End Monotone.

(** [_fix] keeps the order of two magnitudes. *)
Lemma fix_mono (s1 s2 : bool) (c1 e1 c2 e2 : Z) (d1 d2 : Decimal) :
  0 <= c1 -> 0 <= c2 ->
  _fix s1 c1 e1 = Ret d1 -> _fix s2 c2 e2 = Ret d2 ->
  (mag c1 e1 <= mag c2 e2)%Q ->
  exists c1' e1' c2' e2',
    d1 = Fin s1 c1' e1' /\ d2 = Fin s2 c2' e2' /\
    0 <= c1' /\ 0 <= c2' /\ (mag c1' e1' <= mag c2' e2')%Q.
Proof.
  intros Hc1 Hc2 H1 H2 Hle. rewrite fix_as_fix_in in H1, H2.
  destruct (fix_in prec c1 e1) as [[c1' e1']|] eqn:F1; [|discriminate].
  destruct (fix_in prec c2 e2) as [[c2' e2']|] eqn:F2; [|discriminate].
  injection H1 as <-. injection H2 as <-. cbn [fst snd].
  assert (Hp : 1 <= prec) by (unfold prec; lia).
  exists c1', e1', c2', e2'. split; [reflexivity|]. split; [reflexivity|].
  split; [apply (fix_in_representable prec Hp c1 e1 c1' e1' Hc1 F1)|].
  split; [apply (fix_in_representable prec Hp c2 e2 c2' e2' Hc2 F2)|].
  apply (fix_in_mono prec Hp c1 e1 c2 e2 c1' e1' c2' e2' Hc1 Hc2 F1 F2 Hle).
Qed.

(** A product by a rate that is not negative keeps the order of the
    balances. *)
Lemma mul_mono (s1 : bool) (c1 e1 : Z) (s2 : bool) (c2 e2 : Z)
    (sm : bool) (cm em : Z) (d1 d2 : Decimal) :
  0 <= c1 -> 0 <= c2 -> 0 <= cm -> (cm = 0 \/ sm = false) ->
  mul (Fin s1 c1 e1) (Fin sm cm em) = Ret d1 ->
  mul (Fin s2 c2 e2) (Fin sm cm em) = Ret d2 ->
  (value (Fin s1 c1 e1) <= value (Fin s2 c2 e2))%Q ->
  (value d1 <= value d2)%Q.
Proof.
  intros Hc1 Hc2 Hcm Hs H1 H2 Hle. cbn [mul] in H1, H2.
  destruct (Z.eq_dec cm 0) as [->|Ncm].
  { rewrite Z.mul_0_r, fix_zero in H1, H2. injection H1 as <-. injection H2 as <-.
    rewrite !value_zero. lra. }
  destruct Hs as [Hs|Hs]; [contradiction|subst sm].
  rewrite !xorb_false_r in H1, H2.
  assert (Hm1 : (mag (c1 * cm) (e1 + em) == mag c1 e1 * mag cm em)%Q) by apply mag_mul.
  assert (Hm2 : (mag (c2 * cm) (e2 + em) == mag c2 e2 * mag cm em)%Q) by apply mag_mul.
  pose proof (mag_pos cm em ltac:(lia)) as Hr.
  pose proof (mag_nonneg c1 e1 Hc1) as N1. pose proof (mag_nonneg c2 e2 Hc2) as N2.
  assert (P1 : 0 <= c1 * cm) by nia. assert (P2 : 0 <= c2 * cm) by nia.
  cbn [value] in Hle. destruct s1, s2.
  - assert (Hmag : (mag (c2 * cm) (e2 + em) <= mag (c1 * cm) (e1 + em))%Q).
    { rewrite Hm1, Hm2. apply Qmult_le_compat_r; lra. }
    destruct (fix_mono true true _ _ _ _ d2 d1 P2 P1 H2 H1 Hmag)
      as (a & b & c & d & -> & -> & _ & _ & Hv).
    cbn [value]. lra.
  - destruct (fix_representable _ _ _ _ P1 H1) as (a & b & -> & Ha).
    destruct (fix_representable _ _ _ _ P2 H2) as (c & d & -> & Hb).
    cbn [value].
    pose proof (mag_nonneg a b ltac:(apply Ha)).
    pose proof (mag_nonneg c d ltac:(apply Hb)). lra.
  - assert (c1 = 0) by (apply (mag_zero_inv c1 e1 Hc1); lra).
    assert (c2 = 0) by (apply (mag_zero_inv c2 e2 Hc2); lra).
    subst c1 c2. rewrite Z.mul_0_l, fix_zero in H1, H2.
    injection H1 as <-. injection H2 as <-. rewrite !value_zero. lra.
  - assert (Hmag : (mag (c1 * cm) (e1 + em) <= mag (c2 * cm) (e2 + em))%Q).
    { rewrite Hm1, Hm2. apply Qmult_le_compat_r; lra. }
    destruct (fix_mono false false _ _ _ _ d1 d2 P1 P2 H1 H2 Hmag)
      as (a & b & c & d & -> & -> & _ & _ & Hv).
    cbn [value]. exact Hv.
Qed.

(** ** Balances of a schedule *)

Section Balances.

Variables (lc : LoanCalculator) (P : Decimal).
Hypothesis Hlc : well_formed_loan lc.
Hypothesis Hshape : payment_shape lc P.
Hypothesis Hfits : fits_context (principal lc).

(** Every running balance is a number the context holds. *)
Lemma running_balance_fits (k : nat) (B : Decimal) :
  running_balance lc P k = Ret B -> fits_context B.
Proof.
  revert B. induction k as [|k IH]; intros B H; cbn [running_balance] in H.
  - injection H as <-. exact Hfits.
  - apply obind_ret_inv in H as (B0 & HB0 & H).
    apply obind_ret_inv in H as (product & Hmul & H).
    apply obind_ret_inv in H as (I & HI & H).
    apply obind_ret_inv in H as (PP & HPP & H).
    specialize (IH B0 HB0).
    pose proof (shape_well_formed lc P Hshape) as HwP.
    pose proof (running_balance_well_formed lc P Hlc HwP k B0 HB0) as HwB0.
    assert (Hwp : well_formed product)
      by (eapply mul_well_formed; [exact HwB0|apply Hlc|exact Hmul]).
    pose proof (quantize_well_formed _ _ _ Hwp HI) as HwI.
    assert (HwPP : well_formed PP)
      by (eapply sub_well_formed; [exact HwP|exact HwI|exact HPP]).
    destruct B0 as [s0 c0 e0|]; [|contradiction].
    destruct (quantize_in_cents _ _ _ Hwp HI) as (sI & cp & ep & _ & -> & HcI).
    destruct Hshape as (sm & cm & em & cP & eP & _ & _ & HPeq & HrP & _).
    rewrite HPeq in HPP. unfold sub in HPP, H. cbn [copy_negate] in HPP.
    destruct (add_fin_representable _ _ _ _ _ _ _ ltac:(apply HrP) ltac:(apply HcI) HPP)
      as (t & d & f & -> & Hr).
    cbn [copy_negate] in H.
    destruct (add_fin_representable _ _ _ _ _ _ _ HwB0 ltac:(apply Hr) H)
      as (s & c & e & -> & Hr').
    exact Hr'.
Qed.

(** From one period to the next: while the principal portion is not
    negative, the interest does not grow, the principal portion does not
    shrink and the balance shown does not grow. *)
Lemma next_record (k : nat) (rec rec' : PaymentRecord) :
  record_at lc P k rec -> record_at lc P (S k) rec' ->
  (0 <= value (principal_paid rec))%Q ->
  (value (principal_paid rec) <= value (principal_paid rec'))%Q /\
  (value (balance rec') <= value (balance rec))%Q.
Proof.
  intros Hrec Hrec' Hpos.
  pose proof (shape_well_formed lc P Hshape) as HwP.
  destruct (record_adds_up lc P k rec Hlc Hshape Hrec)
    as (total & _ & _ & _ & _ & _ & Hsum).
  destruct (record_adds_up lc P (S k) rec' Hlc Hshape Hrec')
    as (total' & _ & _ & _ & _ & _ & Hsum').
  pose proof (record_at_well_formed lc P Hlc HwP _ _ Hrec) as (HwI & HwPP & _).
  pose proof (record_at_well_formed lc P Hlc HwP _ _ Hrec') as (HwI' & HwPP' & _).
  destruct Hrec as (B & product & B1 & HB & Hmul & HqI & HPP & Hsub & HB1 & Hshown & HmP & _).
  destruct Hrec' as (B1' & product' & B2 & HB1' & Hmul' & HqI' & HPP' & Hsub' & HB2 & Hshown' & HmP' & _).
  rewrite HB1 in HB1'. injection HB1' as <-.
  rewrite HmP in Hsum. rewrite HmP' in Hsum'.
  pose proof (running_balance_fits k B HB) as HfB.
  pose proof (running_balance_fits (S k) B1 HB1) as HfB1.
  pose proof (running_balance_well_formed lc P Hlc HwP _ _ HB2) as HwB2.
  destruct B as [sB cB eB|]; [|contradiction].
  destruct B1 as [s1 c1 e1|]; [|contradiction].
  cbn [fits_context] in HfB, HfB1.
  destruct (sub_fin_inv _ _ _ _ _ Hsub) as [_ (t & d & f & EPP)].
  rewrite EPP in *. cbn [well_formed] in HwPP.
  (* the balance after this period is not above the balance before it *)
  pose proof (sub_nonneg_le sB cB eB t d f _ HfB HwPP Hpos Hsub) as HleB.
  (* so the interest of the next period is not above this one's *)
  destruct Hshape as (sm & cm & em & cP & eP & Hm & Hcm & HPeq & HrP & Hcase).
  rewrite Hm in Hmul, Hmul'.
  assert (Hsign : cm = 0 \/ sm = false) by (destruct Hcase as [?|[? _]]; auto).
  pose proof (mul_mono s1 c1 e1 sB cB eB sm cm em product' product
                ltac:(apply HfB1) ltac:(apply HfB) Hcm Hsign Hmul' Hmul HleB) as Hlep.
  assert (Hwp : well_formed product).
  { eapply mul_well_formed; [| |exact Hmul]; cbn; [apply HfB|exact Hcm]. }
  assert (Hwp' : well_formed product').
  { eapply mul_well_formed; [| |exact Hmul']; cbn; [apply HfB1|exact Hcm]. }
  pose proof (quantize_half_up_mono product' product _ _ Hwp' Hwp HqI' HqI Hlep) as HleI.
  assert (Hpp' : (value (Fin t d f) <= value (principal_paid rec'))%Q) by lra.
  split; [exact Hpp'|].
  (* and the next balance is not above this one *)
  destruct B2 as [s2 c2 e2|s2]; [|cbn in Hshown'; discriminate].
  destruct (sub_fin_inv _ _ _ _ _ Hsub') as [_ (t' & d' & f' & EPP')].
  rewrite EPP' in *. cbn [well_formed] in HwPP'.
  assert (Hpos' : (0 <= value (Fin t' d' f'))%Q) by lra.
  pose proof (sub_nonneg_le s1 c1 e1 t' d' f' _ HfB1 HwPP' Hpos' Hsub') as HleB'.
  eapply quantize_half_up_mono; [| |exact Hshown'|exact Hshown|exact HleB'];
    [exact HwB2|cbn; apply HfB1].
Qed.

End Balances.

(** C8 (as amended): for valid terms with a principal of at most ten
    significant digits, if the principal portion of the first record is
    not negative (the payment covers the interest of the first period),
    then in a returned schedule the principal portion of every later
    record is not negative either, and the balance of every record is at
    most the balance of the record before it. *)
Theorem balances_do_not_increase
    (p r : Decimal) (y : Z) (lc : LoanCalculator)
    (sched : list PaymentRecord) (first : PaymentRecord) :
  valid_terms p r y ->
  fits_context p ->
  init p r y = Ret lc ->
  result generate_amortization_schedule lc = Ret sched ->
  nth_error sched 0 = Some first ->
  (0 <= value (principal_paid first))%Q ->
  forall j previous current,
    nth_error sched j = Some previous ->
    nth_error sched (S j) = Some current ->
    (0 <= value (principal_paid current))%Q /\
    (value (balance current) <= value (balance previous))%Q.
Proof.
  rewrite result_generate_amortization_schedule.
  intros Hv Hfit Hinit H Hfirst Hpos.
  assert (Hlc : well_formed_loan lc).
  { destruct Hv as ((cp & ep & -> & Hcp) & (sr & cr & er & -> & Hcr & _) & _).
    eapply init_well_formed; [| |exact Hinit]; cbn; lia. }
  assert (Hfits : fits_context (principal lc)).
  { unfold init in Hinit. apply obind_ret_inv in Hinit as (mr & _ & E).
    injection E as <-. exact Hfit. }
  apply schedule_of_records in H as (P & HP & _ & Hrecs).
  pose proof (valid_payment_shape p r y lc P Hv Hinit HP) as Hshape.
  assert (Hall : forall j previous current,
            nth_error sched j = Some previous ->
            nth_error sched (S j) = Some current ->
            (0 <= value (principal_paid previous))%Q /\
            (value (principal_paid previous) <= value (principal_paid current))%Q /\
            (value (balance current) <= value (balance previous))%Q).
  { induction j as [|j IH]; intros previous current Hprev Hcur.
    - rewrite Hfirst in Hprev. injection Hprev as <-.
      split; [exact Hpos|].
      apply (next_record lc P Hlc Hshape Hfits 0 first current
               (Hrecs _ _ Hfirst) (Hrecs _ _ Hcur) Hpos).
    - destruct (nth_error sched j) as [before|] eqn:Hbefore.
      + destruct (IH before previous eq_refl Hprev) as (Hb & Hle & _).
        assert (Hpp : (0 <= value (principal_paid previous))%Q) by lra.
        split; [exact Hpp|].
        apply (next_record lc P Hlc Hshape Hfits (S j) previous current
                 (Hrecs _ _ Hprev) (Hrecs _ _ Hcur) Hpp).
      + exfalso. apply nth_error_None in Hbefore.
        assert (Hlt : (S j < length sched)%nat)
          by (apply nth_error_Some; rewrite Hprev; discriminate).
        lia. }
  intros j previous current Hprev Hcur.
  destruct (Hall j previous current Hprev Hcur) as (H0 & H1 & H2).
  split; [lra|exact H2].
Qed.

(** The property on the loan of 1000.015 at 5% over one year: the first
    principal portion is 81.44, and the balance goes from 918.58 to
    836.80 between the first two records. *)
Lemma balances_do_not_increase_witness :
  valid_terms (dec 1000015 (-3)) (dec 5 (-2)) 1 /\
  fits_context (dec 1000015 (-3)) /\
  init (dec 1000015 (-3)) (dec 5 (-2)) 1 = Ret one_year_loan /\
  result generate_amortization_schedule one_year_loan = Ret one_year_schedule /\
  nth_error one_year_schedule 0 = Some (one_year_record 1 417 8144 (dec 91858 (-2))) /\
  (0 <= value (dec 8144 (-2)))%Q /\
  nth_error one_year_schedule 1 = Some (one_year_record 2 383 8178 (dec 83680 (-2))) /\
  (0 <= value (dec 8178 (-2)))%Q /\
  (value (dec 83680 (-2)) <= value (dec 91858 (-2)))%Q.
Proof.
  assert (Hv : valid_terms (dec 1000015 (-3)) (dec 5 (-2)) 1)
    by (apply valid_terms_dec; lia).
  assert (Hf : fits_context (dec 1000015 (-3)))
    by (cbn; unfold representable; vm_compute; repeat split; discriminate).
  assert (H0 : init (dec 1000015 (-3)) (dec 5 (-2)) 1 = Ret one_year_loan)
    by (vm_compute; reflexivity).
  assert (H1 : result generate_amortization_schedule one_year_loan
               = Ret one_year_schedule)
    by (vm_compute; reflexivity).
  assert (H2 : nth_error one_year_schedule 0
               = Some (one_year_record 1 417 8144 (dec 91858 (-2))))
    by reflexivity.
  assert (H3 : (0 <= value (dec 8144 (-2)))%Q)
    by (vm_compute; discriminate).
  assert (H4 : nth_error one_year_schedule 1
               = Some (one_year_record 2 383 8178 (dec 83680 (-2))))
    by reflexivity.
  exact (conj Hv (conj Hf (conj H0 (conj H1 (conj H2 (conj H3 (conj H4
    (balances_do_not_increase _ _ _ _ _ _ Hv Hf H0 H1 H2 H3 0 _ _ H2 H4)))))))).
Defined.

(** The bound on the digits of the principal is needed.  For
    79516779.65595331 at 100% a year over 30 years the first principal
    portion is 0.00, the running balance rounds up to ten digits, the
    next interest is a cent higher and the balances shown grow. *)
Lemma balances_grow_for_long_principal :
  valid_terms (dec 7951677965595331 (-8)) (dec 1 0) 30 /\
  init (dec 7951677965595331 (-8)) (dec 1 0) 30 = Ret long_principal_loan /\
  exists rest,
    result generate_amortization_schedule long_principal_loan
    = Ret (mkPaymentRecord 1 (dec 662639830 (-2)) (dec 662639830 (-2))
             (dec 0 (-2)) (dec 7951677966 (-2))
           :: mkPaymentRecord 2 (dec 662639830 (-2)) (dec 662639831 (-2))
                (Fin true 1 (-2)) (dec 7951677967 (-2))
           :: rest) /\
    (0 <= value (dec 0 (-2)))%Q /\
    (value (dec 7951677966 (-2)) < value (dec 7951677967 (-2)))%Q.
Proof.
  split; [apply valid_terms_dec; lia|].
  split; [vm_compute; reflexivity|].
  eexists. split; [vm_compute; reflexivity|].
  split; [vm_compute; discriminate|vm_compute; reflexivity].
Qed.

(** ** Operations that return: results within a bound *)

Lemma prec_pos : 1 <= prec.
Proof. unfold prec. lia. Qed.

Lemma adjusted_below (c e K : Z) :
  0 < c -> (mag c e < mag 1 K)%Q -> e + ndigits c - 1 < K.
Proof.
  intros Hc H. destruct (Z_lt_le_dec (e + ndigits c - 1) K) as [|Hge]; [assumption|].
  pose proof (mag_ge_unit c e K Hc ltac:(lia)). lra.
Qed.

Lemma adjusted_of_bound (c e cy ey : Z) :
  0 < c -> 0 <= cy -> (mag c e <= mag cy ey)%Q ->
  e + ndigits c - 1 <= ey + ndigits cy - 1.
Proof.
  intros Hc Hcy H.
  destruct (Z.eq_dec cy 0) as [->|N].
  { pose proof (mag_pos c e Hc). rewrite mag_zero in H. lra. }
  pose proof (mag_lt_unit cy ey (ndigits cy + ey) ltac:(lia) ltac:(lia)) as Hy.
  assert (Hlt : (mag c e < mag 1 (ndigits cy + ey))%Q) by lra.
  pose proof (adjusted_below c e _ Hc Hlt). lia.
Qed.

Lemma fix_result_in (s : bool) (i x : Z) (d : Decimal) :
  _fix s i x = Ret d ->
  exists c e, d = Fin s c e /\ fix_in prec i x = Ret (c, e).
Proof.
  intros H. rewrite fix_as_fix_in in H.
  destruct (fix_in prec i x) as [[c e]|]; [|discriminate].
  injection H as <-. eauto.
Qed.

Lemma fix_mag_le (s : bool) (i x c e cy ey : Z) :
  0 <= i -> _fix s i x = Ret (Fin s c e) ->
  0 <= cy < 10 ^ prec -> Etiny <= ey ->
  (mag i x <= mag cy ey)%Q -> (mag c e <= mag cy ey)%Q.
Proof.
  intros Hi H Hcy Hey Hle.
  destruct (fix_result_in s i x _ H) as (c' & e' & E & F). injection E as <- <-.
  exact (fix_in_mag_le prec prec_pos i x c e cy ey Hi F Hcy Hey Hle).
Qed.

Lemma fix_mag_ge (s : bool) (i x c e cy ey : Z) :
  0 <= i -> _fix s i x = Ret (Fin s c e) ->
  0 <= cy < 10 ^ prec -> Etiny <= ey ->
  (mag cy ey <= mag i x)%Q -> (mag cy ey <= mag c e)%Q.
Proof.
  intros Hi H Hcy Hey Hle.
  destruct (fix_result_in s i x _ H) as (c' & e' & E & F). injection E as <- <-.
  exact (fix_in_mag_ge prec prec_pos i x c e cy ey Hi F Hcy Hey Hle).
Qed.

(** A magnitude below a bound the context holds rounds, without a signal,
    to a magnitude below that bound. *)
Lemma fix_bounded (s : bool) (i x cy ey : Z) :
  0 <= i -> 0 <= cy < 10 ^ prec -> Etiny <= ey ->
  ey + ndigits cy - 1 < Emax ->
  (mag i x <= mag cy ey)%Q ->
  exists c e, _fix s i x = Ret (Fin s c e) /\ representable c e /\
              (mag c e <= mag cy ey)%Q.
Proof.
  intros Hi Hcy Hey Hadj Hle.
  assert (Hret : exists d, _fix s i x = Ret d).
  { destruct (Z.eq_dec i 0) as [->|N]; [rewrite fix_zero; eauto|].
    apply fix_returns; [assumption|].
    pose proof (adjusted_of_bound i x cy ey ltac:(lia) ltac:(lia) Hle). lia. }
  destruct Hret as (d & H).
  destruct (fix_representable s i x d Hi H) as (c & e & -> & Hr).
  exists c, e. split; [assumption|]. split; [assumption|].
  exact (fix_mag_le s i x c e cy ey Hi H Hcy Hey Hle).
Qed.

(** The same in a context of another precision. *)
Lemma fix_in_bounded (p i x cy ey : Z) :
  1 <= p -> 0 <= i -> 0 <= cy < 10 ^ p -> Etiny_in p <= ey ->
  ey + ndigits cy - 1 < Emax ->
  (mag i x <= mag cy ey)%Q ->
  exists c e, fix_in p i x = Ret (c, e) /\ representable_in p c e /\
              (mag c e <= mag cy ey)%Q.
Proof.
  intros Hp Hi Hcy Hey Hadj Hle.
  assert (Hret : exists r, fix_in p i x = Ret r).
  { destruct (Z.eq_dec i 0) as [->|N]; [rewrite fix_in_zero; eauto|].
    apply fix_in_returns; [assumption|assumption|].
    pose proof (adjusted_of_bound i x cy ey ltac:(lia) ltac:(lia) Hle). lia. }
  destruct Hret as ([c e] & H).
  exists c, e. split; [assumption|].
  split; [exact (fix_in_representable p Hp i x c e Hi H)|].
  exact (fix_in_mag_le p Hp i x c e cy ey Hi H Hcy Hey Hle).
Qed.

(** A product within a bound. *)
Lemma mul_bounded (s1 : bool) (c1 e1 : Z) (s2 : bool) (c2 e2 cy ey : Z) :
  0 <= c1 -> 0 <= c2 -> 0 <= cy < 10 ^ prec -> Etiny <= ey ->
  ey + ndigits cy - 1 < Emax ->
  (mag c1 e1 * mag c2 e2 <= mag cy ey)%Q ->
  exists c e,
    mul (Fin s1 c1 e1) (Fin s2 c2 e2) = Ret (Fin (xorb s1 s2) c e) /\
    representable c e /\ (mag c e <= mag cy ey)%Q.
Proof.
  intros H1 H2 Hcy Hey Hadj Hle. cbn [mul].
  apply fix_bounded; try assumption; [nia|]. rewrite mag_mul. exact Hle.
Qed.

Lemma mul_mag_ge (s1 : bool) (c1 e1 : Z) (s2 : bool) (c2 e2 : Z)
    (s : bool) (c e cy ey : Z) :
  0 <= c1 -> 0 <= c2 -> 0 <= cy < 10 ^ prec -> Etiny <= ey ->
  mul (Fin s1 c1 e1) (Fin s2 c2 e2) = Ret (Fin s c e) ->
  (mag cy ey <= mag c1 e1 * mag c2 e2)%Q ->
  (mag cy ey <= mag c e)%Q.
Proof.
  intros H1 H2 Hcy Hey H Hle. cbn [mul] in H.
  assert (Hs : s = xorb s1 s2).
  { destruct (fix_sign _ _ _ _ H) as (a & b & E). congruence. }
  subst s.
  apply (fix_mag_ge _ (c1 * c2) (e1 + e2) c e cy ey ltac:(nia) H Hcy Hey).
  rewrite mag_mul. exact Hle.
Qed.

(** The sum of two nonzero numbers, before it is rounded. *)
Lemma add_nonzero_form (s1 : bool) (c1 e1 : Z) (s2 : bool) (c2 e2 : Z) :
  0 < c1 -> 0 < c2 ->
  exists s i x va vb,
    add (Fin s1 c1 e1) (Fin s2 c2 e2) = _fix s i x /\
    0 <= i /\ (i = 0 -> s = false) /\
    (value (Fin s i x) == va + vb)%Q /\
    seen_as s1 c1 e1 c2 e2 va /\ seen_as s2 c2 e2 c1 e1 vb.
Proof.
  intros H1 H2. cbn [add]. cbv zeta.
  replace (c1 =? 0) with false by (symmetry; apply Z.eqb_neq; lia).
  replace (c2 =? 0) with false by (symmetry; apply Z.eqb_neq; lia).
  cbn [andb].
  destruct (normalize_spec c1 e1 c2 e2 H1 H2) as (i1 & i2 & x & Hn & Hi1 & Hi2 & Ha & Hb).
  rewrite Hn.
  destruct s1, s2; cbn [Bool.eqb].
  - exists true, (i1 + i2), x, (value (Fin true i1 x)), (value (Fin true i2 x)).
    repeat split; try assumption; try lia; auto.
    cbn [value]. rewrite mag_plus. ring.
  - destruct (Z.eqb_spec i1 i2) as [Heq|Hne].
    + exists false, 0, (Z.min e1 e2), (value (Fin true i1 x)), (value (Fin false i2 x)).
      repeat split; try assumption; try lia; auto.
      cbn [value]. rewrite mag_zero. subst. ring.
    + destruct (Z.ltb_spec i1 i2).
      * exists false, (i2 - i1), x, (value (Fin true i1 x)), (value (Fin false i2 x)).
        repeat split; try assumption; try lia; auto.
        cbn [value]. rewrite mag_minus. ring.
      * exists true, (i1 - i2), x, (value (Fin true i1 x)), (value (Fin false i2 x)).
        repeat split; try assumption; try lia; auto.
        cbn [value]. rewrite mag_minus. ring.
  - destruct (Z.eqb_spec i1 i2) as [Heq|Hne].
    + exists false, 0, (Z.min e1 e2), (value (Fin false i1 x)), (value (Fin true i2 x)).
      repeat split; try assumption; try lia; auto.
      cbn [value]. rewrite mag_zero. subst. ring.
    + destruct (Z.ltb_spec i1 i2).
      * exists true, (i2 - i1), x, (value (Fin false i1 x)), (value (Fin true i2 x)).
        repeat split; try assumption; try lia; auto.
        cbn [value]. rewrite mag_minus. ring.
      * exists false, (i1 - i2), x, (value (Fin false i1 x)), (value (Fin true i2 x)).
        repeat split; try assumption; try lia; auto.
        cbn [value]. rewrite mag_minus. ring.
  - exists false, (i1 + i2), x, (value (Fin false i1 x)), (value (Fin false i2 x)).
    repeat split; try assumption; try lia; auto.
    cbn [value]. rewrite mag_plus. ring.
Qed.

Lemma mag_of_value (s : bool) (c e : Z) (b : Q) :
  0 <= c -> (- b <= value (Fin s c e) <= b)%Q -> (mag c e <= b)%Q.
Proof.
  intros Hc H. cbn [value] in H. pose proof (mag_nonneg c e Hc).
  destruct s; lra.
Qed.

(** A sum within a bound: what the addition sees of each operand exceeds
    it by at most a tenth of the other one. *)
Lemma add_bounded (s1 : bool) (c1 e1 : Z) (s2 : bool) (c2 e2 cy ey : Z) :
  0 <= c1 -> 0 <= c2 -> 0 <= cy < 10 ^ prec -> Etiny <= ey ->
  ey + ndigits cy - 1 < Emax ->
  ((11 # 10) * (mag c1 e1 + mag c2 e2) <= mag cy ey)%Q ->
  exists s c e,
    add (Fin s1 c1 e1) (Fin s2 c2 e2) = Ret (Fin s c e) /\
    representable c e /\ (mag c e <= mag cy ey)%Q.
Proof.
  intros H1 H2 Hcy Hey Hadj Hle.
  pose proof (mag_nonneg c1 e1 H1) as M1. pose proof (mag_nonneg c2 e2 H2) as M2.
  destruct (Z.eq_dec c1 0) as [->|N1]; [destruct (Z.eq_dec c2 0) as [->|N2]|
    destruct (Z.eq_dec c2 0) as [->|N2]].
  - rewrite add_zero_zero.
    assert (Hz : (mag 0 (Z.min e1 e2) <= mag cy ey)%Q)
      by (rewrite mag_zero; apply mag_nonneg; lia).
    destruct (fix_bounded (s1 && s2) 0 (Z.min e1 e2) cy ey ltac:(lia) Hcy Hey Hadj Hz)
      as (c & e & H & Hr & Hb).
    exists (s1 && s2), c, e. auto.
  - destruct (add_zero_l s1 e1 s2 c2 e2 ltac:(lia)) as (j & Hj & E). rewrite E.
    pose proof (pow10_pos j Hj).
    assert (Hm : (mag (c2 * 10 ^ j) (e2 - j) <= mag cy ey)%Q).
    { pose proof (value_pad false c2 e2 j Hj) as Hv. cbn [value] in Hv.
      rewrite Hv. rewrite mag_zero in Hle. lra. }
    assert (Hn : 0 <= c2 * 10 ^ j) by nia.
    destruct (fix_bounded s2 (c2 * 10 ^ j) (e2 - j) cy ey Hn Hcy Hey Hadj Hm)
      as (c & e & H' & Hr & Hb).
    exists s2, c, e. auto.
  - destruct (add_zero_r s1 c1 e1 s2 e2 ltac:(lia)) as (j & Hj & E). rewrite E.
    pose proof (pow10_pos j Hj).
    assert (Hm : (mag (c1 * 10 ^ j) (e1 - j) <= mag cy ey)%Q).
    { pose proof (value_pad false c1 e1 j Hj) as Hv. cbn [value] in Hv.
      rewrite Hv. rewrite mag_zero in Hle. lra. }
    assert (Hn : 0 <= c1 * 10 ^ j) by nia.
    destruct (fix_bounded s1 (c1 * 10 ^ j) (e1 - j) cy ey Hn Hcy Hey Hadj Hm)
      as (c & e & H' & Hr & Hb).
    exists s1, c, e. auto.
  - destruct (add_nonzero_form s1 c1 e1 s2 c2 e2 ltac:(lia) ltac:(lia))
      as (s & i & x & va & vb & E & Hi & _ & Hv & Ha & Hb).
    rewrite E.
    pose proof (seen_as_bound s1 c1 e1 c2 e2 va H1 H2 Ha) as Ba.
    pose proof (seen_as_bound s2 c2 e2 c1 e1 vb H2 H1 Hb) as Bb.
    assert (Hm : (mag i x <= mag cy ey)%Q).
    { apply (mag_of_value s i x _ Hi). rewrite Hv. split; lra. }
    destruct (fix_bounded s i x cy ey Hi Hcy Hey Hadj Hm)
      as (c & e & H' & Hr & Hb').
    exists s, c, e. auto.
Qed.

Lemma sub_bounded (s1 : bool) (c1 e1 : Z) (s2 : bool) (c2 e2 cy ey : Z) :
  0 <= c1 -> 0 <= c2 -> 0 <= cy < 10 ^ prec -> Etiny <= ey ->
  ey + ndigits cy - 1 < Emax ->
  ((11 # 10) * (mag c1 e1 + mag c2 e2) <= mag cy ey)%Q ->
  exists s c e,
    sub (Fin s1 c1 e1) (Fin s2 c2 e2) = Ret (Fin s c e) /\
    representable c e /\ (mag c e <= mag cy ey)%Q.
Proof. unfold sub. cbn [copy_negate]. apply add_bounded. Qed.

(** An amount below a bound in cents is rounded to cents without a
    signal. *)
Lemma quantize_bounded (s : bool) (c e b : Z) :
  0 <= c -> 0 <= b < 10 ^ prec -> (mag c e <= mag b (-2))%Q ->
  exists c',
    quantize ROUND_HALF_UP (Fin s c e) cent = Ret (Fin s c' (-2)) /\
    0 <= c' <= b.
Proof.
  intros Hc Hb Hle. rewrite quantize_cent by assumption.
  pose proof (cents_of_nonneg ROUND_HALF_UP c e Hc) as Hn.
  assert (Hcb : cents_of ROUND_HALF_UP c e <= b).
  { rewrite <- round2_cents_mag by assumption.
    assert (Eb : round2_cents (mag b (-2)) = b).
    { rewrite round2_cents_mag by lia. unfold cents_of. cbn. lia. }
    pose proof (round2_cents_mono (mag c e) (mag b (-2))
                  (mag_nonneg c e Hc) Hle) as Hmono.
    lia. }
  replace (cents_of ROUND_HALF_UP c e <? 10 ^ prec) with true
    by (symmetry; apply Z.ltb_lt; lia).
  eexists. split; [reflexivity|]. lia.
Qed.

(** ** The quotient *)

Lemma strip_zeros_value (fuel : nat) (coeff exp ideal : Z) :
  (mag (fst (strip_zeros fuel coeff exp ideal))
       (snd (strip_zeros fuel coeff exp ideal)) == mag coeff exp)%Q.
Proof.
  revert coeff exp. induction fuel as [|f IH]; intros coeff exp; cbn [strip_zeros].
  - reflexivity.
  - destruct (exp <? ideal); cbn [andb]; [|reflexivity].
    destruct (Z.eqb_spec (coeff mod 10) 0) as [Hm|Hm]; [|reflexivity].
    rewrite IH. apply (mag_eq_iff exp); try lia.
    rewrite Z.sub_diag. replace (exp + 1 - exp) with 1 by lia.
    change (10 ^ 0) with 1. change (10 ^ 1) with 10.
    pose proof (Z.div_mod coeff 10 ltac:(lia)). lia.
Qed.

Lemma Qmult_lt_cancel_r (a b d : Q) : (0 < d)%Q -> (a * d < b * d)%Q -> (a < b)%Q.
Proof. intros Hd H. apply Qmult_lt_r in H; assumption. Qed.

Lemma Qmult_le_cancel_r (a b d : Q) : (0 < d)%Q -> (a * d <= b * d)%Q -> (a <= b)%Q.
Proof. intros Hd H. apply Qmult_le_r in H; assumption. Qed.

(** The quotient before rounding: the exact one, or at least [prec + 1]
    digits of it with a last digit that keeps it strictly between its
    two neighbours. *)
Lemma div_coeff_value (c1 e1 c2 e2 : Z) :
  0 < c1 -> 0 < c2 ->
  let q := fst (div_coeff c1 e1 c2 e2) in
  let x := snd (div_coeff c1 e1 c2 e2) in
  0 < q /\
  ((mag q x * mag c2 e2 == mag c1 e1)%Q \/
   (10 ^ prec <= q /\
    (mag (q - 1) x * mag c2 e2 < mag c1 e1)%Q /\
    (mag c1 e1 < mag (q + 1) x * mag c2 e2)%Q)).
Proof.
  intros H1 H2. unfold div_coeff. cbv zeta.
  pose proof (ndigits_ge1 c1) as L1. pose proof (ndigits_ge1 c2) as L2.
  pose proof (ndigits_bounds c1 H1) as [Lo1 Hi1].
  pose proof (ndigits_bounds c2 H2) as [Lo2 Hi2].
  set (shift := ndigits c2 - ndigits c1 + prec + 1).
  set (exp := e1 - e2 - shift).
  set (n := if 0 <=? shift then c1 * 10 ^ shift else c1).
  set (d := if 0 <=? shift then c2 else c2 * 10 ^ (- shift)).
  assert (Hd : 0 < d).
  { unfold d. destruct (Z.leb_spec 0 shift); [lia|].
    pose proof (pow10_pos (- shift) ltac:(lia)). nia. }
  assert (Hn : 10 ^ prec * d < n).
  { unfold n, d. destruct (Z.leb_spec 0 shift) as [Hs|Hs].
    - assert (E : 10 ^ (ndigits c1 - 1) * 10 ^ shift = 10 ^ prec * 10 ^ ndigits c2).
      { rewrite <- !pow10_split by (unfold prec; lia). f_equal. unfold shift. lia. }
      pose proof (pow10_pos shift Hs). pose proof (pow10_pos prec ltac:(unfold prec; lia)).
      nia.
    - assert (E : 10 ^ (ndigits c1 - 1) = 10 ^ prec * (10 ^ ndigits c2 * 10 ^ (- shift))).
      { rewrite <- !pow10_split by (unfold prec; lia). f_equal. unfold shift. lia. }
      pose proof (pow10_pos (- shift) ltac:(lia)).
      pose proof (pow10_pos prec ltac:(unfold prec; lia)). nia. }
  assert (HR : (mag n exp * mag c2 e2 == mag c1 e1 * inject_Z d)%Q).
  { unfold n, d. destruct (Z.leb_spec 0 shift) as [Hs|Hs].
    - assert (E : (mag (c1 * 10 ^ shift) exp == mag c1 (e1 - e2))%Q).
      { replace shift with ((e1 - e2) - exp) by (unfold exp; lia).
        apply mag_shift. unfold exp. lia. }
      rewrite E. unfold mag.
      replace e1 with ((e1 - e2) + e2) at 2 by lia.
      rewrite Qpow10_add. ring.
    - rewrite inject_Z_mult, <- Qpow10_Z by lia. unfold mag.
      replace exp with (e1 + (- e2 + - shift)) by (unfold exp; lia).
      rewrite !Qpow10_add.
      assert (E : (10 ^ (- e2) * 10 ^ e2 == 1)%Q).
      { rewrite <- Qpow10_add. replace (- e2 + e2) with 0 by lia. reflexivity. }
      setoid_replace (inject_Z c1 * (10 ^ e1 * (10 ^ (- e2) * 10 ^ (- shift)))
                      * (inject_Z c2 * 10 ^ e2))%Q
        with (inject_Z c1 * 10 ^ e1 * (inject_Z c2 * 10 ^ (- shift))
              * (10 ^ (- e2) * 10 ^ e2))%Q by ring.
      rewrite E. ring. }
  pose proof (Z.div_mod n d ltac:(lia)) as Hdm.
  pose proof (Z.mod_pos_bound n d Hd) as Hmb.
  set (q0 := n / d) in *. set (rem := n mod d) in *.
  pose proof (pow10_pos prec ltac:(unfold prec; lia)) as Hpp.
  assert (Hq0 : 10 ^ prec <= q0) by nia.
  pose proof (mag_pos c2 e2 H2) as HB.
  assert (HD : (0 < inject_Z d)%Q).
  { change 0%Q with (inject_Z 0). rewrite <- Zlt_Qlt. exact Hd. }
  destruct (Z.eqb_spec rem 0) as [Hr0|Hr0].
  - pose proof (strip_zeros_adjusted (Z.to_nat (e1 - e2 - exp)) q0 exp (e1 - e2)
                  ltac:(lia)) as [Hpos _].
    split; [exact Hpos|]. left.
    rewrite strip_zeros_value.
    assert (E : (mag n exp == mag q0 exp * inject_Z d)%Q).
    { rewrite <- mag_mul_int. replace n with (q0 * d) by lia. reflexivity. }
    rewrite E in HR.
    apply (Qmult_le_cancel_r _ _ (inject_Z d) HD) in HR || idtac.
    apply Qle_antisym; apply (Qmult_le_cancel_r _ _ (inject_Z d) HD);
      [rewrite <- HR|rewrite <- HR]; apply Qle_lteq; right; ring.
  - cbn [fst snd].
    set (q := if q0 mod 5 =? 0 then q0 + 1 else q0).
    assert (Hq : q0 <= q <= q0 + 1) by (unfold q; destruct (_ =? 0); lia).
    split; [lia|]. right. split; [lia|].
    assert (Elo : (mag (q0 * d) exp < mag n exp)%Q).
    { apply (mag_lt_iff exp); try lia. rewrite Z.sub_diag. change (10 ^ 0) with 1. lia. }
    assert (Ehi : (mag n exp < mag ((q0 + 1) * d) exp)%Q).
    { apply (mag_lt_iff exp); try lia. rewrite Z.sub_diag. change (10 ^ 0) with 1. nia. }
    rewrite mag_mul_int in Elo, Ehi.
    assert (M1 : (mag (q - 1) exp <= mag q0 exp)%Q).
    { apply (mag_le_iff exp); try lia. rewrite Z.sub_diag. change (10 ^ 0) with 1. lia. }
    assert (M2 : (mag (q0 + 1) exp <= mag (q + 1) exp)%Q).
    { apply (mag_le_iff exp); try lia. rewrite Z.sub_diag. change (10 ^ 0) with 1. lia. }
    split.
    + apply (Qmult_lt_cancel_r _ _ (inject_Z d) HD). rewrite <- HR.
      assert (X : (mag (q - 1) exp * mag c2 e2 * inject_Z d
                   <= mag q0 exp * inject_Z d * mag c2 e2)%Q).
      { setoid_replace (mag (q - 1) exp * mag c2 e2 * inject_Z d)%Q
          with (mag (q - 1) exp * (mag c2 e2 * inject_Z d))%Q by ring.
        setoid_replace (mag q0 exp * inject_Z d * mag c2 e2)%Q
          with (mag q0 exp * (mag c2 e2 * inject_Z d))%Q by ring.
        apply Qmult_le_compat_r; [exact M1|].
        apply Qlt_le_weak, Qmult_lt_0_compat; assumption. }
      assert (Y : (mag q0 exp * inject_Z d * mag c2 e2 < mag n exp * mag c2 e2)%Q).
      { apply Qmult_lt_r; assumption. }
      lra.
    + apply (Qmult_lt_cancel_r _ _ (inject_Z d) HD). rewrite <- HR.
      assert (X : (mag (q0 + 1) exp * inject_Z d * mag c2 e2
                   <= mag (q + 1) exp * mag c2 e2 * inject_Z d)%Q).
      { setoid_replace (mag (q + 1) exp * mag c2 e2 * inject_Z d)%Q
          with (mag (q + 1) exp * (mag c2 e2 * inject_Z d))%Q by ring.
        setoid_replace (mag (q0 + 1) exp * inject_Z d * mag c2 e2)%Q
          with (mag (q0 + 1) exp * (mag c2 e2 * inject_Z d))%Q by ring.
        apply Qmult_le_compat_r; [exact M2|].
        apply Qlt_le_weak, Qmult_lt_0_compat; assumption. }
      assert (Y : (mag n exp * mag c2 e2 < mag (q0 + 1) exp * inject_Z d * mag c2 e2)%Q).
      { apply Qmult_lt_r; assumption. }
      lra.
Qed.

(** The quotient rounds like its exact value against every bound the
    context holds. *)
Lemma div_coeff_le (c1 e1 c2 e2 cy ey : Z) :
  0 < c1 -> 0 < c2 -> 0 <= cy < 10 ^ prec ->
  (mag c1 e1 <= mag cy ey * mag c2 e2)%Q ->
  (mag (fst (div_coeff c1 e1 c2 e2)) (snd (div_coeff c1 e1 c2 e2)) <= mag cy ey)%Q.
Proof.
  intros H1 H2 Hcy Hle.
  destruct (div_coeff_value c1 e1 c2 e2 H1 H2) as (Hq & [Hex|(Hbig & Hlo & _)]).
  - pose proof (mag_pos c2 e2 H2) as HB.
    apply (Qmult_le_cancel_r _ _ (mag c2 e2) HB). rewrite Hex. exact Hle.
  - set (q := fst (div_coeff c1 e1 c2 e2)) in *.
    set (x := snd (div_coeff c1 e1 c2 e2)) in *.
    pose proof (mag_pos c2 e2 H2) as HB.
    assert (Hlt : (mag (q - 1) x < mag cy ey)%Q).
    { apply (Qmult_lt_cancel_r _ _ (mag c2 e2) HB). lra. }
    destruct (Z_le_gt_dec x ey) as [Hx|Hx].
    + apply (mag_lt_iff x) in Hlt; try lia. apply (mag_le_iff x); try lia.
      rewrite Z.sub_diag in *. change (10 ^ 0) with 1 in *. lia.
    + exfalso. apply (mag_lt_iff ey) in Hlt; try lia.
      rewrite Z.sub_diag in Hlt. change (10 ^ 0) with 1 in Hlt.
      pose proof (pow10_le 1 (x - ey) ltac:(lia)) as Hp. change (10 ^ 1) with 10 in Hp.
      pose proof (pow10_pos prec ltac:(unfold prec; lia)). nia.
Qed.

Lemma div_coeff_ge (c1 e1 c2 e2 cy ey : Z) :
  0 < c1 -> 0 < c2 -> 0 <= cy < 10 ^ prec ->
  (mag cy ey * mag c2 e2 <= mag c1 e1)%Q ->
  (mag cy ey <= mag (fst (div_coeff c1 e1 c2 e2)) (snd (div_coeff c1 e1 c2 e2)))%Q.
Proof.
  intros H1 H2 Hcy Hle.
  destruct (div_coeff_value c1 e1 c2 e2 H1 H2) as (Hq & [Hex|(Hbig & _ & Hhi)]).
  - pose proof (mag_pos c2 e2 H2) as HB.
    apply (Qmult_le_cancel_r _ _ (mag c2 e2) HB). rewrite Hex. exact Hle.
  - set (q := fst (div_coeff c1 e1 c2 e2)) in *.
    set (x := snd (div_coeff c1 e1 c2 e2)) in *.
    pose proof (mag_pos c2 e2 H2) as HB.
    assert (Hlt : (mag cy ey < mag (q + 1) x)%Q).
    { apply (Qmult_lt_cancel_r _ _ (mag c2 e2) HB). lra. }
    destruct (Z_le_gt_dec x ey) as [Hx|Hx].
    + apply (mag_lt_iff x) in Hlt; try lia. apply (mag_le_iff x); try lia.
      rewrite Z.sub_diag in *. change (10 ^ 0) with 1 in *. lia.
    + apply (mag_le_iff ey); try lia.
      rewrite Z.sub_diag. change (10 ^ 0) with 1.
      pose proof (pow10_le 0 (x - ey) ltac:(lia)) as Hp. change (10 ^ 0) with 1 in Hp.
      nia.
Qed.

(** A quotient within a bound. *)
Lemma div_bounded (s1 : bool) (c1 e1 : Z) (s2 : bool) (c2 e2 cy ey : Z) :
  0 <= c1 -> 0 < c2 -> 0 <= cy < 10 ^ prec -> Etiny <= ey ->
  ey + ndigits cy - 1 < Emax ->
  (mag c1 e1 <= mag cy ey * mag c2 e2)%Q ->
  exists c e,
    div (Fin s1 c1 e1) (Fin s2 c2 e2) = Ret (Fin (xorb s1 s2) c e) /\
    representable c e /\ (mag c e <= mag cy ey)%Q.
Proof.
  intros H1 H2 Hcy Hey Hadj Hle. cbn [div]. cbv zeta.
  replace (c2 =? 0) with false by (symmetry; apply Z.eqb_neq; lia).
  destruct (Z.eqb_spec c1 0) as [->|N1].
  - apply fix_bounded; try assumption.
    rewrite mag_zero. apply mag_nonneg. lia.
  - pose proof (div_coeff_le c1 e1 c2 e2 cy ey ltac:(lia) H2 Hcy Hle) as Hb.
    destruct (div_coeff_value c1 e1 c2 e2 ltac:(lia) H2) as (Hq & _).
    destruct (div_coeff c1 e1 c2 e2) as [q x]. cbn [fst snd] in *.
    apply fix_bounded; try assumption. lia.
Qed.

Lemma div_mag_ge (s1 : bool) (c1 e1 : Z) (s2 : bool) (c2 e2 : Z)
    (s : bool) (c e cy ey : Z) :
  0 < c1 -> 0 < c2 -> 0 <= cy < 10 ^ prec -> Etiny <= ey ->
  div (Fin s1 c1 e1) (Fin s2 c2 e2) = Ret (Fin s c e) ->
  (mag cy ey * mag c2 e2 <= mag c1 e1)%Q ->
  (mag cy ey <= mag c e)%Q.
Proof.
  intros H1 H2 Hcy Hey H Hle. cbn [div] in H. cbv zeta in H.
  replace (c2 =? 0) with false in H by (symmetry; apply Z.eqb_neq; lia).
  replace (c1 =? 0) with false in H by (symmetry; apply Z.eqb_neq; lia).
  pose proof (div_coeff_ge c1 e1 c2 e2 cy ey H1 H2 Hcy Hle) as Hb.
  destruct (div_coeff_value c1 e1 c2 e2 H1 H2) as (Hq & _).
  destruct (div_coeff c1 e1 c2 e2) as [q x]. cbn [fst snd] in *.
  assert (Hs : s = xorb s1 s2).
  { destruct (fix_sign _ _ _ _ H) as (a & b & E). congruence. }
  subst s.
  exact (fix_mag_ge _ q x c e cy ey ltac:(lia) H Hcy Hey Hb).
Qed.

(** ** Bounds of a power *)

Lemma mag_unit_mul (a b : Z) : (mag 1 a * mag 1 b == mag 1 (a + b))%Q.
Proof. rewrite <- mag_mul. reflexivity. Qed.

Section PowerBounds.

(** The work precision [p], a base [cb * 10^eb] between 1 and 10 and a
    bound [N] on the exponents. *)
Variables (p cb eb N : Z).
Hypothesis Hp : 1 <= p.
Hypothesis Hcb : 0 < cb.
Hypothesis Heb : Etiny_in p <= eb <= 0.
Hypothesis Hge : (1 <= mag cb eb)%Q.
Hypothesis Hle : (mag cb eb <= mag 1 1)%Q.
Hypothesis HN : N * cb < 10 ^ p.
Hypothesis HNmax : 2 * N < Emax.

(** Above a point of the grid of the base: [1 + k * (base - 1)]. *)
Lemma grid_point (k : Z) :
  1 <= k ->
  0 <= 10 ^ (- eb) + k * (cb - 10 ^ (- eb)) <= k * cb /\
  (mag (10 ^ (- eb) + k * (cb - 10 ^ (- eb))) eb
   == 1 + inject_Z k * (mag cb eb - 1))%Q.
Proof.
  intros Hk. pose proof (pow10_pos (- eb) ltac:(lia)) as Hu.
  assert (Hucb : 10 ^ (- eb) <= cb).
  { rewrite <- mag_one in Hge. apply (mag_le_iff eb) in Hge; try lia.
    rewrite Z.sub_diag in Hge. change (10 ^ 0) with 1 in Hge.
    replace (0 - eb) with (- eb) in Hge by lia. lia. }
  split; [nia|].
  assert (Hone : (mag (10 ^ (- eb)) eb == 1)%Q).
  { rewrite mag_pow10 by lia. replace (- eb + eb) with 0 by lia. apply mag_one. }
  rewrite mag_plus, Z.mul_comm, mag_mul_int, mag_minus, Hone. ring.
Qed.

Lemma mul_in_bounds (ca ea cc ec ka kc : Z) :
  0 <= ca -> 0 <= cc -> 1 <= ka -> 1 <= kc -> ka + kc <= N ->
  (1 + inject_Z ka * (mag cb eb - 1) <= mag ca ea)%Q ->
  (1 + inject_Z kc * (mag cb eb - 1) <= mag cc ec)%Q ->
  (mag ca ea <= mag 1 ka)%Q -> (mag cc ec <= mag 1 kc)%Q ->
  exists c e,
    mul_in p (ca, ea) (cc, ec) = Ret (c, e) /\ 0 <= c /\
    (1 + inject_Z (ka + kc) * (mag cb eb - 1) <= mag c e)%Q /\
    (mag c e <= mag 1 (ka + kc))%Q.
Proof.
  intros Ha Hc Hka Hkc HkN La Lc Ua Uc. unfold mul_in. cbn [fst snd].
  assert (Hprod : 0 <= ca * cc) by nia.
  assert (HQa : (0 <= inject_Z ka)%Q)
    by (change 0%Q with (inject_Z 0); rewrite <- Zle_Qle; lia).
  assert (HQc : (0 <= inject_Z kc)%Q)
    by (change 0%Q with (inject_Z 0); rewrite <- Zle_Qle; lia).
  pose proof (pow10_lt 0 p ltac:(lia)) as H1p. change (10 ^ 0) with 1 in H1p.
  assert (Hup : (mag (ca * cc) (ea + ec) <= mag 1 (ka + kc))%Q).
  { rewrite mag_mul, <- mag_unit_mul.
    pose proof (mag_nonneg ca ea Ha). pose proof (mag_nonneg cc ec Hc).
    apply Qle_trans with (mag 1 ka * mag cc ec)%Q.
    - apply Qmult_le_compat_r; assumption.
    - rewrite !(Qmult_comm (mag 1 ka)). apply Qmult_le_compat_r; [assumption|].
      apply mag_nonneg. lia. }
  destruct (fix_in_bounded p (ca * cc) (ea + ec) 1 (ka + kc) Hp Hprod
              ltac:(lia) ltac:(unfold Etiny_in, Emin; lia)
              ltac:(change (ndigits 1) with 1; lia) Hup)
    as (c & e & H & Hr & Hb).
  exists c, e. split; [exact H|]. split; [apply Hr|]. split; [|exact Hb].
  destruct (grid_point (ka + kc) ltac:(lia)) as [Hg Hv].
  rewrite <- Hv.
  apply (fix_in_mag_ge p Hp (ca * cc) (ea + ec) c e _ eb Hprod H); [nia|lia|].
  rewrite Hv, mag_mul, inject_Z_plus.
  set (t := (mag cb eb - 1)%Q) in *.
  assert (Ht : (0 <= t)%Q) by (unfold t; lra).
  assert (X : (0 <= inject_Z ka * t)%Q) by (apply Qmult_le_0_compat; assumption).
  assert (Y : (0 <= inject_Z kc * t)%Q) by (apply Qmult_le_0_compat; assumption).
  apply Qle_trans with ((1 + inject_Z ka * t) * (1 + inject_Z kc * t))%Q.
  - assert (Z0 : (0 <= (inject_Z ka * t) * (inject_Z kc * t))%Q)
      by (apply Qmult_le_0_compat; assumption).
    lra.
  - apply Qle_trans with (mag ca ea * (1 + inject_Z kc * t))%Q.
    + apply Qmult_le_compat_r; lra.
    + rewrite !(Qmult_comm (mag ca ea)). apply Qmult_le_compat_r; lra.
Qed.

Lemma pow_uint_bounds (n : positive) :
  Z.pos n <= N ->
  exists c e,
    pow_uint p (cb, eb) n = Ret (c, e) /\ 0 <= c /\
    (1 + inject_Z (Z.pos n) * (mag cb eb - 1) <= mag c e)%Q /\
    (mag c e <= mag 1 (Z.pos n))%Q.
Proof.
  assert (Hself : (1 + inject_Z 1 * (mag cb eb - 1) <= mag cb eb)%Q)
    by (change (inject_Z 1) with 1%Q; lra).
  induction n as [q IH|q IH|]; intros Hq; cbn [pow_uint].
  - destruct (IH ltac:(lia)) as (c & e & H & Hc & Lo & Up). rewrite H. cbn [obind].
    destruct (mul_in_bounds c e c e (Z.pos q) (Z.pos q) Hc Hc ltac:(lia) ltac:(lia)
                ltac:(lia) Lo Lo Up Up) as (c2 & e2 & H2 & Hc2 & Lo2 & Up2).
    rewrite H2. cbn [obind].
    destruct (mul_in_bounds c2 e2 cb eb (Z.pos q + Z.pos q) 1 Hc2 ltac:(lia)
                ltac:(lia) ltac:(lia) ltac:(lia) Lo2 Hself Up2 Hle)
      as (c3 & e3 & H3 & Hc3 & Lo3 & Up3).
    exists c3, e3. split; [exact H3|]. split; [exact Hc3|].
    replace (Z.pos q~1) with (Z.pos q + Z.pos q + 1) by lia. split; assumption.
  - destruct (IH ltac:(lia)) as (c & e & H & Hc & Lo & Up). rewrite H. cbn [obind].
    destruct (mul_in_bounds c e c e (Z.pos q) (Z.pos q) Hc Hc ltac:(lia) ltac:(lia)
                ltac:(lia) Lo Lo Up Up) as (c2 & e2 & H2 & Hc2 & Lo2 & Up2).
    exists c2, e2. split; [exact H2|]. split; [exact Hc2|].
    replace (Z.pos q~0) with (Z.pos q + Z.pos q) by lia. split; assumption.
  - exists cb, eb. split; [reflexivity|]. split; [lia|]. split; assumption.
Qed.

End PowerBounds.

(** [(1 + r) ** n] for a base between 1 and 1.1: the power returns, it is
    at most [10^n], and no number the context holds that is at most
    [1 + n (base - 1)] lies above it. *)
Lemma pow_bounds (cb eb n : Z) :
  representable cb eb ->
  (1 <= mag cb eb)%Q -> (mag cb eb <= mag 11 (-1))%Q ->
  1 <= n <= 100000 ->
  exists cF eF,
    pow (Fin false cb eb) n = Ret (Fin false cF eF) /\
    representable cF eF /\ 0 < cF /\
    (1 <= mag cF eF)%Q /\ (mag cF eF <= mag 1 n)%Q /\
    forall cy ey,
      0 <= cy < 10 ^ prec -> Etiny <= ey ->
      (mag cy ey <= 1 + inject_Z n * (mag cb eb - 1))%Q ->
      (mag cy ey <= mag cF eF)%Q.
Proof.
  intros (Hc & Heb & _) Hge Hle Hn.
  assert (Hcb : 0 < cb).
  { destruct (Z.eq_dec cb 0) as [->|]; [|lia]. rewrite mag_zero in Hge. lra. }
  assert (H11 : (mag 11 (-1) < mag 1 1)%Q) by reflexivity.
  assert (Heb0 : eb <= 0).
  { pose proof (ndigits_ge1 cb).
    assert (Hlt : (mag cb eb < mag 1 1)%Q) by lra.
    pose proof (adjusted_below cb eb 1 Hcb Hlt). lia. }
  rewrite pow_positive by lia. cbn [andb].
  set (w := prec + ndigits n + 2).
  pose proof (ndigits_ge1 n) as Hd.
  pose proof (ndigits_lt_pow n ltac:(lia)) as Hnd.
  assert (Hw : 1 <= w) by (unfold w, prec; lia).
  assert (HN : n * cb < 10 ^ w).
  { assert (E : 10 ^ w = 10 ^ ndigits n * 10 ^ prec * 100).
    { unfold w. rewrite !pow10_split by (unfold prec; lia).
      change (10 ^ 2) with 100. ring. }
    pose proof (pow10_pos (ndigits n) ltac:(lia)).
    pose proof (pow10_pos prec ltac:(unfold prec; lia)). nia. }
  assert (Hebw : Etiny_in w <= eb <= 0).
  { unfold Etiny_in, w. unfold Etiny in Heb. lia. }
  assert (Hle' : (mag cb eb <= mag 1 1)%Q) by lra.
  assert (Hmax : 2 * n < Emax) by (unfold Emax; lia).
  assert (Hpos : Z.pos (Z.to_pos n) <= n) by (rewrite Z2Pos.id; lia).
  destruct (pow_uint_bounds w cb eb n Hw Hcb Hebw Hge Hle' HN Hmax (Z.to_pos n) Hpos)
    as (c & e & H & Hc0 & Lo & Up).
  rewrite Z2Pos.id in Lo, Up by lia.
  rewrite H. cbn [obind fst snd].
  pose proof (pow10_lt 0 prec ltac:(unfold prec; lia)) as H1p.
  change (10 ^ 0) with 1 in H1p.
  assert (Hey1 : Etiny <= n) by (unfold Etiny, Emin, prec; lia).
  assert (Hadj1 : n + ndigits 1 - 1 < Emax)
    by (change (ndigits 1) with 1; unfold Emax; lia).
  destruct (fix_bounded false c e 1 n Hc0 ltac:(lia) Hey1 Hadj1 Up)
    as (cF & eF & HF & Hr & Hb).
  exists cF, eF. split; [exact HF|]. split; [exact Hr|].
  assert (Hlow : forall cy ey,
            0 <= cy < 10 ^ prec -> Etiny <= ey ->
            (mag cy ey <= 1 + inject_Z n * (mag cb eb - 1))%Q ->
            (mag cy ey <= mag cF eF)%Q).
  { intros cy ey Hcy Hey Hy.
    apply (fix_mag_ge false c e cF eF cy ey Hc0 HF Hcy Hey). lra. }
  assert (H1 : (1 <= mag cF eF)%Q).
  { rewrite <- mag_one. apply Hlow; [lia|unfold Etiny, Emin, prec; lia|].
    rewrite mag_one.
    assert (0 <= inject_Z n * (mag cb eb - 1))%Q.
    { apply Qmult_le_0_compat; [|lra].
      change 0%Q with (inject_Z 0). rewrite <- Zle_Qle. lia. }
    lra. }
  split; [|split; [exact H1|split; [exact Hb|exact Hlow]]].
  destruct (Z.eq_dec cF 0) as [->|]; [rewrite mag_zero in H1; lra|].
  destruct Hr as [[? _] _]. lia.
Qed.

(** ** The payment of an ordinary loan *)

Lemma mul_mag_le (s1 : bool) (c1 e1 : Z) (s2 : bool) (c2 e2 : Z)
    (s : bool) (c e cy ey : Z) :
  0 <= c1 -> 0 <= c2 -> 0 <= cy < 10 ^ prec -> Etiny <= ey ->
  mul (Fin s1 c1 e1) (Fin s2 c2 e2) = Ret (Fin s c e) ->
  (mag c1 e1 * mag c2 e2 <= mag cy ey)%Q ->
  (mag c e <= mag cy ey)%Q.
Proof.
  intros H1 H2 Hcy Hey H Hle. cbn [mul] in H.
  assert (Hs : s = xorb s1 s2).
  { destruct (fix_sign _ _ _ _ H) as (a & b & E). congruence. }
  subst s.
  apply (fix_mag_le _ (c1 * c2) (e1 + e2) c e cy ey ltac:(nia) H Hcy Hey).
  rewrite mag_mul. exact Hle.
Qed.

Lemma mag_scale10 (c e j : Z) : (mag c (e + j) == mag c e * mag 1 j)%Q.
Proof. rewrite <- mag_mul. rewrite Z.mul_1_r. reflexivity. Qed.

(** Ten digits of a number that is at least 1 reach down to 10^-9 at
    most. *)
Lemma exponent_of_large (c e : Z) :
  0 <= c < 10 ^ prec -> (1 <= mag c e)%Q -> - 9 <= e.
Proof.
  intros Hc H. destruct (Z_le_gt_dec (-9) e) as [|He]; [assumption|exfalso].
  destruct (Z.eq_dec c 0) as [->|N]; [rewrite mag_zero in H; lra|].
  pose proof (ndigits_le c prec Hc ltac:(unfold prec; lia)) as Hd.
  pose proof (mag_lt_unit c e 0 ltac:(lia) ltac:(unfold prec in Hd; lia)) as Hlt.
  rewrite mag_one in Hlt. lra.
Qed.

(** [1 + r] for a monthly rate between 10^-9 and 10^-1: it lies between
    1 + 10^-9 and 1.1, and exceeds 1 by at least half the rate. *)
Lemma base_bounds (cm em : Z) :
  0 < cm -> (mag 1 (-9) <= mag cm em)%Q -> (mag cm em <= mag 1 (-1))%Q ->
  exists cb eb,
    add one (Fin false cm em) = Ret (Fin false cb eb) /\
    representable cb eb /\ 0 < cb /\ -9 <= eb <= -1 /\
    (mag cb eb <= mag 11 (-1))%Q /\
    (mag 1 (-9) <= mag cb eb - 1)%Q /\
    (mag cm em <= 2 * (mag cb eb - 1))%Q.
Proof.
  intros Hcm Hlo Hhi. unfold one.
  destruct (add_nonzero_form false 1 0 false cm em ltac:(lia) Hcm)
    as (s & i & x & va & vb & E & Hi & _ & Hv & Ha & Hb).
  rewrite E.
  assert (M9 : (mag 1 (-9) == 1 # 1000000000)%Q) by reflexivity.
  assert (M1 : (mag 1 (-1) == 1 # 10)%Q) by reflexivity.
  assert (M11 : (mag 11 (-1) == 11 # 10)%Q) by reflexivity.
  assert (Hva : (va == 1)%Q).
  { destruct Ha as [Ha|(X & Ha & Hlt & Hten)].
    - rewrite Ha. reflexivity.
    - exfalso. rewrite mag_ten in Hten. rewrite mag_one in Hlt. lra. }
  assert (Hvb : (mag cm em <= vb <= 1 # 10)%Q).
  { destruct Hb as [Hb|(X & Hb & Hlt & Hten)].
    - rewrite Hb. cbn [value]. lra.
    - rewrite Hb. cbn [value]. rewrite mag_ten, mag_one in Hten. lra. }
  assert (Hs : s = false).
  { destruct s; [|reflexivity]. exfalso. cbn [value] in Hv.
    pose proof (mag_nonneg i x Hi). lra. }
  subst s. cbn [value] in Hv.
  assert (Hup : (mag i x <= mag 11 (-1))%Q) by lra.
  assert (Hc11 : 0 <= 11 < 10 ^ prec) by (split; [lia|reflexivity]).
  assert (He11 : Etiny <= -1) by (unfold Etiny, Emin, prec; lia).
  assert (Ha11 : -1 + ndigits 11 - 1 < Emax) by (vm_compute; reflexivity).
  destruct (fix_bounded false i x 11 (-1) Hi Hc11 He11 Ha11 Hup)
    as (cb & eb & H & Hr & Hbd).
  assert (Hone : (1 <= mag cb eb)%Q).
  { rewrite <- mag_one.
    apply (fix_mag_ge false i x cb eb 1 0 Hi H); [split; [lia|reflexivity]| |].
    - unfold Etiny, Emin, prec. lia.
    - rewrite mag_one. lra. }
  assert (Hcb : 0 < cb).
  { destruct (Z.eq_dec cb 0) as [->|]; [rewrite mag_zero in Hone; lra|].
    destruct Hr as [[? _] _]. lia. }
  pose proof (exponent_of_large cb eb ltac:(apply Hr) Hone) as Heb9.
  assert (Heb0 : eb <= 0).
  { assert (Hlt : (mag cb eb < mag 1 1)%Q).
    { assert (mag 1 1 == 10)%Q by reflexivity. lra. }
    pose proof (adjusted_below cb eb 1 Hcb Hlt). pose proof (ndigits_ge1 cb). lia. }
  (* the next number on the grid of 10^-9 would have been reached *)
  set (Y := cb * 10 ^ (eb + 9) + 1).
  assert (HY : (mag Y (-9) == mag cb eb + mag 1 (-9))%Q).
  { unfold Y. rewrite mag_plus.
    replace (eb + 9) with (eb - -9) by lia. rewrite mag_shift by lia. reflexivity. }
  assert (HcY : 0 <= Y < 10 ^ prec).
  { unfold Y. apply (mag_le_iff (-9)) in Hbd; try lia.
    replace (eb - -9) with (eb + 9) in Hbd by lia.
    pose proof (pow10_pos (eb + 9) ltac:(lia)).
    change (11 * 10 ^ (-1 - -9)) with 1100000000 in Hbd.
    change (10 ^ prec) with 10000000000. nia. }
  assert (Hlt : (mag i x < mag Y (-9))%Q).
  { destruct (Qlt_le_dec (mag i x) (mag Y (-9))) as [|Hge]; [assumption|exfalso].
    pose proof (fix_mag_ge false i x cb eb Y (-9) Hi H HcY
                  ltac:(unfold Etiny, Emin, prec; lia) Hge) as Hc.
    rewrite HY in Hc. lra. }
  assert (Hd : 10 ^ (- eb) < cb).
  { assert (Hgt : (mag 1 0 < mag cb eb)%Q) by (rewrite mag_one; lra).
    apply (mag_lt_iff eb) in Hgt; try lia.
    rewrite Z.sub_diag in Hgt. change (10 ^ 0) with 1 in Hgt.
    replace (0 - eb) with (- eb) in Hgt by lia. lia. }
  assert (Hebneg : eb <= -1).
  { destruct (Z.eq_dec eb 0) as [->|]; [|lia]. exfalso.
    change (10 ^ (- 0)) with 1 in Hd.
    assert (Hge2 : (mag 2 0 <= mag cb 0)%Q).
    { apply (mag_le_iff 0); try lia. }
    assert (mag 2 0 == 2)%Q by reflexivity. lra. }
  assert (Ht : (mag 1 (-9) <= mag cb eb - 1)%Q).
  { assert (Hg : (mag 1 (-9) <= mag (cb - 10 ^ (- eb)) eb)%Q).
    { apply (mag_le_iff (-9)); try lia.
      replace (-9 - -9) with 0 by lia. change (10 ^ 0) with 1.
      pose proof (pow10_pos (eb - -9) ltac:(lia)). nia. }
    rewrite mag_minus in Hg.
    assert (Hu : (mag (10 ^ (- eb)) eb == 1)%Q).
    { rewrite mag_pow10 by lia. replace (- eb + eb) with 0 by lia. apply mag_one. }
    lra. }
  exists cb, eb. split; [exact H|]. split; [exact Hr|]. split; [exact Hcb|].
  split; [lia|]. split; [exact Hbd|]. split; [exact Ht|]. lra.
Qed.

(** [factor - 1] for a factor above 1: it returns a positive number, and
    no number the context holds that is at most [factor - 1] and at most
    nine tenths of the factor lies above it. *)
Lemma den_bounds (cF eF K : Z) :
  representable cF eF -> 0 < cF -> (1 < mag cF eF)%Q ->
  (mag cF eF <= mag 1 K)%Q -> K < Emax ->
  exists cd ed,
    sub (Fin false cF eF) one = Ret (Fin false cd ed) /\
    representable cd ed /\
    forall cy ey,
      0 <= cy < 10 ^ prec -> Etiny <= ey ->
      (mag cy ey <= mag cF eF - 1)%Q ->
      (mag cy ey <= (9 # 10) * mag cF eF)%Q ->
      (mag cy ey <= mag cd ed)%Q.
Proof.
  intros Hr HcF Hgt HK HKmax. unfold sub, one. cbn [copy_negate negb].
  destruct (add_nonzero_form false cF eF true 1 0 HcF ltac:(lia))
    as (s & i & x & va & vb & E & Hi & Hi0 & Hv & Ha & Hb).
  rewrite E.
  assert (Hva : (va == mag cF eF)%Q).
  { destruct Ha as [Ha|(X & Ha & Hlt & Hten)].
    - rewrite Ha. reflexivity.
    - exfalso. rewrite mag_ten, mag_one in Hten.
      pose proof (mag_pos 1 X ltac:(lia)). lra. }
  assert (Hvb : (vb == -1 \/ - ((1 # 10) * mag cF eF) <= vb < 0)%Q).
  { destruct Hb as [Hb|(X & Hb & Hlt & Hten)].
    - left. rewrite Hb. reflexivity.
    - right. rewrite Hb. cbn [value]. rewrite mag_ten in Hten.
      pose proof (mag_pos 1 X ltac:(lia)). split; lra. }
  assert (HS : (0 <= va + vb <= mag cF eF)%Q).
  { destruct Hvb as [Hvb|Hvb]; [rewrite Hvb|]; split; lra. }
  assert (Hs : (value (Fin s i x) == mag i x)%Q).
  { destruct s; [|reflexivity]. cbn [value] in *.
    destruct (Z.eq_dec i 0) as [->|N]; [specialize (Hi0 eq_refl); discriminate|].
    pose proof (mag_pos i x ltac:(lia)). lra. }
  assert (Hs' : s = false).
  { destruct s; [|reflexivity].
    destruct (Z.eq_dec i 0) as [->|N]; [apply Hi0; reflexivity|].
    cbn [value] in Hv. pose proof (mag_pos i x ltac:(lia)). lra. }
  subst s. rewrite Hs in Hv.
  assert (Hup : (mag i x <= mag cF eF)%Q) by lra.
  assert (Hadj : eF + ndigits cF - 1 < Emax).
  { pose proof (adjusted_of_bound cF eF 1 K HcF ltac:(lia) HK) as A.
    change (ndigits 1) with 1 in A. lia. }
  destruct (fix_bounded false i x cF eF Hi ltac:(apply Hr) ltac:(apply Hr) Hadj Hup)
    as (cd & ed & H & Hrd & _).
  exists cd, ed. split; [exact H|]. split; [exact Hrd|].
  intros cy ey Hcy Hey Y1 Y2.
  apply (fix_mag_ge false i x cd ed cy ey Hi H Hcy Hey).
  rewrite Hv, Hva. destruct Hvb as [Hvb|Hvb]; [rewrite Hvb|]; lra.
Qed.

(** Above a rate of 10^-9 a month and up to 10% a month, on a principal
    of at most one million and a term of one year or more, the formula
    raises nothing and the payment is at most the bound of the
    principal. *)
Lemma formula_returns (lc : LoanCalculator) (cp ep cm em : Z) :
  principal lc = Fin false cp ep -> 0 < cp -> (mag cp ep <= mag 1 6)%Q ->
  eqb (annual_rate lc) (of_int 0) = false ->
  monthly_rate lc = Fin false cm em -> 0 < cm ->
  (mag 1 (-9) <= mag cm em)%Q -> (mag cm em <= mag 1 (-1))%Q ->
  12 <= total_payments lc <= 100000 ->
  exists cP,
    payment_of lc = Ret (Fin false cP (-2)) /\ 0 <= cP <= 10 ^ 8.
Proof.
  intros Hp Hcp Hpb Hrate Hm Hcm Hrlo Hrhi Hn.
  set (n := total_payments lc) in *.
  assert (M9 : (mag 1 (-9) == 1 # 1000000000)%Q) by reflexivity.
  assert (M1 : (mag 1 (-1) == 1 # 10)%Q) by reflexivity.
  assert (M11 : (mag 11 (-1) == 11 # 10)%Q) by reflexivity.
  assert (M12 : (mag 12 (-1) == 12 # 10)%Q) by reflexivity.
  assert (M6 : (mag 1 6 == 1000000)%Q) by reflexivity.
  (* the base *)
  destruct (base_bounds cm em Hcm Hrlo Hrhi)
    as (cb & eb & Hbase & Hrb & Hcb & Heb & Hb11 & Ht9 & Hrt).
  set (t := (mag cb eb - 1)%Q) in *.
  assert (Hb1 : (1 <= mag cb eb)%Q) by (unfold t in Ht9; lra).
  (* the factor *)
  destruct (pow_bounds cb eb n Hrb Hb1 Hb11 ltac:(lia))
    as (cF & eF & Hpow & HrF & HcF & HF1 & HFn & HFlow).
  fold t in HFlow.
  pose proof (exponent_of_large cF eF ltac:(apply HrF) HF1) as HeF9.
  assert (HadjF : eF + ndigits cF - 1 <= n).
  { pose proof (adjusted_of_bound cF eF 1 n HcF ltac:(lia) HFn) as A.
    change (ndigits 1) with 1 in A. lia. }
  assert (HnQ : (12 <= inject_Z n)%Q).
  { change 12%Q with (inject_Z 12). rewrite <- Zle_Qle. lia. }
  assert (Hnt : (1 + 12 * t <= 1 + inject_Z n * t)%Q).
  { assert (0 <= (inject_Z n - 12) * t)%Q by (apply Qmult_le_0_compat; lra). lra. }
  assert (HFbase : (mag cb eb <= mag cF eF)%Q).
  { apply HFlow; [apply Hrb|apply Hrb|]. unfold t in *. lra. }
  (* rate * factor *)
  assert (Hrf10 : (mag cm em * mag cF eF <= mag cF (eF + -1))%Q).
  { rewrite mag_scale10. rewrite (Qmult_comm (mag cF eF)).
    apply Qmult_le_compat_r; [lra|]. lra. }
  destruct (mul_bounded false cm em false cF eF cF (eF + -1) ltac:(lia) ltac:(lia)
              ltac:(apply HrF) ltac:(unfold Etiny, Emin, prec; lia)
              ltac:(unfold Emax; lia) Hrf10)
    as (crf & erf & Hrf & Hrrf & Hrfb).
  cbn [xorb] in Hrf.
  assert (Hrfpos : (mag 1 (-9) <= mag crf erf)%Q).
  { apply (mul_mag_ge false cm em false cF eF false crf erf 1 (-9)
             ltac:(lia) ltac:(lia) ltac:(split; [lia|reflexivity])
             ltac:(unfold Etiny, Emin, prec; lia) Hrf).
    apply Qle_trans with (mag cm em * 1)%Q; [lra|].
    rewrite !(Qmult_comm (mag cm em)). apply Qmult_le_compat_r; lra. }
  assert (Hcrf : 0 < crf).
  { destruct (Z.eq_dec crf 0) as [->|]; [rewrite mag_zero in Hrfpos; lra|].
    destruct Hrrf as [[? _] _]. lia. }
  assert (Hadjrf : erf + ndigits crf - 1 <= n).
  { pose proof (adjusted_of_bound crf erf cF (eF + -1) Hcrf ltac:(lia) Hrfb). lia. }
  (* principal * (rate * factor) *)
  assert (Hnum6 : (mag cp ep * mag crf erf <= mag crf (erf + 6))%Q).
  { rewrite mag_scale10. rewrite (Qmult_comm (mag crf erf)).
    apply Qmult_le_compat_r; [lra|]. apply mag_nonneg. lia. }
  destruct (mul_bounded false cp ep false crf erf crf (erf + 6) ltac:(lia) ltac:(lia)
              ltac:(apply Hrrf)
              ltac:(destruct Hrrf as (_ & ? & _); lia)
              ltac:(unfold Emax; lia) Hnum6)
    as (cn & en & Hnum & Hrn & Hnb).
  cbn [xorb] in Hnum.
  rewrite mag_scale10, M6 in Hnb.
  (* factor - 1 *)
  assert (HF1' : (1 < mag cF eF)%Q) by (unfold t in *; lra).
  destruct (den_bounds cF eF n HrF HcF HF1' HFn ltac:(unfold Emax; lia))
    as (cd & ed & Hden & Hrd & Hdlow).
  (* the numerator is at most a million times the denominator *)
  assert (Hquot : (mag cn en <= mag 1 6 * mag cd ed)%Q).
  { rewrite M6.
    destruct (Qlt_le_dec (mag cF eF) (mag 12 (-1))) as [Hsmall|Hlarge].
    - (* a factor below 1.2 *)
      assert (H12t : (12 * t < 2 # 10)%Q).
      { destruct (Qlt_le_dec (12 * t) (2 # 10)) as [|Hge]; [assumption|exfalso].
        assert (Hc : (mag 12 (-1) <= mag cF eF)%Q).
        { apply HFlow; [split; [lia|reflexivity]|unfold Etiny, Emin, prec; lia|]. lra. }
        lra. }
      set (u := 10 ^ (- eb)).
      assert (Hu : (mag u eb == 1)%Q).
      { unfold u. rewrite mag_pow10 by lia. replace (- eb + eb) with 0 by lia.
        apply mag_one. }
      assert (Hupos : 0 < u) by (apply pow10_pos; lia).
      assert (Hucb : u < cb).
      { assert (Hlt : (mag u eb < mag cb eb)%Q) by (unfold t in *; lra).
        apply (mag_lt_iff eb) in Hlt; try lia.
        rewrite Z.sub_diag in Hlt. change (10 ^ 0) with 1 in Hlt. lia. }
      assert (Hd : (mag (cb - u) eb == t)%Q) by (rewrite mag_minus, Hu; reflexivity).
      assert (Hsmallt : 12 * (cb - u) < 10 ^ 9).
      { assert (Hlt : (mag (12 * (cb - u)) eb < mag 2 (-1))%Q).
        { rewrite Z.mul_comm, mag_mul_int, Hd.
          assert (mag 2 (-1) == 2 # 10)%Q by reflexivity.
          change (inject_Z 12) with 12%Q. lra. }
        apply (mag_lt_iff eb) in Hlt; try lia.
        rewrite Z.sub_diag in Hlt. change (10 ^ 0) with 1 in Hlt.
        pose proof (pow10_le (-1 - eb) 8 ltac:(lia)) as P8.
        change (10 ^ 8) with 100000000 in P8. change (10 ^ 9) with 1000000000. lia. }
      assert (Hu9 : u <= 10 ^ 9) by (apply pow10_le; lia).
      change (10 ^ 9) with 1000000000 in *.
      assert (E10 : 10 ^ prec = 10000000000) by reflexivity.
      (* the factor is at least 1 + 12 t *)
      assert (HF12 : (1 + 12 * t <= mag cF eF)%Q).
      { assert (Hg : (mag (u + 12 * (cb - u)) eb == 1 + 12 * t)%Q).
        { rewrite mag_plus, Hu, Z.mul_comm, mag_mul_int, Hd.
          change (inject_Z 12) with 12%Q. ring. }
        rewrite <- Hg. apply HFlow; [lia|apply Hrb|]. rewrite Hg. exact Hnt. }
      (* the denominator is at least 12 t *)
      assert (Hd12 : (12 * t <= mag cd ed)%Q).
      { assert (Hg : (mag (12 * (cb - u)) eb == 12 * t)%Q).
        { rewrite Z.mul_comm, mag_mul_int, Hd. change (inject_Z 12) with 12%Q. ring. }
        rewrite <- Hg. apply Hdlow; [lia|apply Hrb| |]; rewrite Hg; lra. }
      (* rate * factor is at most 10 t *)
      assert (Hrf10t : (mag crf erf <= 10 * t)%Q).
      { assert (Hg : (mag (cb - u) (eb + 1) == 10 * t)%Q).
        { rewrite mag_scale10, Hd.
          assert (E : (mag 1 1 == 10)%Q) by reflexivity. rewrite E. ring. }
        rewrite <- Hg.
        apply (mul_mag_le false cm em false cF eF false crf erf (cb - u) (eb + 1)
                 ltac:(lia) ltac:(lia) ltac:(lia)
                 ltac:(destruct Hrb as (_ & ? & _); lia) Hrf).
        rewrite Hg.
        apply Qle_trans with ((2 * t) * mag cF eF)%Q.
        - apply Qmult_le_compat_r; lra.
        - apply Qle_trans with ((2 * t) * (12 # 10))%Q; [|lra].
          rewrite !(Qmult_comm (2 * t)). apply Qmult_le_compat_r; lra. }
      lra.
    - (* a factor of 1.2 or more *)
      assert (Hd10 : (mag cF (eF + -1) <= mag cd ed)%Q).
      { apply Hdlow; [apply HrF|unfold Etiny, Emin, prec; lia| |];
          rewrite mag_scale10, M1; lra. }
      rewrite mag_scale10, M1 in Hd10, Hrfb. lra. }
  assert (Hcd : 0 < cd).
  { assert (Hpos : (0 < mag cd ed)%Q).
    { apply Qlt_le_trans with (mag 1 (-9) * mag 1 (-9))%Q; [reflexivity|].
      assert (Hx : (mag 1 (-18) <= mag cd ed)%Q).
      { destruct (Qlt_le_dec (mag cF eF) (mag 12 (-1))) as [Hsmall|Hlarge].
        - apply Hdlow; [split; [lia|reflexivity]|unfold Etiny, Emin, prec; lia| |].
          + assert (mag 1 (-18) <= mag 1 (-9))%Q by (vm_compute; discriminate).
            unfold t in *. lra.
          + assert (mag 1 (-18) <= 9 # 10)%Q by (vm_compute; discriminate).
            apply Qle_trans with ((9 # 10) * 1)%Q; [lra|].
            rewrite !(Qmult_comm (9 # 10)). apply Qmult_le_compat_r; lra.
        - apply Hdlow; [split; [lia|reflexivity]|unfold Etiny, Emin, prec; lia| |].
          + assert (mag 1 (-18) <= 2 # 10)%Q by (vm_compute; discriminate). lra.
          + assert (mag 1 (-18) <= 9 # 10)%Q by (vm_compute; discriminate).
            apply Qle_trans with ((9 # 10) * 1)%Q; [lra|].
            rewrite !(Qmult_comm (9 # 10)). apply Qmult_le_compat_r; lra. }
      rewrite mag_unit_mul. exact Hx. }
    destruct (Z.eq_dec cd 0) as [->|]; [rewrite mag_zero in Hpos; lra|].
    destruct Hrd as [[? _] _]. lia. }
  (* the quotient and its rounding to cents *)
  destruct (div_bounded false cn en false cd ed 1 6 ltac:(apply Hrn) Hcd
              ltac:(split; [lia|reflexivity]) ltac:(unfold Etiny, Emin, prec; lia)
              ltac:(vm_compute; reflexivity) Hquot)
    as (cq & eq & Hdiv & Hrq & Hqb).
  cbn [xorb] in Hdiv.
  assert (Hq8 : (mag cq eq <= mag (10 ^ 8) (-2))%Q).
  { apply Qle_trans with (mag 1 6); [exact Hqb|]. vm_compute. discriminate. }
  destruct (quantize_bounded false cq eq (10 ^ 8) ltac:(apply Hrq)
              ltac:(split; [lia|reflexivity]) Hq8)
    as (cP & HP & HcP).
  exists cP. split; [|exact HcP].
  rewrite (payment_of_steps lc (Fin false cb eb) (Fin false cF eF)
             (Fin false crf erf) (Fin false cn en) (Fin false cd ed) (Fin false cq eq));
    try assumption.
  - rewrite Hm. exact Hbase.
  - rewrite Hm. exact Hrf.
  - rewrite Hp. exact Hnum.
Qed.

(** ** The schedule of an ordinary loan *)

Lemma mag_int (b : Z) : (mag b 0 == inject_Z b)%Q.
Proof. unfold mag. change (10 ^ 0)%Q with 1%Q. ring. Qed.

Lemma mag_tenth (b : Z) : (mag b (-1) == (1 # 10) * inject_Z b)%Q.
Proof. unfold mag. change (10 ^ (-1))%Q with (1 # 10)%Q. ring. Qed.

Lemma portion_bound_spec (b : Z) :
  ((11 # 10) * (1000000 + (1 # 10) * inject_Z b) <= inject_Z (portion_bound b))%Q.
Proof.
  unfold portion_bound.
  pose proof (Z.div_mod (11 * b + 110000000) 100 ltac:(lia)) as Hdm.
  pose proof (Z.mod_pos_bound (11 * b + 110000000) 100 ltac:(lia)) as Hm.
  set (q := (11 * b + 110000000) / 100) in *.
  assert (H : 11 * b + 110000000 <= 100 * (q + 1)) by lia.
  rewrite Zle_Qle in H.
  rewrite !inject_Z_plus, !inject_Z_mult, !inject_Z_plus in H.
  rewrite inject_Z_plus.
  change (inject_Z 11) with 11%Q in H. change (inject_Z 110000000) with 110000000%Q in H.
  change (inject_Z 100) with 100%Q in H. change (inject_Z 1) with 1%Q in *.
  lra.
Qed.

Lemma next_bound_spec (b : Z) :
  ((11 # 10) * (inject_Z b + inject_Z (portion_bound b)) <= inject_Z (next_bound b))%Q.
Proof.
  unfold next_bound. set (pb := portion_bound b).
  pose proof (Z.div_mod (11 * (b + pb)) 10 ltac:(lia)) as Hdm.
  pose proof (Z.mod_pos_bound (11 * (b + pb)) 10 ltac:(lia)) as Hm.
  set (q := (11 * (b + pb)) / 10) in *.
  assert (H : 11 * (b + pb) <= 10 * (q + 1)) by lia.
  rewrite Zle_Qle in H.
  rewrite !inject_Z_mult, !inject_Z_plus in H.
  rewrite inject_Z_plus.
  change (inject_Z 11) with 11%Q in H.
  change (inject_Z 10) with 10%Q in H. change (inject_Z 1) with 1%Q in *.
  lra.
Qed.

Lemma bounds_grow (b : Z) : 0 <= b -> b <= portion_bound b + b /\ b <= next_bound b.
Proof.
  intros Hb. unfold next_bound, portion_bound.
  pose proof (Z.div_pos (11 * b + 110000000) 100 ltac:(lia) ltac:(lia)) as H1.
  set (q := (11 * b + 110000000) / 100) in *.
  pose proof (Z.div_mod (11 * (b + (q + 1))) 10 ltac:(lia)) as Hdm.
  pose proof (Z.mod_pos_bound (11 * (b + (q + 1))) 10 ltac:(lia)) as Hm.
  lia.
Qed.

Lemma balance_bound_small (k : nat) :
  (k <= 12)%nat -> 1000000 <= balance_bound k < 100000000.
Proof.
  intros Hk.
  do 13 (destruct k as [|k]; [vm_compute; split; [discriminate|reflexivity]|]).
  lia.
Qed.

Section Step.

Variables (lc : LoanCalculator) (sm : bool) (cm em : Z) (sP : bool) (cP eP : Z).
Hypothesis Hrate : monthly_rate lc = Fin sm cm em.
Hypothesis Hcm : 0 <= cm.
Hypothesis Hrb : (mag cm em <= mag 1 (-1))%Q.
Hypothesis HcP : 0 <= cP.
Hypothesis HPb : (mag cP eP <= mag 1 6)%Q.

(** One period on a balance of at most [b]: every operation returns, and
    the new balance is at most [next_bound b]. *)
Lemma step_returns (sB : bool) (cB eB b : Z) (acc : list PaymentRecord) (x : Z) :
  0 <= cB -> 0 <= b -> next_bound b < 100000000 ->
  (mag cB eB <= mag b 0)%Q ->
  exists sB' cB' eB' rec,
    step_of lc (Fin sP cP eP) (Fin sB cB eB, acc) x
    = Ret (Fin sB' cB' eB', acc ++ [rec]) /\
    0 <= cB' /\ (mag cB' eB' <= mag (next_bound b) 0)%Q.
Proof.
  intros HcB Hb Hnb HBb.
  destruct (bounds_grow b Hb) as [Hg1 Hg2].
  assert (Hb8 : b < 100000000) by lia.
  assert (E10 : 10 ^ prec = 10000000000) by reflexivity.
  assert (M1 : (mag 1 (-1) == 1 # 10)%Q) by reflexivity.
  assert (M6 : (mag 1 6 == 1000000)%Q) by reflexivity.
  assert (HbQ : (0 <= inject_Z b)%Q)
    by (change 0%Q with (inject_Z 0); rewrite <- Zle_Qle; lia).
  pose proof (mag_nonneg cB eB HcB) as NB. pose proof (mag_nonneg cm em Hcm) as Nr.
  pose proof (mag_nonneg cP eP HcP) as NP.
  assert (Hsmall : forall z, 0 <= z < 10000000000 ->
            0 + ndigits z - 1 < Emax /\ -1 + ndigits z - 1 < Emax /\
            -2 + ndigits z - 1 < Emax).
  { intros z Hz. pose proof (ndigits_le z prec ltac:(rewrite E10; lia)
                               ltac:(unfold prec; lia)) as Hd.
    unfold prec, Emax in *. lia. }
  assert (Het : Etiny <= -2 /\ Etiny <= -1 /\ Etiny <= 0)
    by (unfold Etiny, Emin, prec; lia).
  unfold step_of. cbn [fst snd]. rewrite Hrate.
  (* the interest *)
  assert (Hprod : (mag cB eB * mag cm em <= mag b (-1))%Q).
  { rewrite mag_tenth. rewrite mag_int in HBb.
    apply Qle_trans with (inject_Z b * mag cm em)%Q.
    - apply Qmult_le_compat_r; assumption.
    - rewrite M1 in Hrb. rewrite (Qmult_comm (1 # 10)).
      rewrite !(Qmult_comm (inject_Z b)). apply Qmult_le_compat_r; assumption. }
  destruct (mul_bounded sB cB eB sm cm em b (-1) HcB Hcm ltac:(lia) ltac:(lia)
              ltac:(apply (Hsmall b); lia) Hprod)
    as (cpr & epr & Hmul & Hrpr & Hprb).
  rewrite Hmul. cbn [obind].
  assert (HI : (mag cpr epr <= mag (10 * b) (-2))%Q).
  { apply Qle_trans with (mag b (-1)); [exact Hprb|].
    apply (mag_le_iff (-2)); [lia|lia|].
    change (10 ^ (-1 - -2)) with 10. change (10 ^ (-2 - -2)) with 1. lia. }
  destruct (quantize_bounded (xorb sB sm) cpr epr (10 * b) ltac:(apply Hrpr)
              ltac:(lia) HI) as (cI & HqI & HcI).
  rewrite HqI. cbn [obind].
  assert (HIb : (mag cI (-2) <= (1 # 10) * inject_Z b)%Q).
  { rewrite <- mag_tenth. apply (mag_le_iff (-2)); [lia|lia|].
    change (10 ^ (-1 - -2)) with 10. change (10 ^ (-2 - -2)) with 1. lia. }
  pose proof (mag_nonneg cI (-2) ltac:(lia)) as NI.
  (* the principal portion *)
  pose proof (portion_bound_spec b) as Hpb.
  set (pb := portion_bound b) in *.
  assert (Hpb0 : 0 <= pb < 10000000000).
  { unfold next_bound in Hnb. fold pb in Hnb, Hg1.
    pose proof (Z.div_mod (11 * (b + pb)) 10 ltac:(lia)).
    pose proof (Z.mod_pos_bound (11 * (b + pb)) 10 ltac:(lia)).
    unfold pb, portion_bound.
    pose proof (Z.div_pos (11 * b + 110000000) 100 ltac:(lia) ltac:(lia)).
    fold pb. unfold pb, portion_bound in *. lia. }
  assert (HPPb : ((11 # 10) * (mag cP eP + mag cI (-2)) <= mag pb 0)%Q).
  { rewrite mag_int. lra. }
  destruct (sub_bounded sP cP eP (xorb sB sm) cI (-2) pb 0 HcP ltac:(lia)
              ltac:(lia) ltac:(lia) ltac:(apply (Hsmall pb); lia) HPPb)
    as (sPP & cPP & ePP & HPP & HrPP & HPPbd).
  rewrite HPP. cbn [obind].
  (* the balance *)
  pose proof (next_bound_spec b) as Hnbs. fold pb in Hnbs.
  set (nb := next_bound b) in *.
  assert (HBb' : ((11 # 10) * (mag cB eB + mag cPP ePP) <= mag nb 0)%Q).
  { rewrite !mag_int in *. lra. }
  destruct (sub_bounded sB cB eB sPP cPP ePP nb 0 HcB ltac:(apply HrPP)
              ltac:(lia) ltac:(lia) ltac:(apply (Hsmall nb); lia) HBb')
    as (sB' & cB' & eB' & HB' & HrB' & HB'bd).
  rewrite HB'. cbn [obind].
  assert (Hsh : (mag cB' eB' <= mag (100 * nb) (-2))%Q).
  { apply Qle_trans with (mag nb 0); [exact HB'bd|].
    apply (mag_le_iff (-2)); [lia|lia|].
    change (10 ^ (0 - -2)) with 100. change (10 ^ (-2 - -2)) with 1. lia. }
  destruct (quantize_bounded sB' cB' eB' (100 * nb) ltac:(apply HrB')
              ltac:(lia) Hsh) as (csh & Hqsh & _).
  rewrite Hqsh. cbn [obind].
  eexists sB', cB', eB', _. split; [reflexivity|].
  split; [apply HrB'|exact HB'bd].
Qed.

(** The loop over at most twelve periods returns. *)
Lemma loop_returns (xs : list Z) :
  forall (k : nat) (sB : bool) (cB eB : Z) (acc : list PaymentRecord),
    (k + length xs <= 12)%nat -> 0 <= cB ->
    (mag cB eB <= mag (balance_bound k) 0)%Q ->
    exists st, ofold (step_of lc (Fin sP cP eP)) (Fin sB cB eB, acc) xs = Ret st.
Proof.
  induction xs as [|x xs IH]; intros k sB cB eB acc Hk HcB HB; cbn [ofold].
  - eauto.
  - cbn [length] in Hk.
    pose proof (balance_bound_small k ltac:(lia)) as Hbk.
    pose proof (balance_bound_small (S k) ltac:(lia)) as Hbk'.
    cbn [balance_bound] in Hbk'.
    destruct (step_returns sB cB eB (balance_bound k) acc x HcB ltac:(lia)
                ltac:(lia) HB)
      as (sB' & cB' & eB' & rec & Hstep & HcB' & HB').
    rewrite Hstep. cbn [obind].
    apply (IH (S k) sB' cB' eB' _ ltac:(lia) HcB'). exact HB'.
Qed.

End Step.

(** The constructor on ordinary terms: the monthly rate is zero, or
    between 10^-9 and 10^-1. *)
Lemma ordinary_init (p r : Decimal) (y : Z) :
  ordinary_terms p r y ->
  exists cp ep cr er cm em,
    p = Fin false cp ep /\ 0 < cp /\ (mag cp ep <= mag 1 6)%Q /\
    r = Fin false cr er /\ 0 <= cm /\ (cm = 0 <-> cr = 0) /\
    (0 < cm -> (mag 1 (-9) <= mag cm em)%Q) /\
    (mag cm em <= mag 1 (-1))%Q /\
    init p r y = Ret (mkLoanCalculator p r y (Fin false cm em) (y * 12)).
Proof.
  intros ((cp & ep & -> & Hcp & Hpb) & (cr & er & -> & Hcr & Hrange) & Hy).
  assert (M1 : (mag 1 (-1) == 1 # 10)%Q) by reflexivity.
  assert (M9 : (mag 1 (-9) == 1 # 1000000000)%Q) by reflexivity.
  assert (M12 : (mag 12 0 == 12)%Q) by reflexivity.
  exists cp, ep, cr, er.
  destruct Hrange as [->|[Hlo Hhi]].
  - exists 0, (Z.min (Z.max (er - 0) Etiny) Emax).
    split; [reflexivity|]. split; [exact Hcp|]. split; [exact Hpb|].
    split; [reflexivity|]. split; [lia|]. split; [tauto|]. split; [lia|].
    split; [rewrite mag_zero; apply mag_nonneg; lia|]. reflexivity.
  - assert (Hcr0 : 0 < cr).
    { destruct (Z.eq_dec cr 0) as [->|]; [rewrite mag_zero in Hlo; lra|lia]. }
    assert (Hq : (mag cr er <= mag 1 (-1) * mag 12 0)%Q) by (rewrite M1, M12; lra).
    destruct (div_bounded false cr er false 12 0 1 (-1) Hcr ltac:(lia)
                ltac:(split; [lia|reflexivity]) ltac:(unfold Etiny, Emin, prec; lia)
                ltac:(vm_compute; reflexivity) Hq)
      as (cm & em & Hdiv & Hrm & Hmb).
    cbn [xorb] in Hdiv.
    assert (Hml : (mag 1 (-9) <= mag cm em)%Q).
    { apply (div_mag_ge false cr er false 12 0 false cm em 1 (-9) Hcr0 ltac:(lia)
               ltac:(split; [lia|reflexivity]) ltac:(unfold Etiny, Emin, prec; lia)
               Hdiv).
      rewrite M9, M12. lra. }
    assert (Hcm : 0 < cm).
    { destruct (Z.eq_dec cm 0) as [->|]; [rewrite mag_zero in Hml; lra|].
      destruct Hrm as [[? _] _]. lia. }
    exists cm, em.
    split; [reflexivity|]. split; [exact Hcp|]. split; [exact Hpb|].
    split; [reflexivity|]. split; [lia|]. split; [lia|]. split; [auto|].
    split; [exact Hmb|]. unfold init. rewrite Hdiv. reflexivity.
Qed.

(** The payment on ordinary terms: it is returned, it is not negative
    and it is at most one million. *)
Lemma ordinary_payment (cp ep cr er cm em y : Z) :
  0 < cp -> (mag cp ep <= mag 1 6)%Q ->
  0 <= cm -> (cm = 0 <-> cr = 0) ->
  (0 < cm -> (mag 1 (-9) <= mag cm em)%Q) ->
  (mag cm em <= mag 1 (-1))%Q ->
  1 <= y <= 1000 ->
  exists cP eP,
    payment_of (mkLoanCalculator (Fin false cp ep) (Fin false cr er) y
                  (Fin false cm em) (y * 12))
    = Ret (Fin false cP eP) /\ 0 <= cP /\ (mag cP eP <= mag 1 6)%Q.
Proof.
  intros Hcp Hpb Hcm Hzero Hlo Hhi Hy.
  set (lc := mkLoanCalculator (Fin false cp ep) (Fin false cr er) y
               (Fin false cm em) (y * 12)).
  destruct (Z.eq_dec cm 0) as [Hc0|Hc0].
  - rewrite payment_of_zero_rate
      by (unfold lc; cbn [annual_rate]; rewrite eqb_zero; apply Z.eqb_eq; tauto).
    unfold lc. cbn [principal total_payments]. unfold of_int.
    replace (y * 12 <? 0) with false by (symmetry; apply Z.ltb_ge; lia).
    rewrite Z.abs_eq by lia.
    assert (Hq : (mag cp ep <= mag 1 6 * mag (y * 12) 0)%Q).
    { rewrite mag_int.
      assert (H1 : (1 <= inject_Z (y * 12))%Q)
        by (change 1%Q with (inject_Z 1); rewrite <- Zle_Qle; lia).
      assert (M6 : (0 <= mag 1 6)%Q) by (apply mag_nonneg; lia).
      apply Qle_trans with (mag 1 6 * 1)%Q; [lra|].
      rewrite !(Qmult_comm (mag 1 6)). apply Qmult_le_compat_r; assumption. }
    destruct (div_bounded false cp ep false (y * 12) 0 1 6 ltac:(lia) ltac:(lia)
                ltac:(split; [lia|reflexivity]) ltac:(unfold Etiny, Emin, prec; lia)
                ltac:(vm_compute; reflexivity) Hq)
      as (cP & eP & HP & HrP & HPb).
    exists cP, eP. split; [exact HP|]. split; [apply HrP|exact HPb].
  - destruct (formula_returns lc cp ep cm em eq_refl Hcp Hpb
                ltac:(unfold lc; cbn [annual_rate]; rewrite eqb_zero;
                      apply Z.eqb_neq; tauto)
                eq_refl ltac:(lia) (Hlo ltac:(lia)) Hhi
                ltac:(unfold lc; cbn [total_payments]; lia))
      as (cP & HP & HcP).
    exists cP, (-2). split; [exact HP|]. split; [lia|].
    apply (mag_le_iff (-2)); [lia|lia|].
    change (10 ^ (-2 - -2)) with 1. change (1 * 10 ^ (6 - -2)) with (10 ^ 8). lia.
Qed.

(** X12: on ordinary terms nothing is raised on the way to the payment.
    The constructor returns an instance, [calculate_monthly_payment]
    returns on it, and the payment is a finite number between 0 and one
    million. *)
Theorem ordinary_terms_give_a_payment (p r : Decimal) (y : Z) :
  ordinary_terms p r y ->
  exists lc P,
    init p r y = Ret lc /\
    result calculate_monthly_payment lc = Ret P /\
    is_finite P /\ (0 <= value P <= 1000000)%Q.
Proof.
  intros Hord.
  assert (Hy : 1 <= y <= 1000) by apply Hord.
  destruct (ordinary_init p r y Hord)
    as (cp & ep & cr & er & cm & em & -> & Hcp & Hpb & -> & Hcm & Hzero & Hlo & Hhi & Hinit).
  destruct (ordinary_payment cp ep cr er cm em y Hcp Hpb Hcm Hzero Hlo Hhi Hy)
    as (cP & eP & HP & HcP & HPb).
  eexists _, (Fin false cP eP). split; [exact Hinit|].
  rewrite result_calculate_monthly_payment. split; [exact HP|].
  split; [exact HcP|]. cbn [value]. split; [apply mag_nonneg; exact HcP|exact HPb].
Qed.

(** The property on the first scenario of the specification: 250000 at
    4.5% over 30 years. *)
Lemma ordinary_terms_give_a_payment_witness :
  ordinary_terms (dec 250000 0) (dec 45 (-3)) 30 /\
  exists lc P,
    init (dec 250000 0) (dec 45 (-3)) 30 = Ret lc /\
    result calculate_monthly_payment lc = Ret P /\
    is_finite P /\ (0 <= value P <= 1000000)%Q.
Proof.
  assert (H : ordinary_terms (dec 250000 0) (dec 45 (-3)) 30).
  { split; [|split].
    - exists 250000, 0. split; [reflexivity|]. split; [lia|].
      vm_compute. discriminate.
    - exists 45, (-3). split; [reflexivity|]. split; [lia|]. right.
      split; vm_compute; discriminate.
    - lia. }
  exact (conj H (ordinary_terms_give_a_payment _ _ _ H)).
Defined.

(** C7 (as amended): for ordinary terms (a principal of at most one
    million, an annual rate of zero or between 0.00001% and 120%, a term of
    1 to 1000 years) the constructor returns an instance and
    [generate_amortization_schedule] returns a schedule on it, with twelve
    records numbered 1 to 12.  On every instance, a schedule that is
    returned has exactly one record per period 1 .. min(12,
    total_payments), in increasing order of the index and with nothing
    after the last period. *)
Theorem schedule_has_one_record_per_period (p r : Decimal) (y : Z) :
  ordinary_terms p r y ->
  (exists lc sched,
     init p r y = Ret lc /\
     result generate_amortization_schedule lc = Ret sched /\
     length sched = 12%nat /\
     forall i rec, nth_error sched i = Some rec -> payment rec = Z.of_nat i + 1) /\
  (forall lc sched,
     result generate_amortization_schedule lc = Ret sched ->
     length sched = Z.to_nat (Z.min 12 (total_payments lc)) /\
     forall i rec, nth_error sched i = Some rec -> payment rec = Z.of_nat i + 1).
Proof.
  intros Hord.
  assert (Hshape : forall lc sched,
            result generate_amortization_schedule lc = Ret sched ->
            length sched = Z.to_nat (Z.min 12 (total_payments lc)) /\
            forall i rec, nth_error sched i = Some rec -> payment rec = Z.of_nat i + 1).
  { intros lc sched H. rewrite result_generate_amortization_schedule in H.
    apply schedule_of_records in H as (P & _ & Hlen & Hrecs).
    split; [assumption|]. intros i rec Hi.
    destruct (Hrecs i rec Hi) as (B & product & B' & H'). intuition. }
  split; [|exact Hshape].
  assert (Hy : 1 <= y <= 1000) by apply Hord.
  destruct (ordinary_init p r y Hord)
    as (cp & ep & cr & er & cm & em & -> & Hcp & Hpb & -> & Hcm & Hzero & Hlo & Hhi & Hinit).
  set (lc := mkLoanCalculator (Fin false cp ep) (Fin false cr er) y
               (Fin false cm em) (y * 12)) in *.
  (* the payment *)
  destruct (ordinary_payment cp ep cr er cm em y Hcp Hpb Hcm Hzero Hlo Hhi Hy)
    as (cP & eP & HP & HcP & HPb).
  fold lc in HP.
  (* the twelve periods *)
  assert (Hlen : length (periods lc) = 12%nat).
  { rewrite periods_length. unfold lc. cbn [total_payments].
    rewrite Z.min_l by lia. reflexivity. }
  destruct (loop_returns lc false cm em false cP eP eq_refl Hcm Hhi HcP HPb
              (periods lc) 0 false cp ep [] ltac:(rewrite Hlen; lia) ltac:(lia))
    as (st & Hloop).
  { cbn [balance_bound]. exact Hpb. }
  assert (Hsched : schedule_of lc = Ret (snd st)).
  { unfold schedule_of. rewrite HP. cbn [obind].
    change (principal lc) with (Fin false cp ep). rewrite Hloop. reflexivity. }
  rewrite <- result_generate_amortization_schedule in Hsched.
  exists lc, (snd st). split; [exact Hinit|]. split; [exact Hsched|].
  destruct (Hshape lc (snd st) Hsched) as [Hl Hidx].
  split; [|exact Hidx].
  rewrite Hl. unfold lc. cbn [total_payments]. rewrite Z.min_l by lia. reflexivity.
Qed.

(** The property on the first scenario of the specification: 250000 at
    4.5% over 30 years. *)
Lemma schedule_has_one_record_per_period_witness :
  ordinary_terms (dec 250000 0) (dec 45 (-3)) 30 /\
  (exists lc sched,
     init (dec 250000 0) (dec 45 (-3)) 30 = Ret lc /\
     result generate_amortization_schedule lc = Ret sched /\
     length sched = 12%nat /\
     forall i rec, nth_error sched i = Some rec -> payment rec = Z.of_nat i + 1) /\
  (forall lc sched,
     result generate_amortization_schedule lc = Ret sched ->
     length sched = Z.to_nat (Z.min 12 (total_payments lc)) /\
     forall i rec, nth_error sched i = Some rec -> payment rec = Z.of_nat i + 1).
Proof.
  assert (H : ordinary_terms (dec 250000 0) (dec 45 (-3)) 30).
  { split; [|split].
    - exists 250000, 0. split; [reflexivity|]. split; [lia|].
      vm_compute. discriminate.
    - exists 45, (-3). split; [reflexivity|]. split; [lia|]. right.
      split; vm_compute; discriminate.
    - lia. }
  exact (conj H (schedule_has_one_record_per_period _ _ _ H)).
Defined.
